(** * NeuroMasterBlaster: adaptive arithmetic coder for 10-bit neural samples

    A shallow embedding of [neuralink.hpp], [arithmetic_coding.hpp],
    [bitstream.hpp], [wav.hpp], [encode.cpp] and [decode.cpp].

    Conventions.
    - C++ fixed-width integers are values of [Z]; every place where the
      source wraps (unsigned arithmetic, narrowing conversions) is written
      out with [u8], [u16], [u32] or [s16].
    - [double] is IEEE 754 binary64, i.e. Rocq's primitive [float]; every
      operation the model state uses ([+], [-], [*], [/], [sqrt], [abs],
      comparisons) is correctly rounded in both worlds, and the source is
      read without fused multiply-add.  [std::erf], which only the
      constructor's table uses, belongs to the C++ library and is a
      parameter; the coder is stated for any table with the invariants the
      constructor's table has.
    - Streams are byte lists with the fail bit of [std::istream].
    - Exceptions are a constructor of [result]. *)

From Stdlib Require Import Reals Lra.
From Stdlib Require Import String.
From Stdlib Require Import ZArith List Lia Bool.
From Stdlib Require Import PrimFloat FloatOps SpecFloat FloatAxioms Uint63.
Import ListNotations.

#[local] Set Warnings "-inexact-float".
#[local] Open Scope Z_scope.

(** ** Fixed-width integers *)

Definition u8 (x : Z) : Z := x mod 256.
Definition u16 (x : Z) : Z := x mod 65536.
Definition u32 (x : Z) : Z := x mod 4294967296.
(** Conversion to [int16_t]: two's complement wrap-around. *)
Definition s16 (x : Z) : Z := (x + 32768) mod 65536 - 32768.

(** ** Doubles *)

(** Integer to double conversion; exact for |z| < 2^53. *)
Definition double_of_Z (z : Z) : float :=
  if z <? 0 then PrimFloat.opp (of_uint63 (Uint63.of_Z (- z)))
  else of_uint63 (Uint63.of_Z z).

(** Truncation toward zero of a finite double; [None] for infinities and
    NaN. *)
Definition trunc_double (x : float) : option Z :=
  match Prim2SF x with
  | S754_zero _ => Some 0
  | S754_finite s m e =>
      let a := if 0 <=? e then Zpos m * 2 ^ e else Zpos m / 2 ^ (- e) in
      Some (if s then - a else a)
  | _ => None
  end.

(** [static_cast] of a double to a 16-bit integer type.  The C++ conversion
    is defined only when the truncated value fits the target; outside, the
    model takes what x86-64 compilers emit (a [cvttsd2si] to 32 bits, whose
    out-of-range result 0x80000000 has low half 0, then a 16-bit
    truncation). *)
Definition double_to_i32 (x : float) : Z :=
  match trunc_double x with
  | Some z => if (- 2147483648 <=? z) && (z <=? 2147483647) then z
              else - 2147483648
  | None => - 2147483648
  end.

Definition double_to_u16 (x : float) : Z := u16 (double_to_i32 x).
Definition double_to_s16 (x : float) : Z := s16 (double_to_i32 x).

(** ** Symbol quantization ([neuralink.hpp]) *)

(** [SymbolType neuralink_16bit_to_10bit(int16_t x)]: [(x >> 6) + 512] in
    [int], narrowed to [uint16_t] on return. *)
Definition neuralink_16bit_to_10bit (x : Z) : Z :=
  u16 (Z.shiftr x 6 + 512).

(** [int16_t neuralink_10bit_to_16bit(SymbolType u)]: [u - 512] is [int]
    arithmetic, the rest is double arithmetic. *)
Definition neuralink_10bit_to_16bit (u : Z) : Z :=
  let temp :=
    ((double_of_Z (u - 512) + 0.5) * (64.0 + 1009.0 / 16384.0) - 0.5)%float in
  double_to_s16 temp.

(** ** The probability model: state and update ([class Model]) *)

Definition NUM_SYMBOLS : Z := 1025.
Definition MAX_FREQUENCY : Z := 32767.   (* 0x7FFF *)
Definition MAX_CODE : Z := 131071.       (* 0x1FFFF *)
Definition Int25 : Z := 32768.           (* 0x8000 *)
Definition Int50 : Z := 65536.           (* 0x10000 *)
Definition Int75 : Z := 98304.           (* 0x18000 *)
Definition NUM_DIST : Z := 4.

(** The members the constructor and the default initializers set once. *)
Definition ma : float := 0.20%float.
Definition ltv : float := 7.5%float.
Definition alpha : float := 0.725%float.
Definition beta : float := 0.175%float.
Definition outlier_level : float := 8.4%float.
Definition mrr : float := 0.05%float.
(** [omega = ltv / (1 - alpha - beta)], first statement of [Model()]. *)
Definition omega : float := (ltv / (1 - alpha - beta))%float.
Definition std_levels : list float := [16; 18; 20; 22]%float.

(** The table [ccft], which the constructor fills and nothing writes
    afterwards, and the members [update_state] writes. *)
Record Model : Type := mkModel {
  ccft : list (list Z);       (* NUM_DIST rows of NUM_SYMBOLS + 1 uint16_t *)
  active_dist : Z;            (* uint16_t *)
  active_symbol_shift : Z;    (* int16_t *)
  mean : float;
  stdev : float;
  outlier_counter : Z         (* uint16_t *)
}.

(** The state [Model()] leaves, given the table it has filled. *)
Definition Model_init (table : list (list Z)) : Model :=
  {| ccft := table; active_dist := 0; active_symbol_shift := 0;
     mean := 511%float; stdev := 8.0%float; outlier_counter := 0 |}.

(** ** The table the constructor fills *)

Definition cdf_scale : list float := [5.145; 6.035; 8.547; 20.05]%float.
Definition cdf_w : list float := [2.5E-4; 2.5E-4; 2.5E-4; 2.5E-4]%float.
Definition cdf_z : list float := [106.3; 82.84; 62.87; 61.86]%float.

Section TableDefinition.

(** [std::erf], which the source takes from the C++ library. *)
Variable erf : float -> float.

Definition normal_cdf (x loc scale : float) : float :=
  let standardized_x := ((x - loc) / scale)%float in
  (0.5 * (1.0 + erf (standardized_x / PrimFloat.sqrt 2.0)))%float.

(** [Model::cdf]; [x >= loc] is [loc <= x]. *)
Definition cdf (x loc scale w z : float) : float :=
  let p := ((1.0 - w - z) * normal_cdf x loc scale + w)%float in
  if PrimFloat.leb loc x then (p + z)%float else p.

(** The right-hand side of the assignment to [ccft[i][j]], converted to
    [FrequencyType]. *)
Definition ccft_entry (scale w z max_p : float) (j : Z) : Z :=
  let p := cdf (double_of_Z j) 511.0 scale w z in
  u16 (double_to_u16
         (p / max_p * double_of_Z (MAX_FREQUENCY - NUM_SYMBOLS))%float + j).

(** One iteration of the outer loop of [Model()]. *)
Definition ccft_fill_row (i : nat) : list Z :=
  let scale := nth i cdf_scale 0%float in
  let w := nth i cdf_w 0%float in
  let z := (nth i cdf_z 0 / double_of_Z NUM_SYMBOLS)%float in
  let max_p := cdf (double_of_Z NUM_SYMBOLS) 511.0 scale w z in
  0 :: map (ccft_entry scale w z max_p) (map Z.of_nat (seq 1 1024))
    ++ [MAX_FREQUENCY].

(** [ccft] after the constructor's loop. *)
Definition ccft_filled : list (list Z) :=
  map ccft_fill_row (seq 0 (Z.to_nat NUM_DIST)).

(** [Model()]. *)
Definition Model_new : Model := Model_init ccft_filled.

End TableDefinition.

(** [std::lower_bound] on a range sorted by [<], as an index: the number of
    leading elements that compare less than [x]. *)
Fixpoint lower_bound (l : list float) (x : float) : Z :=
  match l with
  | [] => 0
  | y :: l' => if PrimFloat.ltb y x then 1 + lower_bound l' x else 0
  end.

(** [std::upper_bound] on a sorted range, as an index: the number of leading
    elements that are not greater than [x]. *)
Fixpoint upper_bound (l : list Z) (x : Z) : Z :=
  match l with
  | [] => 0
  | y :: l' => if x <? y then 0 else 1 + upper_bound l' x
  end.

(** [ccft[i][j]]. *)
Definition ccft_row (m : Model) (i : Z) : list Z :=
  nth (Z.to_nat i) (ccft m) [].
Definition ccft_at (m : Model) (i j : Z) : Z :=
  nth (Z.to_nat j) (ccft_row m i) 0.

(** [symbol_low_high]: [loc] is a [uint32_t]; the [int16_t] shift is
    converted to [uint32_t] by the addition. *)
Definition symbol_low_high (m : Model) (symbol : Z) : Z * Z :=
  let loc := symbol in
  let loc := u32 (loc + NUM_SYMBOLS) in
  let loc := u32 (loc + active_symbol_shift m) in
  let loc := loc mod NUM_SYMBOLS in
  (ccft_at m (active_dist m) loc, ccft_at m (active_dist m) (loc + 1)).

(** [frequency_symbol]: [loc] is a [SymbolType]; the sum is [int]
    arithmetic, cast to [uint32_t] before the remainder. *)
Definition frequency_symbol (m : Model) (freq : Z) : Z :=
  let it := upper_bound (ccft_row m (active_dist m)) freq in
  let loc := if it =? 0 then 0 else u16 (it - 1) in
  u16 (u32 (loc + NUM_SYMBOLS - active_symbol_shift m) mod NUM_SYMBOLS).

(** The test [std::abs(ds) > outlier_level * stdev]. *)
Definition is_outlier (m : Model) (symbol : Z) : bool :=
  let ds := (double_of_Z symbol - mean m)%float in
  PrimFloat.ltb (outlier_level * stdev m)%float (abs ds).

(** The outlier filter: the value of [outlier_counter] after the first two
    [if] statements of [update_state]. *)
Definition filtered_counter (m : Model) (symbol : Z) : Z :=
  let c := if is_outlier m symbol then u16 (outlier_counter m + 1) else 0 in
  if c >? 3 then 0 else c.

(** The body of [if (outlier_counter == 0)]. *)
Definition adapt (m : Model) (symbol : Z) : Model :=
  let ds := (double_of_Z symbol - mean m)%float in
  let mean' := (ma * mean m + (1 - ma) * double_of_Z symbol)%float in
  let stdev' :=
    PrimFloat.sqrt (omega + alpha * stdev m * stdev m + beta * ds * ds)%float in
  let dist := u16 (lower_bound std_levels stdev') in
  let dist' := Z.min dist (u16 (NUM_DIST - 1)) in
  let shift :=
    s16 (511 - double_to_u16
                 (mean' + (double_of_Z symbol - mean') * mrr)%float) in
  {| ccft := ccft m; active_dist := dist'; active_symbol_shift := shift;
     mean := mean'; stdev := stdev'; outlier_counter := 0 |}.

Definition update_state (m : Model) (symbol : Z) : Model :=
  let c := filtered_counter m symbol in
  if c =? 0 then adapt m symbol
  else {| ccft := ccft m; active_dist := active_dist m;
          active_symbol_shift := active_symbol_shift m;
          mean := mean m; stdev := stdev m; outlier_counter := c |}.

(** The model after a sequence of symbols. *)
Definition update_all (m : Model) (symbols : list Z) : Model :=
  fold_left update_state symbols m.

(** ** Results of the stream functions *)

Inductive result (A : Type) : Type :=
| Ok (a : A)
| Throw (what : string)     (* std::runtime_error *)
| OutOfFuel.                (* a loop of the source outlived the fuel *)
Arguments Ok {A} a.
Arguments Throw {A} what.
Arguments OutOfFuel {A}.

(** ** Byte streams *)

(** [std::istream]: the bytes not yet extracted and the negation of
    [fail()]. *)
Record istream : Type := mkIstream { avail : list Z; good : bool }.

(** [read(buf, n)]: extracts [n] bytes; when fewer are left it extracts
    them and sets the fail bit; on a failed stream it extracts nothing. *)
Definition istream_read (n : nat) (s : istream) : list Z * istream :=
  if good s then
    if (n <=? length (avail s))%nat
    then (firstn n (avail s), {| avail := skipn n (avail s); good := true |})
    else (avail s, {| avail := []; good := false |})
  else ([], s).

(** [std::ostream]: the bytes written so far. *)
Definition ostream : Type := list Z.

(** ** The WAV header ([wav.hpp], [neuralink_check_wav_header]) *)

(** [header.resize(44)] zero-fills, [read] overwrites what it extracts. *)
Definition read_wav_header (s : istream) : list Z * istream :=
  let (got, s') := istream_read 44 s in
  (got ++ repeat 0 (44 - length got), s').

Definition write_wav_header (out : ostream) (header : list Z)
  : result ostream :=
  if negb (length header =? 44)%nat then Throw "Invalid WAV header size"%string
  else Ok (out ++ header).

(** The two [uint16_t] fields are read in host order, little-endian. *)
Definition neuralink_check_wav_header (header : list Z) : result unit :=
  if negb (length header =? 44)%nat then Throw "Invalid WAV header size"%string
  else
    let numChannels := nth 22 header 0 + 256 * nth 23 header 0 in
    let bitsPerSample := nth 34 header 0 + 256 * nth 35 header 0 in
    if negb (numChannels =? 1) || negb (bitsPerSample =? 16)
    then Throw "Unsupported WAV format, we only support 16 bit mono WAV data"%string
    else Ok tt.

(** ** Samples *)

(** [neuralink_read_symbol_from_stream]: [None] is the [false] return. *)
Definition neuralink_read_symbol_from_stream (s : istream)
  : option Z * istream :=
  let (got, s') := istream_read 2 s in
  if good s'
  then (Some (neuralink_16bit_to_10bit
                (s16 (nth 0 got 0 + 256 * nth 1 got 0))), s')
  else (None, s').

Definition neuralink_write_symbol_to_stream (out : ostream) (symbol : Z)
  : ostream :=
  let raw_sample := neuralink_10bit_to_16bit symbol in
  out ++ [u16 raw_sample mod 256; u16 raw_sample / 256].

(** ** Bit streams ([bitstream.hpp]) *)

Module OBitStream.

Record t : Type := mk {
  outputStream : ostream;
  outputBuffer : Z;           (* unsigned char *)
  outputBufferPos : Z         (* int *)
}.

Definition new (output : ostream) : t :=
  {| outputStream := output; outputBuffer := 0; outputBufferPos := 0 |}.

Definition flush (s : t) : t :=
  if outputBufferPos s >? 0 then
    {| outputStream :=
         outputStream s
           ++ [u8 (Z.shiftl (outputBuffer s) (8 - outputBufferPos s))];
       outputBuffer := 0; outputBufferPos := 0 |}
  else s.

Definition put (bit : bool) (s : t) : t :=
  let s1 :=
    {| outputStream := outputStream s;
       outputBuffer := u8 (Z.lor (Z.shiftl (outputBuffer s) 1) (Z.b2z bit));
       outputBufferPos := outputBufferPos s + 1 |} in
  if outputBufferPos s1 =? 8 then flush s1 else s1.

End OBitStream.

Module IBitStream.

Record t : Type := mk {
  inputStream : istream;
  inputBuffer : Z;            (* unsigned char *)
  inputBufferPos : Z          (* int *)
}.

Definition new (input : istream) : t :=
  {| inputStream := input; inputBuffer := 0; inputBufferPos := 8 |}.

Definition fillInputBuffer (s : t) : bool * t :=
  let (got, input) := istream_read 1 (inputStream s) in
  if good input
  then (true, {| inputStream := input; inputBuffer := nth 0 got 0;
                 inputBufferPos := 0 |})
  else (false, {| inputStream := input; inputBuffer := 0;
                  inputBufferPos := inputBufferPos s |}).

(** [get(bit)]: [Some b] is a [true] return with [bit] set to [b]; [None] is
    a [false] return, which leaves the caller's [bit] as it was. *)
Definition get (s : t) : option bool * t :=
  let (filled, s1) :=
    if inputBufferPos s =? 8 then fillInputBuffer s else (true, s) in
  if filled then
    (Some (negb (Z.land (Z.shiftr (inputBuffer s1) (7 - inputBufferPos s1)) 1
                 =? 0)),
     {| inputStream := inputStream s1; inputBuffer := inputBuffer s1;
        inputBufferPos := inputBufferPos s1 + 1 |})
  else (None, s1).

End IBitStream.

(** ** The arithmetic coder ([arithmetic_coding.hpp]) *)

(** Both functions compute in [uint32_t]. *)
Definition forward_range (low high symbol_low symbol_high : Z) : Z * Z :=
  let range := u32 (u32 (high - low) + 1) in
  let high' := u32 (u32 (low + u32 (range * symbol_high) / 32767) - 1) in
  let low' := u32 (low + u32 (range * symbol_low) / 32767) in
  (low', high').

Definition backward_value (value low high : Z) : Z :=
  let range := u32 (u32 (high - low) + 1) in
  u32 (u32 (u32 (u32 (value - low) + 1) * 32767) - 1) / range.

(** Iterations granted to a renormalization loop ([while (true)] in the
    source); seventeen suffice whenever [low <= high]. *)
Definition renorm_fuel : nat := 32.

Module ArithmeticEncoder.

(** [pending_bits], [bits_written] and [symbols_written] are [size_t]; their
    wrap-around at 2^64 is left out. *)
Record t : Type := mk {
  model : Model;
  bits_written : Z;
  symbols_written : Z;
  low : Z;                    (* uint32_t *)
  high : Z;                   (* uint32_t *)
  pending_bits : nat
}.

Definition new (table : list (list Z)) : t :=
  {| model := Model_init table; bits_written := 0; symbols_written := 0;
     low := 0; high := MAX_CODE; pending_bits := 0 |}.

Definition set_model (e : t) (m : Model) : t :=
  {| model := m; bits_written := bits_written e;
     symbols_written := symbols_written e;
     low := low e; high := high e; pending_bits := pending_bits e |}.

Definition set_range (e : t) (l h : Z) : t :=
  {| model := model e; bits_written := bits_written e;
     symbols_written := symbols_written e;
     low := l; high := h; pending_bits := pending_bits e |}.

(** The [for] loop of [write_bits]. *)
Fixpoint put_repeat (n : nat) (bit : bool) (bs : OBitStream.t)
  : OBitStream.t :=
  match n with
  | O => bs
  | S k => put_repeat k bit (OBitStream.put bit bs)
  end.

Definition write_bits (b : bool) (e : t) (bs : OBitStream.t)
  : t * OBitStream.t :=
  ({| model := model e;
      bits_written := bits_written e + 1 + Z.of_nat (pending_bits e);
      symbols_written := symbols_written e;
      low := low e; high := high e; pending_bits := 0 |},
   put_repeat (pending_bits e) (negb b) (OBitStream.put b bs)).

(** The [if]/[else if] chain of the loop in [encode]: [None] is [break]. *)
Definition select (e : t) (bs : OBitStream.t) : option (t * OBitStream.t) :=
  if high e <? Int50 then Some (write_bits false e bs)
  else if low e >=? Int50 then Some (write_bits true e bs)
  else if (low e >=? Int25) && (high e <? Int75) then
    Some ({| model := model e; bits_written := bits_written e;
             symbols_written := symbols_written e;
             low := u32 (low e - Int25); high := u32 (high e - Int25);
             pending_bits := S (pending_bits e) |}, bs)
  else None.

(** The four statements that end an iteration. *)
Definition shift (e : t) : t :=
  let l := u32 (Z.shiftl (low e) 1) in
  let l := Z.land l MAX_CODE in
  let h := u32 (Z.lor (Z.shiftl (high e) 1) 1) in
  let h := Z.land h MAX_CODE in
  set_range e l h.

Fixpoint encode_loop (fuel : nat) (e : t) (bs : OBitStream.t)
  : option (t * OBitStream.t) :=
  match fuel with
  | O => None
  | S fuel' =>
      match select e bs with
      | None => Some (e, bs)
      | Some (e1, bs1) => encode_loop fuel' (shift e1) bs1
      end
  end.

(** [encode]: [None] when the loop outlives [renorm_fuel]. *)
Definition encode (symbol : Z) (e : t) (bs : OBitStream.t)
  : option (t * OBitStream.t) :=
  let e := {| model := model e; bits_written := bits_written e;
              symbols_written := symbols_written e + 1;
              low := low e; high := high e;
              pending_bits := pending_bits e |} in
  let (symbol_low, symbol_high) := symbol_low_high (model e) symbol in
  let (l, h) := forward_range (low e) (high e) symbol_low symbol_high in
  encode_loop renorm_fuel (set_range e l h) bs.

Definition flush (e : t) (bs : OBitStream.t) : t * OBitStream.t :=
  let e := {| model := model e; bits_written := bits_written e;
              symbols_written := symbols_written e;
              low := low e; high := high e;
              pending_bits := S (pending_bits e) |} in
  if low e <? Int25 then write_bits false e bs else write_bits true e bs.

End ArithmeticEncoder.

Module ArithmeticDecoder.

(** [bits_read], [symbols_read] and [pending_bits] keep the value the
    constructor gives them and are left out. *)
Record t : Type := mk {
  model : Model;
  low : Z;                    (* uint32_t *)
  high : Z;                   (* uint32_t *)
  value : Z                   (* uint32_t *)
}.

Definition new (table : list (list Z)) : t :=
  {| model := Model_init table; low := 0; high := MAX_CODE; value := 0 |}.

Definition set_model (d : t) (m : Model) : t :=
  {| model := m; low := low d; high := high d; value := value d |}.

(** [value -= k; low -= k; high -= k]. *)
Definition subtract (k : Z) (d : t) : t :=
  {| model := model d; low := u32 (low d - k); high := u32 (high d - k);
     value := u32 (value d - k) |}.

(** The [if]/[else if] chain of the loop in [decode]: [None] is [break]. *)
Definition select (d : t) : option t :=
  if high d <? Int50 then Some d
  else if low d >=? Int50 then Some (subtract Int50 d)
  else if (low d >=? Int25) && (high d <? Int75) then Some (subtract Int25 d)
  else None.

(** [bit_stream.get(b); value = (value << 1) | b], where [b] is the
    caller's local [bool b], given by the byte it occupies: [get] stores 0
    or 1 in it, and leaves it as it was when it fails.  The return value of
    [get] is ignored, so the whole byte is or-ed into [value]. *)
Definition shift_in (b : Z) (v : Z) (bs : IBitStream.t)
  : Z * Z * IBitStream.t :=
  let (r, bs1) := IBitStream.get bs in
  let b1 := match r with Some x => Z.b2z x | None => b end in
  (b1, u32 (Z.lor (Z.shiftl v 1) b1), bs1).

(** The four statements that end an iteration. *)
Definition shift (b : Z) (d : t) (bs : IBitStream.t)
  : Z * t * IBitStream.t :=
  let l := u32 (Z.shiftl (low d) 1) in
  let h := u32 (Z.lor (Z.shiftl (high d) 1) 1) in
  let '(b1, v, bs1) := shift_in b (value d) bs in
  (b1, {| model := model d; low := l; high := h; value := v |}, bs1).

Fixpoint decode_loop (fuel : nat) (b : Z) (d : t) (bs : IBitStream.t)
  : option (t * IBitStream.t) :=
  match fuel with
  | O => None
  | S fuel' =>
      match select d with
      | None => Some (d, bs)
      | Some d1 =>
          let '(b1, d2, bs1) := shift b d1 bs in
          decode_loop fuel' b1 d2 bs1
      end
  end.

(** [decode]: [b] is the byte the uninitialized local [bool b] occupies at
    entry (an indeterminate value in C++, any of 0 to 255 in the compiled
    program); [None] when the loop outlives [renorm_fuel].  The [uint32_t] scaled value is narrowed to
    [FrequencyType] by the call of [frequency_symbol]. *)
Definition decode (b : Z) (d : t) (bs : IBitStream.t)
  : option (Z * t * IBitStream.t) :=
  let scaled_value := backward_value (value d) (low d) (high d) in
  let symbol := frequency_symbol (model d) (u16 scaled_value) in
  let (symbol_low, symbol_high) := symbol_low_high (model d) symbol in
  let (l, h) := forward_range (low d) (high d) symbol_low symbol_high in
  match decode_loop renorm_fuel b
          {| model := model d; low := l; high := h; value := value d |} bs with
  | Some (d', bs') => Some (symbol, d', bs')
  | None => None
  end.

(** The [for] loop of [init]. *)
Fixpoint read_bits (n : nat) (b : Z) (v : Z) (bs : IBitStream.t)
  : Z * IBitStream.t :=
  match n with
  | O => (v, bs)
  | S k => let '(b1, v1, bs1) := shift_in b v bs in read_bits k b1 v1 bs1
  end.

Definition init (b : Z) (d : t) (bs : IBitStream.t) : t * IBitStream.t :=
  let (v, bs') := read_bits 17 b 0 bs in
  ({| model := model d; low := low d; high := high d; value := v |}, bs').

End ArithmeticDecoder.

(** ** Stream framing ([encode.cpp], [decode.cpp]) *)

(** The [while] loop of [encodeStream]; every iteration extracts two bytes,
    so fuel beyond half the input length is never used. *)
Fixpoint encode_samples (fuel : nat) (input : istream)
    (e : ArithmeticEncoder.t) (bs : OBitStream.t)
  : option (istream * ArithmeticEncoder.t * OBitStream.t) :=
  match fuel with
  | O => None
  | S fuel' =>
      match neuralink_read_symbol_from_stream input with
      | (Some symbol, input') =>
          match ArithmeticEncoder.encode symbol e bs with
          | None => None
          | Some (e1, bs1) =>
              let m := update_state (ArithmeticEncoder.model e1) symbol in
              encode_samples fuel' input' (ArithmeticEncoder.set_model e1 m) bs1
          end
      | (None, input') => Some (input', e, bs)
      end
  end.

(** Everything [encodeStream] does after the header, up to the state the
    encoder and the bit stream are left in. *)
Definition encode_payload (table : list (list Z)) (input : istream)
    (out : ostream)
  : option (ArithmeticEncoder.t * OBitStream.t) :=
  let outputBitStream := OBitStream.new out in
  let encoder := ArithmeticEncoder.new table in
  match encode_samples (S (length (avail input))) input encoder
          outputBitStream with
  | None => None
  | Some (_, encoder, outputBitStream) =>
      match ArithmeticEncoder.encode (NUM_SYMBOLS - 1) encoder
              outputBitStream with
      | None => None
      | Some (encoder, outputBitStream) =>
          let (encoder, outputBitStream) :=
            ArithmeticEncoder.flush encoder outputBitStream in
          Some (encoder, OBitStream.flush outputBitStream)
      end
  end.

(** [encodeStream], for the table the model's constructor yields.  The
    destructor of the bit stream flushes again, which writes nothing. *)
Definition encodeStream (table : list (list Z)) (input : list Z)
  : result ostream :=
  let inputStream := {| avail := input; good := true |} in
  let (header, inputStream) := read_wav_header inputStream in
  match neuralink_check_wav_header header with
  | Throw what => Throw what
  | OutOfFuel => OutOfFuel
  | Ok _ =>
      match write_wav_header [] header with
      | Throw what => Throw what
      | OutOfFuel => OutOfFuel
      | Ok out =>
          match encode_payload table inputStream out with
          | None => OutOfFuel
          | Some (_, outputBitStream) =>
              Ok (OBitStream.outputStream (OBitStream.flush outputBitStream))
          end
      end
  end.

(** The [while (true)] loop of [decodeStream].  [junk k] is the byte the
    indeterminate local [b] holds at the [k]-th entry into a decoder
    function. *)
Fixpoint decode_symbols (fuel : nat) (junk : nat -> Z) (k : nat)
    (d : ArithmeticDecoder.t) (bs : IBitStream.t) (out : ostream)
  : result (ArithmeticDecoder.t * IBitStream.t * ostream) :=
  match fuel with
  | O => OutOfFuel
  | S fuel' =>
      match ArithmeticDecoder.decode (junk k) d bs with
      | None => OutOfFuel
      | Some (symbol, d1, bs1) =>
          let m := update_state (ArithmeticDecoder.model d1) symbol in
          let d2 := ArithmeticDecoder.set_model d1 m in
          if symbol =? NUM_SYMBOLS - 1 then Ok (d2, bs1, out)
          else decode_symbols fuel' junk (S k) d2 bs1
                 (neuralink_write_symbol_to_stream out symbol)
      end
  end.

(** [decodeStream], with [fuel] bounding the number of decoded symbols. *)
Definition decodeStream (table : list (list Z)) (fuel : nat)
    (junk : nat -> Z) (input : list Z) : result ostream :=
  let inputStream := {| avail := input; good := true |} in
  let (header, inputStream) := read_wav_header inputStream in
  match neuralink_check_wav_header header with
  | Throw what => Throw what
  | OutOfFuel => OutOfFuel
  | Ok _ =>
      match write_wav_header [] header with
      | Throw what => Throw what
      | OutOfFuel => OutOfFuel
      | Ok out =>
          let inputBitStream := IBitStream.new inputStream in
          let decoder := ArithmeticDecoder.new table in
          let (decoder, inputBitStream) :=
            ArithmeticDecoder.init (junk O) decoder inputBitStream in
          match decode_symbols fuel junk 1%nat decoder inputBitStream out with
          | Ok (_, _, out') => Ok out'
          | Throw what => Throw what
          | OutOfFuel => OutOfFuel
          end
      end
  end.

(** * Properties *)

(** ** Bounded quantification by enumeration *)

Fixpoint forall_below (n : nat) (p : Z -> bool) : bool :=
  match n with
  | O => true
  | S k => p (Z.of_nat k) && forall_below k p
  end.

Lemma forall_below_spec (n : nat) (p : Z -> bool) :
  forall_below n p = true ->
  forall z, 0 <= z < Z.of_nat n -> p z = true.
Proof.
  induction n as [|k IH]; simpl; intros H z Hz; [lia|].
  apply andb_true_iff in H as [Hk Hrest].
  destruct (Z.eq_dec z (Z.of_nat k)) as [->|Hne]; [exact Hk|].
  apply IH; [exact Hrest|lia].
Qed.

(** ** Quantization round trip *)

(** C10: for every symbol u in [0, 1023], quantizing the dequantized sample
    gives u back: neuralink_16bit_to_10bit (neuralink_10bit_to_16bit u) = u. *)
Theorem quantize_dequantize_id (u : Z) :
  0 <= u <= 1023 ->
  neuralink_16bit_to_10bit (neuralink_10bit_to_16bit u) = u.
Proof.
  intros Hu.
  assert (H : forall_below 1024
                (fun z => neuralink_16bit_to_10bit (neuralink_10bit_to_16bit z)
                          =? z) = true) by (vm_compute; reflexivity).
  apply Z.eqb_eq.
  apply (forall_below_spec 1024 _ H); simpl; lia.
Qed.

Lemma quantize_dequantize_id_witness :
  0 <= 512 <= 1023 /\
  neuralink_16bit_to_10bit (neuralink_10bit_to_16bit 512) = 512.
Proof.
  split; [lia | apply (quantize_dequantize_id 512); lia].
Defined.

(** The dequantized samples are 16-bit values. *)
Lemma dequantize_range (u : Z) :
  0 <= u <= 1023 -> - 32768 <= neuralink_10bit_to_16bit u <= 32767.
Proof.
  intros Hu.
  assert (H : forall_below 1024
                (fun z => (- 32768 <=? neuralink_10bit_to_16bit z)
                          && (neuralink_10bit_to_16bit z <=? 32767)) = true)
    by (vm_compute; reflexivity).
  pose proof (forall_below_spec 1024 _ H u ltac:(simpl; lia)) as Hb.
  simpl in Hb. apply andb_true_iff in Hb as [H1 H2]. lia.
Qed.

(** ** The model update *)

Lemma filtered_counter_range (m : Model) (s : Z) :
  0 <= filtered_counter m s <= 3.
Proof.
  unfold filtered_counter, u16.
  destruct (is_outlier m s).
  - destruct (Z.gtb_spec ((outlier_counter m + 1) mod 65536) 3); [lia|].
    pose proof (Z.mod_pos_bound (outlier_counter m + 1) 65536 ltac:(lia)).
    lia.
  - simpl. lia.
Qed.

(** The counter of every state [update_state] produces lies in [0, 3]. *)
Lemma update_state_counter_range (m : Model) (s : Z) :
  0 <= outlier_counter (update_state m s) <= 3.
Proof.
  unfold update_state.
  pose proof (filtered_counter_range m s).
  destruct (Z.eqb_spec (filtered_counter m s) 0); simpl; lia.
Qed.

Lemma update_state_ccft (m : Model) (s : Z) :
  ccft (update_state m s) = ccft m.
Proof.
  unfold update_state, adapt.
  destruct (filtered_counter m s =? 0); reflexivity.
Qed.

Lemma update_all_ccft (symbols : list Z) (m : Model) :
  ccft (update_all m symbols) = ccft m.
Proof.
  revert m; induction symbols as [|s rest IH]; intros m; simpl; [reflexivity|].
  unfold update_all in *. simpl. rewrite IH. apply update_state_ccft.
Qed.

Lemma lower_bound_range (l : list float) (x : float) :
  0 <= lower_bound l x <= Z.of_nat (length l).
Proof.
  induction l as [|y l IH]; [simpl; lia|].
  cbn [lower_bound length]. rewrite Nat2Z.inj_succ.
  destruct (PrimFloat.ltb y x); lia.
Qed.

(** [active_dist] always indexes one of the four rows. *)
Lemma update_state_dist_range (m : Model) (s : Z) :
  0 <= active_dist m < NUM_DIST ->
  0 <= active_dist (update_state m s) < NUM_DIST.
Proof.
  intros Hm. unfold update_state.
  destruct (filtered_counter m s =? 0); [|exact Hm].
  unfold adapt; cbn [active_dist].
  match goal with |- context [lower_bound ?l ?x] =>
    pose proof (lower_bound_range l x) as Hlb;
    change (Z.of_nat (length l)) with 4 in Hlb;
    generalize dependent (lower_bound l x) end.
  intros k Hk. unfold u16, NUM_DIST.
  rewrite Z.mod_small by lia. change ((4 - 1) mod 65536) with 3. lia.
Qed.

(** The standard deviation the code assigns, and the value the constructor
    gives [omega]. *)
Lemma adapt_stdev (m : Model) (s : Z) :
  stdev (adapt m s) =
  (let ds := double_of_Z s - mean m in
   PrimFloat.sqrt (ltv / (1 - alpha - beta)
                   + alpha * stdev m * stdev m + beta * ds * ds))%float.
Proof. reflexivity. Qed.

(** The update rule of the specification text, with
    [omega = ltv * (1 - alpha - beta)]. *)
Definition stdev_with_omega_product (m : Model) (s : Z) : float :=
  (let ds := double_of_Z s - mean m in
   PrimFloat.sqrt (ltv * (1 - alpha - beta)
                   + alpha * stdev m * stdev m + beta * ds * ds))%float.

(** Two doubles that compare unequal are different. *)
Lemma float_neq_of_eqb (x y : float) :
  PrimFloat.eqb y y = true -> PrimFloat.eqb x y = false -> x <> y.
Proof. intros Hy Hxy ->. rewrite Hy in Hxy. discriminate. Qed.

(** C3, counterexample: the first update of a fresh model on symbol 511 is
    not frozen, and the standard deviation it stores (11.018...) is not the
    one of the rule with omega = ltv * (1 - alpha - beta) (6.866...). *)
Lemma stdev_update_not_omega_product :
  filtered_counter (Model_init []) 511 = 0 /\
  stdev (update_state (Model_init []) 511)
  <> stdev_with_omega_product (Model_init []) 511.
Proof.
  split; [vm_compute; reflexivity|].
  apply float_neq_of_eqb; vm_compute; reflexivity.
Qed.

(** C3, as the code has it: in every update that is not frozen the new
    stdev is sqrt (omega + alpha * stdev * stdev + beta * ds * ds) with ds
    the deviation from the mean before the update, alpha = 0.725,
    beta = 0.175 and omega = ltv / (1 - alpha - beta), the double
    74.999999999999972, for ltv = 7.5. *)
Theorem stdev_update_garch (m : Model) (s : Z) :
  filtered_counter m s = 0 ->
  stdev (update_state m s) =
  (let ds := double_of_Z s - mean m in
   PrimFloat.sqrt (omega + 0.725 * stdev m * stdev m + 0.175 * ds * ds))%float
  /\ omega = (7.5 / (1 - 0.725 - 0.175))%float
  /\ omega = 74.999999999999972%float.
Proof.
  intros Hc. unfold update_state. rewrite Hc. simpl.
  repeat split; vm_compute; reflexivity.
Qed.

Lemma stdev_update_garch_witness :
  filtered_counter (Model_init []) 511 = 0 /\
  stdev (update_state (Model_init []) 511) = 11.018166816671455%float.
Proof.
  assert (Hc : filtered_counter (Model_init []) 511 = 0)
    by (vm_compute; reflexivity).
  split; [exact Hc|].
  destruct (stdev_update_garch (Model_init []) 511 Hc) as [H _].
  rewrite H. vm_compute. reflexivity.
Defined.

(** *** Outliers *)

Lemma update_state_frozen (m : Model) (s : Z) :
  filtered_counter m s <> 0 ->
  update_state m s =
  {| ccft := ccft m; active_dist := active_dist m;
     active_symbol_shift := active_symbol_shift m;
     mean := mean m; stdev := stdev m;
     outlier_counter := filtered_counter m s |}.
Proof.
  intros Hc. unfold update_state.
  destruct (Z.eqb_spec (filtered_counter m s) 0); [contradiction|reflexivity].
Qed.

Lemma update_state_adapts (m : Model) (s : Z) :
  filtered_counter m s = 0 -> update_state m s = adapt m s.
Proof. intros Hc. unfold update_state. rewrite Hc. reflexivity. Qed.

Lemma filtered_counter_outlier (m : Model) (s : Z) :
  0 <= outlier_counter m <= 3 ->
  is_outlier m s = true ->
  filtered_counter m s =
  if outlier_counter m + 1 >? 3 then 0 else outlier_counter m + 1.
Proof.
  intros Hc Ho. unfold filtered_counter, u16. rewrite Ho.
  rewrite Z.mod_small by lia. reflexivity.
Qed.

(** Three outliers in a row leave the model as it was but for the counter;
    a fourth one is adapted to. *)
Lemma four_outliers_in_a_row (m : Model) (s1 s2 s3 s4 : Z) :
  outlier_counter m = 0 ->
  is_outlier m s1 = true -> is_outlier m s2 = true ->
  is_outlier m s3 = true -> is_outlier m s4 = true ->
  let m3 := update_all m [s1; s2; s3] in
  mean m3 = mean m /\ stdev m3 = stdev m /\
  active_dist m3 = active_dist m /\
  active_symbol_shift m3 = active_symbol_shift m /\
  outlier_counter m3 = 3 /\
  outlier_counter (update_state m3 s4) = 0 /\
  mean (update_state m3 s4) = (ma * mean m + (1 - ma) * double_of_Z s4)%float.
Proof.
  intros H0 O1 O2 O3 O4. cbn [update_all fold_left].
  assert (F1 : update_state m s1 =
               {| ccft := ccft m; active_dist := active_dist m;
                  active_symbol_shift := active_symbol_shift m;
                  mean := mean m; stdev := stdev m; outlier_counter := 1 |}).
  { rewrite update_state_frozen;
      rewrite (filtered_counter_outlier m s1) by (try lia; assumption);
      rewrite H0; simpl; [reflexivity|lia]. }
  rewrite F1.
  set (m1 := {| ccft := ccft m; outlier_counter := 1 |}).
  assert (F2 : update_state m1 s2 =
               {| ccft := ccft m; active_dist := active_dist m;
                  active_symbol_shift := active_symbol_shift m;
                  mean := mean m; stdev := stdev m; outlier_counter := 2 |}).
  { rewrite update_state_frozen;
      rewrite (filtered_counter_outlier m1 s2) by (simpl; try lia; assumption);
      simpl; [reflexivity|lia]. }
  rewrite F2.
  set (m2 := {| ccft := ccft m; outlier_counter := 2 |}).
  assert (F3 : update_state m2 s3 =
               {| ccft := ccft m; active_dist := active_dist m;
                  active_symbol_shift := active_symbol_shift m;
                  mean := mean m; stdev := stdev m; outlier_counter := 3 |}).
  { rewrite update_state_frozen;
      rewrite (filtered_counter_outlier m2 s3) by (simpl; try lia; assumption);
      simpl; [reflexivity|lia]. }
  rewrite F3.
  set (m3 := {| ccft := ccft m; outlier_counter := 3 |}).
  assert (F4 : update_state m3 s4 = adapt m3 s4).
  { apply update_state_adapts.
    rewrite (filtered_counter_outlier m3 s4) by (simpl; try lia; assumption).
    reflexivity. }
  rewrite F4. simpl. repeat split; reflexivity.
Qed.

(** C9: when [update_state] sees an outlier and the count of consecutive
    outliers it reaches is at most 3, then mean, stdev, active_dist and
    active_symbol_shift keep their values; when the count would exceed 3 the
    counter is reset to 0 and the adaptive update is applied, so that the
    fourth consecutive outlier is adapted to. *)
Theorem outlier_freezes_model (m : Model) (s : Z) :
  0 <= outlier_counter m <= 3 ->
  is_outlier m s = true ->
  (outlier_counter m + 1 <= 3 ->
   mean (update_state m s) = mean m /\
   stdev (update_state m s) = stdev m /\
   active_dist (update_state m s) = active_dist m /\
   active_symbol_shift (update_state m s) = active_symbol_shift m /\
   outlier_counter (update_state m s) = outlier_counter m + 1)
  /\
  (outlier_counter m + 1 > 3 ->
   outlier_counter (update_state m s) = 0 /\
   update_state m s = adapt m s /\
   mean (update_state m s) = (ma * mean m + (1 - ma) * double_of_Z s)%float).
Proof.
  intros Hc Ho.
  pose proof (filtered_counter_outlier m s Hc Ho) as Hf.
  split; intros Hk.
  - destruct (Z.gtb_spec (outlier_counter m + 1) 3) as [Hgt|_]; [lia|].
    rewrite update_state_frozen by lia. simpl. rewrite Hf.
    repeat split; reflexivity.
  - destruct (Z.gtb_spec (outlier_counter m + 1) 3) as [_|Hle]; [|lia].
    rewrite (update_state_adapts m s Hf). repeat split; reflexivity.
Qed.

Lemma outlier_freezes_model_witness :
  (0 <= outlier_counter (Model_init []) <= 3 /\
   is_outlier (Model_init []) 1023 = true) /\
  mean (update_state (Model_init []) 1023) = mean (Model_init []).
Proof.
  assert (Hc : 0 <= outlier_counter (Model_init []) <= 3) by (simpl; lia).
  assert (Ho : is_outlier (Model_init []) 1023 = true)
    by (vm_compute; reflexivity).
  split; [split; assumption|].
  destruct (outlier_freezes_model (Model_init []) 1023 Hc Ho) as [H _].
  apply H. simpl. lia.
Defined.

(** ** Bits and their values *)

(** The [n] low bits of [x], most significant first. *)
Fixpoint low_bits (n : nat) (x : Z) : list bool :=
  match n with
  | O => []
  | S k => Z.testbit x (Z.of_nat k) :: low_bits k x
  end.

Definition byte_bits (x : Z) : list bool := low_bits 8 x.

(** The number a bit list spells, most significant bit first. *)
Definition bits_val (l : list bool) : Z :=
  fold_left (fun a b => 2 * a + Z.b2z b) l 0.

Lemma b2z_range (b : bool) : 0 <= Z.b2z b <= 1.
Proof. destruct b; simpl; lia. Qed.

Lemma fold_bits_shift (l : list bool) (a : Z) :
  fold_left (fun a b => 2 * a + Z.b2z b) l a
  = a * 2 ^ Z.of_nat (length l) + bits_val l.
Proof.
  unfold bits_val. revert a.
  induction l as [|b l IH]; intros a.
  - simpl. lia.
  - cbn [fold_left length]. rewrite IH, (IH (2 * 0 + Z.b2z b)).
    rewrite Nat2Z.inj_succ, Z.pow_succ_r by lia. ring.
Qed.

Lemma bits_val_cons (b : bool) (l : list bool) :
  bits_val (b :: l) = Z.b2z b * 2 ^ Z.of_nat (length l) + bits_val l.
Proof.
  unfold bits_val at 1. cbn [fold_left]. rewrite fold_bits_shift. ring.
Qed.

Lemma bits_val_app (l1 l2 : list bool) :
  bits_val (l1 ++ l2) = bits_val l1 * 2 ^ Z.of_nat (length l2) + bits_val l2.
Proof.
  unfold bits_val at 1. rewrite fold_left_app, fold_bits_shift. reflexivity.
Qed.

Lemma bits_val_snoc (l : list bool) (b : bool) :
  bits_val (l ++ [b]) = 2 * bits_val l + Z.b2z b.
Proof.
  rewrite bits_val_app. cbn [length]. change (bits_val [b]) with (2 * 0 + Z.b2z b).
  change (2 ^ Z.of_nat 1) with 2. ring.
Qed.

Lemma bits_val_range (l : list bool) :
  0 <= bits_val l < 2 ^ Z.of_nat (length l).
Proof.
  induction l as [|b l IH].
  - cbn. lia.
  - rewrite bits_val_cons. cbn [length].
    rewrite Nat2Z.inj_succ, Z.pow_succ_r by lia.
    pose proof (b2z_range b). nia.
Qed.

Lemma low_bits_length (n : nat) (x : Z) : length (low_bits n x) = n.
Proof. induction n; simpl; congruence. Qed.

Lemma low_bits_double (n : nat) (x : Z) (b : bool) :
  low_bits (S n) (2 * x + Z.b2z b) = low_bits n x ++ [b].
Proof.
  induction n as [|n IH].
  - cbn [low_bits app]. change (Z.of_nat 0) with 0.
    rewrite Z.testbit_0_r. reflexivity.
  - change (low_bits (S (S n)) (2 * x + Z.b2z b))
      with (Z.testbit (2 * x + Z.b2z b) (Z.of_nat (S n))
            :: low_bits (S n) (2 * x + Z.b2z b)).
    rewrite IH. cbn [low_bits app].
    rewrite Nat2Z.inj_succ, Z.testbit_succ_r by lia. reflexivity.
Qed.

Lemma low_bits_mod (n k : nat) (x : Z) :
  (n <= k)%nat -> low_bits n (x mod 2 ^ Z.of_nat k) = low_bits n x.
Proof.
  induction n as [|n IH]; intros Hn; [reflexivity|].
  cbn [low_bits]. rewrite IH by lia.
  rewrite Z.mod_pow2_bits_low by lia. reflexivity.
Qed.

(** Shift-and-or as arithmetic. *)
Lemma shl1_or (x : Z) (b : bool) :
  0 <= x -> Z.lor (Z.shiftl x 1) (Z.b2z b) = 2 * x + Z.b2z b.
Proof.
  intros Hx. rewrite Z.shiftl_mul_pow2 by lia. change (2 ^ 1) with 2.
  rewrite (Z.mul_comm x 2).
  destruct b; cbn [Z.b2z].
  - destruct x as [|p|p]; [reflexivity|reflexivity|lia].
  - rewrite Z.lor_0_r. lia.
Qed.

Lemma shl1_or1 (x : Z) : 0 <= x -> Z.lor (Z.shiftl x 1) 1 = 2 * x + 1.
Proof. exact (fun H => shl1_or x true H). Qed.

Lemma shl1 (x : Z) : Z.shiftl x 1 = 2 * x.
Proof. rewrite Z.shiftl_mul_pow2 by lia. change (2 ^ 1) with 2. lia. Qed.

Lemma land_max_code (x : Z) : Z.land x MAX_CODE = x mod 131072.
Proof. change MAX_CODE with (Z.ones 17). rewrite Z.land_ones by lia. reflexivity. Qed.

Lemma u32_small (x : Z) : 0 <= x < 4294967296 -> u32 x = x.
Proof. intros H. unfold u32. apply Z.mod_small. exact H. Qed.

Lemma u16_small (x : Z) : 0 <= x < 65536 -> u16 x = x.
Proof. intros H. unfold u16. apply Z.mod_small. exact H. Qed.

(** ** Output bit stream: the bits it has been given *)

(** The bits put into a stream created over an [ostream] of [hdr] bytes. *)
Definition obs_bits (hdr : nat) (s : OBitStream.t) : list bool :=
  flat_map byte_bits (skipn hdr (OBitStream.outputStream s))
  ++ low_bits (Z.to_nat (OBitStream.outputBufferPos s))
       (OBitStream.outputBuffer s).

Definition obs_inv (hdr : nat) (s : OBitStream.t) : Prop :=
  0 <= OBitStream.outputBufferPos s < 8 /\
  0 <= OBitStream.outputBuffer s
       < 2 ^ OBitStream.outputBufferPos s /\
  (hdr <= length (OBitStream.outputStream s))%nat.

Lemma flat_map_snoc {A B} (f : A -> list B) (l : list A) (x : A) :
  flat_map f (l ++ [x]) = flat_map f l ++ f x.
Proof. rewrite flat_map_app. simpl. rewrite app_nil_r. reflexivity. Qed.

Lemma skipn_snoc {A} (n : nat) (l : list A) (x : A) :
  (n <= length l)%nat -> skipn n (l ++ [x]) = skipn n l ++ [x].
Proof.
  intros H. rewrite skipn_app.
  replace (n - length l)%nat with O by lia. reflexivity.
Qed.

Lemma firstn_snoc {A} (n : nat) (l : list A) (x : A) :
  (n <= length l)%nat -> firstn n (l ++ [x]) = firstn n l.
Proof.
  intros H. rewrite firstn_app.
  replace (n - length l)%nat with O by lia. simpl. apply app_nil_r.
Qed.

Lemma obs_put (hdr : nat) (b : bool) (s : OBitStream.t) :
  obs_inv hdr s ->
  obs_inv hdr (OBitStream.put b s) /\
  obs_bits hdr (OBitStream.put b s) = obs_bits hdr s ++ [b] /\
  firstn hdr (OBitStream.outputStream (OBitStream.put b s))
  = firstn hdr (OBitStream.outputStream s).
Proof.
  intros (Hpos & Hbuf & Hlen).
  destruct s as [out buf pos]; cbn [OBitStream.outputStream
    OBitStream.outputBuffer OBitStream.outputBufferPos] in *.
  pose proof (b2z_range b) as Hb.
  assert (Hpow : 2 ^ pos <= 128).
  { change 128 with (2 ^ 7). apply Z.pow_le_mono_r; lia. }
  assert (Hbuf' : u8 (Z.lor (Z.shiftl buf 1) (Z.b2z b)) = 2 * buf + Z.b2z b).
  { rewrite shl1_or by lia. unfold u8. apply Z.mod_small. lia. }
  unfold OBitStream.put. cbn [OBitStream.outputStream
    OBitStream.outputBuffer OBitStream.outputBufferPos].
  rewrite Hbuf'.
  destruct (Z.eqb_spec (pos + 1) 8) as [H8|H8].
  - unfold OBitStream.flush. cbn [OBitStream.outputStream
      OBitStream.outputBuffer OBitStream.outputBufferPos].
    replace (pos + 1 >? 0) with true by (symmetry; apply Z.gtb_lt; lia).
    unfold obs_inv, obs_bits. cbn [OBitStream.outputStream
      OBitStream.outputBuffer OBitStream.outputBufferPos].
    rewrite length_app. cbn [length].
    split; [repeat split; try lia|]. 
    split.
    + rewrite skipn_snoc, flat_map_snoc by lia.
      replace (8 - (pos + 1)) with 0 by lia. rewrite Z.shiftl_0_r.
      unfold byte_bits, u8. change 256 with (2 ^ Z.of_nat 8).
      rewrite low_bits_mod by lia.
      replace (Z.to_nat pos) with 7%nat by lia.
      rewrite low_bits_double. change (Z.to_nat 0) with O.
      cbn [low_bits]. rewrite app_nil_r, app_assoc. reflexivity.
    + apply firstn_snoc. lia.
  - unfold obs_inv, obs_bits. cbn [OBitStream.outputStream
      OBitStream.outputBuffer OBitStream.outputBufferPos].
    split; [|split; [|reflexivity]].
    + repeat split; try lia.
      rewrite Z.pow_add_r by lia. change (2 ^ 1) with 2. lia.
    + replace (Z.to_nat (pos + 1)) with (S (Z.to_nat pos)) by lia.
      rewrite low_bits_double, app_assoc. reflexivity.
Qed.

Lemma obs_put_repeat (hdr n : nat) (b : bool) (s : OBitStream.t) :
  obs_inv hdr s ->
  obs_inv hdr (ArithmeticEncoder.put_repeat n b s) /\
  obs_bits hdr (ArithmeticEncoder.put_repeat n b s)
  = obs_bits hdr s ++ repeat b n /\
  firstn hdr (OBitStream.outputStream (ArithmeticEncoder.put_repeat n b s))
  = firstn hdr (OBitStream.outputStream s).
Proof.
  revert s; induction n as [|n IH]; intros s Hs.
  - cbn. rewrite app_nil_r. auto.
  - cbn [ArithmeticEncoder.put_repeat repeat].
    destruct (obs_put hdr b s Hs) as (H1 & H2 & H3).
    destruct (IH _ H1) as (I1 & I2 & I3).
    split; [exact I1|]. split; [|congruence].
    rewrite I2, H2, <- app_assoc. reflexivity.
Qed.

(** [write_bits b] emits [b] and then the pending complements. *)
Lemma obs_write_bits (hdr : nat) (b : bool) (e : ArithmeticEncoder.t)
    (bs : OBitStream.t) :
  obs_inv hdr bs ->
  let (e', bs') := ArithmeticEncoder.write_bits b e bs in
  obs_inv hdr bs' /\
  obs_bits hdr bs'
  = obs_bits hdr bs ++ b :: repeat (negb b) (ArithmeticEncoder.pending_bits e)
  /\ firstn hdr (OBitStream.outputStream bs')
     = firstn hdr (OBitStream.outputStream bs)
  /\ ArithmeticEncoder.pending_bits e' = O
  /\ ArithmeticEncoder.low e' = ArithmeticEncoder.low e
  /\ ArithmeticEncoder.high e' = ArithmeticEncoder.high e
  /\ ArithmeticEncoder.model e' = ArithmeticEncoder.model e
  /\ ArithmeticEncoder.bits_written e'
     = ArithmeticEncoder.bits_written e + 1
       + Z.of_nat (ArithmeticEncoder.pending_bits e).
Proof.
  intros Hs. unfold ArithmeticEncoder.write_bits.
  destruct (obs_put hdr b bs Hs) as (H1 & H2 & H3).
  destruct (obs_put_repeat hdr (ArithmeticEncoder.pending_bits e) (negb b)
              _ H1) as (I1 & I2 & I3).
  cbn [ArithmeticEncoder.pending_bits ArithmeticEncoder.low
       ArithmeticEncoder.high ArithmeticEncoder.model
       ArithmeticEncoder.bits_written].
  split; [exact I1|]. split.
  { rewrite I2, H2, <- app_assoc. reflexivity. }
  split; [congruence|]. repeat split; reflexivity.
Qed.

(** ** Flushing the encoder *)

(** The first bit [flush] emits. *)
Definition flush_bit (e : ArithmeticEncoder.t) : bool :=
  negb (ArithmeticEncoder.low e <? Int25).

Lemma obs_flush (hdr : nat) (e : ArithmeticEncoder.t) (bs : OBitStream.t) :
  obs_inv hdr bs ->
  obs_inv hdr (snd (ArithmeticEncoder.flush e bs)) /\
  obs_bits hdr (snd (ArithmeticEncoder.flush e bs))
  = obs_bits hdr bs
    ++ flush_bit e
       :: repeat (negb (flush_bit e)) (S (ArithmeticEncoder.pending_bits e))
  /\ firstn hdr (OBitStream.outputStream (snd (ArithmeticEncoder.flush e bs)))
     = firstn hdr (OBitStream.outputStream bs)
  /\ ArithmeticEncoder.bits_written (fst (ArithmeticEncoder.flush e bs))
     = ArithmeticEncoder.bits_written e
       + Z.of_nat (ArithmeticEncoder.pending_bits e) + 2
  /\ ArithmeticEncoder.model (fst (ArithmeticEncoder.flush e bs))
     = ArithmeticEncoder.model e.
Proof.
  intros Hs. unfold ArithmeticEncoder.flush, flush_bit.
  cbn [ArithmeticEncoder.low].
  destruct (ArithmeticEncoder.low e <? Int25); cbn [negb].
  - match goal with |- context [ArithmeticEncoder.write_bits ?b ?e1 bs] =>
      pose proof (obs_write_bits hdr b e1 bs Hs) as H;
      destruct (ArithmeticEncoder.write_bits b e1 bs) as [e' bs'] end.
    cbn [fst snd ArithmeticEncoder.pending_bits ArithmeticEncoder.bits_written
         ArithmeticEncoder.model] in *.
    destruct H as (H1 & H2 & H3 & _ & _ & _ & H4 & H5).
    split; [exact H1|]. split; [exact H2|]. split; [exact H3|].
    split; [lia|exact H4].
  - match goal with |- context [ArithmeticEncoder.write_bits ?b ?e1 bs] =>
      pose proof (obs_write_bits hdr b e1 bs Hs) as H;
      destruct (ArithmeticEncoder.write_bits b e1 bs) as [e' bs'] end.
    cbn [fst snd ArithmeticEncoder.pending_bits ArithmeticEncoder.bits_written
         ArithmeticEncoder.model] in *.
    destruct H as (H1 & H2 & H3 & _ & _ & _ & H4 & H5).
    split; [exact H1|]. split; [exact H2|]. split; [exact H3|].
    split; [lia|exact H4].
Qed.

Lemma obs_inv_new (out : ostream) : obs_inv (length out) (OBitStream.new out).
Proof. unfold obs_inv, OBitStream.new; simpl. lia. Qed.

Lemma obs_bits_new (out : ostream) :
  obs_bits (length out) (OBitStream.new out) = [].
Proof.
  unfold obs_bits, OBitStream.new; simpl. rewrite skipn_all. reflexivity.
Qed.

(** C6, counterexample: flushing the freshly constructed encoder
    (pending_bits = 0, low = 0) emits the two bits 0 1, not the single bit
    0 that "one bit followed by pending_bits complements" asks for. *)
Lemma flush_fresh_encoder_emits_two_bits :
  ArithmeticEncoder.pending_bits (ArithmeticEncoder.new []) = O /\
  obs_bits 0 (snd (ArithmeticEncoder.flush (ArithmeticEncoder.new [])
                     (OBitStream.new [])))
  = [false; true] /\
  obs_bits 0 (snd (ArithmeticEncoder.flush (ArithmeticEncoder.new [])
                     (OBitStream.new [])))
  <> flush_bit (ArithmeticEncoder.new [])
     :: repeat (negb (flush_bit (ArithmeticEncoder.new [])))
          (ArithmeticEncoder.pending_bits (ArithmeticEncoder.new [])).
Proof.
  split; [reflexivity|]. split; [vm_compute; reflexivity|].
  vm_compute. discriminate.
Qed.

(** C6, as the code has it: with pending_bits = p on entry, [flush] emits
    one bit (0 if low < Int25, else 1) followed by exactly p + 1
    complementary bits, p + 2 bits in all, and counts them in
    bits_written. *)
Theorem flush_emits_bit_and_complements (hdr : nat)
    (e : ArithmeticEncoder.t) (bs : OBitStream.t) :
  obs_inv hdr bs ->
  let b := negb (ArithmeticEncoder.low e <? Int25) in
  let p := ArithmeticEncoder.pending_bits e in
  let emitted := b :: repeat (negb b) (p + 1) in
  obs_bits hdr (snd (ArithmeticEncoder.flush e bs))
  = obs_bits hdr bs ++ emitted /\
  length emitted = (p + 2)%nat /\
  ArithmeticEncoder.bits_written (fst (ArithmeticEncoder.flush e bs))
  = ArithmeticEncoder.bits_written e + Z.of_nat (p + 2).
Proof.
  intros Hs b p emitted.
  destruct (obs_flush hdr e bs Hs) as (_ & H2 & _ & H4 & _).
  subst emitted b p. split; [|split].
  - rewrite H2. unfold flush_bit. rewrite Nat.add_1_r. reflexivity.
  - cbn [length]. rewrite repeat_length. lia.
  - rewrite H4. lia.
Qed.

Lemma flush_emits_bit_and_complements_witness :
  obs_inv 0 (OBitStream.new []) /\
  obs_bits 0 (snd (ArithmeticEncoder.flush (ArithmeticEncoder.new [])
                     (OBitStream.new [])))
  = obs_bits 0 (OBitStream.new []) ++ [false; true].
Proof.
  split; [exact (obs_inv_new [])|].
  exact (proj1 (flush_emits_bit_and_complements 0 (ArithmeticEncoder.new [])
                  (OBitStream.new []) (obs_inv_new []))).
Defined.

(** ** The frequency table *)

(** What the coder needs of a row: it starts at 0, ends at MAX_FREQUENCY
    and increases strictly. *)
Definition row_ok (row : list Z) : Prop :=
  length row = 1026%nat /\
  nth 0 row 0 = 0 /\
  nth 1025 row 0 = MAX_FREQUENCY /\
  forall j : nat, (j < 1025)%nat -> nth j row 0 < nth (S j) row 0.

Definition table_ok (table : list (list Z)) : Prop :=
  length table = 4%nat /\ Forall row_ok table.

Definition model_ok (m : Model) : Prop :=
  table_ok (ccft m) /\ 0 <= active_dist m < NUM_DIST.

Lemma row_ok_lt (row : list Z) (i j : nat) :
  row_ok row -> (i < j <= 1025)%nat -> nth i row 0 < nth j row 0.
Proof.
  intros (_ & _ & _ & Hstep) Hij.
  induction j as [|j IH]; [lia|].
  destruct (Nat.eq_dec i j) as [->|Hne].
  - apply Hstep. lia.
  - transitivity (nth j row 0); [apply IH; lia|apply Hstep; lia].
Qed.

Lemma row_ok_le (row : list Z) (i j : nat) :
  row_ok row -> (i <= j <= 1025)%nat -> nth i row 0 <= nth j row 0.
Proof.
  intros Hr Hij. destruct (Nat.eq_dec i j) as [->|Hne]; [lia|].
  apply Z.lt_le_incl, row_ok_lt; [exact Hr|lia].
Qed.

Lemma row_ok_bracket (row : list Z) (j : nat) :
  row_ok row -> (j < 1025)%nat ->
  0 <= nth j row 0 /\ nth j row 0 < nth (S j) row 0
  /\ nth (S j) row 0 <= MAX_FREQUENCY.
Proof.
  intros Hr Hj.
  pose proof (row_ok_le row 0 j Hr ltac:(lia)) as H0.
  pose proof (row_ok_le row (S j) 1025 Hr ltac:(lia)) as H1.
  destruct Hr as (Hl & Hz & Hm & Hstep).
  rewrite Hz in H0. rewrite Hm in H1. specialize (Hstep j Hj). lia.
Qed.

Lemma model_ok_row (m : Model) :
  model_ok m -> row_ok (ccft_row m (active_dist m)).
Proof.
  intros ((Hlen & Hrows) & Hd). unfold ccft_row.
  rewrite Forall_forall in Hrows. apply Hrows, nth_In.
  unfold NUM_DIST in Hd. lia.
Qed.

Lemma update_state_ok (m : Model) (s : Z) :
  model_ok m -> model_ok (update_state m s).
Proof.
  intros (Ht & Hd). split.
  - rewrite update_state_ccft. exact Ht.
  - apply update_state_dist_range. exact Hd.
Qed.

Lemma update_all_ok (symbols : list Z) (m : Model) :
  model_ok m -> model_ok (update_all m symbols).
Proof.
  revert m; induction symbols as [|s rest IH]; intros m Hm; [exact Hm|].
  apply IH, update_state_ok, Hm.
Qed.

Lemma Model_init_ok (table : list (list Z)) :
  table_ok table -> model_ok (Model_init table).
Proof. intros Ht. split; [exact Ht|]. simpl. unfold NUM_DIST. lia. Qed.

(** The table position [symbol_low_high] reads. *)
Definition symbol_loc (m : Model) (symbol : Z) : Z :=
  u32 (u32 (symbol + NUM_SYMBOLS) + active_symbol_shift m) mod NUM_SYMBOLS.

Lemma symbol_loc_range (m : Model) (symbol : Z) :
  0 <= symbol_loc m symbol < NUM_SYMBOLS.
Proof. unfold symbol_loc. apply Z.mod_pos_bound. reflexivity. Qed.

Lemma symbol_low_high_loc (m : Model) (symbol : Z) :
  symbol_low_high m symbol =
  (ccft_at m (active_dist m) (symbol_loc m symbol),
   ccft_at m (active_dist m) (symbol_loc m symbol + 1)).
Proof. reflexivity. Qed.

(** Every symbol, whatever the shift, owns a nonempty interval of
    frequencies. *)
Lemma symbol_low_high_ok (m : Model) (symbol : Z) :
  model_ok m ->
  0 <= fst (symbol_low_high m symbol)
  /\ fst (symbol_low_high m symbol) < snd (symbol_low_high m symbol)
  /\ snd (symbol_low_high m symbol) <= MAX_FREQUENCY.
Proof.
  intros Hm. rewrite symbol_low_high_loc. cbn [fst snd].
  pose proof (symbol_loc_range m symbol) as Hloc. unfold NUM_SYMBOLS in Hloc.
  unfold ccft_at.
  replace (Z.to_nat (symbol_loc m symbol + 1))
    with (S (Z.to_nat (symbol_loc m symbol))) by lia.
  apply row_ok_bracket; [apply model_ok_row, Hm|lia].
Qed.

(** ** Narrowing the range *)

Definition range_ok (l h : Z) : Prop := 0 <= l /\ l <= h /\ h <= MAX_CODE.

Definition coder_inv (l h : Z) : Prop :=
  0 <= l /\ l < h /\ h <= MAX_CODE /\ h - l >= Int25.

Lemma coder_inv_range_ok (l h : Z) : coder_inv l h -> range_ok l h.
Proof. unfold coder_inv, range_ok. lia. Qed.

(** [forward_range] without wrap-around. *)
Lemma forward_range_eq (l h sl sh : Z) :
  coder_inv l h -> 0 <= sl -> sl < sh -> sh <= MAX_FREQUENCY ->
  forward_range l h sl sh =
  (l + (h - l + 1) * sl / 32767, l + (h - l + 1) * sh / 32767 - 1).
Proof.
  unfold coder_inv, MAX_CODE, MAX_FREQUENCY, Int25. intros Hr Hsl Hlt Hsh.
  unfold forward_range.
  assert (Hrange : u32 (u32 (h - l) + 1) = h - l + 1).
  { rewrite (u32_small (h - l)) by lia. apply u32_small. lia. }
  rewrite Hrange.
  assert (Hp1 : 0 <= (h - l + 1) * sl < 4294967296) by nia.
  assert (Hp2 : 32767 <= (h - l + 1) * sh < 4294967296) by nia.
  assert (Hq1 : 0 <= (h - l + 1) * sl / 32767 <= h - l + 1).
  { split; [apply Z.div_pos; lia|]. apply Z.div_le_upper_bound; nia. }
  assert (Hq2 : 1 <= (h - l + 1) * sh / 32767 <= h - l + 1).
  { split; [apply Z.div_le_lower_bound; lia|].
    apply Z.div_le_upper_bound; nia. }
  rewrite (u32_small ((h - l + 1) * sl)), (u32_small ((h - l + 1) * sh))
    by lia.
  rewrite !(u32_small (l + _ / _)) by lia.
  rewrite u32_small by lia. reflexivity.
Qed.

(** Narrowing keeps the range inside the old one and nonempty. *)
Lemma forward_range_narrows (l h sl sh : Z) :
  coder_inv l h -> 0 <= sl -> sl < sh -> sh <= MAX_FREQUENCY ->
  let (l', h') := forward_range l h sl sh in
  l <= l' /\ l' <= h' /\ h' <= h.
Proof.
  intros Hr Hsl Hlt Hsh. rewrite forward_range_eq by assumption.
  unfold coder_inv, MAX_CODE, MAX_FREQUENCY, Int25 in *.
  assert (Hstep : (h - l + 1) * sl + 32767 <= (h - l + 1) * sh) by nia.
  assert (Hcap : (h - l + 1) * sh <= (h - l + 1) * 32767) by nia.
  assert (Hpos : 0 <= (h - l + 1) * sl) by nia.
  generalize dependent ((h - l + 1) * sl).
  generalize dependent ((h - l + 1) * sh).
  intros P2 Hcap P1 Hstep Hpos.
  Z.to_euclidean_division_equations. lia.
Qed.

(** ** Renormalization as a relation

    [Renorm n l h p F l' h' p']: from range [l, h] with [p] pending bits the
    renormalization loop runs [n] iterations, emits [F] and leaves range
    [l', h'] with [p'] pending bits.  The arithmetic is the one both loops
    perform once the encoder's masks and the 32-bit wrap-around are shown
    to have no effect. *)
Inductive Renorm
  : nat -> Z -> Z -> nat -> list bool -> Z -> Z -> nat -> Prop :=
| Renorm_break l h p :
    Int50 <= h -> l < Int50 -> (l < Int25 \/ Int75 <= h) ->
    Renorm 0 l h p [] l h p
| Renorm_lower n l h p F l' h' p' :
    h < Int50 ->
    Renorm n (2 * l) (2 * h + 1) 0 F l' h' p' ->
    Renorm (S n) l h p (false :: repeat true p ++ F) l' h' p'
| Renorm_upper n l h p F l' h' p' :
    Int50 <= h -> Int50 <= l ->
    Renorm n (2 * (l - Int50)) (2 * (h - Int50) + 1) 0 F l' h' p' ->
    Renorm (S n) l h p (true :: repeat false p ++ F) l' h' p'
| Renorm_middle n l h p F l' h' p' :
    Int50 <= h -> l < Int50 -> Int25 <= l -> h < Int75 ->
    Renorm n (2 * (l - Int25)) (2 * (h - Int25) + 1) (S p) F l' h' p' ->
    Renorm (S n) l h p F l' h' p'.

(** After the loop no rule applies, which is the coder invariant. *)
Lemma renorm_post n l h p F l' h' p' :
  Renorm n l h p F l' h' p' -> range_ok l h -> coder_inv l' h'.
Proof.
  unfold range_ok, coder_inv, MAX_CODE.
  induction 1; intros Hr; unfold Int25, Int50, Int75 in *;
    try (apply IHRenorm; lia). lia.
Qed.

Lemma encoder_shift_range (e : ArithmeticEncoder.t) :
  0 <= ArithmeticEncoder.low e -> 0 <= ArithmeticEncoder.high e ->
  ArithmeticEncoder.high e <= MAX_CODE ->
  ArithmeticEncoder.low e <= MAX_CODE ->
  ArithmeticEncoder.low (ArithmeticEncoder.shift e)
  = (2 * ArithmeticEncoder.low e) mod 131072 /\
  ArithmeticEncoder.high (ArithmeticEncoder.shift e)
  = (2 * ArithmeticEncoder.high e + 1) mod 131072 /\
  ArithmeticEncoder.pending_bits (ArithmeticEncoder.shift e)
  = ArithmeticEncoder.pending_bits e /\
  ArithmeticEncoder.model (ArithmeticEncoder.shift e)
  = ArithmeticEncoder.model e.
Proof.
  unfold MAX_CODE. intros Hl Hh Hh' Hl'.
  unfold ArithmeticEncoder.shift, ArithmeticEncoder.set_range.
  cbn [ArithmeticEncoder.low ArithmeticEncoder.high
       ArithmeticEncoder.pending_bits ArithmeticEncoder.model].
  rewrite !land_max_code, shl1_or1, shl1 by lia.
  rewrite !u32_small by lia. auto.
Qed.

Lemma write_bits_state (b : bool) (e : ArithmeticEncoder.t)
    (bs : OBitStream.t) :
  ArithmeticEncoder.pending_bits (fst (ArithmeticEncoder.write_bits b e bs))
  = O /\
  ArithmeticEncoder.low (fst (ArithmeticEncoder.write_bits b e bs))
  = ArithmeticEncoder.low e /\
  ArithmeticEncoder.high (fst (ArithmeticEncoder.write_bits b e bs))
  = ArithmeticEncoder.high e /\
  ArithmeticEncoder.model (fst (ArithmeticEncoder.write_bits b e bs))
  = ArithmeticEncoder.model e.
Proof. repeat split; reflexivity. Qed.

Lemma encode_loop_renorm (hdr : nat) (fuel : nat) :
  forall (e : ArithmeticEncoder.t) (bs : OBitStream.t),
  range_ok (ArithmeticEncoder.low e) (ArithmeticEncoder.high e) ->
  131072 < (ArithmeticEncoder.high e - ArithmeticEncoder.low e + 1)
           * 2 ^ Z.of_nat fuel ->
  exists e' bs' n F,
    ArithmeticEncoder.encode_loop fuel e bs = Some (e', bs') /\
    (n < fuel)%nat /\
    Renorm n (ArithmeticEncoder.low e) (ArithmeticEncoder.high e)
      (ArithmeticEncoder.pending_bits e) F
      (ArithmeticEncoder.low e') (ArithmeticEncoder.high e')
      (ArithmeticEncoder.pending_bits e') /\
    ArithmeticEncoder.model e' = ArithmeticEncoder.model e /\
    (obs_inv hdr bs ->
     obs_inv hdr bs' /\
     obs_bits hdr bs' = obs_bits hdr bs ++ F /\
     firstn hdr (OBitStream.outputStream bs')
     = firstn hdr (OBitStream.outputStream bs)).
Proof.
  induction fuel as [|fuel IH]; intros e bs Hr Hfuel.
  { exfalso. unfold range_ok, MAX_CODE in Hr.
    change (2 ^ Z.of_nat 0) with 1 in Hfuel. lia. }
  rewrite Nat2Z.inj_succ, Z.pow_succ_r in Hfuel by lia.
  cbn [ArithmeticEncoder.encode_loop]. unfold ArithmeticEncoder.select.
  unfold range_ok, MAX_CODE in Hr.
  destruct (Z.ltb_spec (ArithmeticEncoder.high e) Int50) as [H1|H1].
  - (* lower half *)
    pose proof (obs_write_bits hdr false e bs) as W.
    pose proof (write_bits_state false e bs) as (W4 & W5 & W6 & W7).
    destruct (ArithmeticEncoder.write_bits false e bs) as [e1 bs1].
    cbn [fst] in W4, W5, W6, W7.
    unfold Int50 in H1.
    destruct (encoder_shift_range e1) as (S1 & S2 & S3 & S4);
      unfold MAX_CODE; try lia.
    rewrite W5 in S1. rewrite W6 in S2. rewrite W4 in S3.
    rewrite Z.mod_small in S1 by lia. rewrite Z.mod_small in S2 by lia.
    destruct (IH (ArithmeticEncoder.shift e1) bs1) as
      (e' & bs' & n & F & E & Hn & R & I4 & I).
    { unfold range_ok, MAX_CODE. rewrite S1, S2. lia. }
    { rewrite S1, S2. lia. }
    exists e', bs', (S n),
      (false :: repeat true (ArithmeticEncoder.pending_bits e) ++ F).
    split; [exact E|]. split; [lia|]. split.
    { apply Renorm_lower; [exact H1|]. rewrite S1, S2, S3 in R. exact R. }
    split; [congruence|].
    intros Hbs. destruct (W Hbs) as (W1 & W2 & W3 & _).
    destruct (I W1) as (I1 & I2 & I3).
    split; [exact I1|]. split; [|congruence].
    rewrite I2, W2. cbn [negb]. rewrite <- app_assoc. reflexivity.
  - destruct (Z.geb_spec (ArithmeticEncoder.low e) Int50) as [H2|H2].
    + (* upper half *)
      pose proof (obs_write_bits hdr true e bs) as W.
      pose proof (write_bits_state true e bs) as (W4 & W5 & W6 & W7).
      destruct (ArithmeticEncoder.write_bits true e bs) as [e1 bs1].
      cbn [fst] in W4, W5, W6, W7.
      unfold Int50 in H1, H2.
      destruct (encoder_shift_range e1) as (S1 & S2 & S3 & S4);
        unfold MAX_CODE; try lia.
      rewrite W5 in S1. rewrite W6 in S2. rewrite W4 in S3.
      assert (S1' : ArithmeticEncoder.low (ArithmeticEncoder.shift e1)
                    = 2 * (ArithmeticEncoder.low e - Int50)).
      { rewrite S1. unfold Int50.
        Z.to_euclidean_division_equations. lia. }
      assert (S2' : ArithmeticEncoder.high (ArithmeticEncoder.shift e1)
                    = 2 * (ArithmeticEncoder.high e - Int50) + 1).
      { rewrite S2. unfold Int50.
        Z.to_euclidean_division_equations. lia. }
      unfold Int50 in S1', S2'.
      destruct (IH (ArithmeticEncoder.shift e1) bs1) as
        (e' & bs' & n & F & E & Hn & R & I4 & I).
      { unfold range_ok, MAX_CODE. rewrite S1', S2'. lia. }
      { rewrite S1', S2'. lia. }
      exists e', bs', (S n),
        (true :: repeat false (ArithmeticEncoder.pending_bits e) ++ F).
      split; [exact E|]. split; [lia|]. split.
      { apply Renorm_upper; [exact H1|exact H2|].
        rewrite S1', S2', S3 in R. exact R. }
      split; [congruence|].
      intros Hbs. destruct (W Hbs) as (W1 & W2 & W3 & _).
      destruct (I W1) as (I1 & I2 & I3).
      split; [exact I1|]. split; [|congruence].
      rewrite I2, W2. cbn [negb]. rewrite <- app_assoc. reflexivity.
    + destruct (Z.geb_spec (ArithmeticEncoder.low e) Int25) as [H3|H3];
        [destruct (Z.ltb_spec (ArithmeticEncoder.high e) Int75) as [H4|H4]|];
        cbn [andb].
      * (* middle half *)
        unfold Int25, Int50, Int75 in *.
        match goal with |- context [ArithmeticEncoder.shift ?x] =>
          set (e1 := x) end.
        assert (L1 : ArithmeticEncoder.low e1 = ArithmeticEncoder.low e - 32768)
          by (cbn; apply u32_small; lia).
        assert (L2 : ArithmeticEncoder.high e1
                     = ArithmeticEncoder.high e - 32768)
          by (cbn; apply u32_small; lia).
        destruct (encoder_shift_range e1) as (S1 & S2 & S3 & S4);
          unfold MAX_CODE; try lia.
        rewrite L1 in S1. rewrite L2 in S2.
        rewrite Z.mod_small in S1 by lia. rewrite Z.mod_small in S2 by lia.
        change (ArithmeticEncoder.pending_bits e1)
          with (S (ArithmeticEncoder.pending_bits e)) in S3.
        change (ArithmeticEncoder.model e1)
          with (ArithmeticEncoder.model e) in S4.
        destruct (IH (ArithmeticEncoder.shift e1) bs) as
          (e' & bs' & n & F & E & Hn & R & I4 & I).
        { unfold range_ok, MAX_CODE. rewrite S1, S2. lia. }
        { rewrite S1, S2. lia. }
        exists e', bs', (S n), F.
        split; [exact E|]. split; [lia|]. split.
        { apply Renorm_middle; unfold Int25, Int50, Int75; try lia.
          rewrite S1, S2, S3 in R. exact R. }
        split; [congruence|exact I].
      * exists e, bs, O, []. rewrite app_nil_r.
        split; [reflexivity|]. split; [lia|]. split.
        { apply Renorm_break; unfold Int25, Int50, Int75 in *; lia. }
        auto.
      * exists e, bs, O, []. rewrite app_nil_r.
        split; [reflexivity|]. split; [lia|]. split.
        { apply Renorm_break; unfold Int25, Int50, Int75 in *; lia. }
        auto.
Qed.

(** ** Input bit stream: the bits still to come *)

Definition ibs_bits (s : IBitStream.t) : list bool :=
  skipn (Z.to_nat (IBitStream.inputBufferPos s))
    (byte_bits (IBitStream.inputBuffer s))
  ++ (if good (IBitStream.inputStream s)
      then flat_map byte_bits (avail (IBitStream.inputStream s))
      else []).

Definition ibs_inv (s : IBitStream.t) : Prop :=
  0 <= IBitStream.inputBufferPos s <= 8.

Lemma land1_testbit (x n : Z) :
  0 <= n -> negb (Z.land (Z.shiftr x n) 1 =? 0) = Z.testbit x n.
Proof.
  intros Hn. rewrite Z.testbit_odd.
  change 1 with (Z.ones 1). rewrite Z.land_ones by lia.
  change (2 ^ 1) with 2. rewrite Zmod_odd.
  destruct (Z.odd (Z.shiftr x n)); reflexivity.
Qed.

Lemma skipn_byte_bits (x pos : Z) :
  0 <= pos < 8 ->
  skipn (Z.to_nat pos) (byte_bits x)
  = Z.testbit x (7 - pos) :: skipn (Z.to_nat (pos + 1)) (byte_bits x).
Proof.
  intros Hp.
  assert (Hc : pos = 0 \/ pos = 1 \/ pos = 2 \/ pos = 3 \/ pos = 4 \/ pos = 5
               \/ pos = 6 \/ pos = 7) by lia.
  destruct Hc as [->|[->|[->|[->|[->|[->|[->| ->]]]]]]]; reflexivity.
Qed.

(** [get] hands out the bits of [ibs_bits] in order and fails exactly when
    there is none left. *)
Lemma ibs_get (s : IBitStream.t) :
  ibs_inv s ->
  match ibs_bits s with
  | x :: rest =>
      exists s', IBitStream.get s = (Some x, s') /\ ibs_inv s'
                 /\ ibs_bits s' = rest
  | [] =>
      exists s', IBitStream.get s = (None, s') /\ ibs_inv s'
                 /\ ibs_bits s' = []
  end.
Proof.
  intros Hinv. unfold ibs_inv in Hinv.
  destruct s as [[av gd] buf pos].
  cbn [IBitStream.inputBufferPos] in Hinv.
  unfold ibs_bits, IBitStream.get.
  cbn [IBitStream.inputBufferPos IBitStream.inputBuffer
       IBitStream.inputStream avail good].
  destruct (Z.eqb_spec pos 8) as [->|Hne].
  - change (skipn (Z.to_nat 8) (byte_bits buf)) with (@nil bool).
    cbn [app]. unfold IBitStream.fillInputBuffer, istream_read.
    cbn [IBitStream.inputStream IBitStream.inputBufferPos avail good].
    destruct gd.
    + destruct av as [|x av]; cbn [length Nat.leb flat_map app].
      * eexists. split; [reflexivity|].
        unfold ibs_inv, ibs_bits; cbn. split; [lia|reflexivity].
      * cbn [firstn skipn good nth IBitStream.inputBufferPos
             IBitStream.inputBuffer IBitStream.inputStream].
        rewrite land1_testbit by lia.
        unfold byte_bits at 1. cbn [low_bits app].
        eexists. split; [reflexivity|].
        unfold ibs_inv, ibs_bits; cbn [IBitStream.inputBufferPos
          IBitStream.inputBuffer IBitStream.inputStream avail good].
        split; [lia|reflexivity].
    + cbn [good]. eexists. split; [reflexivity|].
      unfold ibs_inv, ibs_bits; cbn. split; [lia|reflexivity].
  - rewrite skipn_byte_bits by lia.
    cbn [app IBitStream.inputBufferPos IBitStream.inputBuffer
         IBitStream.inputStream].
    rewrite land1_testbit by lia.
    eexists. split; [reflexivity|].
    unfold ibs_inv, ibs_bits; cbn [IBitStream.inputBufferPos
      IBitStream.inputBuffer IBitStream.inputStream avail good].
    split; [lia|reflexivity].
Qed.

(** What [shift_in] does whatever the byte [b] holds: the bit it reads, or
    [b] itself when the stream has run out. *)
Lemma shift_in_any (b v : Z) (bs : IBitStream.t) :
  exists y bs',
    ArithmeticDecoder.shift_in b v bs
    = (y, u32 (Z.lor (Z.shiftl v 1) y), bs') /\
    (ibs_inv bs ->
     ibs_inv bs' /\
     ((exists x, y = Z.b2z x /\ ibs_bits bs = x :: ibs_bits bs')
      \/ (y = b /\ ibs_bits bs = [] /\ ibs_bits bs' = []))).
Proof.
  unfold ArithmeticDecoder.shift_in.
  destruct (IBitStream.get bs) as [r bs'] eqn:Hget.
  exists (match r with Some x => Z.b2z x | None => b end), bs'.
  split; [reflexivity|].
  intros Hinv. pose proof (ibs_get bs Hinv) as G.
  destruct (ibs_bits bs) as [|x rest].
  - destruct G as (s' & G1 & G2 & G3). rewrite Hget in G1.
    inversion G1; subst. split; [exact G2|]. right. auto.
  - destruct G as (s' & G1 & G2 & G3). rewrite Hget in G1.
    inversion G1; subst. split; [exact G2|]. left. exists x. auto.
Qed.

(** The bit [shift_in] reads when [b] holds a bit, 0 or 1. *)
Lemma shift_in_spec (b : bool) (v : Z) (bs : IBitStream.t) :
  0 <= v < 2147483648 ->
  exists x bs',
    ArithmeticDecoder.shift_in (Z.b2z b) v bs
    = (Z.b2z x, 2 * v + Z.b2z x, bs') /\
    (ibs_inv bs ->
     ibs_inv bs' /\
     (ibs_bits bs = x :: ibs_bits bs'
      \/ (ibs_bits bs = [] /\ ibs_bits bs' = []))).
Proof.
  intros Hv. unfold ArithmeticDecoder.shift_in.
  destruct (IBitStream.get bs) as [r bs'] eqn:Hget.
  exists (match r with Some x => x | None => b end), bs'.
  split.
  - assert (E : match r with Some x => Z.b2z x | None => Z.b2z b end
                = Z.b2z (match r with Some x => x | None => b end))
      by (destruct r; reflexivity).
    rewrite E, shl1_or by lia.
    rewrite u32_small; [reflexivity|].
    pose proof (b2z_range (match r with Some x => x | None => b end)). lia.
  - intros Hinv. pose proof (ibs_get bs Hinv) as G.
    destruct (ibs_bits bs) as [|x rest].
    + destruct G as (s' & G1 & G2 & G3). rewrite Hget in G1.
      inversion G1; subst. split; [exact G2|]. right. auto.
    + destruct G as (s' & G1 & G2 & G3). rewrite Hget in G1.
      inversion G1; subst. split; [exact G2|]. left. reflexivity.
Qed.

(** ** The code register as a window on the bit sequence

    The decoder's [value] holds seventeen bits; while [p] bits are pending
    the encoder owes it [p] complements of the next bit it emits.  [expand
    p W] is the emitted sequence that the window contents [W] stand for. *)

Definition expand (p : nat) (W : list bool) : list bool :=
  match W with
  | [] => []
  | b :: W' => b :: repeat (negb b) p ++ W'
  end.

Definition is_prefix (F L : list bool) : Prop := exists T, L = F ++ T.

(** The emitted bits [F] agree with the window contents [W]. *)
Definition matches (p : nat) (F W : list bool) : Prop :=
  is_prefix F (expand p W).

(** [F] starts with a bit and at least [p] complements of it. *)
Definition shape (p : nat) (F : list bool) : Prop :=
  exists g F', F = g :: repeat (negb g) p ++ F'.

(** Every window that agrees with [F] spells a value within [l, h]. *)
Definition bounded (l h : Z) (p : nat) (F : list bool) : Prop :=
  forall W, (17 <= length W)%nat -> matches p F W ->
            l <= bits_val (firstn 17 W) <= h.

Lemma firstn_succ_snoc {A} (k : nat) (L : list A) :
  (k < length L)%nat -> exists x, firstn (S k) L = firstn k L ++ [x]
                                  /\ skipn k L = x :: skipn (S k) L.
Proof.
  revert L; induction k as [|k IH]; intros L Hk.
  - destruct L as [|x L]; [simpl in Hk; lia|]. exists x. auto.
  - destruct L as [|y L]; [simpl in Hk; lia|].
    destruct (IH L) as (x & H1 & H2); [simpl in Hk; lia|].
    exists x. split; [|exact H2].
    change (firstn (S (S k)) (y :: L)) with (y :: firstn (S k) L).
    rewrite H1. reflexivity.
Qed.

(** Padding a window of at least [k] bits to one of [k + 1]. *)
Lemma window_pad (k : nat) (L : list bool) (c : bool) :
  (k <= length L)%nat ->
  exists y, bits_val (firstn (S k) (L ++ [c]))
            = 2 * bits_val (firstn k L) + Z.b2z y.
Proof.
  intros Hk. destruct (Nat.eq_dec k (length L)) as [->|Hne].
  - exists c. rewrite firstn_all2 by (rewrite length_app; simpl; lia).
    rewrite firstn_all. apply bits_val_snoc.
  - destruct (firstn_succ_snoc k L ltac:(lia)) as (x & H1 & _).
    exists x. rewrite firstn_snoc by lia. rewrite H1. apply bits_val_snoc.
Qed.

(** Shifting one more bit into a window of [k] bits. *)
Lemma window_advance (k : nat) (L A' : list bool) (x : bool) :
  (k <= length L)%nat ->
  (skipn k L = x :: A' \/ (skipn k L = [] /\ A' = [])) ->
  exists L', (S k <= length L')%nat /\
             bits_val (firstn (S k) L')
             = 2 * bits_val (firstn k L) + Z.b2z x /\
             skipn (S k) L' = A' /\
             exists T, L' = L ++ T.
Proof.
  intros Hk [Hs|[Hs ->]].
  - assert (Hlen : (k < length L)%nat).
    { pose proof (length_skipn k L) as H. rewrite Hs in H.
      cbn [length] in H. lia. }
    destruct (firstn_succ_snoc k L Hlen) as (y & H1 & H2).
    rewrite Hs in H2. injection H2 as Hx HA. subst y.
    exists L. split; [lia|]. split; [|split; [symmetry; exact HA|]].
    + rewrite H1, bits_val_snoc. reflexivity.
    + exists []. symmetry. apply app_nil_r.
  - assert (Hlen : length L = k).
    { pose proof (length_skipn k L) as H. rewrite Hs in H. simpl in H. lia. }
    exists (L ++ [x]). rewrite length_app. cbn [length].
    split; [lia|]. split; [|split].
    + rewrite firstn_all2 by (rewrite length_app; simpl; lia).
      rewrite firstn_all2 by lia. apply bits_val_snoc.
    + apply skipn_all2. rewrite length_app. simpl. lia.
    + exists [x]. reflexivity.
Qed.

Lemma window_head (b : bool) (W : list bool) (k : nat) :
  (k <= length W)%nat ->
  bits_val (firstn (S k) (b :: W))
  = Z.b2z b * 2 ^ Z.of_nat k + bits_val (firstn k W).
Proof.
  intros Hk. cbn [firstn]. rewrite bits_val_cons, length_firstn.
  replace (Nat.min k (length W)) with k by lia. reflexivity.
Qed.

Lemma matches_extend (p : nat) (F W T : list bool) :
  W <> [] -> matches p F W -> matches p F (W ++ T).
Proof.
  intros Hne [T' H]. destruct W as [|b W]; [contradiction|].
  exists (T' ++ T). cbn [expand app] in *.
  rewrite (app_assoc F T' T), <- H. cbn [app].
  rewrite <- app_assoc. reflexivity.
Qed.

Lemma repeat_snoc {A} (x : A) (n : nat) :
  repeat x (S n) = repeat x n ++ [x].
Proof. cbn [repeat]. apply repeat_cons. Qed.

(** A window that agrees with an emission starting [g], [p] complements,
    and then [F']. *)
Lemma matches_cons (p : nat) (g : bool) (F' W : list bool) :
  matches p (g :: repeat (negb g) p ++ F') W ->
  exists W', W = g :: W' /\ is_prefix F' W'.
Proof.
  intros [T H]. destruct W as [|b W']; [discriminate|].
  cbn [expand app] in H. injection H as -> H.
  rewrite <- app_assoc in H. apply app_inv_head in H.
  exists W'. split; [reflexivity|]. exists T. exact H.
Qed.

Lemma shape_weaken (p : nat) (F : list bool) : shape (S p) F -> shape p F.
Proof.
  intros (g & F' & ->). exists g, (negb g :: F').
  rewrite repeat_snoc, <- app_assoc. reflexivity.
Qed.

(** The emission of a renormalization has the shape the pending count
    promises, given that what follows has. *)
Lemma renorm_shape n l h p F l' h' p' (G : list bool) :
  Renorm n l h p F l' h' p' -> shape p' G -> shape p (F ++ G).
Proof.
  induction 1; intros HG.
  - exact HG.
  - exists false, (F ++ G). cbn [app negb]. rewrite <- app_assoc. reflexivity.
  - exists true, (F ++ G). cbn [app negb]. rewrite <- app_assoc. reflexivity.
  - apply shape_weaken, IHRenorm, HG.
Qed.

(** The emission of a renormalization pins the window's value inside the
    range the loop started from, given that what follows pins it inside the
    range the loop ends with. *)
Lemma renorm_bounded n l h p F l' h' p' (G : list bool) :
  Renorm n l h p F l' h' p' -> shape p' G ->
  bounded l' h' p' G -> bounded l h p (F ++ G).
Proof.
  induction 1 as [l h p| n l h p F l' h' p' Hlow R IH
                 | n l h p F l' h' p' Hh Hl R IH
                 | n l h p F l' h' p' Hh Hl Hl2 Hh2 R IH];
    intros HG HB.
  - exact HB.
  - specialize (IH HG HB). intros W HW HM.
    cbn [app] in HM. rewrite <- app_assoc in HM.
    apply matches_cons in HM as (W' & -> & HP).
    cbn [length] in HW.
    assert (HM' : matches 0 (F ++ G) (W' ++ [false])).
    { destruct HP as [T ->]. exists (T ++ [false]).
      destruct (F ++ G) as [|c R'] eqn:E.
      - destruct (renorm_shape _ _ _ _ _ _ _ _ G R HG) as (g & F' & HF).
        rewrite E in HF. discriminate.
      - cbn [expand app repeat]. rewrite <- app_assoc. reflexivity. }
    specialize (IH (W' ++ [false])
                  ltac:(rewrite length_app; cbn [length]; lia) HM').
    destruct (window_pad 16 W' false ltac:(lia)) as (y & Hy).
    rewrite Hy in IH. rewrite window_head by lia.
    change (2 ^ Z.of_nat 16) with 65536. cbn [Z.b2z].
    pose proof (b2z_range y). lia.
  - specialize (IH HG HB). intros W HW HM.
    cbn [app] in HM. rewrite <- app_assoc in HM.
    apply matches_cons in HM as (W' & -> & HP).
    cbn [length] in HW.
    assert (HM' : matches 0 (F ++ G) (W' ++ [false])).
    { destruct HP as [T ->]. exists (T ++ [false]).
      destruct (F ++ G) as [|c R'] eqn:E.
      - destruct (renorm_shape _ _ _ _ _ _ _ _ G R HG) as (g & F' & HF).
        rewrite E in HF. discriminate.
      - cbn [expand app repeat]. rewrite <- app_assoc. reflexivity. }
    specialize (IH (W' ++ [false])
                  ltac:(rewrite length_app; cbn [length]; lia) HM').
    destruct (window_pad 16 W' false ltac:(lia)) as (y & Hy).
    rewrite Hy in IH. rewrite window_head by lia.
    change (2 ^ Z.of_nat 16) with 65536. cbn [Z.b2z].
    unfold Int50 in *. pose proof (b2z_range y). lia.
  - specialize (IH HG HB). intros W HW HM.
    destruct (renorm_shape _ _ _ _ _ _ _ _ G R HG) as (g & F' & HF).
    rewrite HF in HM. rewrite repeat_snoc, <- app_assoc in HM.
    apply matches_cons in HM as (W' & -> & HP).
    cbn [app] in HP. destruct HP as [T ->].
    cbn [length app] in HW.
    assert (HM' : matches (S p) (F ++ G) (g :: (F' ++ T) ++ [false])).
    { exists (T ++ [false]). rewrite HF. cbn [expand app].
      rewrite <- !app_assoc. reflexivity. }
    specialize (IH (g :: (F' ++ T) ++ [false])
                  ltac:(cbn [length]; rewrite length_app; cbn [length]; lia)
                  HM').
    rewrite window_head in IH by (rewrite length_app; cbn [length]; lia).
    destruct (window_pad 15 (F' ++ T) false ltac:(lia)) as (y & Hy).
    rewrite Hy in IH. cbn [app].
    rewrite window_head by (cbn [length]; lia).
    rewrite window_head by lia.
    change (2 ^ Z.of_nat 16) with 65536 in *.
    change (2 ^ Z.of_nat 15) with 32768.
    unfold Int25, Int50, Int75 in *. pose proof (b2z_range y).
    destruct g; cbn [Z.b2z negb] in *; lia.
Qed.

(** ** The decoder's loop follows the encoder's *)

(** [W] is the stream as the decoder sees it: seventeen bits in [value],
    the rest still in the bit stream. *)
Definition window (d : ArithmeticDecoder.t) (bs : IBitStream.t)
    (W : list bool) : Prop :=
  (17 <= length W)%nat /\
  ArithmeticDecoder.value d = bits_val (firstn 17 W) /\
  ibs_bits bs = skipn 17 W.

Lemma decoder_shift_spec (b : bool) (d : ArithmeticDecoder.t)
    (bs : IBitStream.t) :
  0 <= ArithmeticDecoder.low d ->
  ArithmeticDecoder.low d <= ArithmeticDecoder.high d ->
  ArithmeticDecoder.high d < Int50 ->
  0 <= ArithmeticDecoder.value d ->
  exists x d' bs',
    ArithmeticDecoder.shift (Z.b2z b) d bs = (Z.b2z x, d', bs') /\
    ArithmeticDecoder.low d' = 2 * ArithmeticDecoder.low d /\
    ArithmeticDecoder.high d' = 2 * ArithmeticDecoder.high d + 1 /\
    ArithmeticDecoder.model d' = ArithmeticDecoder.model d /\
    ArithmeticDecoder.value d'
    = u32 (2 * ArithmeticDecoder.value d + Z.b2z x) /\
    (ibs_inv bs ->
     ibs_inv bs' /\
     (ibs_bits bs = x :: ibs_bits bs'
      \/ (ibs_bits bs = [] /\ ibs_bits bs' = []))).
Proof.
  unfold Int50. intros Hl Hlh Hh Hv. unfold ArithmeticDecoder.shift.
  unfold ArithmeticDecoder.shift_in.
  destruct (IBitStream.get bs) as [r bs'] eqn:Hget.
  assert (E : match r with Some x => Z.b2z x | None => Z.b2z b end
              = Z.b2z (match r with Some x => x | None => b end))
    by (destruct r; reflexivity).
  rewrite E.
  eexists (match r with Some x => x | None => b end), _, bs'.
  split; [reflexivity|].
  cbn [ArithmeticDecoder.low ArithmeticDecoder.high ArithmeticDecoder.model
       ArithmeticDecoder.value].
  rewrite shl1_or1, shl1, shl1_or by lia.
  rewrite !u32_small by lia.
  repeat (split; [reflexivity|]).
  intros Hinv. pose proof (ibs_get bs Hinv) as G.
  destruct (ibs_bits bs) as [|x rest].
  - destruct G as (s' & G1 & G2 & G3). rewrite Hget in G1.
    inversion G1; subst. split; [exact G2|]. right. auto.
  - destruct G as (s' & G1 & G2 & G3). rewrite Hget in G1.
    inversion G1; subst. split; [exact G2|]. left. reflexivity.
Qed.

Lemma expand_zero (W : list bool) : expand 0 W = W.
Proof. destruct W; reflexivity. Qed.

Lemma is_prefix_app (F L T : list bool) :
  is_prefix F L -> is_prefix F (L ++ T).
Proof. intros [T' ->]. exists (T' ++ T). rewrite <- app_assoc. reflexivity. Qed.

Lemma decode_loop_follows n l h p F l' h' p' :
  Renorm n l h p F l' h' p' -> range_ok l h ->
  forall (fuel : nat) (b : bool) (d : ArithmeticDecoder.t)
         (bs : IBitStream.t),
  (n < fuel)%nat ->
  ArithmeticDecoder.low d = l -> ArithmeticDecoder.high d = h ->
  0 <= ArithmeticDecoder.value d ->
  exists d' bs',
    ArithmeticDecoder.decode_loop fuel (Z.b2z b) d bs = Some (d', bs') /\
    ArithmeticDecoder.low d' = l' /\ ArithmeticDecoder.high d' = h' /\
    ArithmeticDecoder.model d' = ArithmeticDecoder.model d /\
    0 <= ArithmeticDecoder.value d' /\
    (l <= ArithmeticDecoder.value d <= h ->
     l' <= ArithmeticDecoder.value d' <= h') /\
    (ibs_inv bs ->
     ibs_inv bs' /\
     forall G W, shape p' G -> window d bs W -> matches p (F ++ G) W ->
                 exists W', window d' bs' W' /\ matches p' G W').
Proof.
  induction 1 as [l h p Hh Hl Hq
                 | n l h p F l' h' p' Hlow R IH
                 | n l h p F l' h' p' Hh Hl R IH
                 | n l h p F l' h' p' Hh Hl Hl2 Hh2 R IH];
    intros Hr fuel b d bs Hfuel Hdl Hdh Hv;
    (destruct fuel as [|fuel]; [lia|]);
    cbn [ArithmeticDecoder.decode_loop]; unfold ArithmeticDecoder.select;
    rewrite Hdl, Hdh; unfold range_ok, MAX_CODE in Hr.
  - (* break *)
    replace (h <? Int50) with false by (symmetry; apply Z.ltb_ge; lia).
    replace (l >=? Int50) with false
      by (symmetry; rewrite Z.geb_leb; apply Z.leb_gt; lia).
    replace ((l >=? Int25) && (h <? Int75)) with false.
    2:{ symmetry. apply andb_false_iff. rewrite Z.geb_leb, Z.leb_gt, Z.ltb_ge.
        lia. }
    exists d, bs. split; [reflexivity|]. split; [exact Hdl|].
    split; [exact Hdh|]. split; [reflexivity|]. split; [exact Hv|].
    split; [auto|].
    intros Hinv. split; [exact Hinv|]. intros G W _ HW HM.
    exists W. auto.
  - (* lower half *)
    replace (h <? Int50) with true by (symmetry; apply Z.ltb_lt; lia).
    destruct (decoder_shift_spec b d bs) as
      (x & d2 & bs2 & E & S1 & S2 & S3 & S4 & S5); try lia.
    rewrite E. rewrite Hdl in S1. rewrite Hdh in S2.
    destruct (IH ltac:(unfold range_ok, MAX_CODE, Int50 in *; lia)
                fuel x d2 bs2 ltac:(lia) S1 S2) as
      (d' & bs' & E' & L1 & L2 & L3 & L4 & L5 & L6).
    { rewrite S4. apply Z.mod_pos_bound. reflexivity. }
    exists d', bs'. split; [exact E'|]. split; [exact L1|].
    split; [exact L2|]. split; [congruence|]. split; [exact L4|].
    pose proof (b2z_range x) as Hx. unfold Int50 in *. split.
    + intros Hval. apply L5. rewrite S4, u32_small by lia. lia.
    + intros Hinv. destruct (S5 Hinv) as (Hinv2 & Hbits).
      destruct (L6 Hinv2) as (Hinv' & Hwin). split; [exact Hinv'|].
      intros G W HG (HW1 & HW2 & HW3) HM.
      cbn [app] in HM. rewrite <- app_assoc in HM.
      apply matches_cons in HM as (W' & -> & HP).
      cbn [length] in HW1. change (skipn 17 (false :: W')) with (skipn 16 W') in HW3.
      rewrite window_head in HW2 by lia. cbn [Z.b2z] in HW2.
      pose proof (bits_val_range (firstn 16 W')) as HX.
      rewrite length_firstn in HX.
      replace (Nat.min 16 (length W')) with 16%nat in HX by lia.
      change (2 ^ Z.of_nat 16) with 65536 in HX.
      destruct (window_advance 16 W' (ibs_bits bs2) x ltac:(lia))
        as (L' & A1 & A2 & A3 & T & ->).
      { rewrite <- HW3. destruct Hbits as [Hb|[Hb1 Hb2]];
          [left; exact Hb|right; split; congruence]. }
      apply (Hwin G (W' ++ T) HG).
      * split; [exact A1|]. split; [|congruence].
        rewrite S4, A2, HW2, u32_small by lia. lia.
      * unfold matches. rewrite expand_zero. apply is_prefix_app, HP.
  - (* upper half *)
    replace (h <? Int50) with false by (symmetry; apply Z.ltb_ge; lia).
    replace (l >=? Int50) with true
      by (symmetry; rewrite Z.geb_leb; apply Z.leb_le; lia).
    unfold Int50 in *.
    set (d1 := ArithmeticDecoder.subtract 65536 d).
    assert (D1 : ArithmeticDecoder.low d1 = l - 65536)
      by (cbn; rewrite Hdl; apply u32_small; lia).
    assert (D2 : ArithmeticDecoder.high d1 = h - 65536)
      by (cbn; rewrite Hdh; apply u32_small; lia).
    assert (D3 : ArithmeticDecoder.value d1
                 = u32 (ArithmeticDecoder.value d - 65536)) by reflexivity.
    assert (D4 : 0 <= ArithmeticDecoder.value d1)
      by (rewrite D3; apply Z.mod_pos_bound; reflexivity).
    destruct (decoder_shift_spec b d1 bs) as
      (x & d2 & bs2 & E & S1 & S2 & S3 & S4 & S5); unfold Int50; try lia.
    rewrite E. rewrite D1 in S1. rewrite D2 in S2.
    destruct (IH ltac:(unfold range_ok, MAX_CODE in *; lia)
                fuel x d2 bs2 ltac:(lia) S1 S2) as
      (d' & bs' & E' & L1 & L2 & L3 & L4 & L5 & L6).
    { rewrite S4. apply Z.mod_pos_bound. reflexivity. }
    exists d', bs'. split; [exact E'|]. split; [exact L1|].
    split; [exact L2|]. split; [rewrite L3, S3; reflexivity|].
    split; [exact L4|].
    pose proof (b2z_range x) as Hx. split.
    + intros Hval. apply L5. rewrite S4, D3.
      rewrite (u32_small (_ - _)) by lia. rewrite u32_small by lia. lia.
    + intros Hinv. destruct (S5 Hinv) as (Hinv2 & Hbits).
      destruct (L6 Hinv2) as (Hinv' & Hwin). split; [exact Hinv'|].
      intros G W HG (HW1 & HW2 & HW3) HM.
      cbn [app] in HM. rewrite <- app_assoc in HM.
      apply matches_cons in HM as (W' & -> & HP).
      cbn [length] in HW1. change (skipn 17 (true :: W')) with (skipn 16 W') in HW3.
      rewrite window_head in HW2 by lia. cbn [Z.b2z] in HW2.
      pose proof (bits_val_range (firstn 16 W')) as HX.
      rewrite length_firstn in HX.
      replace (Nat.min 16 (length W')) with 16%nat in HX by lia.
      change (2 ^ Z.of_nat 16) with 65536 in *.
      destruct (window_advance 16 W' (ibs_bits bs2) x ltac:(lia))
        as (L' & A1 & A2 & A3 & T & ->).
      { rewrite <- HW3. destruct Hbits as [Hb|[Hb1 Hb2]];
          [left; exact Hb|right; split; congruence]. }
      apply (Hwin G (W' ++ T) HG).
      * split; [exact A1|]. split; [|congruence].
        rewrite S4, A2, D3, HW2.
        rewrite (u32_small (_ - _)) by lia. rewrite u32_small by lia. lia.
      * unfold matches. rewrite expand_zero. apply is_prefix_app, HP.
  - (* middle half *)
    replace (h <? Int50) with false by (symmetry; apply Z.ltb_ge; lia).
    replace (l >=? Int50) with false
      by (symmetry; rewrite Z.geb_leb; apply Z.leb_gt; lia).
    replace ((l >=? Int25) && (h <? Int75)) with true.
    2:{ symmetry. apply andb_true_iff. rewrite Z.geb_leb, Z.leb_le, Z.ltb_lt.
        lia. }
    unfold Int25, Int50, Int75 in *.
    set (d1 := ArithmeticDecoder.subtract 32768 d).
    assert (D1 : ArithmeticDecoder.low d1 = l - 32768)
      by (cbn; rewrite Hdl; apply u32_small; lia).
    assert (D2 : ArithmeticDecoder.high d1 = h - 32768)
      by (cbn; rewrite Hdh; apply u32_small; lia).
    assert (D3 : ArithmeticDecoder.value d1
                 = u32 (ArithmeticDecoder.value d - 32768)) by reflexivity.
    assert (D4 : 0 <= ArithmeticDecoder.value d1)
      by (rewrite D3; apply Z.mod_pos_bound; reflexivity).
    destruct (decoder_shift_spec b d1 bs) as
      (x & d2 & bs2 & E & S1 & S2 & S3 & S4 & S5); unfold Int50; try lia.
    rewrite E. rewrite D1 in S1. rewrite D2 in S2.
    destruct (IH ltac:(unfold range_ok, MAX_CODE in *; lia)
                fuel x d2 bs2 ltac:(lia) S1 S2) as
      (d' & bs' & E' & L1 & L2 & L3 & L4 & L5 & L6).
    { rewrite S4. apply Z.mod_pos_bound. reflexivity. }
    exists d', bs'. split; [exact E'|]. split; [exact L1|].
    split; [exact L2|]. split; [rewrite L3, S3; reflexivity|].
    split; [exact L4|].
    pose proof (b2z_range x) as Hx. split.
    + intros Hval. apply L5. rewrite S4, D3.
      rewrite (u32_small (_ - _)) by lia. rewrite u32_small by lia. lia.
    + intros Hinv. destruct (S5 Hinv) as (Hinv2 & Hbits).
      destruct (L6 Hinv2) as (Hinv' & Hwin). split; [exact Hinv'|].
      intros G W HG (HW1 & HW2 & HW3) HM.
      destruct (renorm_shape _ _ _ _ _ _ _ _ G R HG) as (g & F' & HF).
      rewrite HF in HM. rewrite repeat_snoc, <- app_assoc in HM.
      apply matches_cons in HM as (W' & -> & HP).
      cbn [app] in HP. destruct HP as [T ->].
      cbn [app] in HW1, HW2, HW3. cbn [length] in HW1.
      change (skipn 17 (g :: negb g :: F' ++ T))
        with (skipn 15 (F' ++ T)) in HW3.
      rewrite window_head in HW2 by (cbn [length]; lia).
      rewrite window_head in HW2 by lia.
      pose proof (bits_val_range (firstn 15 (F' ++ T))) as HX.
      rewrite length_firstn in HX.
      replace (Nat.min 15 (length (F' ++ T))) with 15%nat in HX by lia.
      change (2 ^ Z.of_nat 16) with 65536 in *.
      change (2 ^ Z.of_nat 15) with 32768 in *.
      destruct (window_advance 15 (F' ++ T) (ibs_bits bs2) x ltac:(lia))
        as (L' & A1 & A2 & A3 & T' & ->).
      { rewrite <- HW3. destruct Hbits as [Hb|[Hb1 Hb2]];
          [left; exact Hb|right; split; congruence]. }
      apply (Hwin G (g :: (F' ++ T) ++ T') HG).
      * split; [cbn [length]; lia|]. split; [|symmetry; exact A3].
        rewrite window_head by lia. rewrite S4, A2, D3, HW2.
        change (2 ^ Z.of_nat 16) with 65536.
        destruct g; cbn [Z.b2z negb];
          rewrite (u32_small (_ - _)) by lia; rewrite u32_small by lia; lia.
      * exists (T ++ T'). rewrite HF. cbn [expand app].
        rewrite <- !app_assoc. reflexivity.
Qed.

(** ** Looking a frequency up *)

Lemma upper_bound_spec (l : list Z) (x : Z) :
  0 <= upper_bound l x <= Z.of_nat (length l) /\
  (forall i, (i < Z.to_nat (upper_bound l x))%nat -> nth i l 0 <= x) /\
  ((Z.to_nat (upper_bound l x) < length l)%nat ->
   x < nth (Z.to_nat (upper_bound l x)) l 0).
Proof.
  induction l as [|y l (IH1 & IH2 & IH3)].
  - cbn. split; [lia|]. split; intros; lia.
  - cbn [upper_bound length]. rewrite Nat2Z.inj_succ.
    destruct (Z.ltb_spec x y) as [Hxy|Hxy].
    + change (Z.to_nat 0) with O. split; [lia|]. split.
      * intros i Hi. lia.
      * intros _. exact Hxy.
    + replace (Z.to_nat (1 + upper_bound l x))
        with (S (Z.to_nat (upper_bound l x))) by lia.
      split; [lia|]. split.
      * intros [|i] Hi; [exact Hxy|]. cbn [nth]. apply IH2. lia.
      * intros Hlt. cbn [nth]. apply IH3. lia.
Qed.

(** The shift stays small enough for the two 32-bit sums to be exact. *)
Definition shift_ok (m : Model) : Prop :=
  - 1025 <= active_symbol_shift m <= 1025.

(** The table position [frequency_symbol] finds. *)
Definition frequency_loc (m : Model) (freq : Z) : Z :=
  let it := upper_bound (ccft_row m (active_dist m)) freq in
  if it =? 0 then 0 else u16 (it - 1).

Lemma frequency_loc_spec (m : Model) (freq : Z) :
  model_ok m -> 0 <= freq < MAX_FREQUENCY ->
  0 <= frequency_loc m freq < NUM_SYMBOLS /\
  ccft_at m (active_dist m) (frequency_loc m freq) <= freq /\
  freq < ccft_at m (active_dist m) (frequency_loc m freq + 1).
Proof.
  intros Hm Hf. pose proof (model_ok_row m Hm) as Hrow.
  unfold frequency_loc, ccft_at.
  set (row := ccft_row m (active_dist m)) in *.
  destruct (upper_bound_spec row freq) as (U1 & U2 & U3).
  destruct Hrow as (Hlen & Hz & Hmax & _).
  rewrite Hlen in U1, U3. unfold MAX_FREQUENCY, NUM_SYMBOLS in *.
  assert (Hpos : 0 < upper_bound row freq).
  { destruct (Z.eq_dec (upper_bound row freq) 0) as [E|]; [|lia].
    rewrite E in U3. specialize (U3 ltac:(simpl; lia)).
    change (Z.to_nat 0) with O in U3. lia. }
  assert (Hlt : upper_bound row freq <= 1025).
  { destruct (Z_le_gt_dec (upper_bound row freq) 1025) as [|Hgt]; [lia|].
    specialize (U2 1025%nat ltac:(lia)). lia. }
  replace (upper_bound row freq =? 0) with false
    by (symmetry; apply Z.eqb_neq; lia).
  rewrite u16_small by lia.
  split; [lia|]. split.
  - apply U2. lia.
  - replace (Z.to_nat (upper_bound row freq - 1 + 1))
      with (Z.to_nat (upper_bound row freq)) by lia.
    apply U3. lia.
Qed.

Lemma frequency_symbol_loc (m : Model) (freq : Z) :
  frequency_symbol m freq =
  u16 (u32 (frequency_loc m freq + NUM_SYMBOLS - active_symbol_shift m)
       mod NUM_SYMBOLS).
Proof. reflexivity. Qed.

(** With the shift in range, [symbol_low_high] reads the position
    [frequency_symbol] has found. *)
Lemma symbol_loc_frequency_symbol (m : Model) (freq : Z) :
  shift_ok m -> 0 <= frequency_loc m freq < NUM_SYMBOLS ->
  0 <= frequency_symbol m freq < NUM_SYMBOLS /\
  symbol_loc m (frequency_symbol m freq) = frequency_loc m freq.
Proof.
  unfold shift_ok, NUM_SYMBOLS. intros Hs Hloc.
  rewrite frequency_symbol_loc. unfold symbol_loc, NUM_SYMBOLS.
  set (loc := frequency_loc m freq) in *.
  set (sh := active_symbol_shift m) in *.
  rewrite (u32_small (loc + 1025 - sh)) by lia.
  pose proof (Z.mod_pos_bound (loc + 1025 - sh) 1025 ltac:(lia)) as Hb.
  rewrite u16_small by lia.
  split; [lia|].
  rewrite (u32_small (_ + 1025)) by lia.
  rewrite u32_small by lia.
  Z.to_euclidean_division_equations. lia.
Qed.

(** The position is an injective function of the symbol. *)
Lemma symbol_loc_inj (m : Model) (s1 s2 : Z) :
  shift_ok m -> 0 <= s1 < NUM_SYMBOLS -> 0 <= s2 < NUM_SYMBOLS ->
  symbol_loc m s1 = symbol_loc m s2 -> s1 = s2.
Proof.
  unfold shift_ok, symbol_loc, NUM_SYMBOLS. intros Hs H1 H2.
  rewrite !(u32_small (_ + 1025)) by lia.
  rewrite !u32_small by lia.
  Z.to_euclidean_division_equations. lia.
Qed.

(** Finding a frequency inside a symbol's interval yields that symbol. *)
Lemma frequency_symbol_of_interval (m : Model) (s freq : Z) :
  model_ok m -> shift_ok m -> 0 <= s < NUM_SYMBOLS ->
  fst (symbol_low_high m s) <= freq < snd (symbol_low_high m s) ->
  frequency_symbol m freq = s.
Proof.
  intros Hm Hs Hsym Hint.
  pose proof (symbol_low_high_ok m s Hm) as (L0 & L1 & L2).
  assert (Hf : 0 <= freq < MAX_FREQUENCY) by lia.
  pose proof (frequency_loc_spec m freq Hm Hf) as (F1 & F2 & F3).
  pose proof (symbol_loc_frequency_symbol m freq Hs F1) as (S1 & S2).
  apply (symbol_loc_inj m); try assumption.
  rewrite S2. rewrite symbol_low_high_loc in Hint. cbn [fst snd] in Hint.
  pose proof (symbol_loc_range m s) as Hl. unfold NUM_SYMBOLS in *.
  pose proof (model_ok_row m Hm) as Hrow. unfold ccft_at in *.
  set (row := ccft_row m (active_dist m)) in *.
  destruct (Z.lt_trichotomy (frequency_loc m freq) (symbol_loc m s))
    as [Hlt|[Heq|Hgt]]; [exfalso|exact Heq|exfalso].
  - pose proof (row_ok_le row (Z.to_nat (frequency_loc m freq + 1))
                  (Z.to_nat (symbol_loc m s)) Hrow ltac:(lia)). lia.
  - pose proof (row_ok_le row (Z.to_nat (symbol_loc m s + 1))
                  (Z.to_nat (frequency_loc m freq)) Hrow ltac:(lia)). lia.
Qed.

(** ** The scaled value and the narrowed range *)

Lemma backward_value_eq (v l h : Z) :
  coder_inv l h -> l <= v <= h ->
  backward_value v l h = ((v - l + 1) * 32767 - 1) / (h - l + 1).
Proof.
  unfold coder_inv, MAX_CODE, Int25, backward_value. intros Hr Hv.
  rewrite (u32_small (h - l)) by lia.
  rewrite (u32_small (h - l + 1)) by lia.
  rewrite (u32_small (v - l)) by lia.
  rewrite (u32_small (v - l + 1)) by lia.
  rewrite (u32_small ((v - l + 1) * 32767)) by lia.
  rewrite u32_small by lia. reflexivity.
Qed.

Lemma backward_value_range (v l h : Z) :
  coder_inv l h -> l <= v <= h ->
  0 <= backward_value v l h < MAX_FREQUENCY.
Proof.
  intros Hr Hv. rewrite backward_value_eq by assumption.
  unfold coder_inv, MAX_CODE, Int25, MAX_FREQUENCY in *. split.
  - apply Z.div_pos; lia.
  - apply Z.div_lt_upper_bound; nia.
Qed.

Lemma div_le_iff (a b q : Z) : 0 < b -> (q <= a / b <-> b * q <= a).
Proof.
  intros Hb. split; intros H.
  - pose proof (Z.mul_div_le a b Hb). nia.
  - apply Z.div_le_lower_bound; assumption.
Qed.

Lemma div_lt_iff (a b q : Z) : 0 < b -> (a / b < q <-> a < b * q).
Proof.
  intros Hb. split; intros H.
  - pose proof (Z.mul_succ_div_gt a b Hb). nia.
  - apply Z.div_lt_upper_bound; assumption.
Qed.

(** The value lies in the narrowed range of a symbol exactly when its
    scaled value lies in the symbol's frequency interval. *)
Lemma scaled_in_interval_iff (v l h sl sh : Z) :
  coder_inv l h -> l <= v <= h ->
  0 <= sl -> sl < sh -> sh <= MAX_FREQUENCY ->
  (sl <= backward_value v l h < sh <->
   fst (forward_range l h sl sh) <= v <= snd (forward_range l h sl sh)).
Proof.
  intros Hr Hv Hsl Hlt Hsh.
  rewrite backward_value_eq, forward_range_eq by assumption.
  cbn [fst snd].
  unfold coder_inv, MAX_CODE, Int25, MAX_FREQUENCY in *.
  assert (Hr0 : 0 < h - l + 1) by lia.
  pose proof (div_le_iff ((v - l + 1) * 32767 - 1) (h - l + 1) sl Hr0) as E1.
  pose proof (div_lt_iff ((v - l + 1) * 32767 - 1) (h - l + 1) sh Hr0) as E2.
  pose proof (div_lt_iff ((h - l + 1) * sl) 32767 (v - l + 1) ltac:(lia))
    as E3.
  pose proof (div_le_iff ((h - l + 1) * sh) 32767 (v - l + 1) ltac:(lia))
    as E4.
  split; intros [H1 H2]; split; lia.
Qed.

(** ** One call of [encode], one call of [decode] *)

(** The range [encode] and [decode] narrow to for a symbol. *)
Definition narrowed (m : Model) (l h symbol : Z) : Z * Z :=
  forward_range l h (fst (symbol_low_high m symbol))
    (snd (symbol_low_high m symbol)).

Lemma narrowed_inside (m : Model) (l h symbol : Z) :
  model_ok m -> coder_inv l h ->
  l <= fst (narrowed m l h symbol)
  /\ fst (narrowed m l h symbol) <= snd (narrowed m l h symbol)
  /\ snd (narrowed m l h symbol) <= h.
Proof.
  intros Hm Hr. unfold narrowed.
  pose proof (symbol_low_high_ok m symbol Hm) as (L0 & L1 & L2).
  pose proof (forward_range_narrows l h _ _ Hr L0 L1 L2) as H.
  destruct (forward_range l h _ _) as [l1 h1]. exact H.
Qed.

Lemma narrowed_range_ok (m : Model) (l h symbol : Z) :
  model_ok m -> coder_inv l h ->
  range_ok (fst (narrowed m l h symbol)) (snd (narrowed m l h symbol)).
Proof.
  intros Hm Hr. pose proof (narrowed_inside m l h symbol Hm Hr).
  unfold coder_inv, range_ok in *. lia.
Qed.

Lemma encode_spec (hdr : nat) (symbol : Z) (e : ArithmeticEncoder.t)
    (bs : OBitStream.t) :
  coder_inv (ArithmeticEncoder.low e) (ArithmeticEncoder.high e) ->
  model_ok (ArithmeticEncoder.model e) ->
  exists e' bs' n F,
    ArithmeticEncoder.encode symbol e bs = Some (e', bs') /\
    (n < renorm_fuel)%nat /\
    Renorm n
      (fst (narrowed (ArithmeticEncoder.model e) (ArithmeticEncoder.low e)
              (ArithmeticEncoder.high e) symbol))
      (snd (narrowed (ArithmeticEncoder.model e) (ArithmeticEncoder.low e)
              (ArithmeticEncoder.high e) symbol))
      (ArithmeticEncoder.pending_bits e) F
      (ArithmeticEncoder.low e') (ArithmeticEncoder.high e')
      (ArithmeticEncoder.pending_bits e') /\
    coder_inv (ArithmeticEncoder.low e') (ArithmeticEncoder.high e') /\
    ArithmeticEncoder.model e' = ArithmeticEncoder.model e /\
    (obs_inv hdr bs ->
     obs_inv hdr bs' /\
     obs_bits hdr bs' = obs_bits hdr bs ++ F /\
     firstn hdr (OBitStream.outputStream bs')
     = firstn hdr (OBitStream.outputStream bs)).
Proof.
  intros Hr Hm.
  pose proof (narrowed_range_ok _ _ _ symbol Hm Hr) as Hn.
  unfold ArithmeticEncoder.encode.
  cbn [ArithmeticEncoder.model ArithmeticEncoder.low ArithmeticEncoder.high].
  unfold narrowed in *.
  destruct (symbol_low_high (ArithmeticEncoder.model e) symbol) as [sl sh].
  cbn [fst snd] in *.
  destruct (forward_range (ArithmeticEncoder.low e) (ArithmeticEncoder.high e)
              sl sh) as [l1 h1].
  cbn [fst snd] in *.
  match goal with |- context [ArithmeticEncoder.encode_loop _ ?e1 bs] =>
    destruct (encode_loop_renorm hdr renorm_fuel e1 bs) as
      (e' & bs' & n & F & E & Hlt & R & M & O) end.
  { exact Hn. }
  { cbn [ArithmeticEncoder.set_range ArithmeticEncoder.low
         ArithmeticEncoder.high].
    unfold range_ok in Hn. change (2 ^ Z.of_nat renorm_fuel) with 4294967296.
    lia. }
  exists e', bs', n, F. split; [exact E|]. split; [exact Hlt|].
  split; [exact R|]. split; [|split; [exact M|exact O]].
  eapply renorm_post; [exact R|exact Hn].
Qed.

(** Every range has a renormalization, of fewer iterations than the fuel. *)
Lemma renorm_exists (l h : Z) (p : nat) :
  range_ok l h ->
  exists n F l' h' p', (n < renorm_fuel)%nat /\ Renorm n l h p F l' h' p'.
Proof.
  intros Hr.
  destruct (encode_loop_renorm 0 renorm_fuel
              (ArithmeticEncoder.mk (Model_init []) 0 0 l h p)
              (OBitStream.new [])) as (e' & bs' & n & F & _ & Hlt & R & _).
  { exact Hr. }
  { cbn. unfold range_ok in Hr. lia. }
  cbn in R. eauto 10.
Qed.

(** [decode], once the symbol it finds is known. *)
Lemma decode_spec (b : bool) (d : ArithmeticDecoder.t) (bs : IBitStream.t)
    (p : nat) n F l' h' p' :
  coder_inv (ArithmeticDecoder.low d) (ArithmeticDecoder.high d) ->
  model_ok (ArithmeticDecoder.model d) ->
  0 <= ArithmeticDecoder.value d ->
  let symbol :=
    frequency_symbol (ArithmeticDecoder.model d)
      (u16 (backward_value (ArithmeticDecoder.value d)
              (ArithmeticDecoder.low d) (ArithmeticDecoder.high d))) in
  let r := narrowed (ArithmeticDecoder.model d) (ArithmeticDecoder.low d)
                    (ArithmeticDecoder.high d) symbol in
  Renorm n (fst r) (snd r) p F l' h' p' ->
  (n < renorm_fuel)%nat ->
  exists d' bs',
    ArithmeticDecoder.decode (Z.b2z b) d bs = Some (symbol, d', bs') /\
    ArithmeticDecoder.low d' = l' /\ ArithmeticDecoder.high d' = h' /\
    ArithmeticDecoder.model d' = ArithmeticDecoder.model d /\
    0 <= ArithmeticDecoder.value d' /\
    (fst r <= ArithmeticDecoder.value d <= snd r ->
     l' <= ArithmeticDecoder.value d' <= h') /\
    (ibs_inv bs ->
     ibs_inv bs' /\
     forall G W, shape p' G -> window d bs W -> matches p (F ++ G) W ->
                 exists W', window d' bs' W' /\ matches p' G W').
Proof.
  intros Hr Hm Hv symbol r R Hn.
  pose proof (narrowed_range_ok _ _ _ symbol Hm Hr) as Hrange.
  fold r in Hrange.
  unfold ArithmeticDecoder.decode. fold symbol.
  unfold narrowed in r.
  destruct (symbol_low_high (ArithmeticDecoder.model d) symbol) as [sl sh].
  cbn [fst snd] in r.
  destruct (forward_range (ArithmeticDecoder.low d) (ArithmeticDecoder.high d)
              sl sh) as [l1 h1] eqn:Efr.
  subst r. cbn [fst snd] in *.
  match goal with |- context [ArithmeticDecoder.decode_loop _ _ ?d1 bs] =>
    destruct (decode_loop_follows _ _ _ _ _ _ _ _ R Hrange renorm_fuel b d1 bs
                Hn eq_refl eq_refl Hv) as
      (d' & bs' & E & L1 & L2 & L3 & L4 & L5 & L6) end.
  exists d', bs'. rewrite E.
  split; [reflexivity|]. split; [exact L1|]. split; [exact L2|].
  split; [exact L3|]. split; [exact L4|]. split; [exact L5|].
  intros Hinv. destruct (L6 Hinv) as (I1 & I2). split; [exact I1|].
  intros G W HG HW HM. apply (I2 G W HG); [|exact HM].
  exact HW.
Qed.

(** After the loop no rule applies. *)
Lemma renorm_final n l h p F l' h' p' :
  Renorm n l h p F l' h' p' ->
  Int50 <= h' /\ l' < Int50 /\ (l' < Int25 \/ Int75 <= h').
Proof. induction 1; auto. Qed.

(** The two bits [flush] starts with pin the window's value inside the
    final range. *)
Lemma flush_bounded (l h : Z) (p : nat) :
  Int50 <= h -> l < Int50 -> (l < Int25 \/ Int75 <= h) ->
  let g := negb (l <? Int25) in
  shape p (g :: repeat (negb g) (S p)) /\
  bounded l h p (g :: repeat (negb g) (S p)).
Proof.
  intros Hh Hl Hq g. split.
  - exists g, [negb g]. rewrite repeat_snoc. reflexivity.
  - intros W HW HM. rewrite repeat_snoc in HM.
    apply matches_cons in HM as (W' & -> & [T ->]).
    cbn [app length] in *.
    rewrite window_head by (cbn [length]; lia).
    rewrite window_head by lia.
    pose proof (bits_val_range (firstn 15 T)) as HX.
    rewrite length_firstn in HX.
    replace (Nat.min 15 (length T)) with 15%nat in HX by lia.
    change (2 ^ Z.of_nat 16) with 65536.
    change (2 ^ Z.of_nat 15) with 32768 in *.
    subst g. unfold Int25, Int50, Int75 in *.
    destruct (Z.ltb_spec l 32768); cbn [negb Z.b2z]; lia.
Qed.

Lemma bounded_widen (l h l1 h1 : Z) (p : nat) (F : list bool) :
  l <= l1 -> h1 <= h -> bounded l1 h1 p F -> bounded l h p F.
Proof. intros Hl Hh HB W HW HM. specialize (HB W HW HM). lia. Qed.

(** ** Encoding a list of symbols, decoding it back *)

(** The loop of [encodeStream] once the symbols are read. *)
Fixpoint encode_symbols (symbols : list Z) (e : ArithmeticEncoder.t)
    (bs : OBitStream.t) : option (ArithmeticEncoder.t * OBitStream.t) :=
  match symbols with
  | [] => Some (e, bs)
  | s :: rest =>
      match ArithmeticEncoder.encode s e bs with
      | None => None
      | Some (e1, bs1) =>
          encode_symbols rest
            (ArithmeticEncoder.set_model e1
               (update_state (ArithmeticEncoder.model e1) s)) bs1
      end
  end.

(** The loop, the stop symbol and the encoder's flush. *)
Definition encode_message (symbols : list Z) (e : ArithmeticEncoder.t)
    (bs : OBitStream.t) : option (ArithmeticEncoder.t * OBitStream.t) :=
  match encode_symbols symbols e bs with
  | None => None
  | Some (e1, bs1) =>
      match ArithmeticEncoder.encode (NUM_SYMBOLS - 1) e1 bs1 with
      | None => None
      | Some (e2, bs2) => Some (ArithmeticEncoder.flush e2 bs2)
      end
  end.

Lemma encode_message_cons (s : Z) (rest : list Z) (e : ArithmeticEncoder.t)
    (bs : OBitStream.t) :
  encode_message (s :: rest) e bs =
  match ArithmeticEncoder.encode s e bs with
  | None => None
  | Some (e1, bs1) =>
      encode_message rest
        (ArithmeticEncoder.set_model e1
           (update_state (ArithmeticEncoder.model e1) s)) bs1
  end.
Proof.
  unfold encode_message. cbn [encode_symbols].
  destruct (ArithmeticEncoder.encode s e bs) as [[e1 bs1]|]; reflexivity.
Qed.

(** What one observes of a coder after a call: low, high and the model. *)
Definition snapshot : Type := Z * Z * Model.

Definition encoder_snapshot (e : ArithmeticEncoder.t) : snapshot :=
  (ArithmeticEncoder.low e, ArithmeticEncoder.high e,
   ArithmeticEncoder.model e).

Definition decoder_snapshot (d : ArithmeticDecoder.t) : snapshot :=
  (ArithmeticDecoder.low d, ArithmeticDecoder.high d,
   ArithmeticDecoder.model d).

(** The snapshots after each [encode] call of [encodeStream]: one per
    symbol, and one for the stop symbol. *)
Fixpoint encoder_trace (symbols : list Z) (e : ArithmeticEncoder.t)
    (bs : OBitStream.t) : list snapshot :=
  match symbols with
  | [] =>
      match ArithmeticEncoder.encode (NUM_SYMBOLS - 1) e bs with
      | None => []
      | Some (e1, _) => [encoder_snapshot e1]
      end
  | s :: rest =>
      match ArithmeticEncoder.encode s e bs with
      | None => []
      | Some (e1, bs1) =>
          encoder_snapshot e1
          :: encoder_trace rest
               (ArithmeticEncoder.set_model e1
                  (update_state (ArithmeticEncoder.model e1) s)) bs1
      end
  end.

(** The snapshots after each [decode] call of [decodeStream]. *)
Fixpoint decoder_trace (fuel : nat) (junk : nat -> Z) (k : nat)
    (d : ArithmeticDecoder.t) (bs : IBitStream.t) : list snapshot :=
  match fuel with
  | O => []
  | S fuel' =>
      match ArithmeticDecoder.decode (junk k) d bs with
      | None => []
      | Some (symbol, d1, bs1) =>
          decoder_snapshot d1
          :: (if symbol =? NUM_SYMBOLS - 1 then []
              else decoder_trace fuel' junk (S k)
                     (ArithmeticDecoder.set_model d1
                        (update_state (ArithmeticDecoder.model d1) symbol))
                     bs1)
      end
  end.

(** The shift is in range in the model and stays so along the symbols. *)
Fixpoint shifts_ok (m : Model) (symbols : list Z) : Prop :=
  shift_ok m /\
  match symbols with
  | [] => True
  | s :: rest => shifts_ok (update_state m s) rest
  end.

Lemma shifts_ok_head (m : Model) (symbols : list Z) :
  shifts_ok m symbols -> shift_ok m.
Proof. destruct symbols; intros [H _]; exact H. Qed.

(** Every iteration of the renormalization loop doubles the width of the
    range and accounts for one bit, emitted or pending. *)
Lemma renorm_doubles n l h p F l' h' p' :
  Renorm n l h p F l' h' p' ->
  h' - l' + 1 = (h - l + 1) * 2 ^ Z.of_nat n /\
  (length F + p' = p + n)%nat.
Proof.
  induction 1 as [l h p _ _ _
                 |n l h p F l' h' p' _ _ [IH1 IH2]
                 |n l h p F l' h' p' _ _ _ [IH1 IH2]
                 |n l h p F l' h' p' _ _ _ _ _ [IH1 IH2]].
  - change (2 ^ Z.of_nat 0) with 1. cbn [length]. lia.
  - rewrite Nat2Z.inj_succ, Z.pow_succ_r by lia. split; [lia|].
    cbn [length]. rewrite length_app, repeat_length. lia.
  - rewrite Nat2Z.inj_succ, Z.pow_succ_r by lia. split; [lia|].
    cbn [length]. rewrite length_app, repeat_length. lia.
  - rewrite Nat2Z.inj_succ, Z.pow_succ_r by lia. split; [lia|]. lia.
Qed.

(** ** A stream that has not run out

    [get] fails only on a stream that has run out, which leaves the
    [istream] failed for good.  A decoder run that ends on a stream still
    good has therefore never read [b] before [get] had set it. *)

Definition ibs_good (s : IBitStream.t) : Prop :=
  good (IBitStream.inputStream s) = true.

Lemma get_good_back (s : IBitStream.t) :
  ibs_good (snd (IBitStream.get s)) ->
  ibs_good s /\ exists x, fst (IBitStream.get s) = Some x.
Proof.
  unfold ibs_good, IBitStream.get.
  destruct (IBitStream.inputBufferPos s =? 8).
  - unfold IBitStream.fillInputBuffer, istream_read.
    destruct (good (IBitStream.inputStream s)) eqn:Hg.
    + destruct (1 <=? length (avail (IBitStream.inputStream s)))%nat;
        cbn [good fst snd IBitStream.inputStream]; intros H;
        [split; [reflexivity|eauto]|discriminate].
    + rewrite Hg. cbn [fst snd IBitStream.inputStream]. intros H.
      rewrite Hg in H. discriminate.
  - cbn [fst snd IBitStream.inputStream]. intros H. split; [exact H|eauto].
Qed.

Lemma get_stays_good (s : IBitStream.t) :
  ibs_inv s -> ibs_good s -> ibs_bits s <> [] ->
  ibs_good (snd (IBitStream.get s)).
Proof.
  unfold ibs_good, ibs_inv, ibs_bits, IBitStream.get.
  destruct s as [[av gd] buf pos].
  cbn [IBitStream.inputBufferPos IBitStream.inputBuffer
       IBitStream.inputStream avail good].
  intros Hinv -> Hne.
  destruct (Z.eqb_spec pos 8) as [->|Hpos].
  - change (skipn (Z.to_nat 8) (byte_bits buf)) with (@nil bool) in Hne.
    cbn [app] in Hne.
    unfold IBitStream.fillInputBuffer, istream_read.
    cbn [IBitStream.inputStream avail good].
    destruct av as [|x av]; [exfalso; apply Hne; reflexivity|].
    reflexivity.
  - reflexivity.
Qed.

(** Reading a bit from a stream that has one. *)
Lemma shift_in_consumes (b v : Z) (bs : IBitStream.t) :
  ibs_inv bs -> ibs_good bs -> (1 <= length (ibs_bits bs))%nat ->
  exists x bs',
    ArithmeticDecoder.shift_in b v bs
    = (Z.b2z x, u32 (Z.lor (Z.shiftl v 1) (Z.b2z x)), bs') /\
    ibs_inv bs' /\ ibs_good bs' /\ ibs_bits bs = x :: ibs_bits bs'.
Proof.
  intros Hinv Hg Hlen.
  pose proof (get_stays_good bs Hinv Hg) as Hg'.
  pose proof (ibs_get bs Hinv) as G.
  unfold ArithmeticDecoder.shift_in.
  destruct (ibs_bits bs) as [|x rest]; [cbn [length] in Hlen; lia|].
  destruct G as (s' & G1 & G2 & G3). rewrite G1 in *.
  exists x, s'. split; [reflexivity|]. split; [exact G2|].
  split; [apply Hg'; discriminate|]. rewrite G3. reflexivity.
Qed.

(** A read that leaves the stream good did not use [b]. *)
Lemma shift_in_indep (b b' v : Z) (bs : IBitStream.t) :
  ibs_good (snd (ArithmeticDecoder.shift_in b v bs)) ->
  ArithmeticDecoder.shift_in b' v bs = ArithmeticDecoder.shift_in b v bs /\
  ibs_good bs.
Proof.
  unfold ArithmeticDecoder.shift_in.
  pose proof (get_good_back bs) as H.
  destruct (IBitStream.get bs) as [r bs']. cbn [fst snd] in *.
  intros Hg. destruct (H Hg) as (Hgood & x & ->). auto.
Qed.

Lemma shift_indep (b b' : Z) (d : ArithmeticDecoder.t) (bs : IBitStream.t) :
  ibs_good (snd (ArithmeticDecoder.shift b d bs)) ->
  ArithmeticDecoder.shift b' d bs = ArithmeticDecoder.shift b d bs /\
  ibs_good bs.
Proof.
  unfold ArithmeticDecoder.shift.
  pose proof (shift_in_indep b b' (ArithmeticDecoder.value d) bs) as H.
  destruct (ArithmeticDecoder.shift_in b (ArithmeticDecoder.value d) bs)
    as [[y v] bs1].
  cbn [snd] in *. intros Hg. destruct (H Hg) as [-> Hgood]. auto.
Qed.

Lemma decode_loop_indep (fuel : nat) :
  forall (b b' : Z) (d : ArithmeticDecoder.t) (bs : IBitStream.t)
         (d' : ArithmeticDecoder.t) (bs' : IBitStream.t),
  ArithmeticDecoder.decode_loop fuel b d bs = Some (d', bs') ->
  ibs_good bs' ->
  ArithmeticDecoder.decode_loop fuel b' d bs = Some (d', bs') /\ ibs_good bs.
Proof.
  induction fuel as [|fuel IH]; intros b b' d bs d' bs' E Hg;
    [discriminate|].
  cbn [ArithmeticDecoder.decode_loop] in *.
  destruct (ArithmeticDecoder.select d) as [d1|].
  - pose proof (shift_indep b b' d1 bs) as Hs.
    destruct (ArithmeticDecoder.shift b d1 bs) as [[b1 d2] bs1].
    cbn [snd] in Hs.
    destruct (IH b1 b1 d2 bs1 d' bs' E Hg) as [_ Hg1].
    destruct (Hs Hg1) as [-> Hgood]. auto.
  - injection E as <- <-. auto.
Qed.

Lemma decode_indep (b b' : Z) (d : ArithmeticDecoder.t) (bs : IBitStream.t)
    (s : Z) (d' : ArithmeticDecoder.t) (bs' : IBitStream.t) :
  ArithmeticDecoder.decode b d bs = Some (s, d', bs') ->
  ibs_good bs' ->
  ArithmeticDecoder.decode b' d bs = Some (s, d', bs') /\ ibs_good bs.
Proof.
  unfold ArithmeticDecoder.decode.
  destruct (symbol_low_high _ _) as [sl sh].
  destruct (forward_range _ _ sl sh) as [l h].
  destruct (ArithmeticDecoder.decode_loop renorm_fuel b _ bs)
    as [[d1 bs1]|] eqn:E; [|discriminate].
  intros H Hg. injection H as <- <- <-.
  destruct (decode_loop_indep _ b b' _ _ _ _ E Hg) as [-> Hgood]. auto.
Qed.

Lemma decode_symbols_indep (fuel : nat) :
  forall (junk junk' : nat -> Z) (k : nat) (d : ArithmeticDecoder.t)
         (bs : IBitStream.t) (out : ostream)
         (d' : ArithmeticDecoder.t) (bs' : IBitStream.t) (out' : ostream),
  decode_symbols fuel junk k d bs out = Ok (d', bs', out') ->
  ibs_good bs' ->
  decode_symbols fuel junk' k d bs out = Ok (d', bs', out') /\ ibs_good bs.
Proof.
  induction fuel as [|fuel IH]; intros junk junk' k d bs out d' bs' out' E Hg;
    [discriminate|].
  cbn [decode_symbols] in *.
  destruct (ArithmeticDecoder.decode (junk k) d bs) as [[[s d1] bs1]|] eqn:E1;
    [|discriminate].
  destruct (s =? NUM_SYMBOLS - 1) eqn:Hs.
  - injection E as <- <- <-.
    destruct (decode_indep _ (junk' k) _ _ _ _ _ E1 Hg) as [-> Hgood].
    rewrite Hs. auto.
  - destruct (IH junk junk' _ _ _ _ _ _ _ E Hg) as [E' Hg1].
    destruct (decode_indep _ (junk' k) _ _ _ _ _ E1 Hg1) as [-> Hgood].
    rewrite Hs. auto.
Qed.

(** The bits left in a stream. *)
Definition ibs_left (s : IBitStream.t) : nat := length (ibs_bits s).

Lemma decoder_shift_consumes (b : Z) (d : ArithmeticDecoder.t)
    (bs : IBitStream.t) :
  0 <= ArithmeticDecoder.low d ->
  ArithmeticDecoder.low d <= ArithmeticDecoder.high d ->
  ArithmeticDecoder.high d < Int50 ->
  ibs_inv bs -> ibs_good bs -> (1 <= ibs_left bs)%nat ->
  exists y d' bs',
    ArithmeticDecoder.shift b d bs = (y, d', bs') /\
    ArithmeticDecoder.low d' = 2 * ArithmeticDecoder.low d /\
    ArithmeticDecoder.high d' = 2 * ArithmeticDecoder.high d + 1 /\
    ArithmeticDecoder.model d' = ArithmeticDecoder.model d /\
    ibs_inv bs' /\ ibs_good bs' /\ S (ibs_left bs') = ibs_left bs.
Proof.
  unfold Int50, ibs_left. intros Hl Hlh Hh Hinv Hg Hlen.
  unfold ArithmeticDecoder.shift.
  destruct (shift_in_consumes b (ArithmeticDecoder.value d) bs Hinv Hg Hlen)
    as (x & bs' & E & Hinv' & Hg' & Hbits).
  rewrite E. eexists _, _, bs'. split; [reflexivity|].
  cbn [ArithmeticDecoder.low ArithmeticDecoder.high ArithmeticDecoder.model].
  rewrite shl1_or1, shl1 by lia. rewrite !u32_small by lia.
  rewrite Hbits. cbn [length]. auto 10.
Qed.

(** With enough bits left, the decoder's loop reads one bit per iteration
    of the renormalization, whatever [b] holds. *)
Lemma decode_loop_consumes n l h p F l' h' p' :
  Renorm n l h p F l' h' p' -> range_ok l h ->
  forall (fuel : nat) (b : Z) (d : ArithmeticDecoder.t) (bs : IBitStream.t),
  (n < fuel)%nat ->
  ArithmeticDecoder.low d = l -> ArithmeticDecoder.high d = h ->
  ibs_inv bs -> ibs_good bs -> (n <= ibs_left bs)%nat ->
  exists d' bs',
    ArithmeticDecoder.decode_loop fuel b d bs = Some (d', bs') /\
    ibs_inv bs' /\ ibs_good bs' /\ (ibs_left bs' + n = ibs_left bs)%nat.
Proof.
  induction 1 as [l h p Hh Hl Hq
                 | n l h p F l' h' p' Hlow R IH
                 | n l h p F l' h' p' Hh Hl R IH
                 | n l h p F l' h' p' Hh Hl Hl2 Hh2 R IH];
    intros Hr fuel b d bs Hfuel Hdl Hdh Hinv Hg Hlen;
    (destruct fuel as [|fuel]; [lia|]);
    cbn [ArithmeticDecoder.decode_loop]; unfold ArithmeticDecoder.select;
    rewrite Hdl, Hdh; unfold range_ok, MAX_CODE in Hr.
  - replace (h <? Int50) with false by (symmetry; apply Z.ltb_ge; lia).
    replace (l >=? Int50) with false
      by (symmetry; rewrite Z.geb_leb; apply Z.leb_gt; lia).
    replace ((l >=? Int25) && (h <? Int75)) with false.
    2:{ symmetry. apply andb_false_iff. rewrite Z.geb_leb, Z.leb_gt, Z.ltb_ge.
        lia. }
    exists d, bs. split; [reflexivity|]. split; [exact Hinv|].
    split; [exact Hg|lia].
  - replace (h <? Int50) with true by (symmetry; apply Z.ltb_lt; lia).
    destruct (decoder_shift_consumes b d bs) as
      (y & d2 & bs2 & E & S1 & S2 & S3 & I2 & G2 & A2); try lia;
      try assumption.
    rewrite E. rewrite Hdl in S1. rewrite Hdh in S2.
    destruct (IH ltac:(unfold range_ok, MAX_CODE, Int50 in *; lia)
                fuel y d2 bs2 ltac:(lia) S1 S2 I2 G2 ltac:(lia)) as
      (d' & bs' & E' & I' & G' & A').
    exists d', bs'. split; [exact E'|]. split; [exact I'|].
    split; [exact G'|lia].
  - replace (h <? Int50) with false by (symmetry; apply Z.ltb_ge; lia).
    replace (l >=? Int50) with true
      by (symmetry; rewrite Z.geb_leb; apply Z.leb_le; lia).
    unfold Int50 in *.
    set (d1 := ArithmeticDecoder.subtract 65536 d).
    assert (D1 : ArithmeticDecoder.low d1 = l - 65536)
      by (cbn; rewrite Hdl; apply u32_small; lia).
    assert (D2 : ArithmeticDecoder.high d1 = h - 65536)
      by (cbn; rewrite Hdh; apply u32_small; lia).
    destruct (decoder_shift_consumes b d1 bs) as
      (y & d2 & bs2 & E & S1 & S2 & S3 & I2 & G2 & A2); unfold Int50;
      try lia; try assumption.
    rewrite E. rewrite D1 in S1. rewrite D2 in S2.
    destruct (IH ltac:(unfold range_ok, MAX_CODE in *; lia)
                fuel y d2 bs2 ltac:(lia) S1 S2 I2 G2 ltac:(lia)) as
      (d' & bs' & E' & I' & G' & A').
    exists d', bs'. split; [exact E'|]. split; [exact I'|].
    split; [exact G'|lia].
  - replace (h <? Int50) with false by (symmetry; apply Z.ltb_ge; lia).
    replace (l >=? Int50) with false
      by (symmetry; rewrite Z.geb_leb; apply Z.leb_gt; lia).
    replace ((l >=? Int25) && (h <? Int75)) with true.
    2:{ symmetry. apply andb_true_iff. rewrite Z.geb_leb, Z.leb_le, Z.ltb_lt.
        lia. }
    unfold Int25, Int50, Int75 in *.
    set (d1 := ArithmeticDecoder.subtract 32768 d).
    assert (D1 : ArithmeticDecoder.low d1 = l - 32768)
      by (cbn; rewrite Hdl; apply u32_small; lia).
    assert (D2 : ArithmeticDecoder.high d1 = h - 32768)
      by (cbn; rewrite Hdh; apply u32_small; lia).
    destruct (decoder_shift_consumes b d1 bs) as
      (y & d2 & bs2 & E & S1 & S2 & S3 & I2 & G2 & A2); unfold Int50;
      try lia; try assumption.
    rewrite E. rewrite D1 in S1. rewrite D2 in S2.
    destruct (IH ltac:(unfold range_ok, MAX_CODE in *; lia)
                fuel y d2 bs2 ltac:(lia) S1 S2 I2 G2 ltac:(lia)) as
      (d' & bs' & E' & I' & G' & A').
    exists d', bs'. split; [exact E'|]. split; [exact I'|].
    split; [exact G'|lia].
Qed.

(** One [decode] call that has the bits it needs. *)
Lemma decode_consumes (b : Z) (d : ArithmeticDecoder.t) (bs : IBitStream.t)
    (p : nat) n F l' h' p' :
  coder_inv (ArithmeticDecoder.low d) (ArithmeticDecoder.high d) ->
  model_ok (ArithmeticDecoder.model d) ->
  let symbol :=
    frequency_symbol (ArithmeticDecoder.model d)
      (u16 (backward_value (ArithmeticDecoder.value d)
              (ArithmeticDecoder.low d) (ArithmeticDecoder.high d))) in
  let r := narrowed (ArithmeticDecoder.model d) (ArithmeticDecoder.low d)
                    (ArithmeticDecoder.high d) symbol in
  Renorm n (fst r) (snd r) p F l' h' p' ->
  (n < renorm_fuel)%nat ->
  ibs_inv bs -> ibs_good bs -> (n <= ibs_left bs)%nat ->
  exists d' bs',
    ArithmeticDecoder.decode b d bs = Some (symbol, d', bs') /\
    ibs_inv bs' /\ ibs_good bs' /\ (ibs_left bs' + n = ibs_left bs)%nat.
Proof.
  intros Hr Hm symbol r R Hn Hinv Hg Hlen.
  pose proof (narrowed_range_ok _ _ _ symbol Hm Hr) as Hrange.
  fold r in Hrange.
  unfold ArithmeticDecoder.decode. fold symbol.
  unfold narrowed in r.
  destruct (symbol_low_high (ArithmeticDecoder.model d) symbol) as [sl sh].
  cbn [fst snd] in r.
  destruct (forward_range (ArithmeticDecoder.low d) (ArithmeticDecoder.high d)
              sl sh) as [l1 h1] eqn:Efr.
  subst r. cbn [fst snd] in *.
  match goal with |- context [ArithmeticDecoder.decode_loop _ _ ?d1 bs] =>
    destruct (decode_loop_consumes _ _ _ _ _ _ _ _ R Hrange renorm_fuel b d1
                bs Hn eq_refl eq_refl Hinv Hg Hlen) as
      (d' & bs' & E & I' & G' & A') end.
  exists d', bs'. rewrite E. auto.
Qed.

(** The loop of [init] on a stream with enough bits. *)
Lemma read_bits_consumes (n : nat) :
  forall (b v : Z) (bs : IBitStream.t),
  ibs_inv bs -> ibs_good bs -> (n <= ibs_left bs)%nat ->
  ibs_inv (snd (ArithmeticDecoder.read_bits n b v bs)) /\
  ibs_good (snd (ArithmeticDecoder.read_bits n b v bs)) /\
  (ibs_left (snd (ArithmeticDecoder.read_bits n b v bs)) + n
   = ibs_left bs)%nat /\
  forall b', ArithmeticDecoder.read_bits n b' v bs
             = ArithmeticDecoder.read_bits n b v bs.
Proof.
  induction n as [|n IH]; intros b v bs Hinv Hg Hlen;
    cbn [ArithmeticDecoder.read_bits].
  - cbn [snd]. split; [exact Hinv|]. split; [exact Hg|].
    split; [lia|reflexivity].
  - unfold ibs_left in *.
    destruct (shift_in_consumes b v bs Hinv Hg ltac:(lia))
      as (x & bs1 & E & I1 & G1 & B1).
    rewrite E. rewrite B1 in Hlen. cbn [length] in Hlen.
    destruct (IH (Z.b2z x) (u32 (Z.lor (Z.shiftl v 1) (Z.b2z x))) bs1 I1 G1
                ltac:(lia)) as (I2 & G2 & A2 & Hb).
    split; [exact I2|]. split; [exact G2|]. split.
    + rewrite B1. cbn [length]. lia.
    + intros b'.
      destruct (shift_in_consumes b' v bs Hinv Hg ltac:(rewrite B1; cbn; lia))
        as (x' & bs1' & E' & _ & _ & B1').
      rewrite E'. rewrite B1 in B1'. injection B1' as -> Hrest.
      assert (bs1' = bs1) as ->.
      { unfold ArithmeticDecoder.shift_in in E, E'.
        destruct (IBitStream.get bs) as [r s1].
        injection E as _ _ <-. injection E' as _ _ <-. reflexivity. }
      reflexivity.
Qed.

(** The uninitialized local [b] holds a bit, 0 or 1, each time a decoder
    function is entered. *)
Definition bit_junk (junk : nat -> Z) : Prop :=
  forall k : nat, junk k = 0 \/ junk k = 1.

Lemma bit_junk_b2z (junk : nat -> Z) (k : nat) :
  bit_junk junk -> junk k = Z.b2z (junk k =? 1).
Proof. intros H. destruct (H k) as [-> | ->]; reflexivity. Qed.

Lemma bit_junk_zero : bit_junk (fun _ => 0).
Proof. intros k. left. reflexivity. Qed.

(** What the decoder does with a message when [b] holds bits, stated for
    every decoder state and bit source that agree with the encoder's state
    and emission. *)
Definition decodes_to (symbols : list Z) (e : ArithmeticEncoder.t)
    (bs : OBitStream.t) (F : list bool) : Prop :=
  forall (fuel : nat) (junk : nat -> Z) (k : nat)
         (d : ArithmeticDecoder.t) (ibs : IBitStream.t) (W : list bool)
         (out : ostream),
  bit_junk junk ->
  (length symbols < fuel)%nat ->
  decoder_snapshot d = encoder_snapshot e ->
  ibs_inv ibs -> window d ibs W ->
  matches (ArithmeticEncoder.pending_bits e) F W ->
  (exists d' ibs',
     decode_symbols fuel junk k d ibs out
     = Ok (d', ibs',
           fold_left neuralink_write_symbol_to_stream symbols out)
     /\ ArithmeticDecoder.model d'
        = update_all (ArithmeticEncoder.model e) (symbols ++ [NUM_SYMBOLS - 1])
     /\ (ibs_good ibs ->
         (length F <= ibs_left ibs + ArithmeticEncoder.pending_bits e + 2)%nat
         -> ibs_good ibs'))
  /\ decoder_trace fuel junk k d ibs = encoder_trace symbols e bs.

(** One symbol: the decoder finds the symbol the encoder has encoded and
    ends in the encoder's range, for every window that agrees with what
    the encoder emits from here on. *)
Lemma decode_encoded_symbol (hdr : nat) (s : Z) (e : ArithmeticEncoder.t)
    (bs : OBitStream.t) :
  coder_inv (ArithmeticEncoder.low e) (ArithmeticEncoder.high e) ->
  model_ok (ArithmeticEncoder.model e) ->
  shift_ok (ArithmeticEncoder.model e) ->
  0 <= s < NUM_SYMBOLS ->
  exists e1 bs1 F1,
    ArithmeticEncoder.encode s e bs = Some (e1, bs1) /\
    coder_inv (ArithmeticEncoder.low e1) (ArithmeticEncoder.high e1) /\
    ArithmeticEncoder.model e1 = ArithmeticEncoder.model e /\
    (Int50 <= ArithmeticEncoder.high e1 /\
     ArithmeticEncoder.low e1 < Int50 /\
     (ArithmeticEncoder.low e1 < Int25
      \/ Int75 <= ArithmeticEncoder.high e1)) /\
    (obs_inv hdr bs ->
     obs_inv hdr bs1 /\
     obs_bits hdr bs1 = obs_bits hdr bs ++ F1 /\
     firstn hdr (OBitStream.outputStream bs1)
     = firstn hdr (OBitStream.outputStream bs)) /\
    (ArithmeticEncoder.pending_bits e
     <= length F1 + ArithmeticEncoder.pending_bits e1)%nat /\
    forall G,
      shape (ArithmeticEncoder.pending_bits e1) G ->
      bounded (ArithmeticEncoder.low e1) (ArithmeticEncoder.high e1)
        (ArithmeticEncoder.pending_bits e1) G ->
      shape (ArithmeticEncoder.pending_bits e) (F1 ++ G) /\
      bounded (ArithmeticEncoder.low e) (ArithmeticEncoder.high e)
        (ArithmeticEncoder.pending_bits e) (F1 ++ G) /\
      forall (b : bool) (d : ArithmeticDecoder.t) (ibs : IBitStream.t)
             (W : list bool),
        decoder_snapshot d = encoder_snapshot e ->
        ibs_inv ibs -> window d ibs W ->
        matches (ArithmeticEncoder.pending_bits e) (F1 ++ G) W ->
        exists d1 ibs1 W1,
          ArithmeticDecoder.decode (Z.b2z b) d ibs = Some (s, d1, ibs1) /\
          decoder_snapshot d1 = encoder_snapshot e1 /\
          ibs_inv ibs1 /\ window d1 ibs1 W1 /\
          matches (ArithmeticEncoder.pending_bits e1) G W1 /\
          (ibs_good ibs ->
           (length F1 + ArithmeticEncoder.pending_bits e1
            <= ibs_left ibs + ArithmeticEncoder.pending_bits e)%nat ->
           ibs_good ibs1 /\
           (ibs_left ibs1 + length F1 + ArithmeticEncoder.pending_bits e1
            = ibs_left ibs + ArithmeticEncoder.pending_bits e)%nat).
Proof.
  intros Hr Hm Hs Hsym.
  destruct (encode_spec hdr s e bs Hr Hm) as
    (e1 & bs1 & n & F1 & E & Hn & R & Hr1 & Hm1 & Hobs).
  destruct (renorm_doubles _ _ _ _ _ _ _ _ R) as [_ Hcount].
  exists e1, bs1, F1. split; [exact E|]. split; [exact Hr1|].
  split; [exact Hm1|]. split; [exact (renorm_final _ _ _ _ _ _ _ _ R)|].
  split; [exact Hobs|]. split; [lia|].
  intros G HG HB.
  pose proof (renorm_shape _ _ _ _ _ _ _ _ G R HG) as HS.
  pose proof (renorm_bounded _ _ _ _ _ _ _ _ G R HG HB) as HBn.
  pose proof (narrowed_inside _ _ _ s Hm Hr) as (N1 & N2 & N3).
  split; [exact HS|]. split.
  { eapply bounded_widen; [exact N1|exact N3|exact HBn]. }
  intros b d ibs W Hsnap Hinv HW HM.
  unfold decoder_snapshot, encoder_snapshot in Hsnap.
  injection Hsnap as Dl Dh Dm.
  pose proof HW as (HW1 & HW2 & HW3).
  pose proof (HBn W HW1 HM) as Hval. rewrite <- HW2 in Hval.
  assert (Hv0 : 0 <= ArithmeticDecoder.value d).
  { unfold coder_inv in Hr. lia. }
  assert (Hvr : ArithmeticDecoder.low d <= ArithmeticDecoder.value d
                <= ArithmeticDecoder.high d) by (rewrite Dl, Dh; lia).
  pose proof (symbol_low_high_ok (ArithmeticEncoder.model e) s Hm)
    as (L0 & L1 & L2).
  assert (Hscaled :
    fst (symbol_low_high (ArithmeticEncoder.model e) s)
    <= backward_value (ArithmeticDecoder.value d) (ArithmeticDecoder.low d)
         (ArithmeticDecoder.high d)
    < snd (symbol_low_high (ArithmeticEncoder.model e) s)).
  { rewrite Dl, Dh.
    apply (proj2 (scaled_in_interval_iff _ _ _ _ _ Hr
                    ltac:(rewrite <- Dl, <- Dh; exact Hvr) L0 L1 L2)).
    exact Hval. }
  assert (Hsym' :
    frequency_symbol (ArithmeticDecoder.model d)
      (u16 (backward_value (ArithmeticDecoder.value d)
              (ArithmeticDecoder.low d) (ArithmeticDecoder.high d))) = s).
  { rewrite Dm. unfold MAX_FREQUENCY in L2. rewrite u16_small by lia.
    apply frequency_symbol_of_interval; assumption. }
  destruct (decode_spec b d ibs (ArithmeticEncoder.pending_bits e)
              n F1 (ArithmeticEncoder.low e1) (ArithmeticEncoder.high e1)
              (ArithmeticEncoder.pending_bits e1)) as
    (d1 & ibs1 & E1 & D1 & D2 & D3 & D4 & D5 & D6).
  { rewrite Dl, Dh. exact Hr. }
  { rewrite Dm. exact Hm. }
  { exact Hv0. }
  { rewrite Hsym', Dl, Dh, Dm. exact R. }
  { exact Hn. }
  rewrite Hsym' in E1.
  destruct (D6 Hinv) as (I1 & I2).
  destruct (I2 G W HG HW HM) as (W1 & HW' & HM').
  exists d1, ibs1, W1. split; [exact E1|]. split.
  { unfold decoder_snapshot, encoder_snapshot. congruence. }
  split; [exact I1|]. split; [exact HW'|]. split; [exact HM'|].
  intros Hg Hlen.
  destruct (decode_consumes (Z.b2z b) d ibs
              (ArithmeticEncoder.pending_bits e) n F1
              (ArithmeticEncoder.low e1) (ArithmeticEncoder.high e1)
              (ArithmeticEncoder.pending_bits e1)) as
    (d1' & ibs1' & E1' & _ & G1 & A1).
  { rewrite Dl, Dh. exact Hr. }
  { rewrite Dm. exact Hm. }
  { rewrite Hsym', Dl, Dh, Dm. exact R. }
  { exact Hn. }
  { exact Hinv. }
  { exact Hg. }
  { lia. }
  rewrite Hsym', E1 in E1'. injection E1' as <- <-.
  split; [exact G1|lia].
Qed.

Lemma window_set_model (d : ArithmeticDecoder.t) (m : Model)
    (ibs : IBitStream.t) (W : list bool) :
  window d ibs W -> window (ArithmeticDecoder.set_model d m) ibs W.
Proof. intros H. exact H. Qed.

Lemma snapshot_set_model (d : ArithmeticDecoder.t) (e : ArithmeticEncoder.t)
    (s : Z) :
  decoder_snapshot d = encoder_snapshot e ->
  decoder_snapshot
    (ArithmeticDecoder.set_model d
       (update_state (ArithmeticDecoder.model d) s))
  = encoder_snapshot
      (ArithmeticEncoder.set_model e
         (update_state (ArithmeticEncoder.model e) s)).
Proof.
  unfold decoder_snapshot, encoder_snapshot. intros H.
  injection H as H1 H2 H3. cbn. congruence.
Qed.

(** The whole message: what the encoder emits for a list of payload
    symbols, the stop symbol and the flush is decoded back to the list. *)
Lemma message_roundtrip (hdr : nat) (symbols : list Z) :
  forall (e : ArithmeticEncoder.t) (bs : OBitStream.t),
  coder_inv (ArithmeticEncoder.low e) (ArithmeticEncoder.high e) ->
  model_ok (ArithmeticEncoder.model e) ->
  obs_inv hdr bs ->
  Forall (fun s => 0 <= s < NUM_SYMBOLS - 1) symbols ->
  shifts_ok (ArithmeticEncoder.model e) symbols ->
  exists e' bs' F,
    encode_message symbols e bs = Some (e', bs') /\
    obs_inv hdr bs' /\
    obs_bits hdr bs' = obs_bits hdr bs ++ F /\
    firstn hdr (OBitStream.outputStream bs')
    = firstn hdr (OBitStream.outputStream bs) /\
    ArithmeticEncoder.model e'
    = update_all (ArithmeticEncoder.model e) symbols /\
    shape (ArithmeticEncoder.pending_bits e) F /\
    bounded (ArithmeticEncoder.low e) (ArithmeticEncoder.high e)
      (ArithmeticEncoder.pending_bits e) F /\
    (ArithmeticEncoder.pending_bits e + 2 <= length F)%nat /\
    decodes_to symbols e bs F.
Proof.
  induction symbols as [|s rest IH]; intros e bs Hr Hm Hbs Hsyms Hsh.
  - (* the stop symbol and the flush *)
    destruct Hsh as [Hs _].
    destruct (decode_encoded_symbol hdr (NUM_SYMBOLS - 1) e bs Hr Hm Hs
                ltac:(unfold NUM_SYMBOLS; lia)) as
      (e1 & bs1 & F1 & E & Hr1 & Hm1 & (Q1 & Q2 & Q3) & Hobs & Hp & Hdec).
    destruct (Hobs Hbs) as (O1 & O2 & O3).
    destruct (obs_flush hdr e1 bs1 O1) as (P1 & P2 & P3 & _ & P5).
    destruct (flush_bounded _ _ (ArithmeticEncoder.pending_bits e1) Q1 Q2 Q3)
      as (HS2 & HB2).
    fold (flush_bit e1) in HS2, HB2.
    set (F2 := flush_bit e1
               :: repeat (negb (flush_bit e1))
                    (S (ArithmeticEncoder.pending_bits e1))) in *.
    assert (HF2 : length F2 = S (S (ArithmeticEncoder.pending_bits e1))).
    { unfold F2. cbn [length]. rewrite repeat_length. reflexivity. }
    destruct (Hdec F2 HS2 HB2) as (HS & HB & Hd).
    exists (fst (ArithmeticEncoder.flush e1 bs1)),
           (snd (ArithmeticEncoder.flush e1 bs1)), (F1 ++ F2).
    split.
    { unfold encode_message. cbn [encode_symbols]. rewrite E.
      destruct (ArithmeticEncoder.flush e1 bs1); reflexivity. }
    split; [exact P1|]. split.
    { rewrite P2, O2, app_assoc. reflexivity. }
    split; [congruence|]. split; [cbn; congruence|].
    split; [exact HS|]. split; [exact HB|].
    split; [rewrite length_app, HF2; lia|].
    intros fuel junk k d ibs W out Hj Hfuel Hsnap Hinv HW HM.
    destruct fuel as [|fuel]; [simpl in Hfuel; lia|].
    destruct (Hd (junk k =? 1) d ibs W Hsnap Hinv HW HM) as
      (d1 & ibs1 & W1 & E1 & Hsnap1 & _ & _ & _ & Hgood).
    rewrite <- (bit_junk_b2z junk k Hj) in E1.
    cbn [decode_symbols decoder_trace encoder_trace]. rewrite E1, E.
    rewrite Z.eqb_refl. split.
    + eexists _, _. split; [reflexivity|]. split.
      * cbn [ArithmeticDecoder.set_model ArithmeticDecoder.model app
             update_all fold_left].
        unfold decoder_snapshot, encoder_snapshot in Hsnap1.
        injection Hsnap1 as _ _ Hmod. congruence.
      * intros Hg Hlen. rewrite length_app, HF2 in Hlen.
        apply (Hgood Hg). lia.
    + rewrite Hsnap1. reflexivity.
  - (* a payload symbol, then the rest *)
    destruct Hsh as [Hs Hsh]. inversion Hsyms as [|? ? Hsym Hrest]; subst.
    destruct (decode_encoded_symbol hdr s e bs Hr Hm Hs
                ltac:(unfold NUM_SYMBOLS in *; lia)) as
      (e1 & bs1 & F1 & E & Hr1 & Hm1 & _ & Hobs & Hp & Hdec).
    destruct (Hobs Hbs) as (O1 & O2 & O3).
    set (e1' := ArithmeticEncoder.set_model e1
                  (update_state (ArithmeticEncoder.model e1) s)).
    destruct (IH e1' bs1) as
      (e' & bs' & F2 & E' & P1 & P2 & P3 & P4 & HS2 & HB2 & HL2 & Hd2).
    { exact Hr1. }
    { cbn. rewrite Hm1. apply update_state_ok, Hm. }
    { exact O1. }
    { exact Hrest. }
    { cbn. rewrite Hm1. exact Hsh. }
    change (ArithmeticEncoder.pending_bits e1')
      with (ArithmeticEncoder.pending_bits e1) in HL2.
    destruct (Hdec F2 HS2 HB2) as (HS & HB & Hd).
    exists e', bs', (F1 ++ F2).
    split; [rewrite encode_message_cons, E; exact E'|].
    split; [exact P1|]. split.
    { rewrite P2, O2, app_assoc. reflexivity. }
    split; [congruence|]. split.
    { rewrite P4. cbn. rewrite Hm1. reflexivity. }
    split; [exact HS|]. split; [exact HB|].
    split; [rewrite length_app; lia|].
    intros fuel junk k d ibs W out Hj Hfuel Hsnap Hinv HW HM.
    destruct fuel as [|fuel]; [simpl in Hfuel; lia|].
    destruct (Hd (junk k =? 1) d ibs W Hsnap Hinv HW HM) as
      (d1 & ibs1 & W1 & E1 & Hsnap1 & Hinv1 & HW1 & HM1 & Hgood).
    rewrite <- (bit_junk_b2z junk k Hj) in E1.
    cbn [decode_symbols decoder_trace encoder_trace]. rewrite E1, E.
    replace (s =? NUM_SYMBOLS - 1) with false
      by (symmetry; apply Z.eqb_neq; lia).
    destruct (Hd2 fuel junk (S k)
                (ArithmeticDecoder.set_model d1
                   (update_state (ArithmeticDecoder.model d1) s))
                ibs1 W1 (neuralink_write_symbol_to_stream out s))
      as ((d' & ibs' & E2 & Hmod & Hgood2) & Htrace).
    { exact Hj. }
    { cbn [length] in Hfuel. lia. }
    { apply snapshot_set_model, Hsnap1. }
    { exact Hinv1. }
    { apply window_set_model, HW1. }
    { exact HM1. }
    split.
    + exists d', ibs'. split; [exact E2|]. split.
      * rewrite Hmod. cbn. rewrite Hm1. reflexivity.
      * intros Hg Hlen. rewrite length_app in Hlen.
        destruct (Hgood Hg ltac:(lia)) as [Hg1 Hleft].
        apply (Hgood2 Hg1).
        change (ArithmeticEncoder.pending_bits e1')
          with (ArithmeticEncoder.pending_bits e1).
        lia.
    + rewrite Htrace, Hsnap1. reflexivity.
Qed.

(** ** Bytes in, bytes out *)

(** A 16-bit sample as the two bytes of the stream, little-endian. *)
Definition le16 (x : Z) : list Z := [u16 x mod 256; u16 x / 256].

Definition is_int16 (x : Z) : Prop := - 32768 <= x <= 32767.

Lemma le16_decode (x : Z) :
  is_int16 x -> s16 (nth 0 (le16 x) 0 + 256 * nth 1 (le16 x) 0) = x.
Proof.
  unfold is_int16, le16, s16, u16. intros Hx. cbn [nth].
  Z.to_euclidean_division_equations. lia.
Qed.

Lemma quantize_range (x : Z) :
  is_int16 x -> 0 <= neuralink_16bit_to_10bit x < NUM_SYMBOLS - 1.
Proof.
  unfold is_int16, neuralink_16bit_to_10bit, NUM_SYMBOLS. intros Hx.
  rewrite Z.shiftr_div_pow2 by lia. change (2 ^ 6) with 64.
  unfold u16. Z.to_euclidean_division_equations. lia.
Qed.

Lemma read_symbol_sample (x : Z) (rest : list Z) :
  is_int16 x ->
  neuralink_read_symbol_from_stream {| avail := le16 x ++ rest; good := true |}
  = (Some (neuralink_16bit_to_10bit x), {| avail := rest; good := true |}).
Proof.
  intros Hx. unfold neuralink_read_symbol_from_stream, istream_read.
  cbn [good avail length app le16 Nat.leb firstn skipn].
  pose proof (le16_decode x Hx) as H. unfold le16 in H. rewrite H.
  reflexivity.
Qed.

Lemma read_symbol_eof :
  neuralink_read_symbol_from_stream {| avail := []; good := true |}
  = (None, {| avail := []; good := false |}).
Proof. reflexivity. Qed.

(** The loop of [encodeStream] reads the samples and encodes their
    symbols. *)
Lemma encode_samples_symbols (samples : list Z) :
  forall (fuel : nat) (e : ArithmeticEncoder.t) (bs : OBitStream.t),
  Forall is_int16 samples -> (length samples < fuel)%nat ->
  encode_samples fuel {| avail := flat_map le16 samples; good := true |} e bs
  = match encode_symbols (map neuralink_16bit_to_10bit samples) e bs with
    | Some (e', bs') => Some ({| avail := []; good := false |}, e', bs')
    | None => None
    end.
Proof.
  induction samples as [|x rest IH]; intros fuel e bs Hs Hfuel;
    (destruct fuel as [|fuel]; [simpl in Hfuel; lia|]).
  - reflexivity.
  - inversion Hs as [|? ? Hx Hrest]; subst.
    cbn [encode_samples flat_map map encode_symbols].
    rewrite read_symbol_sample by exact Hx.
    destruct (ArithmeticEncoder.encode (neuralink_16bit_to_10bit x) e bs)
      as [[e1 bs1]|]; [|reflexivity].
    apply IH; [exact Hrest|simpl in Hfuel; lia].
Qed.

Lemma flat_map_le16_length (samples : list Z) :
  length (flat_map le16 samples) = (2 * length samples)%nat.
Proof.
  induction samples as [|x l IH]; [reflexivity|].
  cbn [flat_map]. rewrite length_app, IH. cbn [le16 length]. lia.
Qed.

(** The samples [decodeStream] writes. *)
Lemma write_symbols_bytes (symbols : list Z) (out : ostream) :
  fold_left neuralink_write_symbol_to_stream symbols out
  = out ++ flat_map (fun u => le16 (neuralink_10bit_to_16bit u)) symbols.
Proof.
  revert out; induction symbols as [|u l IH]; intros out;
    cbn [fold_left flat_map].
  - symmetry. apply app_nil_r.
  - rewrite IH. unfold neuralink_write_symbol_to_stream.
    rewrite <- app_assoc. reflexivity.
Qed.

(** *** Padding the last byte *)

Lemma low_bits_shift (n k : nat) (x : Z) :
  low_bits (k + n) (x * 2 ^ Z.of_nat k) = low_bits n x ++ repeat false k.
Proof.
  induction k as [|k IH].
  - cbn [Nat.add repeat]. rewrite app_nil_r.
    change (2 ^ Z.of_nat 0) with 1. rewrite Z.mul_1_r. reflexivity.
  - rewrite Nat2Z.inj_succ, Z.pow_succ_r by lia.
    replace (x * (2 * 2 ^ Z.of_nat k))
      with (2 * (x * 2 ^ Z.of_nat k) + Z.b2z false) by (cbn [Z.b2z]; ring).
    change (S k + n)%nat with (S (k + n)).
    rewrite low_bits_double, IH, repeat_snoc, app_assoc. reflexivity.
Qed.

(** [OBitStream.flush] completes the last byte with zero bits, and a
    second flush writes nothing. *)
Lemma obs_stream_flush (hdr : nat) (bs : OBitStream.t) :
  obs_inv hdr bs ->
  exists pad,
    flat_map byte_bits
      (skipn hdr (OBitStream.outputStream (OBitStream.flush bs)))
    = obs_bits hdr bs ++ repeat false pad /\
    firstn hdr (OBitStream.outputStream (OBitStream.flush bs))
    = firstn hdr (OBitStream.outputStream bs) /\
    OBitStream.flush (OBitStream.flush bs) = OBitStream.flush bs.
Proof.
  intros (Hpos & Hbuf & Hlen). unfold OBitStream.flush, obs_bits.
  destruct bs as [out buf pos]; cbn [OBitStream.outputStream
    OBitStream.outputBuffer OBitStream.outputBufferPos] in *.
  destruct (Z.gtb_spec pos 0) as [Hgt|Hle];
    cbn [OBitStream.outputStream OBitStream.outputBuffer
         OBitStream.outputBufferPos].
  - exists (Z.to_nat (8 - pos)). split; [|split].
    + rewrite skipn_snoc, flat_map_snoc by lia.
      rewrite <- app_assoc. f_equal.
      unfold byte_bits, u8. change 256 with (2 ^ Z.of_nat 8).
      rewrite low_bits_mod by lia.
      rewrite Z.shiftl_mul_pow2 by lia.
      replace (8 - pos) with (Z.of_nat (Z.to_nat (8 - pos))) at 1 by lia.
      replace 8%nat with (Z.to_nat (8 - pos) + Z.to_nat pos)%nat by lia.
      apply low_bits_shift.
    + apply firstn_snoc. lia.
    + reflexivity.
  - exists O. replace pos with 0 by lia.
    change (Z.to_nat 0) with O. cbn [low_bits repeat].
    rewrite !app_nil_r.
    split; [reflexivity|]. split; reflexivity.
Qed.

(** *** Filling the code register *)

Lemma read_bits_spec (n : nat) :
  forall (k : nat) (b : bool) (v : Z) (bs : IBitStream.t),
  (k + n <= 30)%nat -> 0 <= v < 2 ^ Z.of_nat k -> ibs_inv bs ->
  exists R bs' T,
    ArithmeticDecoder.read_bits n (Z.b2z b) v bs
    = (v * 2 ^ Z.of_nat n + bits_val R, bs') /\
    length R = n /\ ibs_inv bs' /\
    R ++ ibs_bits bs' = ibs_bits bs ++ T.
Proof.
  induction n as [|n IH]; intros k b v bs Hk Hv Hinv.
  - exists [], bs, []. cbn [ArithmeticDecoder.read_bits app length].
    change (bits_val []) with 0. rewrite app_nil_r.
    change (2 ^ Z.of_nat 0) with 1. replace (v * 1 + 0) with v by lia. auto.
  - cbn [ArithmeticDecoder.read_bits].
    assert (Hpow : 2 ^ Z.of_nat k <= 2 ^ 30)
      by (apply Z.pow_le_mono_r; lia).
    destruct (shift_in_spec b v bs) as (x & bs1 & E & Hstream).
    { change (2 ^ 30) with 1073741824 in Hpow. lia. }
    rewrite E. destruct (Hstream Hinv) as (Hinv1 & Hbits).
    pose proof (b2z_range x) as Hx.
    destruct (IH (S k) x (2 * v + Z.b2z x) bs1) as
      (R & bs' & T & E' & HR & Hinv' & Happ).
    { lia. }
    { rewrite Nat2Z.inj_succ, Z.pow_succ_r by lia. lia. }
    { exact Hinv1. }
    destruct Hbits as [Hb|[Hb1 Hb2]].
    + exists (x :: R), bs', T. rewrite E'. split; [|split; [|split]].
      * f_equal. rewrite bits_val_cons, HR, Nat2Z.inj_succ, Z.pow_succ_r by lia.
        ring.
      * cbn [length]. congruence.
      * exact Hinv'.
      * rewrite Hb. cbn [app]. congruence.
    + exists (x :: R), bs', (x :: T). rewrite E'. split; [|split; [|split]].
      * f_equal. rewrite bits_val_cons, HR, Nat2Z.inj_succ, Z.pow_succ_r by lia.
        ring.
      * cbn [length]. congruence.
      * exact Hinv'.
      * rewrite Hb1. rewrite Hb2 in Happ. cbn [app] in *. congruence.
Qed.

Lemma firstn_skipn_exact {A} (R T : list A) :
  firstn (length R) (R ++ T) = R /\ skipn (length R) (R ++ T) = T.
Proof.
  induction R as [|x R [IH1 IH2]]; [auto|].
  cbn [length app firstn skipn]. rewrite IH1. auto.
Qed.

(** After [init] the register holds the first seventeen bits the decoder
    sees, which extend the bits of the stream. *)
Lemma init_window (b : bool) (d : ArithmeticDecoder.t) (bs : IBitStream.t)
    (F : list bool) :
  ibs_inv bs -> is_prefix F (ibs_bits bs) ->
  exists d' bs' W,
    ArithmeticDecoder.init (Z.b2z b) d bs = (d', bs') /\
    decoder_snapshot d' = decoder_snapshot d /\
    ibs_inv bs' /\ window d' bs' W /\ matches 0 F W.
Proof.
  intros Hinv HF. unfold ArithmeticDecoder.init.
  destruct (read_bits_spec 17 0 b 0 bs ltac:(lia) ltac:(cbn; lia) Hinv)
    as (R & bs' & T & E & HR & Hinv' & Happ).
  rewrite E. cbn [Z.mul Z.add] in *.
  eexists _, bs', (R ++ ibs_bits bs'). split; [reflexivity|].
  split; [reflexivity|]. split; [exact Hinv'|]. split.
  - unfold window. cbn [ArithmeticDecoder.value].
    rewrite length_app, HR. split; [lia|].
    destruct (firstn_skipn_exact R (ibs_bits bs')) as [H1 H2].
    rewrite HR in H1, H2. rewrite H1, H2. auto.
  - unfold matches. rewrite expand_zero, Happ. apply is_prefix_app, HF.
Qed.

(** ** The coder on a byte stream *)

Lemma ibs_new_bits (payload : list Z) :
  ibs_inv (IBitStream.new {| avail := payload; good := true |}) /\
  ibs_bits (IBitStream.new {| avail := payload; good := true |})
  = flat_map byte_bits payload.
Proof.
  unfold ibs_inv, ibs_bits, IBitStream.new.
  cbn [IBitStream.inputBufferPos IBitStream.inputBuffer
       IBitStream.inputStream avail good].
  split; [lia|reflexivity].
Qed.

Lemma encoder_new_inv (table : list (list Z)) :
  coder_inv (ArithmeticEncoder.low (ArithmeticEncoder.new table))
            (ArithmeticEncoder.high (ArithmeticEncoder.new table)).
Proof.
  unfold coder_inv, ArithmeticEncoder.new, MAX_CODE, Int25.
  cbn [ArithmeticEncoder.low ArithmeticEncoder.high]. lia.
Qed.

(** Encoding a message into a fresh bit stream over [out], flushing it, and
    decoding the bytes that follow [out]: the decoder returns the symbols,
    passes through the encoder's states and ends with the model updated on
    the stop symbol as well. *)
Lemma coder_roundtrip (table : list (list Z)) (out : ostream)
    (symbols : list Z) :
  table_ok table ->
  Forall (fun s => 0 <= s < NUM_SYMBOLS - 1) symbols ->
  shifts_ok (Model_init table) symbols ->
  exists e bs payload,
    encode_message symbols (ArithmeticEncoder.new table) (OBitStream.new out)
    = Some (e, bs) /\
    ArithmeticEncoder.model e = update_all (Model_init table) symbols /\
    OBitStream.outputStream (OBitStream.flush bs) = out ++ payload /\
    OBitStream.flush (OBitStream.flush bs) = OBitStream.flush bs /\
    forall (fuel : nat) (junk : nat -> Z) (out' : ostream),
      bit_junk junk -> (length symbols < fuel)%nat ->
      let (d0, ibs0) :=
        ArithmeticDecoder.init (junk O) (ArithmeticDecoder.new table)
          (IBitStream.new {| avail := payload; good := true |}) in
      (exists d ibs,
         decode_symbols fuel junk 1 d0 ibs0 out'
         = Ok (d, ibs, fold_left neuralink_write_symbol_to_stream symbols out')
         /\ ArithmeticDecoder.model d
            = update_all (Model_init table) (symbols ++ [NUM_SYMBOLS - 1]))
      /\ decoder_trace fuel junk 1 d0 ibs0
         = encoder_trace symbols (ArithmeticEncoder.new table)
             (OBitStream.new out).
Proof.
  intros Ht Hsyms Hsh.
  destruct (message_roundtrip (length out) symbols
              (ArithmeticEncoder.new table) (OBitStream.new out)
              (encoder_new_inv table) (Model_init_ok table Ht)
              (obs_inv_new out) Hsyms Hsh) as
    (e & bs & F & E & P1 & P2 & P3 & P4 & _ & _ & HF & Hdec).
  rewrite obs_bits_new in P2. cbn [app] in P2.
  destruct (obs_stream_flush (length out) bs P1) as (pad & Q1 & Q2 & Q3).
  rewrite P2 in Q1.
  assert (Hout : OBitStream.outputStream (OBitStream.flush bs)
                 = out ++ skipn (length out)
                            (OBitStream.outputStream (OBitStream.flush bs))).
  { rewrite <- (firstn_skipn (length out)
                  (OBitStream.outputStream (OBitStream.flush bs))) at 1.
    rewrite Q2, P3. cbn [OBitStream.new OBitStream.outputStream].
    rewrite firstn_all. reflexivity. }
  set (payload := skipn (length out)
                    (OBitStream.outputStream (OBitStream.flush bs))) in *.
  exists e, bs, payload. split; [exact E|]. split; [exact P4|].
  split; [exact Hout|]. split; [exact Q3|].
  intros fuel junk out' Hj Hfuel.
  destruct (ibs_new_bits payload) as (I1 & I2).
  rewrite (bit_junk_b2z junk O Hj).
  destruct (init_window (junk O =? 1) (ArithmeticDecoder.new table)
              (IBitStream.new {| avail := payload; good := true |}) F I1)
    as (d0 & ibs0 & W & E0 & S0 & Hinv0 & HW & HM).
  { rewrite I2, Q1. exists (repeat false pad). reflexivity. }
  rewrite E0.
  destruct (Hdec fuel junk 1%nat d0 ibs0 W out' Hj Hfuel) as [Hok Htr];
    try assumption.
  destruct Hok as (d & ibs & D1 & D2 & _).
  split; [exists d, ibs; split; assumption|exact Htr].
Qed.

(** ** Rounding in [SpecFloat], as bounds on real values *)

Definition pow2 (e : Z) : R := powerRZ 2 e.

Lemma pow2_pos (e : Z) : (0 < pow2 e)%R.
Proof. apply powerRZ_lt. lra. Qed.

Lemma pow2_add (a b : Z) : pow2 (a + b) = (pow2 a * pow2 b)%R.
Proof. apply powerRZ_add. lra. Qed.

Lemma pow2_IZR (k : Z) : 0 <= k -> pow2 k = IZR (2 ^ k).
Proof.
  intros Hk. unfold pow2.
  rewrite <- (Z2Nat.id k Hk) at 1. rewrite <- pow_powerRZ.
  rewrite <- (Z2Nat.id k Hk) at 2. rewrite <- pow_IZR. reflexivity.
Qed.

Lemma pow2_le (a b : Z) : a <= b -> (pow2 a <= pow2 b)%R.
Proof.
  intros H. replace b with (a + (b - a)) by lia.
  rewrite pow2_add, (pow2_IZR (b - a)) by lia.
  pose proof (pow2_pos a).
  assert (1 <= IZR (2 ^ (b - a)))%R.
  { apply IZR_le. pose proof (Z.pow_pos_nonneg 2 (b - a)). lia. }
  nra.
Qed.

(** The value of a finite or zero float; 0 for the others. *)
Definition SF2R (x : spec_float) : R :=
  match x with
  | S754_finite s m e =>
      ((if s then -1 else 1) * IZR (Zpos m) * pow2 e)%R
  | _ => 0%R
  end.

Definition SFfinite (x : spec_float) : Prop :=
  match x with
  | S754_zero _ | S754_finite _ _ _ => True
  | _ => False
  end.

Definition eps : R := pow2 (-52).
Definition eta : R := pow2 (-1074).

(** [r] is a rounding of the exact value [x]: on the same side of zero
    and not larger in magnitude than [x] by more than a relative [eps]
    and an absolute [eta]. *)
Definition rounds (x r : R) : Prop :=
  (0 <= x -> 0 <= r <= x * (1 + eps) + eta)%R /\
  (x <= 0 -> x * (1 + eps) - eta <= r <= 0)%R.

Lemma shr_1_m (mrs : shr_record) :
  0 <= shr_m mrs -> shr_m (shr_1 mrs) = shr_m mrs / 2.
Proof.
  destruct mrs as [m r s]. cbn [shr_m]. intros Hm.
  destruct m as [|p|p]; [reflexivity| |lia].
  destruct p as [p|p|]; cbn [shr_1 shr_m]; [| |reflexivity].
  - rewrite Pos2Z.inj_xI. Z.to_euclidean_division_equations. lia.
  - rewrite Pos2Z.inj_xO. Z.to_euclidean_division_equations. lia.
Qed.

Lemma iter_shr_m (p : positive) :
  forall mrs, 0 <= shr_m mrs ->
              shr_m (SpecFloat.iter_pos shr_1 p mrs) = shr_m mrs / 2 ^ Zpos p.
Proof.
  induction p as [p IH|p IH|]; intros mrs Hm; cbn [SpecFloat.iter_pos].
  - assert (H1 : 0 <= shr_m (shr_1 mrs))
      by (rewrite shr_1_m by lia; apply Z.div_pos; lia).
    assert (H2 : 0 <= shr_m (SpecFloat.iter_pos shr_1 p (shr_1 mrs)))
      by (rewrite IH by lia; apply Z.div_pos; lia).
    rewrite IH, IH, shr_1_m by lia.
    rewrite !Z.div_div by lia. f_equal.
    replace (Z.pos p~1) with (Z.pos p + Z.pos p + 1) by lia.
    rewrite !Z.pow_add_r by lia. change (2 ^ 1) with 2. ring.
  - assert (H2 : 0 <= shr_m (SpecFloat.iter_pos shr_1 p mrs))
      by (rewrite IH by lia; apply Z.div_pos; lia).
    rewrite IH, IH by lia.
    rewrite !Z.div_div by lia. f_equal.
    replace (Z.pos p~0) with (Z.pos p + Z.pos p) by lia.
    rewrite !Z.pow_add_r by lia. ring.
  - rewrite shr_1_m by lia. reflexivity.
Qed.

Lemma digits2_pos_bound (m : positive) :
  2 ^ (Zpos (digits2_pos m) - 1) <= Zpos m < 2 ^ Zpos (digits2_pos m).
Proof.
  induction m as [m IH|m IH|]; cbn [digits2_pos].
  - rewrite Pos2Z.inj_succ, Pos2Z.inj_xI.
    replace (Z.succ (Z.pos (digits2_pos m)) - 1)
      with (Z.succ (Z.pos (digits2_pos m) - 1)) by lia.
    rewrite !Z.pow_succ_r by lia.
    set (a := 2 ^ (Z.pos (digits2_pos m) - 1)) in *.
    set (b := 2 ^ Z.pos (digits2_pos m)) in *. clearbody a b. lia.
  - rewrite Pos2Z.inj_succ. change (Z.pos m~0) with (2 * Z.pos m).
    replace (Z.succ (Z.pos (digits2_pos m)) - 1)
      with (Z.succ (Z.pos (digits2_pos m) - 1)) by lia.
    rewrite !Z.pow_succ_r by lia.
    set (a := 2 ^ (Z.pos (digits2_pos m) - 1)) in *.
    set (b := 2 ^ Z.pos (digits2_pos m)) in *. clearbody a b. lia.
  - cbn. lia.
Qed.

Lemma round_nearest_even_range (m : Z) (l : location) :
  m <= round_nearest_even m l <= m + 1.
Proof.
  destruct l as [|[| |]]; cbn [round_nearest_even]; try lia.
  destruct (Z.even m); lia.
Qed.

(** [shr_fexp] divides the mantissa by a power of two and adds the
    exponent of that power. *)
Lemma shr_fexp_spec (m e : Z) (l : location) :
  0 <= m ->
  let fe := fexp prec emax (Zdigits2 m + e) in
  let k := Z.max 0 (fe - e) in
  shr_m (fst (shr_fexp prec emax m e l)) = m / 2 ^ k /\
  snd (shr_fexp prec emax m e l) = e + k.
Proof.
  intros Hm fe k. unfold shr_fexp. fold fe. unfold shr.
  assert (Hrec : shr_m (shr_record_of_loc m l) = m)
    by (destruct l as [|[| |]]; reflexivity).
  subst k. destruct (fe - e) as [|p|p] eqn:E; cbn [fst snd].
  - rewrite Hrec. change (Z.max 0 0) with 0. rewrite Z.div_1_r. split; lia.
  - rewrite iter_shr_m by lia. rewrite Hrec.
    replace (Z.max 0 (Z.pos p)) with (Z.pos p) by lia. split; reflexivity.
  - rewrite Hrec. replace (Z.max 0 (Z.neg p)) with 0 by lia.
    rewrite Z.div_1_r. split; lia.
Qed.

Lemma eps_range : (0 < eps <= 1)%R.
Proof.
  unfold eps. split; [apply pow2_pos|].
  change 1%R with (pow2 0). apply pow2_le. lia.
Qed.

Lemma eta_range : (0 < eta <= 1)%R.
Proof.
  unfold eta. split; [apply pow2_pos|].
  change 1%R with (pow2 0). apply pow2_le. lia.
Qed.

(** Dividing the mantissa by [2 ^ k] and adding [k] to the exponent does
    not increase the value. *)
Lemma shift_value_le (a e k : Z) :
  0 <= a -> 0 <= k ->
  (0 <= IZR (a / 2 ^ k) * pow2 (e + k) <= IZR a * pow2 e)%R.
Proof.
  intros Ha Hk.
  assert (Hp : 0 < 2 ^ k) by (apply Z.pow_pos_nonneg; lia).
  pose proof (Z.mul_div_le a (2 ^ k) Hp) as Hle.
  assert (Hq : 0 <= a / 2 ^ k) by (apply Z.div_pos; lia).
  rewrite (Z.add_comm e k), pow2_add, (pow2_IZR k Hk).
  pose proof (pow2_pos e) as He.
  apply IZR_le in Hle. rewrite mult_IZR in Hle.
  apply IZR_le in Hq. apply IZR_le in Ha.
  assert (0 < IZR (2 ^ k))%R by (apply IZR_lt; lia).
  split.
  - apply Rmult_le_pos; [lra|]. apply Rmult_le_pos; lra.
  - rewrite <- Rmult_assoc. apply Rmult_le_compat_r; lra.
Qed.

Lemma fexp_unfold (x : Z) : fexp prec emax x = Z.max (x - 53) (-1074).
Proof. reflexivity. Qed.

(** The unit in the last place is small against the value. *)
Lemma ulp_le (m : positive) (e : Z) :
  (pow2 (fexp prec emax (Zdigits2 (Zpos m) + e))
   <= IZR (Zpos m) * pow2 e * eps + eta)%R.
Proof.
  rewrite fexp_unfold. cbn [Zdigits2].
  set (d := Zpos (digits2_pos m)).
  pose proof (digits2_pos_bound m) as [Hd _]. fold d in Hd.
  pose proof (pow2_pos e) as He. pose proof eps_range as Heps.
  pose proof eta_range as Heta.
  assert (Hm : (0 < IZR (Zpos m))%R) by (apply IZR_lt; lia).
  assert (HVe : (0 <= IZR (Zpos m) * pow2 e * eps)%R).
  { apply Rmult_le_pos; [apply Rmult_le_pos|]; lra. }
  destruct (Z.max_spec (d + e - 53) (-1074)) as [[_ ->]|[_ ->]].
  - fold eta. lra.
  - replace (d + e - 53) with ((d - 1) + (e + -52)) by lia.
    rewrite !pow2_add, (pow2_IZR (d - 1)) by (unfold d; lia).
    fold eps. apply IZR_le in Hd.
    assert (IZR (2 ^ (d - 1)) * (pow2 e * eps)
            <= IZR (Zpos m) * (pow2 e * eps))%R.
    { apply Rmult_le_compat_r; [|exact Hd].
      apply Rmult_le_pos; lra. }
    lra.
Qed.

(** The rounding at the heart of every operation. *)
Lemma round_aux_bound (s : bool) (m : positive) (e : Z) :
  (IZR (Zpos m) * pow2 e <= IZR (2 ^ 60))%R ->
  SFfinite (binary_round_aux prec emax s (Zpos m) e loc_Exact) /\
  rounds ((if s then -1 else 1) * (IZR (Zpos m) * pow2 e))
         (SF2R (binary_round_aux prec emax s (Zpos m) e loc_Exact)).
Proof.
  intros HV. set (V := (IZR (Zpos m) * pow2 e)%R) in *.
  assert (HVpos : (0 < V)%R).
  { unfold V. pose proof (pow2_pos e).
    assert (0 < IZR (Zpos m))%R by (apply IZR_lt; lia). nra. }
  pose proof eps_range as Heps. pose proof eta_range as Heta.
  unfold binary_round_aux.
  pose proof (shr_fexp_spec (Zpos m) e loc_Exact ltac:(lia)) as [S1 S2].
  cbv zeta in S1, S2.
  destruct (shr_fexp prec emax (Zpos m) e loc_Exact) as [mrs1 e1] eqn:E1.
  cbn [fst snd] in S1, S2.
  set (fe := fexp prec emax (Zdigits2 (Zpos m) + e)) in *.
  set (m1' := round_nearest_even (shr_m mrs1) (loc_of_shr_record mrs1)).
  assert (Hm1 : 0 <= shr_m mrs1) by (rewrite S1; apply Z.div_pos; lia).
  pose proof (round_nearest_even_range (shr_m mrs1) (loc_of_shr_record mrs1))
    as Hrne. fold m1' in Hrne.
  (* the value after the first rounding *)
  assert (Hval1 : (0 <= IZR m1' * pow2 e1 <= V * (1 + eps) + eta)%R).
  { destruct (Z_le_gt_dec (fe - e) 0) as [Hk|Hk].
    - (* nothing is shifted out: the rounding is exact *)
      assert (Hmrs : mrs1 = shr_record_of_loc (Zpos m) loc_Exact /\ e1 = e).
      { unfold shr_fexp in E1. fold fe in E1. unfold shr in E1.
        destruct (fe - e) as [|p|p]; [| lia |]; injection E1 as <- <-; auto. }
      destruct Hmrs as [-> ->]. subst m1'.
      cbn [shr_record_of_loc loc_of_shr_record round_nearest_even shr_m].
      fold V. assert (0 <= V * eps)%R by (apply Rmult_le_pos; lra). lra.
    - replace (Z.max 0 (fe - e)) with (fe - e) in S1, S2 by lia.
      replace (e + (fe - e)) with fe in S2 by lia. subst e1.
      pose proof (shift_value_le (Zpos m) e (fe - e) ltac:(lia) ltac:(lia))
        as Hshift.
      replace (e + (fe - e)) with fe in Hshift by lia.
      rewrite <- S1 in Hshift. fold V in Hshift.
      pose proof (ulp_le m e) as Hulp. fold fe V in Hulp.
      pose proof (pow2_pos fe) as Hfe.
      assert (H1 : (IZR m1' <= IZR (shr_m mrs1) + 1)%R).
      { rewrite <- plus_IZR. apply IZR_le. lia. }
      assert (H0 : (0 <= IZR m1')%R) by (apply IZR_le; lia).
      split; nra. }
  pose proof (shr_fexp_spec m1' e1 loc_Exact ltac:(lia)) as [T1 T2].
  cbv zeta in T1, T2.
  destruct (shr_fexp prec emax m1' e1 loc_Exact) as [mrs2 e2] eqn:E2.
  cbn [fst snd] in T1, T2.
  set (k2 := Z.max 0 (fexp prec emax (Zdigits2 m1' + e1) - e1)) in *.
  pose proof (shift_value_le m1' e1 k2 ltac:(lia) ltac:(lia)) as Hshift2.
  rewrite <- T1, <- T2 in Hshift2.
  destruct (shr_m mrs2) as [|p|p] eqn:Em2.
  - split; [exact I|]. cbn [SF2R]. unfold rounds.
    destruct s; split; intros; nra.
  - assert (Hp : (1 <= IZR (Zpos p))%R) by (apply IZR_le; lia).
    assert (He2 : e2 <= 971).
    { destruct (Z_le_gt_dec e2 971) as [|Hgt]; [assumption|exfalso].
      pose proof (pow2_le 62 e2 ltac:(lia)) as Hle.
      rewrite (pow2_IZR 62) in Hle by lia.
      pose proof (pow2_pos e2).
      assert (IZR (2 ^ 62) = 4 * IZR (2 ^ 60))%R.
      { rewrite <- mult_IZR. reflexivity. }
      assert (1 <= IZR (2 ^ 60))%R by (apply IZR_le; lia).
      nra. }
    replace (e2 <=? emax - prec) with true
      by (symmetry; apply Z.leb_le; exact He2).
    split; [exact I|]. cbn [SF2R]. unfold rounds.
    destruct s; split; intros; nra.
  - exfalso.
    assert (0 <= m1' / 2 ^ k2) by (apply Z.div_pos; lia). lia.
Qed.

Lemma rounds_refl (v : R) : rounds v v.
Proof.
  pose proof eps_range. pose proof eta_range. unfold rounds.
  split; intros Hv.
  - assert (0 <= v * eps)%R by (apply Rmult_le_pos; lra). lra.
  - assert (0 <= (- v) * eps)%R by (apply Rmult_le_pos; lra). lra.
Qed.

Lemma rounds_zero (v : R) : rounds v 0.
Proof.
  pose proof eps_range. pose proof eta_range. unfold rounds.
  split; intros Hv.
  - assert (0 <= v * eps)%R by (apply Rmult_le_pos; lra). lra.
  - assert (0 <= (- v) * eps)%R by (apply Rmult_le_pos; lra). lra.
Qed.

Lemma iter_xO_value (m d : positive) :
  Zpos (Pos.iter xO m d) = Zpos m * 2 ^ Zpos d.
Proof.
  induction d as [|d IH] using Pos.peano_ind.
  - cbn [Pos.iter]. change (2 ^ 1) with 2. lia.
  - rewrite Pos.iter_succ, Pos2Z.inj_succ, Z.pow_succ_r by lia.
    change (Z.pos (Pos.iter xO m d)~0) with (2 * Z.pos (Pos.iter xO m d)).
    rewrite IH. ring.
Qed.

(** [shl_align] keeps the value. *)
Lemma shl_align_value (m : positive) (e e' : Z) :
  (IZR (Zpos (fst (shl_align m e e'))) * pow2 (snd (shl_align m e e'))
   = IZR (Zpos m) * pow2 e)%R.
Proof.
  unfold shl_align. destruct (e' - e) as [|d|d] eqn:E; cbn [fst snd];
    try reflexivity.
  rewrite iter_xO_value, mult_IZR, <- pow2_IZR by lia.
  rewrite Rmult_assoc, <- pow2_add. do 2 f_equal. lia.
Qed.

Lemma shl_align_exponent (m : positive) (e e' : Z) :
  e' <= e -> snd (shl_align m e e') = e'.
Proof.
  intros H. unfold shl_align.
  destruct (e' - e) as [|d|d] eqn:E; cbn [snd]; lia.
Qed.

Lemma binary_round_bound (s : bool) (m : positive) (e : Z) :
  (IZR (Zpos m) * pow2 e <= IZR (2 ^ 60))%R ->
  SFfinite (binary_round prec emax s m e) /\
  rounds ((if s then -1 else 1) * (IZR (Zpos m) * pow2 e))
         (SF2R (binary_round prec emax s m e)).
Proof.
  intros HV. unfold binary_round.
  pose proof (shl_align_value m e
                (fexp prec emax (Zpos (digits2_pos m) + e))) as Hv.
  destruct (shl_align m e (fexp prec emax (Zpos (digits2_pos m) + e)))
    as [mz ez].
  cbn [fst snd] in Hv. rewrite <- Hv in *. apply round_aux_bound. exact HV.
Qed.

Lemma binary_normalize_bound (z e : Z) :
  (Rabs (IZR z * pow2 e) <= IZR (2 ^ 60))%R ->
  SFfinite (binary_normalize prec emax z e false) /\
  rounds (IZR z * pow2 e) (SF2R (binary_normalize prec emax z e false)).
Proof.
  intros HV. pose proof (pow2_pos e) as He.
  destruct z as [|p|p]; cbn [binary_normalize].
  - split; [exact I|]. rewrite Rmult_0_l. apply rounds_zero.
  - assert (Hp : (0 < IZR (Zpos p))%R) by (apply IZR_lt; lia).
    rewrite Rabs_pos_eq in HV by nra.
    destruct (binary_round_bound false p e HV) as [H1 H2].
    split; [exact H1|]. rewrite Rmult_1_l in H2. exact H2.
  - assert (Hp : (0 < IZR (Zpos p))%R) by (apply IZR_lt; lia).
    change (Zneg p) with (- Zpos p) in *. rewrite opp_IZR in *.
    rewrite Rabs_left in HV by nra.
    destruct (binary_round_bound true p e ltac:(lra)) as [H1 H2].
    split; [exact H1|].
    replace (- IZR (Zpos p) * pow2 e)%R
      with (-1 * (IZR (Zpos p) * pow2 e))%R by ring. exact H2.
Qed.

Lemma cond_Zopp_IZR (s : bool) (z : Z) :
  IZR (cond_Zopp s z) = ((if s then -1 else 1) * IZR z)%R.
Proof. destruct s; cbn [cond_Zopp]; [rewrite opp_IZR|]; ring. Qed.

Lemma aligned_value (s : bool) (m : positive) (e ez : Z) :
  ez <= e ->
  (IZR (cond_Zopp s (Zpos (fst (shl_align m e ez)))) * pow2 ez
   = SF2R (S754_finite s m e))%R.
Proof.
  intros H. rewrite cond_Zopp_IZR. cbn [SF2R].
  pose proof (shl_align_value m e ez) as Hv.
  rewrite shl_align_exponent in Hv by exact H.
  rewrite Rmult_assoc, Hv. ring.
Qed.

Lemma SFadd_bound (x y : spec_float) :
  SFfinite x -> SFfinite y ->
  (Rabs (SF2R x + SF2R y) <= IZR (2 ^ 60))%R ->
  SFfinite (SFadd prec emax x y) /\
  rounds (SF2R x + SF2R y) (SF2R (SFadd prec emax x y)).
Proof.
  intros Hx Hy HV.
  destruct x as [sx|sx| |sx mx ex]; try contradiction;
    destruct y as [sy|sy| |sy my ey]; try contradiction.
  - cbn [SFadd SF2R]. rewrite Rplus_0_l.
    destruct sx, sy; (split; [exact I|apply rounds_refl]).
  - cbn [SFadd]. split; [exact I|].
    change (SF2R (S754_zero sx)) with 0%R. rewrite Rplus_0_l.
    apply rounds_refl.
  - cbn [SFadd]. split; [exact I|].
    change (SF2R (S754_zero sy)) with 0%R. rewrite Rplus_0_r.
    apply rounds_refl.
  - cbn [SFadd].
    rewrite <- (aligned_value sx mx ex (Z.min ex ey)) in * by lia.
    rewrite <- (aligned_value sy my ey (Z.min ex ey)) in * by lia.
    rewrite <- Rmult_plus_distr_r, <- plus_IZR in *.
    apply binary_normalize_bound. exact HV.
Qed.

Lemma SFsub_bound (x y : spec_float) :
  SFfinite x -> SFfinite y ->
  (Rabs (SF2R x - SF2R y) <= IZR (2 ^ 60))%R ->
  SFfinite (SFsub prec emax x y) /\
  rounds (SF2R x - SF2R y) (SF2R (SFsub prec emax x y)).
Proof.
  intros Hx Hy HV.
  destruct x as [sx|sx| |sx mx ex]; try contradiction;
    destruct y as [sy|sy| |sy my ey]; try contradiction.
  - cbn [SFsub SF2R]. rewrite Rminus_0_r.
    destruct sx, sy; (split; [exact I|apply rounds_refl]).
  - cbn [SFsub]. split; [exact I|].
    replace (SF2R (S754_zero sx) - SF2R (S754_finite sy my ey))%R
      with (SF2R (S754_finite (negb sy) my ey)).
    + apply rounds_refl.
    + cbn [SF2R]. destruct sy; cbn [negb]; ring.
  - cbn [SFsub]. split; [exact I|].
    change (SF2R (S754_zero sy)) with 0%R. rewrite Rminus_0_r.
    apply rounds_refl.
  - cbn [SFsub].
    rewrite <- (aligned_value sx mx ex (Z.min ex ey)) in * by lia.
    rewrite <- (aligned_value sy my ey (Z.min ex ey)) in * by lia.
    rewrite <- Rmult_minus_distr_r, <- minus_IZR in *.
    apply binary_normalize_bound. exact HV.
Qed.

Lemma SFmul_bound (x y : spec_float) :
  SFfinite x -> SFfinite y ->
  (Rabs (SF2R x * SF2R y) <= IZR (2 ^ 60))%R ->
  SFfinite (SFmul prec emax x y) /\
  rounds (SF2R x * SF2R y) (SF2R (SFmul prec emax x y)).
Proof.
  intros Hx Hy HV.
  destruct x as [sx|sx| |sx mx ex]; try contradiction;
    destruct y as [sy|sy| |sy my ey]; try contradiction;
    try (cbn [SFmul]; split; [exact I|]; apply rounds_zero).
  cbn [SFmul].
  assert (Hval : (SF2R (S754_finite sx mx ex) * SF2R (S754_finite sy my ey)
                  = (if xorb sx sy then -1 else 1)
                    * (IZR (Zpos (mx * my)) * pow2 (ex + ey)))%R).
  { cbn [SF2R]. rewrite Pos2Z.inj_mul, mult_IZR, pow2_add.
    destruct sx, sy; cbn [xorb]; ring. }
  rewrite Hval in *. apply round_aux_bound.
  assert (Hpos : (0 <= IZR (Zpos (mx * my)) * pow2 (ex + ey))%R).
  { apply Rmult_le_pos; [apply IZR_le; lia|].
    apply Rlt_le, pow2_pos. }
  destruct (xorb sx sy).
  - rewrite Rabs_left1 in HV by lra. lra.
  - rewrite Rabs_pos_eq in HV by lra. lra.
Qed.

Lemma pow2_neg (k : Z) : 0 <= k -> pow2 (- k) = (/ IZR (2 ^ k))%R.
Proof.
  intros Hk. rewrite <- pow2_IZR by exact Hk.
  pose proof (pow2_pos k) as Hp.
  apply (Rmult_eq_reg_r (pow2 k)); [|lra].
  rewrite <- pow2_add, Rinv_l by lra.
  replace (- k + k) with 0 by lia. reflexivity.
Qed.

Lemma eps_small : (0 < eps <= / 1048576)%R.
Proof.
  split; [apply eps_range|]. unfold eps.
  change (/ 1048576)%R with (/ IZR (2 ^ 20))%R.
  rewrite <- pow2_neg by lia. apply pow2_le. lia.
Qed.

Lemma eta_small : (0 < eta <= / 1048576)%R.
Proof.
  split; [apply eta_range|]. unfold eta.
  change (/ 1048576)%R with (/ IZR (2 ^ 20))%R.
  rewrite <- pow2_neg by lia. apply pow2_le. lia.
Qed.

(** A rounded value stays within 1/100 of an interval around zero that
    holds the exact one, and on the same side of zero. *)
Lemma rounds_interval (x r lo hi : R) :
  rounds x r -> (lo <= x <= hi)%R ->
  (-2000 <= lo)%R -> (lo <= 0)%R -> (0 <= hi)%R -> (hi <= 2000)%R ->
  (lo - / 100 <= r <= hi + / 100)%R.
Proof.
  intros [Hp Hn] Hx H1 H2 H3 H4.
  pose proof eps_small as [He1 He2]. pose proof eta_small as [Ht1 Ht2].
  destruct (Rle_dec 0 x) as [Hx0|Hx0].
  - specialize (Hp Hx0).
    assert (x * eps <= 2000 * / 1048576)%R.
    { apply Rmult_le_compat; lra. }
    lra.
  - assert (Hx1 : (x <= 0)%R) by lra. specialize (Hn Hx1).
    assert ((- x) * eps <= 2000 * / 1048576)%R.
    { apply Rmult_le_compat; lra. }
    lra.
Qed.

Lemma rounds_nonneg (x r hi : R) :
  rounds x r -> (0 <= x <= hi)%R -> (hi <= 2000)%R ->
  (0 <= r <= hi + / 100)%R.
Proof.
  intros Hr Hx H4.
  pose proof (rounds_interval x r 0 hi Hr Hx ltac:(lra) ltac:(lra)
                ltac:(lra) H4) as H.
  destruct Hr as [Hp _]. specialize (Hp ltac:(lra)). lra.
Qed.

(** ** Doubles as real numbers *)

Definition F2R (x : float) : R := SF2R (Prim2SF x).
Definition Ffinite (x : float) : Prop := SFfinite (Prim2SF x).

Lemma small_le_big (x : R) : (Rabs x <= 4000000)%R -> (Rabs x <= IZR (2 ^ 60))%R.
Proof.
  intros H. eapply Rle_trans; [exact H|].
  change 4000000%R with (IZR 4000000). apply IZR_le. vm_compute. discriminate.
Qed.

Lemma mul_bound (x y : float) :
  Ffinite x -> Ffinite y -> (Rabs (F2R x * F2R y) <= 4000000)%R ->
  Ffinite (x * y) /\ rounds (F2R x * F2R y) (F2R (x * y)).
Proof.
  intros Hx Hy HV. unfold Ffinite, F2R in *. rewrite FloatAxioms.mul_spec.
  apply SFmul_bound; try assumption. apply small_le_big, HV.
Qed.

Lemma add_bound (x y : float) :
  Ffinite x -> Ffinite y -> (Rabs (F2R x + F2R y) <= 4000000)%R ->
  Ffinite (x + y) /\ rounds (F2R x + F2R y) (F2R (x + y)).
Proof.
  intros Hx Hy HV. unfold Ffinite, F2R in *. rewrite FloatAxioms.add_spec.
  apply SFadd_bound; try assumption. apply small_le_big, HV.
Qed.

Lemma sub_bound (x y : float) :
  Ffinite x -> Ffinite y -> (Rabs (F2R x - F2R y) <= 4000000)%R ->
  Ffinite (x - y) /\ rounds (F2R x - F2R y) (F2R (x - y)).
Proof.
  intros Hx Hy HV. unfold Ffinite, F2R in *. rewrite FloatAxioms.sub_spec.
  apply SFsub_bound; try assumption. apply small_le_big, HV.
Qed.

(** A decidable bound on a concrete double: [lo <= d * x <= hi]. *)
Definition SF_between (d lo hi : Z) (x : spec_float) : bool :=
  match x with
  | S754_zero _ => (lo <=? 0) && (0 <=? hi)
  | S754_finite s m e =>
      let v := d * cond_Zopp s (Zpos m) in
      if 0 <=? e then (lo <=? v * 2 ^ e) && (v * 2 ^ e <=? hi)
      else (lo * 2 ^ (- e) <=? v) && (v <=? hi * 2 ^ (- e))
  | _ => false
  end.

Lemma SF_between_spec (d lo hi : Z) (x : spec_float) :
  SF_between d lo hi x = true ->
  SFfinite x /\ (IZR lo <= IZR d * SF2R x <= IZR hi)%R.
Proof.
  destruct x as [s|s| |s m e]; cbn [SF_between SFfinite SF2R];
    try discriminate.
  - intros H. apply andb_true_iff in H as [H1 H2].
    apply Z.leb_le in H1, H2. split; [exact I|].
    rewrite Rmult_0_r. split; apply IZR_le; assumption.
  - intros H. split; [exact I|].
    replace (IZR d * ((if s then -1 else 1) * IZR (Z.pos m) * pow2 e))%R
      with (IZR (d * cond_Zopp s (Zpos m)) * pow2 e)%R
      by (rewrite mult_IZR, cond_Zopp_IZR; ring).
    set (v := d * cond_Zopp s (Zpos m)) in *.
    destruct (Z.leb_spec 0 e) as [He|He];
      apply andb_true_iff in H as [H1 H2]; apply Z.leb_le in H1, H2.
    + rewrite pow2_IZR, <- mult_IZR by exact He.
      split; apply IZR_le; assumption.
    + assert (Hp : (0 < IZR (2 ^ (- e)))%R).
      { apply IZR_lt, Z.pow_pos_nonneg; lia. }
      assert (Hpe : pow2 e = (/ IZR (2 ^ (- e)))%R).
      { rewrite <- pow2_neg by lia. f_equal. lia. }
      rewrite Hpe.
      apply IZR_le in H1, H2. rewrite mult_IZR in H1, H2.
      split.
      * apply (Rmult_le_reg_r (IZR (2 ^ (- e)))); [exact Hp|].
        rewrite Rmult_assoc, Rinv_l by lra. lra.
      * apply (Rmult_le_reg_r (IZR (2 ^ (- e)))); [exact Hp|].
        rewrite Rmult_assoc, Rinv_l by lra. lra.
Qed.

Lemma F_between (d lo hi : Z) (x : float) :
  SF_between d lo hi (Prim2SF x) = true ->
  Ffinite x /\ (IZR lo <= IZR d * F2R x <= IZR hi)%R.
Proof. apply SF_between_spec. Qed.

(** ** The running mean stays in range *)

Lemma ma_between : Ffinite ma /\ (0 <= 10000000 * F2R ma <= 2000001)%R.
Proof. apply (F_between 10000000 0 2000001). vm_compute. reflexivity. Qed.

Lemma mrr_between : Ffinite mrr /\ (0 <= 10000000 * F2R mrr <= 500001)%R.
Proof. apply (F_between 10000000 0 500001). vm_compute. reflexivity. Qed.

Lemma symbol_between (s : Z) :
  0 <= s <= 1024 ->
  (Ffinite (double_of_Z s) /\ (0 <= 1 * F2R (double_of_Z s) <= 1024)%R) /\
  (Ffinite ((1 - ma) * double_of_Z s) /\
   (0 <= 1 * F2R ((1 - ma) * double_of_Z s) <= 820)%R).
Proof.
  intros Hs.
  assert (H : forall_below 1025 (fun s =>
            SF_between 1 0 1024 (Prim2SF (double_of_Z s)) &&
            SF_between 1 0 820 (Prim2SF ((1 - ma) * double_of_Z s)))%bool
          = true) by (vm_compute; reflexivity).
  pose proof (forall_below_spec _ _ H s ltac:(lia)) as Hb.
  cbv beta in Hb.
  apply andb_true_iff in Hb as [H1 H2].
  split; [apply (F_between 1 0 1024), H1 | apply (F_between 1 0 820), H2].
Qed.

Lemma trunc_between (x : float) (lo hi : Z) :
  Ffinite x -> (IZR lo <= F2R x <= IZR hi)%R -> lo <= 0 <= hi ->
  exists z, trunc_double x = Some z /\ lo <= z <= hi.
Proof.
  unfold Ffinite, F2R, trunc_double. intros Hf Hx Hz.
  destruct (Prim2SF x) as [s|s| |s m e]; try contradiction.
  - exists 0. split; [reflexivity|lia].
  - cbn [SF2R] in Hx. eexists. split; [reflexivity|].
    set (a := if 0 <=? e then Z.pos m * 2 ^ e else Z.pos m / 2 ^ (- e)).
    assert (Ha : 0 <= a /\ (IZR a <= IZR (Zpos m) * pow2 e)%R).
    { subst a. destruct (Z.leb_spec 0 e) as [He|He].
      - split; [apply Z.mul_nonneg_nonneg; [lia|apply Z.pow_nonneg; lia]|].
        rewrite mult_IZR, pow2_IZR by exact He. lra.
      - split; [apply Z.div_pos; [lia|apply Z.pow_pos_nonneg; lia]|].
        pose proof (shift_value_le (Zpos m) e (- e) ltac:(lia) ltac:(lia))
          as Hs.
        replace (e + - e) with 0 in Hs by lia.
        change (pow2 0) with 1%R in Hs. lra. }
    destruct Ha as [Ha0 Ha1]. destruct s.
    + split; [|lia]. apply le_IZR. rewrite opp_IZR. lra.
    + split; [lia|]. apply le_IZR. lra.
Qed.

Lemma shift_of_trunc (z : Z) :
  - 100 <= z <= 1100 -> - 1025 <= s16 (511 - u16 z) <= 1025.
Proof.
  intros Hz. unfold s16, u16.
  destruct (Z_lt_le_dec z 0) as [Hn|Hp].
  - replace (z mod 65536) with (z + 65536).
    + replace ((511 - (z + 65536) + 32768) mod 65536)
        with (511 - (z + 65536) + 32768 + 65536); [lia|].
      apply Z.mod_unique with (q := - 1); lia.
    + apply Z.mod_unique with (q := - 1); lia.
  - rewrite (Z.mod_small z) by lia. rewrite Z.mod_small by lia. lia.
Qed.

(** The running mean is a finite double between 0 and 1030. *)
Definition mean_ok (m : Model) : Prop :=
  Ffinite (mean m) /\ (0 <= F2R (mean m) <= 1030)%R.

Ltac small_abs := apply Rabs_le; split; lra.

Lemma adapt_mean_shift (m : Model) (s : Z) :
  mean_ok m -> 0 <= s <= 1024 ->
  mean_ok (adapt m s) /\ shift_ok (adapt m s).
Proof.
  intros [Fm [M0 M1]] Hs.
  destruct ma_between as [Fa [A0 A1]].
  destruct mrr_between as [Fr [R0 R1]].
  destruct (symbol_between s Hs) as [[Fs [S0 S1]] [Fq [Q0 Q1]]].
  rewrite Rmult_1_l in S0, S1, Q0, Q1.
  (* ma * mean *)
  assert (P1 : (0 <= F2R ma * F2R (mean m) <= 207)%R) by nra.
  destruct (mul_bound ma (mean m) Fa Fm ltac:(small_abs)) as [F1 r1].
  apply (fun H => rounds_nonneg _ _ 207 H P1) in r1; [|lra].
  (* the new mean *)
  set (mean' := (ma * mean m + (1 - ma) * double_of_Z s)%float) in *.
  assert (P2 : (0 <= F2R (ma * mean m) + F2R ((1 - ma) * double_of_Z s)
                <= 1028)%R) by lra.
  destruct (add_bound _ _ F1 Fq ltac:(small_abs)) as [F2 r2].
  apply (fun H => rounds_nonneg _ _ 1028 H P2) in r2; [|lra].
  fold mean' in F2, r2.
  split; [split; [exact F2|cbn [adapt mean]; fold mean'; lra]|].
  (* symbol - mean' *)
  assert (P3 : (- 1029 <= F2R (double_of_Z s) - F2R mean' <= 1024)%R) by lra.
  destruct (sub_bound _ _ Fs F2 ltac:(small_abs)) as [F3 r3].
  apply (fun H => rounds_interval _ _ (- 1029) 1024 H P3) in r3; try lra.
  (* ... * mrr *)
  assert (P4 : (- 52 <= F2R (double_of_Z s - mean') * F2R mrr <= 52)%R)
    by nra.
  destruct (mul_bound _ _ F3 Fr ltac:(small_abs)) as [F4 r4].
  apply (fun H => rounds_interval _ _ (- 52) 52 H P4) in r4; try lra.
  (* mean' + ... *)
  assert (P5 : (- 53 <= F2R mean' + F2R ((double_of_Z s - mean') * mrr)
                <= 1082)%R) by lra.
  destruct (add_bound _ _ F2 F4 ltac:(small_abs)) as [F5 r5].
  apply (fun H => rounds_interval _ _ (- 53) 1082 H P5) in r5; try lra.
  destruct (trunc_between _ (- 54) 1083 F5) as [z [Hz Hzr]];
    [split; lra|lia|].
  unfold shift_ok, adapt. cbn [active_symbol_shift]. fold mean'.
  unfold double_to_u16, double_to_i32. rewrite Hz.
  replace ((- 2147483648 <=? z) && (z <=? 2147483647))%bool with true
    by (symmetry; apply andb_true_iff; split; apply Z.leb_le; lia).
  apply shift_of_trunc. lia.
Qed.

Lemma update_state_mean_shift (m : Model) (s : Z) :
  mean_ok m -> shift_ok m -> 0 <= s <= 1024 ->
  mean_ok (update_state m s) /\ shift_ok (update_state m s).
Proof.
  intros Hm Hsh Hs. unfold update_state.
  destruct (filtered_counter m s =? 0).
  - apply adapt_mean_shift; assumption.
  - split; [exact Hm|exact Hsh].
Qed.

Lemma Model_init_mean_ok (table : list (list Z)) :
  mean_ok (Model_init table) /\ shift_ok (Model_init table).
Proof.
  split.
  - destruct (F_between 1 0 1030 511%float) as [H1 H2];
      [vm_compute; reflexivity|].
    rewrite Rmult_1_l in H2. split; [exact H1|exact H2].
  - unfold shift_ok. cbn. lia.
Qed.

(** Along any sequence of symbols the shift stays in range. *)
Lemma shifts_ok_all (m : Model) (symbols : list Z) :
  mean_ok m -> shift_ok m ->
  Forall (fun s => 0 <= s <= 1024) symbols ->
  shifts_ok m symbols.
Proof.
  revert m. induction symbols as [|s rest IH]; intros m Hm Hsh Hall.
  - split; [exact Hsh|exact I].
  - inversion Hall as [|? ? Hs Hrest]; subst.
    destruct (update_state_mean_shift m s Hm Hsh Hs) as [Hm' Hsh'].
    split; [exact Hsh|]. apply IH; assumption.
Qed.

(** ** A table to run the coder on *)

(** [row_ok] as a test. *)
Definition row_okb (row : list Z) : bool :=
  (length row =? 1026)%nat && (nth 0 row 0 =? 0)
  && (nth 1025 row 0 =? MAX_FREQUENCY)
  && forall_below 1025
       (fun j => nth (Z.to_nat j) row 0 <? nth (S (Z.to_nat j)) row 0).

Definition table_okb (table : list (list Z)) : bool :=
  (length table =? 4)%nat && forallb row_okb table.

Lemma row_okb_spec (row : list Z) : row_okb row = true -> row_ok row.
Proof.
  unfold row_okb. intros H.
  apply andb_true_iff in H as [H H4]. apply andb_true_iff in H as [H H3].
  apply andb_true_iff in H as [H1 H2].
  apply Nat.eqb_eq in H1. apply Z.eqb_eq in H2, H3.
  repeat (split; [assumption|]).
  intros j Hj.
  pose proof (forall_below_spec _ _ H4 (Z.of_nat j) ltac:(lia)) as Hb.
  cbv beta in Hb. rewrite Nat2Z.id in Hb. apply Z.ltb_lt. exact Hb.
Qed.

Lemma table_okb_spec (table : list (list Z)) :
  table_okb table = true -> table_ok table.
Proof.
  unfold table_okb. intros H. apply andb_true_iff in H as [H1 H2].
  apply Nat.eqb_eq in H1. split; [exact H1|].
  apply Forall_forall. intros row Hin. apply row_okb_spec.
  rewrite forallb_forall in H2. apply H2, Hin.
Qed.

(** Four rows that rise by 31 per symbol: the shape the constructor's rows
    have, with a uniform distribution. *)
Definition linear_row : list Z :=
  map (fun j => if j =? 1025 then 32767 else 31 * j)
      (map Z.of_nat (seq 0 1026)).

Definition linear_table : list (list Z) := repeat linear_row 4.

Lemma linear_table_ok : table_ok linear_table.
Proof. apply table_okb_spec. vm_compute. reflexivity. Qed.

(** ** The coder invariants *)

(** What the decoder keeps between calls. *)
Definition decoder_ok (d : ArithmeticDecoder.t) : Prop :=
  coder_inv (ArithmeticDecoder.low d) (ArithmeticDecoder.high d) /\
  ArithmeticDecoder.low d <= ArithmeticDecoder.value d
  <= ArithmeticDecoder.high d.

(** What the model keeps: the table, the mean and the shift in range. *)
Definition tracked (m : Model) : Prop :=
  model_ok m /\ mean_ok m /\ shift_ok m.

Lemma tracked_init (table : list (list Z)) :
  table_ok table -> tracked (Model_init table).
Proof.
  intros Ht. destruct (Model_init_mean_ok table) as [H1 H2].
  split; [apply Model_init_ok, Ht|]. split; assumption.
Qed.

Lemma tracked_update (m : Model) (s : Z) :
  tracked m -> 0 <= s < NUM_SYMBOLS -> tracked (update_state m s).
Proof.
  unfold NUM_SYMBOLS. intros (Hm & Hmean & Hsh) Hs.
  destruct (update_state_mean_shift m s Hmean Hsh ltac:(lia)) as [H1 H2].
  split; [apply update_state_ok, Hm|]. split; assumption.
Qed.

(** The states after each [decode] call of [decodeStream]. *)
Fixpoint decoder_states (fuel : nat) (junk : nat -> Z) (k : nat)
    (d : ArithmeticDecoder.t) (bs : IBitStream.t)
  : list ArithmeticDecoder.t :=
  match fuel with
  | O => []
  | S fuel' =>
      match ArithmeticDecoder.decode (junk k) d bs with
      | None => []
      | Some (symbol, d1, bs1) =>
          d1
          :: (if symbol =? NUM_SYMBOLS - 1 then []
              else decoder_states fuel' junk (S k)
                     (ArithmeticDecoder.set_model d1
                        (update_state (ArithmeticDecoder.model d1) symbol))
                     bs1)
      end
  end.

(** [frequency_symbol] returns a symbol of the alphabet whatever it is
    given. *)
Lemma frequency_symbol_range (m : Model) (freq : Z) :
  0 <= frequency_symbol m freq < NUM_SYMBOLS.
Proof.
  unfold frequency_symbol, NUM_SYMBOLS.
  match goal with |- context [?x mod 1025] =>
    pose proof (Z.mod_pos_bound x 1025 ltac:(lia)) as H;
    generalize dependent (x mod 1025) end.
  intros y Hy. rewrite u16_small by lia. lia.
Qed.

(** The range part of an iteration does not look at [value] or at [b]. *)
Lemma decoder_shift_range (b : Z) (d : ArithmeticDecoder.t)
    (bs : IBitStream.t) :
  0 <= ArithmeticDecoder.low d ->
  ArithmeticDecoder.low d <= ArithmeticDecoder.high d ->
  ArithmeticDecoder.high d < Int50 ->
  exists y d' bs',
    ArithmeticDecoder.shift b d bs = (y, d', bs') /\
    ArithmeticDecoder.low d' = 2 * ArithmeticDecoder.low d /\
    ArithmeticDecoder.high d' = 2 * ArithmeticDecoder.high d + 1 /\
    ArithmeticDecoder.model d' = ArithmeticDecoder.model d.
Proof.
  unfold Int50. intros Hl Hlh Hh. unfold ArithmeticDecoder.shift.
  destruct (ArithmeticDecoder.shift_in b (ArithmeticDecoder.value d) bs)
    as [[y v] bs'].
  eexists y, _, bs'. split; [reflexivity|].
  cbn [ArithmeticDecoder.low ArithmeticDecoder.high ArithmeticDecoder.model].
  rewrite shl1_or1, shl1 by lia. rewrite !u32_small by lia. auto.
Qed.

(** Whatever [value] and [b] hold, the decoder's loop takes [low] and
    [high] through the renormalization of the range. *)
Lemma decode_loop_range n l h p F l' h' p' :
  Renorm n l h p F l' h' p' -> range_ok l h ->
  forall (fuel : nat) (b : Z) (d : ArithmeticDecoder.t) (bs : IBitStream.t),
  (n < fuel)%nat ->
  ArithmeticDecoder.low d = l -> ArithmeticDecoder.high d = h ->
  exists d' bs',
    ArithmeticDecoder.decode_loop fuel b d bs = Some (d', bs') /\
    ArithmeticDecoder.low d' = l' /\ ArithmeticDecoder.high d' = h' /\
    ArithmeticDecoder.model d' = ArithmeticDecoder.model d.
Proof.
  induction 1 as [l h p Hh Hl Hq
                 | n l h p F l' h' p' Hlow R IH
                 | n l h p F l' h' p' Hh Hl R IH
                 | n l h p F l' h' p' Hh Hl Hl2 Hh2 R IH];
    intros Hr fuel b d bs Hfuel Hdl Hdh;
    (destruct fuel as [|fuel]; [lia|]);
    cbn [ArithmeticDecoder.decode_loop]; unfold ArithmeticDecoder.select;
    rewrite Hdl, Hdh; unfold range_ok, MAX_CODE in Hr.
  - replace (h <? Int50) with false by (symmetry; apply Z.ltb_ge; lia).
    replace (l >=? Int50) with false
      by (symmetry; rewrite Z.geb_leb; apply Z.leb_gt; lia).
    replace ((l >=? Int25) && (h <? Int75)) with false.
    2:{ symmetry. apply andb_false_iff. rewrite Z.geb_leb, Z.leb_gt, Z.ltb_ge.
        lia. }
    exists d, bs. auto.
  - replace (h <? Int50) with true by (symmetry; apply Z.ltb_lt; lia).
    destruct (decoder_shift_range b d bs) as
      (y & d2 & bs2 & E & S1 & S2 & S3); try lia.
    rewrite E. rewrite Hdl in S1. rewrite Hdh in S2.
    destruct (IH ltac:(unfold range_ok, MAX_CODE, Int50 in *; lia)
                fuel y d2 bs2 ltac:(lia) S1 S2) as
      (d' & bs' & E' & L1 & L2 & L3).
    exists d', bs'. split; [exact E'|]. split; [exact L1|].
    split; [exact L2|congruence].
  - replace (h <? Int50) with false by (symmetry; apply Z.ltb_ge; lia).
    replace (l >=? Int50) with true
      by (symmetry; rewrite Z.geb_leb; apply Z.leb_le; lia).
    unfold Int50 in *.
    set (d1 := ArithmeticDecoder.subtract 65536 d).
    assert (D1 : ArithmeticDecoder.low d1 = l - 65536)
      by (cbn; rewrite Hdl; apply u32_small; lia).
    assert (D2 : ArithmeticDecoder.high d1 = h - 65536)
      by (cbn; rewrite Hdh; apply u32_small; lia).
    destruct (decoder_shift_range b d1 bs) as
      (y & d2 & bs2 & E & S1 & S2 & S3); unfold Int50; try lia.
    rewrite E. rewrite D1 in S1. rewrite D2 in S2.
    destruct (IH ltac:(unfold range_ok, MAX_CODE in *; lia)
                fuel y d2 bs2 ltac:(lia) S1 S2) as
      (d' & bs' & E' & L1 & L2 & L3).
    exists d', bs'. split; [exact E'|]. split; [exact L1|].
    split; [exact L2|rewrite L3, S3; reflexivity].
  - replace (h <? Int50) with false by (symmetry; apply Z.ltb_ge; lia).
    replace (l >=? Int50) with false
      by (symmetry; rewrite Z.geb_leb; apply Z.leb_gt; lia).
    replace ((l >=? Int25) && (h <? Int75)) with true.
    2:{ symmetry. apply andb_true_iff. rewrite Z.geb_leb, Z.leb_le, Z.ltb_lt.
        lia. }
    unfold Int25, Int50, Int75 in *.
    set (d1 := ArithmeticDecoder.subtract 32768 d).
    assert (D1 : ArithmeticDecoder.low d1 = l - 32768)
      by (cbn; rewrite Hdl; apply u32_small; lia).
    assert (D2 : ArithmeticDecoder.high d1 = h - 32768)
      by (cbn; rewrite Hdh; apply u32_small; lia).
    destruct (decoder_shift_range b d1 bs) as
      (y & d2 & bs2 & E & S1 & S2 & S3); unfold Int50; try lia.
    rewrite E. rewrite D1 in S1. rewrite D2 in S2.
    destruct (IH ltac:(unfold range_ok, MAX_CODE in *; lia)
                fuel y d2 bs2 ltac:(lia) S1 S2) as
      (d' & bs' & E' & L1 & L2 & L3).
    exists d', bs'. split; [exact E'|]. split; [exact L1|].
    split; [exact L2|rewrite L3, S3; reflexivity].
Qed.

(** One [decode] call on any input and with any byte in [b]: it returns a
    symbol of the alphabet and keeps the bounds on [low] and [high]. *)
Lemma decode_keeps_range (b : Z) (d : ArithmeticDecoder.t)
    (bs : IBitStream.t) :
  coder_inv (ArithmeticDecoder.low d) (ArithmeticDecoder.high d) ->
  model_ok (ArithmeticDecoder.model d) ->
  exists s d' bs',
    ArithmeticDecoder.decode b d bs = Some (s, d', bs') /\
    0 <= s < NUM_SYMBOLS /\
    coder_inv (ArithmeticDecoder.low d') (ArithmeticDecoder.high d') /\
    ArithmeticDecoder.model d' = ArithmeticDecoder.model d.
Proof.
  intros Hr Hm. unfold ArithmeticDecoder.decode.
  set (s := frequency_symbol (ArithmeticDecoder.model d) _).
  pose proof (frequency_symbol_range (ArithmeticDecoder.model d)
                (u16 (backward_value (ArithmeticDecoder.value d)
                        (ArithmeticDecoder.low d) (ArithmeticDecoder.high d))))
    as Hs.
  fold s in Hs.
  pose proof (narrowed_range_ok _ _ _ s Hm Hr) as Hrange.
  destruct (renorm_exists _ _ O Hrange) as (n & F & l' & h' & p' & Hn & R).
  unfold narrowed in Hrange, R.
  destruct (symbol_low_high (ArithmeticDecoder.model d) s) as [sl sh].
  cbn [fst snd] in Hrange, R.
  destruct (forward_range (ArithmeticDecoder.low d) (ArithmeticDecoder.high d)
              sl sh) as [l1 h1].
  cbn [fst snd] in Hrange, R.
  match goal with |- context [ArithmeticDecoder.decode_loop _ _ ?d1 bs] =>
    destruct (decode_loop_range _ _ _ _ _ _ _ _ R Hrange renorm_fuel b d1 bs
                Hn eq_refl eq_refl) as (d' & bs' & E & L1 & L2 & L3) end.
  rewrite E. exists s, d', bs'. split; [reflexivity|]. split; [exact Hs|].
  split; [|exact L3].
  rewrite L1, L2. exact (renorm_post _ _ _ _ _ _ _ _ R Hrange).
Qed.

(** One [decode] call on any input, when [b] holds a bit: it also keeps
    [value] between [low] and [high]. *)
Lemma decode_keeps_invariant (b : bool) (d : ArithmeticDecoder.t)
    (bs : IBitStream.t) :
  decoder_ok d -> tracked (ArithmeticDecoder.model d) ->
  exists s d' bs',
    ArithmeticDecoder.decode (Z.b2z b) d bs = Some (s, d', bs') /\
    0 <= s < NUM_SYMBOLS /\ decoder_ok d' /\
    ArithmeticDecoder.model d' = ArithmeticDecoder.model d.
Proof.
  intros [Hr Hv] (Hm & _ & Hsh).
  set (m := ArithmeticDecoder.model d) in *.
  set (l := ArithmeticDecoder.low d) in *.
  set (h := ArithmeticDecoder.high d) in *.
  set (v := ArithmeticDecoder.value d) in *.
  pose proof (backward_value_range v l h Hr Hv) as Hf.
  set (freq := backward_value v l h) in *.
  assert (Hu : u16 freq = freq)
    by (apply u16_small; unfold MAX_FREQUENCY in Hf; lia).
  destruct (frequency_loc_spec m freq Hm Hf) as (Hloc & Hlo & Hhi).
  destruct (symbol_loc_frequency_symbol m freq Hsh Hloc) as (Hsym & Hsl).
  set (s := frequency_symbol m freq) in *.
  pose proof (symbol_low_high_ok m s Hm) as (L0 & L1 & L2).
  assert (Hin : fst (narrowed m l h s) <= v <= snd (narrowed m l h s)).
  { unfold narrowed.
    apply (proj1 (scaled_in_interval_iff v l h _ _ Hr Hv L0 L1 L2)).
    fold freq. rewrite symbol_low_high_loc, Hsl. cbn [fst snd]. lia. }
  pose proof (narrowed_range_ok m l h s Hm Hr) as Hrange.
  destruct (renorm_exists _ _ O Hrange) as (n & F & l' & h' & p' & Hn & R).
  destruct (decode_spec b d bs O n F l' h' p' Hr Hm) as
    (d' & bs' & E & D1 & D2 & D3 & D4 & D5 & _).
  { unfold coder_inv in Hr. fold l v in Hv |- *. lia. }
  { fold v l h m freq. rewrite Hu. fold s. exact R. }
  { exact Hn. }
  fold v l h m freq in E. rewrite Hu in E. fold s in E.
  exists s, d', bs'. split; [exact E|]. split; [exact Hsym|].
  split; [|exact D3]. split.
  - rewrite D1, D2. exact (renorm_post _ _ _ _ _ _ _ _ R Hrange).
  - rewrite D1, D2. apply D5. fold v l h m freq. rewrite Hu. fold s.
    exact Hin.
Qed.

(** The states after each [decode] call keep the bounds on [low] and
    [high], whatever the input and whatever [b] holds. *)
Lemma decoder_states_range (fuel : nat) :
  forall (junk : nat -> Z) (k : nat) (d : ArithmeticDecoder.t)
         (bs : IBitStream.t) (out : ostream),
  coder_inv (ArithmeticDecoder.low d) (ArithmeticDecoder.high d) ->
  model_ok (ArithmeticDecoder.model d) ->
  Forall (fun d => coder_inv (ArithmeticDecoder.low d)
                     (ArithmeticDecoder.high d))
         (decoder_states fuel junk k d bs) /\
  (length (decoder_states fuel junk k d bs) = fuel
   \/ exists r, decode_symbols fuel junk k d bs out = Ok r).
Proof.
  induction fuel as [|fuel IH]; intros junk k d bs out Hd Hm.
  - split; [constructor|left; reflexivity].
  - cbn [decoder_states decode_symbols].
    destruct (decode_keeps_range (junk k) d bs Hd Hm) as
      (s & d' & bs' & E & Hs & Hd' & Hm').
    rewrite E.
    destruct (s =? NUM_SYMBOLS - 1).
    + split; [constructor; [exact Hd'|constructor]|]. right. eauto.
    + destruct (IH junk (S k)
                  (ArithmeticDecoder.set_model d'
                     (update_state (ArithmeticDecoder.model d') s)) bs'
                  (neuralink_write_symbol_to_stream out s)) as [H1 H2].
      * exact Hd'.
      * cbn [ArithmeticDecoder.set_model ArithmeticDecoder.model].
        rewrite Hm'. apply update_state_ok, Hm.
      * split; [constructor; assumption|].
        destruct H2 as [H2|H2]; [left; cbn [length]; lia|right; exact H2].
Qed.

(** When [b] holds a bit at every entry, they keep [value] in the range as
    well. *)
Lemma decoder_states_invariant (fuel : nat) :
  forall (junk : nat -> Z) (k : nat) (d : ArithmeticDecoder.t)
         (bs : IBitStream.t),
  bit_junk junk ->
  decoder_ok d -> tracked (ArithmeticDecoder.model d) ->
  Forall decoder_ok (decoder_states fuel junk k d bs).
Proof.
  induction fuel as [|fuel IH]; intros junk k d bs Hj Hd Hm.
  - constructor.
  - cbn [decoder_states]. rewrite (bit_junk_b2z junk k Hj).
    destruct (decode_keeps_invariant (junk k =? 1) d bs Hd Hm) as
      (s & d' & bs' & E & Hs & Hd' & Hm').
    rewrite E.
    destruct (s =? NUM_SYMBOLS - 1).
    + constructor; [exact Hd'|constructor].
    + constructor; [exact Hd'|]. apply IH; [exact Hj|exact Hd'|].
      cbn [ArithmeticDecoder.set_model ArithmeticDecoder.model].
      rewrite Hm'. apply tracked_update; assumption.
Qed.

Lemma encoder_trace_invariant (symbols : list Z) :
  forall (e : ArithmeticEncoder.t) (bs : OBitStream.t),
  coder_inv (ArithmeticEncoder.low e) (ArithmeticEncoder.high e) ->
  model_ok (ArithmeticEncoder.model e) ->
  length (encoder_trace symbols e bs) = S (length symbols) /\
  Forall (fun sn : snapshot => coder_inv (fst (fst sn)) (snd (fst sn)))
         (encoder_trace symbols e bs).
Proof.
  induction symbols as [|s rest IH]; intros e bs Hr Hm;
    cbn [encoder_trace].
  - destruct (encode_spec O (NUM_SYMBOLS - 1) e bs Hr Hm) as
      (e1 & bs1 & n & F & E & _ & _ & Hr1 & _ & _).
    rewrite E. split; [reflexivity|].
    constructor; [exact Hr1|constructor].
  - destruct (encode_spec O s e bs Hr Hm) as
      (e1 & bs1 & n & F & E & _ & _ & Hr1 & Hm1 & _).
    rewrite E.
    destruct (IH (ArithmeticEncoder.set_model e1
                    (update_state (ArithmeticEncoder.model e1) s)) bs1)
      as [H1 H2].
    + exact Hr1.
    + cbn [ArithmeticEncoder.set_model ArithmeticEncoder.model].
      rewrite Hm1. apply update_state_ok, Hm.
    + split; [cbn [length]; lia|]. constructor; [exact Hr1|exact H2].
Qed.

(** [init] touches neither the range nor the model. *)
Lemma init_decoder_range (b : Z) (table : list (list Z)) (bs : IBitStream.t) :
  exists d0 bs0,
    ArithmeticDecoder.init b (ArithmeticDecoder.new table) bs = (d0, bs0) /\
    coder_inv (ArithmeticDecoder.low d0) (ArithmeticDecoder.high d0) /\
    ArithmeticDecoder.model d0 = Model_init table.
Proof.
  unfold ArithmeticDecoder.init.
  destruct (ArithmeticDecoder.read_bits 17 b 0 bs) as [v bs'].
  eexists _, _. split; [reflexivity|]. split; [|reflexivity].
  unfold coder_inv, MAX_CODE, Int25.
  cbn [ArithmeticDecoder.low ArithmeticDecoder.high ArithmeticDecoder.new].
  unfold MAX_CODE. lia.
Qed.

(** When [b] holds a bit, [init] on any input leaves a value of seventeen
    bits. *)
Lemma init_decoder_ok (b : bool) (table : list (list Z)) (input : list Z) :
  exists d0 bs0,
    ArithmeticDecoder.init (Z.b2z b) (ArithmeticDecoder.new table)
      (IBitStream.new {| avail := input; good := true |}) = (d0, bs0) /\
    decoder_ok d0 /\ ArithmeticDecoder.model d0 = Model_init table.
Proof.
  destruct (ibs_new_bits input) as [Hinv _].
  destruct (read_bits_spec 17 0 b 0 _ ltac:(lia) ltac:(cbn; lia) Hinv)
    as (R & bs' & T & E & HR & _ & _).
  unfold ArithmeticDecoder.init. rewrite E.
  eexists _, _. split; [reflexivity|].
  pose proof (bits_val_range R) as Hv. rewrite HR in Hv.
  change (2 ^ Z.of_nat 17) with 131072 in Hv.
  split; [|reflexivity]. unfold decoder_ok, coder_inv, MAX_CODE, Int25.
  cbn [ArithmeticDecoder.low ArithmeticDecoder.high ArithmeticDecoder.value
       ArithmeticDecoder.new].
  unfold MAX_CODE. lia.
Qed.

(** X23: from the initial state (low = 0, high = MAX_CODE), every [encode]
    call of the encoder returns and leaves 0 <= low < high <= MAX_CODE and
    high - low >= Int25, whatever the symbols are; every [decode] call of
    the decoder, whatever bytes it reads and whatever byte the
    uninitialized [b] holds, returns and leaves the same bounds on low and
    high; the list of decoder states either has one state per unit of fuel
    or ends with the stop symbol.  When [b] holds 0 or 1 at every entry,
    low <= value <= high holds after [init] and after every [decode] call
    as well. *)
Theorem coder_invariants_hold (table : list (list Z)) (symbols : list Z)
    (out : ostream) (input : list Z) (fuel : nat) (junk : nat -> Z) :
  table_ok table ->
  let et := encoder_trace symbols (ArithmeticEncoder.new table)
              (OBitStream.new out) in
  let (d0, bs0) :=
    ArithmeticDecoder.init (junk O) (ArithmeticDecoder.new table)
      (IBitStream.new {| avail := input; good := true |}) in
  let ds := decoder_states fuel junk 1 d0 bs0 in
  (length et = S (length symbols) /\
   Forall (fun sn : snapshot =>
             let '(l, h, _) := sn in
             0 <= l /\ l < h /\ h <= MAX_CODE /\ h - l >= Int25) et) /\
  Forall (fun d =>
            0 <= ArithmeticDecoder.low d /\
            ArithmeticDecoder.low d < ArithmeticDecoder.high d /\
            ArithmeticDecoder.high d <= MAX_CODE /\
            ArithmeticDecoder.high d - ArithmeticDecoder.low d >= Int25) ds /\
  (length ds = fuel
   \/ exists r, decode_symbols fuel junk 1 d0 bs0 out = Ok r) /\
  (bit_junk junk ->
   ArithmeticDecoder.low d0 <= ArithmeticDecoder.value d0
   <= ArithmeticDecoder.high d0 /\
   Forall (fun d =>
             ArithmeticDecoder.low d <= ArithmeticDecoder.value d
             <= ArithmeticDecoder.high d) ds).
Proof.
  intros Ht et.
  destruct (init_decoder_range (junk O) table
              (IBitStream.new {| avail := input; good := true |})) as
    (d0 & bs0 & E & Hd0 & Hm0).
  rewrite E. intros ds.
  destruct (encoder_trace_invariant symbols (ArithmeticEncoder.new table)
              (OBitStream.new out) (encoder_new_inv table)
              (Model_init_ok table Ht)) as [E1 E2].
  destruct (decoder_states_range fuel junk 1 d0 bs0 out Hd0) as [D1 D2].
  { rewrite Hm0. apply Model_init_ok, Ht. }
  split; [split; [exact E1|]|].
  { eapply Forall_impl; [|exact E2].
    intros [[l h] m] H. exact H. }
  split; [exact D1|]. split; [exact D2|].
  intros Hj.
  destruct (init_decoder_ok (junk O =? 1) table input) as
    (d0' & bs0' & E' & Hd0' & _).
  rewrite <- (bit_junk_b2z junk O Hj), E in E'.
  injection E' as <- <-.
  split; [exact (proj2 Hd0')|].
  pose proof (decoder_states_invariant fuel junk 1 d0 bs0 Hj Hd0') as D3.
  eapply Forall_impl; [|apply D3; rewrite Hm0; apply tracked_init, Ht].
  intros d [_ H]. exact H.
Qed.

Lemma coder_invariants_hold_witness :
  table_ok linear_table /\
  let (d0, bs0) :=
    ArithmeticDecoder.init 255 (ArithmeticDecoder.new linear_table)
      (IBitStream.new {| avail := [77; 200]; good := true |}) in
  Forall (fun d => ArithmeticDecoder.high d <= MAX_CODE)
         (decoder_states 3 (fun _ => 255) 1 d0 bs0).
Proof.
  split; [exact linear_table_ok|].
  pose proof (coder_invariants_hold linear_table [5; 600] [] [77; 200]
                3%nat (fun _ => 255) linear_table_ok) as H.
  cbv zeta in H.
  destruct (ArithmeticDecoder.init 255 (ArithmeticDecoder.new linear_table)
              (IBitStream.new {| avail := [77; 200]; good := true |}))
    as [d0 bs0].
  destruct H as (_ & H & _).
  eapply Forall_impl; [|exact H].
  intros d (_ & _ & Hh & _). exact Hh.
Defined.

(** ** The two stream functions, end to end *)

(** A 44-byte header of a 16-bit mono file. *)
Definition wav_header_ok (header : list Z) : Prop :=
  length header = 44%nat /\
  nth 22 header 0 + 256 * nth 23 header 0 = 1 /\
  nth 34 header 0 + 256 * nth 35 header 0 = 16.

(** What a sample comes back as. *)
Definition requantize (x : Z) : Z :=
  neuralink_10bit_to_16bit (neuralink_16bit_to_10bit x).

Lemma read_wav_header_full (header rest : list Z) :
  length header = 44%nat ->
  read_wav_header {| avail := header ++ rest; good := true |}
  = (header, {| avail := rest; good := true |}).
Proof.
  intros Hl. unfold read_wav_header, istream_read. cbn [good avail].
  rewrite length_app, Hl. cbn [Nat.leb Nat.add].
  assert (H1 : firstn 44 (header ++ rest) = header).
  { rewrite <- Hl, firstn_app, Nat.sub_diag, firstn_all. cbn [firstn].
    apply app_nil_r. }
  assert (H2 : skipn 44 (header ++ rest) = rest).
  { rewrite <- Hl, skipn_app, Nat.sub_diag, skipn_all. reflexivity. }
  rewrite H1, H2, Hl. cbn [Nat.sub repeat]. rewrite app_nil_r. reflexivity.
Qed.

Lemma check_wav_header_ok (header : list Z) :
  wav_header_ok header -> neuralink_check_wav_header header = Ok tt.
Proof.
  intros (Hl & Hc & Hb). unfold neuralink_check_wav_header.
  rewrite Hl, Hc, Hb. reflexivity.
Qed.

Lemma write_wav_header_ok (out header : list Z) :
  length header = 44%nat -> write_wav_header out header = Ok (out ++ header).
Proof. intros Hl. unfold write_wav_header. rewrite Hl. reflexivity. Qed.

Lemma encode_payload_message (table : list (list Z)) (samples : list Z)
    (out : ostream) :
  Forall is_int16 samples ->
  encode_payload table {| avail := flat_map le16 samples; good := true |} out
  = match encode_message (map neuralink_16bit_to_10bit samples)
            (ArithmeticEncoder.new table) (OBitStream.new out) with
    | Some (e, bs) => Some (e, OBitStream.flush bs)
    | None => None
    end.
Proof.
  intros Hs. unfold encode_payload, encode_message. cbn [avail].
  rewrite encode_samples_symbols;
    [|exact Hs|rewrite flat_map_le16_length; lia].
  destruct (encode_symbols (map neuralink_16bit_to_10bit samples)
              (ArithmeticEncoder.new table) (OBitStream.new out))
    as [[e1 bs1]|]; [|reflexivity].
  destruct (ArithmeticEncoder.encode (NUM_SYMBOLS - 1) e1 bs1)
    as [[e2 bs2]|]; [|reflexivity].
  destruct (ArithmeticEncoder.flush e2 bs2) as [e3 bs3]. reflexivity.
Qed.

Lemma quantized_symbols (samples : list Z) :
  Forall is_int16 samples ->
  Forall (fun s => 0 <= s < NUM_SYMBOLS - 1)
         (map neuralink_16bit_to_10bit samples).
Proof.
  intros H. apply Forall_map. eapply Forall_impl; [|exact H].
  intros x Hx. apply quantize_range, Hx.
Qed.

Lemma shifts_ok_from_init (table : list (list Z)) (symbols : list Z) :
  Forall (fun s => 0 <= s < NUM_SYMBOLS - 1) symbols ->
  shifts_ok (Model_init table) symbols.
Proof.
  intros H. destruct (Model_init_mean_ok table) as [H1 H2].
  apply shifts_ok_all; [exact H1|exact H2|].
  eapply Forall_impl; [|exact H]. unfold NUM_SYMBOLS. intros s Hs. lia.
Qed.

Lemma written_samples (samples : list Z) :
  flat_map (fun u => le16 (neuralink_10bit_to_16bit u))
           (map neuralink_16bit_to_10bit samples)
  = flat_map le16 (map requantize samples).
Proof.
  induction samples as [|x rest IH]; [reflexivity|].
  cbn [map flat_map]. rewrite IH. reflexivity.
Qed.

Lemma requantize_fixed (samples : list Z) :
  Forall (fun x => requantize x = x) samples ->
  map requantize samples = samples.
Proof.
  induction 1 as [|x rest Hx _ IH]; [reflexivity|].
  cbn [map]. rewrite Hx, IH. reflexivity.
Qed.

(** [encodeStream] on a header and samples, then [decodeStream] on what it
    wrote: the header comes back, every sample comes back requantized, and
    the decoder passes through the encoder's states. *)
Lemma stream_roundtrip (table : list (list Z)) (header samples : list Z) :
  table_ok table -> wav_header_ok header -> Forall is_int16 samples ->
  exists e bs payload,
    encode_message (map neuralink_16bit_to_10bit samples)
      (ArithmeticEncoder.new table) (OBitStream.new header) = Some (e, bs) /\
    encode_payload table {| avail := flat_map le16 samples; good := true |}
      header = Some (e, OBitStream.flush bs) /\
    ArithmeticEncoder.model e
    = update_all (Model_init table) (map neuralink_16bit_to_10bit samples) /\
    encodeStream table (header ++ flat_map le16 samples)
    = Ok (header ++ payload) /\
    forall (fuel : nat) (junk : nat -> Z),
      bit_junk junk -> (length samples < fuel)%nat ->
      decodeStream table fuel junk (header ++ payload)
      = Ok (header ++ flat_map le16 (map requantize samples)) /\
      let (d0, ibs0) :=
        ArithmeticDecoder.init (junk O) (ArithmeticDecoder.new table)
          (IBitStream.new {| avail := payload; good := true |}) in
      (exists d ibs out,
         decode_symbols fuel junk 1 d0 ibs0 header = Ok (d, ibs, out) /\
         ArithmeticDecoder.model d
         = update_all (Model_init table)
             (map neuralink_16bit_to_10bit samples ++ [NUM_SYMBOLS - 1])) /\
      decoder_trace fuel junk 1 d0 ibs0
      = encoder_trace (map neuralink_16bit_to_10bit samples)
          (ArithmeticEncoder.new table) (OBitStream.new header).
Proof.
  intros Ht Hh Hs. pose proof Hh as (Hl & _ & _).
  pose proof (quantized_symbols samples Hs) as Hsym.
  destruct (coder_roundtrip table header _ Ht Hsym
              (shifts_ok_from_init table _ Hsym)) as
    (e & bs & payload & E & Hm & Hout & Hfl & Hdec).
  exists e, bs, payload. split; [exact E|].
  assert (Hp : encode_payload table
                 {| avail := flat_map le16 samples; good := true |} header
               = Some (e, OBitStream.flush bs)).
  { rewrite encode_payload_message by exact Hs. rewrite E. reflexivity. }
  split; [exact Hp|]. split; [exact Hm|]. split.
  { unfold encodeStream. rewrite read_wav_header_full by exact Hl.
    rewrite check_wav_header_ok by exact Hh.
    rewrite write_wav_header_ok by exact Hl. cbn [app].
    rewrite Hp, Hfl, Hout. reflexivity. }
  intros fuel junk Hj Hfuel.
  specialize (Hdec fuel junk header Hj).
  rewrite length_map in Hdec. specialize (Hdec Hfuel).
  unfold decodeStream. rewrite read_wav_header_full by exact Hl.
  rewrite check_wav_header_ok by exact Hh.
  rewrite write_wav_header_ok by exact Hl. cbn [app].
  destruct (ArithmeticDecoder.init (junk O) (ArithmeticDecoder.new table)
              (IBitStream.new {| avail := payload; good := true |}))
    as [d0 ibs0].
  destruct Hdec as [(d & ibs & D1 & D2) Htr].
  rewrite D1. split.
  - rewrite write_symbols_bytes, written_samples. reflexivity.
  - split; [eauto|exact Htr].
Qed.

(** The header of a 16-bit mono file at 19531 Hz with one sample. *)
Definition mono16_header : list Z :=
  [82; 73; 70; 70; 38; 0; 0; 0; 87; 65; 86; 69; 102; 109; 116; 32;
   16; 0; 0; 0; 1; 0; 1; 0; 75; 76; 0; 0; 150; 152; 0; 0; 2; 0; 16; 0;
   100; 97; 116; 97; 2; 0; 0; 0].

Lemma mono16_header_ok : wav_header_ok mono16_header.
Proof. repeat split. Qed.

(** Two samples the dequantizer produces. *)
Definition fixed_samples : list Z := [31; -32].

(** C1, as stated, fails: the file with the single sample 0 comes back
    with the sample 31, because the encoder keeps ten of the sixteen
    bits.  (The decoded sample does not depend on the table.) *)
Lemma roundtrip_changes_sample_zero :
  exists out,
    encodeStream linear_table (mono16_header ++ [0; 0]) = Ok out /\
    decodeStream linear_table 2 (fun _ => 0) out
    = Ok (mono16_header ++ [31; 0]) /\
    mono16_header ++ [31; 0] <> mono16_header ++ [0; 0].
Proof.
  exists (mono16_header ++ [124; 61]).
  split; [vm_compute; reflexivity|].
  split; [vm_compute; reflexivity|].
  intros H. apply app_inv_head in H. discriminate H.
Qed.

(** C1, amended: for a valid 44-byte 16-bit mono header and any signed
    16-bit samples, [encodeStream] returns, and, when the decoder's
    uninitialized [b] holds 0 or 1 at every entry, [decodeStream] on its
    output returns the header followed by the requantized samples; so it
    returns the input itself when every sample is a value the dequantizer
    produces (requantize x = x).  Nothing is said of other contents of
    [b]. *)
Theorem roundtrip_on_requantized_samples (table : list (list Z))
    (header samples : list Z) (fuel : nat) (junk : nat -> Z) :
  table_ok table -> wav_header_ok header -> Forall is_int16 samples ->
  (length samples < fuel)%nat -> bit_junk junk ->
  exists out,
    encodeStream table (header ++ flat_map le16 samples) = Ok out /\
    decodeStream table fuel junk out
    = Ok (header ++ flat_map le16 (map requantize samples)) /\
    (Forall (fun x => requantize x = x) samples ->
     decodeStream table fuel junk out
     = Ok (header ++ flat_map le16 samples)).
Proof.
  intros Ht Hh Hs Hfuel Hj.
  destruct (stream_roundtrip table header samples Ht Hh Hs) as
    (e & bs & payload & _ & _ & _ & Henc & Hdec).
  destruct (Hdec fuel junk Hj Hfuel) as [Hd _].
  exists (header ++ payload). split; [exact Henc|]. split; [exact Hd|].
  intros Hfix. rewrite Hd, (requantize_fixed samples Hfix). reflexivity.
Qed.

Lemma roundtrip_on_requantized_samples_witness :
  (table_ok linear_table /\ wav_header_ok mono16_header /\
   Forall is_int16 fixed_samples /\ (length fixed_samples < 3)%nat /\
   bit_junk (fun _ => 0) /\
   Forall (fun x => requantize x = x) fixed_samples) /\
  exists out,
    encodeStream linear_table (mono16_header ++ flat_map le16 fixed_samples)
    = Ok out /\
    decodeStream linear_table 3 (fun _ => 0) out
    = Ok (mono16_header ++ flat_map le16 fixed_samples).
Proof.
  assert (H1 : Forall is_int16 fixed_samples).
  { repeat constructor; unfold is_int16; lia. }
  assert (H2 : (length fixed_samples < 3)%nat) by (simpl; lia).
  assert (H3 : Forall (fun x => requantize x = x) fixed_samples).
  { repeat constructor; vm_compute; reflexivity. }
  split.
  { split; [exact linear_table_ok|]. split; [exact mono16_header_ok|].
    split; [exact H1|]. split; [exact H2|]. split; [exact bit_junk_zero|].
    exact H3. }
  destruct (roundtrip_on_requantized_samples linear_table mono16_header
              fixed_samples 3%nat (fun _ => 0) linear_table_ok
              mono16_header_ok H1 H2 bit_junk_zero) as (out & E1 & _ & E2).
  exists out. split; [exact E1|exact (E2 H3)].
Defined.

(** X24: when the decoder's uninitialized [b] holds 0 or 1 at every
    entry, then for every sequence of payload symbols the decoder that
    reads what the encoder wrote has, after each [decode] call, the [low],
    [high] and model the encoder had after the corresponding [encode] call,
    the stop symbol's call included; the encoder masks with MAX_CODE in
    [shift], the decoder does not. *)
Theorem decoder_follows_encoder (table : list (list Z)) (symbols : list Z)
    (out : ostream) (fuel : nat) (junk : nat -> Z) :
  table_ok table ->
  Forall (fun s => 0 <= s < NUM_SYMBOLS - 1) symbols ->
  (length symbols < fuel)%nat -> bit_junk junk ->
  exists e bs payload,
    encode_message symbols (ArithmeticEncoder.new table) (OBitStream.new out)
    = Some (e, bs) /\
    OBitStream.outputStream (OBitStream.flush bs) = out ++ payload /\
    let (d0, ibs0) :=
      ArithmeticDecoder.init (junk O) (ArithmeticDecoder.new table)
        (IBitStream.new {| avail := payload; good := true |}) in
    decoder_trace fuel junk 1 d0 ibs0
    = encoder_trace symbols (ArithmeticEncoder.new table) (OBitStream.new out)
    /\ length (decoder_trace fuel junk 1 d0 ibs0) = S (length symbols).
Proof.
  intros Ht Hsym Hfuel Hj.
  destruct (coder_roundtrip table out symbols Ht Hsym
              (shifts_ok_from_init table symbols Hsym)) as
    (e & bs & payload & E & _ & Hout & _ & Hdec).
  exists e, bs, payload. split; [exact E|]. split; [exact Hout|].
  specialize (Hdec fuel junk out Hj Hfuel).
  destruct (ArithmeticDecoder.init (junk O) (ArithmeticDecoder.new table)
              (IBitStream.new {| avail := payload; good := true |}))
    as [d0 ibs0].
  destruct Hdec as [_ Htr]. split; [exact Htr|].
  rewrite Htr.
  apply (encoder_trace_invariant symbols (ArithmeticEncoder.new table)
           (OBitStream.new out) (encoder_new_inv table)
           (Model_init_ok table Ht)).
Qed.

(** Symbols on both sides of the initial mean. *)
Definition some_symbols : list Z := [512; 3; 1000].

Lemma decoder_follows_encoder_witness :
  (table_ok linear_table /\
   Forall (fun s => 0 <= s < NUM_SYMBOLS - 1) some_symbols /\
   (length some_symbols < 4)%nat /\ bit_junk (fun _ => 0)) /\
  exists payload,
    let (d0, ibs0) :=
      ArithmeticDecoder.init 0 (ArithmeticDecoder.new linear_table)
        (IBitStream.new {| avail := payload; good := true |}) in
    decoder_trace 4 (fun _ => 0) 1 d0 ibs0
    = encoder_trace some_symbols (ArithmeticEncoder.new linear_table)
        (OBitStream.new []).
Proof.
  assert (H1 : Forall (fun s => 0 <= s < NUM_SYMBOLS - 1) some_symbols).
  { repeat constructor; unfold NUM_SYMBOLS; lia. }
  assert (H2 : (length some_symbols < 4)%nat) by (simpl; lia).
  split.
  { split; [exact linear_table_ok|]. split; [exact H1|].
    split; [exact H2|exact bit_junk_zero]. }
  destruct (decoder_follows_encoder linear_table some_symbols [] 4%nat
              (fun _ => 0) linear_table_ok H1 H2 bit_junk_zero) as
    (e & bs & payload & _ & _ & H).
  exists payload.
  destruct (ArithmeticDecoder.init 0 (ArithmeticDecoder.new linear_table)
              (IBitStream.new {| avail := payload; good := true |}))
    as [d0 ibs0].
  exact (proj1 H).
Defined.

(** C8, as stated, fails: on a file without samples the encoder ends with
    the initial model (outlier counter 0), while updating on the stop
    symbol, an outlier, gives outlier counter 1. *)
Lemma encoder_skips_update_on_stop_symbol :
  exists e bs,
    encode_payload linear_table {| avail := []; good := true |} mono16_header
    = Some (e, bs) /\
    outlier_counter (ArithmeticEncoder.model e) = 0 /\
    outlier_counter
      (update_all (Model_init linear_table) ([] ++ [NUM_SYMBOLS - 1])) = 1.
Proof.
  destruct (stream_roundtrip linear_table mono16_header [] linear_table_ok
              mono16_header_ok (Forall_nil _)) as
    (e & bs & payload & _ & Hp & Hm & _).
  exists e, (OBitStream.flush bs). split; [exact Hp|].
  split; [rewrite Hm; reflexivity|vm_compute; reflexivity].
Qed.

(** C8, amended: on the encode path [update_state] is called after every
    sample's symbol and not after the stop symbol, so the encoder's final
    model is the initial model updated on the samples' symbols; it is the
    decoder whose final model is updated on the stop symbol as well, when
    it decodes the encoder's output with 0 or 1 in its uninitialized [b]
    at every entry. *)
Theorem encoder_model_after_samples (table : list (list Z))
    (header samples : list Z) (fuel : nat) (junk : nat -> Z) :
  table_ok table -> wav_header_ok header -> Forall is_int16 samples ->
  (length samples < fuel)%nat ->
  let symbols := map neuralink_16bit_to_10bit samples in
  exists e bs payload,
    encode_payload table {| avail := flat_map le16 samples; good := true |}
      header = Some (e, bs) /\
    ArithmeticEncoder.model e = update_all (Model_init table) symbols /\
    OBitStream.outputStream bs = header ++ payload /\
    (bit_junk junk ->
     let (d0, ibs0) :=
       ArithmeticDecoder.init (junk O) (ArithmeticDecoder.new table)
         (IBitStream.new {| avail := payload; good := true |}) in
     exists d ibs out,
       decode_symbols fuel junk 1 d0 ibs0 header = Ok (d, ibs, out) /\
       ArithmeticDecoder.model d
       = update_all (Model_init table) (symbols ++ [NUM_SYMBOLS - 1])).
Proof.
  intros Ht Hh Hs Hfuel symbols.
  pose proof (quantized_symbols samples Hs) as Hsym.
  destruct (coder_roundtrip table header _ Ht Hsym
              (shifts_ok_from_init table _ Hsym)) as
    (e & bs & payload & E & Hm & Hout & _ & Hdec).
  exists e, (OBitStream.flush bs), payload. split.
  { rewrite encode_payload_message by exact Hs. rewrite E. reflexivity. }
  split; [exact Hm|]. split; [exact Hout|].
  intros Hj. specialize (Hdec fuel junk header Hj).
  rewrite length_map in Hdec. specialize (Hdec Hfuel).
  destruct (ArithmeticDecoder.init (junk O) (ArithmeticDecoder.new table)
              (IBitStream.new {| avail := payload; good := true |}))
    as [d0 ibs0].
  destruct Hdec as [(d & ibs & D1 & D2) _]. eauto.
Qed.

Lemma encoder_model_after_samples_witness :
  (table_ok linear_table /\ wav_header_ok mono16_header /\
   Forall is_int16 fixed_samples /\ (length fixed_samples < 3)%nat) /\
  exists e bs,
    encode_payload linear_table
      {| avail := flat_map le16 fixed_samples; good := true |} mono16_header
    = Some (e, bs) /\
    ArithmeticEncoder.model e
    = update_all (Model_init linear_table)
        (map neuralink_16bit_to_10bit fixed_samples).
Proof.
  assert (H1 : Forall is_int16 fixed_samples).
  { repeat constructor; unfold is_int16; lia. }
  assert (H2 : (length fixed_samples < 3)%nat) by (simpl; lia).
  split.
  { split; [exact linear_table_ok|]. split; [exact mono16_header_ok|].
    split; [exact H1|exact H2]. }
  destruct (encoder_model_after_samples linear_table mono16_header
              fixed_samples 3%nat (fun _ => 0) linear_table_ok
              mono16_header_ok H1 H2) as (e & bs & payload & E & Hm & _).
  exists e, bs. split; [exact E|exact Hm].
Defined.

(** ** The decoder past the end of the stream

    [decode] and [init] declare [bool b] without a value and ignore what
    [get] returns, so once the stream has run out the byte [b] occupies is
    or-ed into [value] as it is. *)

(** Low and high of a snapshot. *)
Definition snapshot_range (sn : snapshot) : Z * Z :=
  let '(l, h, _) := sn in (l, h).

(** Low, high and value of a decoder. *)
Definition decoder_register (d : ArithmeticDecoder.t) : Z * Z * Z :=
  (ArithmeticDecoder.low d, ArithmeticDecoder.high d,
   ArithmeticDecoder.value d).

Lemma init_value (b : Z) (d : ArithmeticDecoder.t) (bs : IBitStream.t) :
  ArithmeticDecoder.value (fst (ArithmeticDecoder.init b d bs))
  = fst (ArithmeticDecoder.read_bits 17 b 0 bs) /\
  ArithmeticDecoder.low (fst (ArithmeticDecoder.init b d bs))
  = ArithmeticDecoder.low d /\
  ArithmeticDecoder.high (fst (ArithmeticDecoder.init b d bs))
  = ArithmeticDecoder.high d.
Proof.
  unfold ArithmeticDecoder.init.
  destruct (ArithmeticDecoder.read_bits 17 b 0 bs) as [v bs'].
  repeat split.
Qed.

(** C4, where the code leaves it.  On a stream that ends with the header,
    [init] leaves low = 0, high = MAX_CODE and a value above high for every
    byte from 2 to 255 in [b]: 16777215 for 255 and 8388607 for 127.  On
    the output of [encodeStream] for the file with the one sample 31 (table
    [linear_table]) and with 127 in [b], the decoder is left after its
    first [decode] call with low = 1024, high = 127999 and value = 131071,
    and after the second with value = 133169151. *)
Theorem decoder_value_leaves_range :
  (forall (table : list (list Z)) (b : Z),
     2 <= b <= 255 ->
     let d0 :=
       fst (ArithmeticDecoder.init b (ArithmeticDecoder.new table)
              (IBitStream.new {| avail := []; good := true |})) in
     ArithmeticDecoder.low d0 = 0 /\
     ArithmeticDecoder.high d0 = MAX_CODE /\
     ArithmeticDecoder.high d0 < ArithmeticDecoder.value d0 /\
     (b = 255 -> ArithmeticDecoder.value d0 = 16777215) /\
     (b = 127 -> ArithmeticDecoder.value d0 = 8388607)) /\
  encodeStream linear_table (mono16_header ++ [31; 0])
  = Ok (mono16_header ++ [124; 61]) /\
  (let (d0, bs0) :=
     ArithmeticDecoder.init 127 (ArithmeticDecoder.new linear_table)
       (IBitStream.new {| avail := [124; 61]; good := true |}) in
   map decoder_register (decoder_states 2 (fun _ => 127) 1 d0 bs0)
   = [(1024, 127999, 131071); (0, 122879, 133169151)]).
Proof.
  split.
  - intros table b Hb d0. subst d0.
    destruct (init_value b (ArithmeticDecoder.new table)
                (IBitStream.new {| avail := []; good := true |}))
      as (-> & -> & ->).
    cbn [ArithmeticDecoder.new ArithmeticDecoder.low ArithmeticDecoder.high].
    assert (H : forall_below 256
              (fun b =>
                 (b <? 2)
                 || (MAX_CODE
                     <? fst (ArithmeticDecoder.read_bits 17 b 0
                               (IBitStream.new
                                  {| avail := []; good := true |})))) = true)
      by (vm_compute; reflexivity).
    pose proof (forall_below_spec _ _ H b ltac:(lia)) as Hv. cbv beta in Hv.
    apply orb_true_iff in Hv as [Hv|Hv]; [apply Z.ltb_lt in Hv; lia|].
    apply Z.ltb_lt in Hv.
    split; [reflexivity|]. split; [reflexivity|]. split; [exact Hv|].
    split; intros ->; vm_compute; reflexivity.
  - split; vm_compute; reflexivity.
Qed.

(** C2, where the code leaves it.  The file with the one sample 31 (table
    [linear_table]): the encoder's low and high after its two [encode]
    calls are (1024, 127999) and (18480, 81919); the decoder that reads
    the encoder's output with 0 in [b] has the same, the decoder with 127
    in [b] has (1024, 127999) and then (0, 122879), and it does not find
    the stop symbol. *)
Theorem decoder_leaves_encoder :
  encodeStream linear_table (mono16_header ++ [31; 0])
  = Ok (mono16_header ++ [124; 61]) /\
  map snapshot_range
    (encoder_trace [512] (ArithmeticEncoder.new linear_table)
       (OBitStream.new mono16_header))
  = [(1024, 127999); (18480, 81919)] /\
  (let (d0, bs0) :=
     ArithmeticDecoder.init 0 (ArithmeticDecoder.new linear_table)
       (IBitStream.new {| avail := [124; 61]; good := true |}) in
   map snapshot_range (decoder_trace 3 (fun _ => 0) 1 d0 bs0)
   = [(1024, 127999); (18480, 81919)]) /\
  (let (d0, bs0) :=
     ArithmeticDecoder.init 127 (ArithmeticDecoder.new linear_table)
       (IBitStream.new {| avail := [124; 61]; good := true |}) in
   map snapshot_range (decoder_trace 3 (fun _ => 127) 1 d0 bs0)
   = [(1024, 127999); (0, 122879); (0, 118783)]) /\
  decodeStream linear_table 3 (fun _ => 127) (mono16_header ++ [124; 61])
  = OutOfFuel.
Proof.
  split; [vm_compute; reflexivity|]. split; [vm_compute; reflexivity|].
  split; [vm_compute; reflexivity|]. split; vm_compute; reflexivity.
Qed.

(** ** Malformed containers *)

(** The header the two functions check: the first 44 bytes of the input,
    zero-filled when the input is shorter. *)
Definition header_read (input : list Z) : list Z :=
  fst (read_wav_header {| avail := input; good := true |}).

Lemma read_wav_header_length (s : istream) :
  length (fst (read_wav_header s)) = 44%nat.
Proof.
  unfold read_wav_header, istream_read.
  destruct (good s); [|reflexivity].
  destruct (Nat.leb_spec 44 (length (avail s))) as [H|H]; cbn [fst].
  - rewrite length_app, repeat_length, length_firstn. lia.
  - rewrite length_app, repeat_length. lia.
Qed.

(** A wrong channel count or sample width is rejected by both functions
    before anything else happens. *)
Lemma bad_format_is_rejected (table : list (list Z)) (input : list Z)
    (fuel : nat) (junk : nat -> Z) :
  nth 22 (header_read input) 0 + 256 * nth 23 (header_read input) 0 <> 1
  \/ nth 34 (header_read input) 0 + 256 * nth 35 (header_read input) 0 <> 16
  ->
  encodeStream table input
  = Throw "Unsupported WAV format, we only support 16 bit mono WAV data"
  /\ decodeStream table fuel junk input
     = Throw "Unsupported WAV format, we only support 16 bit mono WAV data".
Proof.
  intros Hbad. unfold encodeStream, decodeStream, header_read in *.
  pose proof (read_wav_header_length {| avail := input; good := true |})
    as Hl.
  destruct (read_wav_header {| avail := input; good := true |})
    as [header rest].
  cbn [fst] in *. unfold neuralink_check_wav_header. rewrite Hl.
  cbn [Nat.eqb negb].
  assert (Hb : negb (nth 22 header 0 + 256 * nth 23 header 0 =? 1)
               || negb (nth 34 header 0 + 256 * nth 35 header 0 =? 16)
               = true).
  { apply orb_true_iff.
    destruct Hbad as [H|H]; [left|right];
      apply negb_true_iff, Z.eqb_neq, H. }
  change (Init.Nat.eqb 44 44) with true. cbn [negb].
  rewrite Hb. split; reflexivity.
Qed.

Lemma decode_symbols_never_throws (fuel : nat) :
  forall (junk : nat -> Z) (k : nat) (d : ArithmeticDecoder.t)
         (bs : IBitStream.t) (out : ostream) (what : string),
  decode_symbols fuel junk k d bs out <> Throw what.
Proof.
  induction fuel as [|fuel IH]; intros junk k d bs out what;
    cbn [decode_symbols]; [discriminate|].
  destruct (ArithmeticDecoder.decode (junk k) d bs) as [[[s d1] bs1]|];
    [|discriminate].
  destruct (s =? NUM_SYMBOLS - 1); [discriminate|apply IH].
Qed.

Lemma encode_payload_failed_stream (table : list (list Z)) (out : ostream) :
  encode_payload table {| avail := []; good := false |} out
  = match encode_message [] (ArithmeticEncoder.new table)
            (OBitStream.new out) with
    | Some (e, bs) => Some (e, OBitStream.flush bs)
    | None => None
    end.
Proof.
  unfold encode_payload, encode_message.
  cbn [avail length encode_samples encode_symbols
       neuralink_read_symbol_from_stream istream_read good].
  destruct (ArithmeticEncoder.encode (NUM_SYMBOLS - 1)
              (ArithmeticEncoder.new table) (OBitStream.new out))
    as [[e2 bs2]|]; [|reflexivity].
  destruct (ArithmeticEncoder.flush e2 bs2) as [e3 bs3]. reflexivity.
Qed.

(** A 36-byte input: the first 36 bytes of a valid header, nothing else. *)
Definition truncated_header : list Z := firstn 36 mono16_header.

(** C7: an input of 36 bytes, shorter than a header, that holds the channel
    count 1 and the sample width 16 is not rejected: [read_wav_header]
    zero-fills it to 44 bytes, so the size test cannot fail; [encodeStream]
    writes the 44 bytes and a payload, and [decodeStream] does not throw. *)
Theorem short_header_is_accepted (table : list (list Z)) :
  table_ok table ->
  (length truncated_header < 44)%nat /\
  (exists payload,
     encodeStream table truncated_header
     = Ok (truncated_header ++ repeat 0 8 ++ payload)) /\
  (forall (fuel : nat) (junk : nat -> Z) (what : string),
     decodeStream table fuel junk truncated_header <> Throw what).
Proof.
  intros Ht. split; [cbn; lia|]. split.
  - destruct (coder_roundtrip table (truncated_header ++ repeat 0 8) []
                Ht (Forall_nil _) (shifts_ok_from_init table [] (Forall_nil _)))
      as (e & bs & payload & E & _ & Hout & Hfl & _).
    exists payload. unfold encodeStream.
    change (read_wav_header {| avail := truncated_header; good := true |})
      with (truncated_header ++ repeat 0 8,
            {| avail := []; good := false |}).
    cbv iota beta.
    change (neuralink_check_wav_header (truncated_header ++ repeat 0 8))
      with (@Ok unit tt).
    cbv iota beta.
    change (write_wav_header [] (truncated_header ++ repeat 0 8))
      with (@Ok ostream (truncated_header ++ repeat 0 8)).
    cbv iota beta.
    rewrite encode_payload_failed_stream, E, Hfl, Hout, <- app_assoc.
    reflexivity.
  - intros fuel junk what. unfold decodeStream.
    change (read_wav_header {| avail := truncated_header; good := true |})
      with (truncated_header ++ repeat 0 8,
            {| avail := []; good := false |}).
    cbv iota beta.
    change (neuralink_check_wav_header (truncated_header ++ repeat 0 8))
      with (@Ok unit tt).
    cbv iota beta.
    change (write_wav_header [] (truncated_header ++ repeat 0 8))
      with (@Ok ostream (truncated_header ++ repeat 0 8)).
    cbv iota beta.
    destruct (ArithmeticDecoder.init (junk O) (ArithmeticDecoder.new table)
                (IBitStream.new {| avail := []; good := false |}))
      as [d0 ibs0].
    pose proof (decode_symbols_never_throws fuel junk 1 d0 ibs0
                  (truncated_header ++ repeat 0 8) what) as Hn.
    destruct (decode_symbols fuel junk 1 d0 ibs0
                (truncated_header ++ repeat 0 8)) as [[[d ibs] o]|w|];
      [discriminate| |discriminate].
    intros H. apply Hn. injection H as ->. reflexivity.
Qed.

Lemma short_header_is_accepted_witness :
  table_ok linear_table /\
  exists payload,
    encodeStream linear_table truncated_header
    = Ok (truncated_header ++ repeat 0 8 ++ payload).
Proof.
  split; [exact linear_table_ok|].
  exact (proj1 (proj2 (short_header_is_accepted linear_table
                         linear_table_ok))).
Defined.

(** ** Rounding to nearest is monotone *)

(** Where a real lies in the unit interval above the integer of a shift
    record: on it, in the lower half, at the middle or in the upper half. *)
Definition located (mrs : shr_record) (Y : R) : Prop :=
  match shr_r mrs, shr_s mrs with
  | false, false => Y = IZR (shr_m mrs)
  | false, true => (IZR (shr_m mrs) < Y < IZR (shr_m mrs) + / 2)%R
  | true, false => Y = (IZR (shr_m mrs) + / 2)%R
  | true, true => (IZR (shr_m mrs) + / 2 < Y < IZR (shr_m mrs) + 1)%R
  end.

(** The integer a shift record rounds to. *)
Definition rne (mrs : shr_record) : Z :=
  round_nearest_even (shr_m mrs) (loc_of_shr_record mrs).

Lemma located_bounds (mrs : shr_record) (Y : R) :
  located mrs Y -> (IZR (shr_m mrs) <= Y < IZR (shr_m mrs) + 1)%R.
Proof.
  unfold located. destruct (shr_r mrs), (shr_s mrs); intros H; lra.
Qed.

Lemma located_of_loc (m : Z) (l : location) :
  shr_m (shr_record_of_loc m l) = m.
Proof. destruct l as [|[| |]]; reflexivity. Qed.

Lemma located_exact (m : Z) :
  located (shr_record_of_loc m loc_Exact) (IZR m).
Proof. reflexivity. Qed.

Lemma located_shr_1 (mrs : shr_record) (Y : R) :
  0 <= shr_m mrs -> located mrs Y -> located (shr_1 mrs) (Y * / 2).
Proof.
  destruct mrs as [m r s]. cbn [shr_m]. intros Hm.
  destruct m as [|p|p]; [| |lia].
  - unfold located. cbn [shr_1 shr_m shr_r shr_s].
    destruct r, s; cbn [orb]; intros H; lra.
  - destruct p as [p|p|]; unfold located; cbn [shr_1 shr_m shr_r shr_s].
    + rewrite Pos2Z.inj_xI, plus_IZR, mult_IZR.
      destruct r, s; cbn [orb]; intros H; lra.
    + rewrite Pos2Z.inj_xO, mult_IZR.
      destruct r, s; cbn [orb]; intros H; lra.
    + destruct r, s; cbn [orb]; intros H; lra.
Qed.

Lemma shr_1_nonneg (mrs : shr_record) :
  0 <= shr_m mrs -> 0 <= shr_m (shr_1 mrs).
Proof. intros H. rewrite shr_1_m by exact H. apply Z.div_pos; lia. Qed.

Lemma iter_shr_nonneg (p : positive) (mrs : shr_record) :
  0 <= shr_m mrs -> 0 <= shr_m (SpecFloat.iter_pos shr_1 p mrs).
Proof.
  intros H. rewrite iter_shr_m by exact H.
  apply Z.div_pos; [exact H|]. apply Z.pow_pos_nonneg; lia.
Qed.

Lemma pow2_neg_succ (k : Z) : pow2 (- (k + 1)) = (pow2 (- k) * / 2)%R.
Proof.
  replace (- (k + 1)) with (- k + - 1) by lia. rewrite pow2_add.
  f_equal. exact (pow2_neg 1 ltac:(lia)).
Qed.

Lemma located_iter (p : positive) :
  forall (mrs : shr_record) (Y : R),
  0 <= shr_m mrs -> located mrs Y ->
  located (SpecFloat.iter_pos shr_1 p mrs) (Y * pow2 (- Zpos p)).
Proof.
  induction p as [p IH|p IH|]; intros mrs Y Hm HY;
    cbn [SpecFloat.iter_pos].
  - replace (Y * pow2 (- Z.pos p~1))%R
      with (Y * / 2 * pow2 (- Z.pos p) * pow2 (- Z.pos p))%R.
    + apply IH; [apply iter_shr_nonneg, shr_1_nonneg, Hm|].
      apply IH; [apply shr_1_nonneg, Hm|].
      apply located_shr_1; assumption.
    + replace (- Z.pos p~1) with (- (Z.pos p + Z.pos p + 1)) by lia.
      rewrite pow2_neg_succ.
      replace (- (Z.pos p + Z.pos p)) with (- Z.pos p + - Z.pos p) by lia.
      rewrite pow2_add. ring.
  - replace (Y * pow2 (- Z.pos p~0))%R
      with (Y * pow2 (- Z.pos p) * pow2 (- Z.pos p))%R.
    + apply IH; [apply iter_shr_nonneg, Hm|].
      apply IH; assumption.
    + replace (- Z.pos p~0) with (- Z.pos p + - Z.pos p) by lia.
      rewrite pow2_add. ring.
  - assert (E : pow2 (- Z.pos 1) = (/ 2)%R)
      by exact (pow2_neg 1 ltac:(lia)).
    rewrite E. apply located_shr_1; assumption.
Qed.

Lemma rne_range (mrs : shr_record) : shr_m mrs <= rne mrs <= shr_m mrs + 1.
Proof. apply round_nearest_even_range. Qed.

(** Rounding to the nearest integer, ties to even, is monotone. *)
Lemma rne_monotone (r1 r2 : shr_record) (Y1 Y2 : R) :
  located r1 Y1 -> located r2 Y2 -> (Y1 <= Y2)%R -> rne r1 <= rne r2.
Proof.
  intros H1 H2 HY.
  pose proof (located_bounds _ _ H1) as B1.
  pose proof (located_bounds _ _ H2) as B2.
  assert (Hm : shr_m r1 <= shr_m r2).
  { assert (IZR (shr_m r1) < IZR (shr_m r2 + 1))%R
      by (rewrite plus_IZR; lra).
    apply lt_IZR in H. lia. }
  destruct (Z.eq_dec (shr_m r1) (shr_m r2)) as [He|Hne].
  - destruct r1 as [m1 b1 s1], r2 as [m2 b2 s2]. cbn [shr_m] in *. subst m2.
    unfold located in H1, H2. cbn [shr_m shr_r shr_s] in H1, H2.
    unfold rne. cbn [shr_m loc_of_shr_record].
    destruct b1, s1, b2, s2; cbn [round_nearest_even];
      try lia; try (exfalso; lra); destruct (Z.even m1); lia.
  - pose proof (rne_range r1). pose proof (rne_range r2). lia.
Qed.

Lemma Zdigits2_bound (n j : Z) : 0 <= n < 2 ^ j -> 0 <= j -> Zdigits2 n <= j.
Proof.
  intros Hn Hj. destruct n as [|p|p]; [exact Hj| |lia].
  cbn [Zdigits2]. pose proof (digits2_pos_bound p) as [Hd _].
  destruct (Z_le_gt_dec (Zpos (digits2_pos p)) j) as [H|H]; [exact H|].
  exfalso.
  assert (2 ^ j <= 2 ^ (Zpos (digits2_pos p) - 1))
    by (apply Z.pow_le_mono_r; lia).
  lia.
Qed.

Lemma Zdigits2_pow (j : Z) : 0 <= j -> Zdigits2 (2 ^ j) = j + 1.
Proof.
  intros Hj. assert (Hp : 0 < 2 ^ j) by (apply Z.pow_pos_nonneg; lia).
  destruct (2 ^ j) as [|p|p] eqn:E; try lia.
  cbn [Zdigits2]. pose proof (digits2_pos_bound p) as [H1 H2].
  rewrite <- E in H1, H2.
  apply Z.pow_le_mono_r_iff in H1; [|lia|lia].
  apply Z.pow_lt_mono_r_iff in H2; lia.
Qed.

(** The value of a located mantissa lies in the binade its digits name. *)
Lemma located_binade (m : positive) (e : Z) (l : location) (Y : R) :
  located (shr_record_of_loc (Zpos m) l) Y ->
  (pow2 (Zpos (digits2_pos m) + e - 1) <= Y * pow2 e
   < pow2 (Zpos (digits2_pos m) + e))%R.
Proof.
  intros HY. apply located_bounds in HY. rewrite located_of_loc in HY.
  pose proof (digits2_pos_bound m) as [H1 H2].
  set (dg := Zpos (digits2_pos m)) in *.
  pose proof (pow2_pos e) as He.
  replace (dg + e - 1) with ((dg - 1) + e) by lia.
  rewrite !pow2_add.
  rewrite (pow2_IZR (dg - 1)), (pow2_IZR dg) by (unfold dg; lia).
  apply IZR_le in H1.
  assert (H3 : (IZR (Zpos m) + 1 <= IZR (2 ^ dg))%R).
  { rewrite <- plus_IZR. apply IZR_le. lia. }
  split.
  - apply Rmult_le_compat_r; lra.
  - apply Rmult_lt_compat_r; lra.
Qed.

(** [binary_round_aux] on a located mantissa whose exponent is not above
    the target: the result is the located value scaled to the target
    exponent and rounded to the nearest integer. *)
Lemma round_aux_located (m : positive) (e : Z) (l : location) (Y : R) :
  located (shr_record_of_loc (Zpos m) l) Y ->
  let d := Zpos (digits2_pos m) + e in
  let E := fexp prec emax d in
  e <= E -> d <= 1000 ->
  exists r,
    0 <= shr_m r /\ located r (Y * pow2 (e - E)) /\
    SFfinite (binary_round_aux prec emax false (Zpos m) e l) /\
    SF2R (binary_round_aux prec emax false (Zpos m) e l)
    = (IZR (rne r) * pow2 E)%R.
Proof.
  intros HY d E HeE Hd.
  pose proof (located_binade m e l Y HY) as [_ Hbin]. fold d in Hbin.
  assert (HE : E = Z.max (d - 53) (-1074)) by reflexivity.
  (* the first shift *)
  assert (H1 : exists r,
             shr_fexp prec emax (Zpos m) e l = (r, E) /\
             0 <= shr_m r /\ located r (Y * pow2 (e - E))).
  { unfold shr_fexp. cbn [Zdigits2]. fold d. fold E. unfold shr.
    destruct (E - e) as [|p|p] eqn:Ek; [| |lia].
    - exists (shr_record_of_loc (Zpos m) l).
      split; [f_equal; lia|]. rewrite located_of_loc. split; [lia|].
      replace (e - E) with 0 by lia. change (pow2 0) with 1%R.
      rewrite Rmult_1_r. exact HY.
    - exists (SpecFloat.iter_pos shr_1 p (shr_record_of_loc (Zpos m) l)).
      split; [f_equal; lia|]. split.
      + apply iter_shr_nonneg. rewrite located_of_loc. lia.
      + replace (e - E) with (- Z.pos p) by lia.
        apply located_iter; [rewrite located_of_loc; lia|exact HY]. }
  destruct H1 as (r & E1 & Hr0 & Hr).
  exists r. split; [exact Hr0|]. split; [exact Hr|].
  unfold binary_round_aux. rewrite E1. fold (rne r).
  pose proof (rne_range r) as HN. set (N := rne r) in *.
  (* the rounded mantissa fits *)
  set (B := Z.max 0 (d - E)).
  assert (HNB : N <= 2 ^ B).
  { pose proof (located_bounds _ _ Hr) as [Hlo _].
    assert (Hlt : (Y * pow2 (e - E) < pow2 B)%R).
    { replace (e - E) with (e + - E) by lia.
      rewrite pow2_add, <- Rmult_assoc.
      pose proof (pow2_pos (- E)).
      apply Rlt_le_trans with (pow2 d * pow2 (- E))%R.
      - apply Rmult_lt_compat_r; lra.
      - rewrite <- pow2_add. apply pow2_le. unfold B. lia. }
    rewrite (pow2_IZR B) in Hlt by (unfold B; lia).
    assert (Hm : (IZR (shr_m r) < IZR (2 ^ B))%R) by lra.
    apply lt_IZR in Hm. lia. }
  pose proof (shr_fexp_spec N E loc_Exact ltac:(lia)) as [T1 T2].
  cbv zeta in T1, T2.
  destruct (shr_fexp prec emax N E loc_Exact) as [mrs2 e2].
  cbn [fst snd] in T1, T2.
  set (k2 := Z.max 0 (fexp prec emax (Zdigits2 N + E) - E)) in *.
  assert (Hk2 : 0 <= k2 <= 1 /\ N / 2 ^ k2 * 2 ^ k2 = N).
  { destruct (Z.eq_dec N (2 ^ B)) as [HeqN|HneN].
    - assert (Hdg : Zdigits2 N = B + 1)
        by (rewrite HeqN; apply Zdigits2_pow; unfold B; lia).
      assert (Hk : k2 = 0 \/ (k2 = 1 /\ B = 53)).
      { unfold k2. rewrite Hdg, fexp_unfold. unfold B. lia. }
      destruct Hk as [->|[-> HB]].
      + split; [lia|]. rewrite Z.div_1_r. lia.
      + split; [lia|]. rewrite HeqN, HB. reflexivity.
    - assert (Hdg : Zdigits2 N <= B)
        by (apply Zdigits2_bound; [lia|unfold B; lia]).
      assert (Hk : k2 = 0).
      { unfold k2. rewrite fexp_unfold. unfold B in Hdg. lia. }
      rewrite Hk. split; [lia|]. rewrite Z.div_1_r. lia. }
  destruct Hk2 as [Hk2 Hex].
  assert (Hq : 0 <= N / 2 ^ k2)
    by (apply Z.div_pos; [lia|apply Z.pow_pos_nonneg; lia]).
  rewrite <- T1 in Hex, Hq.
  destruct (shr_m mrs2) as [|q|q]; [| |lia].
  - split; [exact I|]. cbn [SF2R].
    replace N with 0 by lia. rewrite Rmult_0_l. reflexivity.
  - replace (e2 <=? emax - prec) with true
      by (symmetry; apply Z.leb_le; change (emax - prec) with 971; lia).
    split; [exact I|]. cbn [SF2R]. rewrite Rmult_1_l.
    rewrite T2, (Z.add_comm E k2), pow2_add, pow2_IZR by lia.
    rewrite <- Rmult_assoc, <- mult_IZR, Hex. reflexivity.
Qed.

(** [V] is the double nearest to the positive real [X]: [X] scaled to the
    exponent of its binade and rounded to the nearest integer. *)
Definition rounding_of (X V : R) : Prop :=
  exists (d : Z) (r : shr_record),
    (pow2 (d - 1) <= X < pow2 d)%R /\ 0 <= shr_m r /\
    located r (X * pow2 (- fexp prec emax d)) /\
    V = (IZR (rne r) * pow2 (fexp prec emax d))%R.

Lemma round_aux_rounding (m : positive) (e : Z) (l : location) (Y : R) :
  located (shr_record_of_loc (Zpos m) l) Y ->
  e <= fexp prec emax (Zpos (digits2_pos m) + e) ->
  Zpos (digits2_pos m) + e <= 1000 ->
  SFfinite (binary_round_aux prec emax false (Zpos m) e l) /\
  rounding_of (Y * pow2 e)
    (SF2R (binary_round_aux prec emax false (Zpos m) e l)).
Proof.
  intros HY He Hd.
  destruct (round_aux_located m e l Y HY He Hd) as (r & H0 & Hr & Hf & Hv).
  split; [exact Hf|].
  exists (Zpos (digits2_pos m) + e), r.
  split.
  - exact (located_binade m e l Y HY).
  - split; [exact H0|]. split; [|exact Hv].
    rewrite Rmult_assoc, <- pow2_add.
    replace (e + - fexp prec emax (Zpos (digits2_pos m) + e))
      with (e - fexp prec emax (Zpos (digits2_pos m) + e)) by lia.
    exact Hr.
Qed.

Lemma pow2_lt_inv (a b : Z) : (pow2 a < pow2 b)%R -> a < b.
Proof.
  intros H. destruct (Z_lt_le_dec a b) as [Hlt|Hle]; [exact Hlt|].
  pose proof (pow2_le b a Hle). lra.
Qed.

Lemma rounding_nonneg (X V : R) : rounding_of X V -> (0 <= V)%R.
Proof.
  intros (d & r & _ & H0 & _ & ->).
  pose proof (rne_range r). pose proof (pow2_pos (fexp prec emax d)).
  apply Rmult_le_pos; [apply IZR_le; lia|lra].
Qed.

(** The rounded value does not leave the binade upwards: it is at most
    the next power of two, or the smallest positive double. *)
Lemma rounding_upper (d : Z) (r : shr_record) (X : R) :
  (X < pow2 d)%R -> 0 <= shr_m r ->
  located r (X * pow2 (- fexp prec emax d)) ->
  (IZR (rne r) * pow2 (fexp prec emax d)
   <= pow2 (Z.max d (fexp prec emax d)))%R.
Proof.
  intros HX H0 Hr. set (E := fexp prec emax d) in *.
  pose proof (pow2_pos E) as HE. pose proof (pow2_pos (- E)) as HnE.
  pose proof (located_bounds _ _ Hr) as [Hlo _].
  pose proof (rne_range r) as HN.
  assert (HY : (X * pow2 (- E) < pow2 (d - E))%R).
  { replace (d - E) with (d + - E) by lia. rewrite pow2_add.
    apply Rmult_lt_compat_r; lra. }
  destruct (Z_le_gt_dec E d) as [Hle|Hgt].
  - rewrite (pow2_IZR (d - E)) in HY by lia.
    assert (Hm : (IZR (shr_m r) < IZR (2 ^ (d - E)))%R) by lra.
    apply lt_IZR in Hm.
    replace (Z.max d E) with ((d - E) + E) by lia.
    rewrite pow2_add, (pow2_IZR (d - E)) by lia.
    apply Rmult_le_compat_r; [lra|]. apply IZR_le. lia.
  - assert (Hone : (pow2 (d - E) <= 1)%R).
    { change 1%R with (pow2 0). apply pow2_le. lia. }
    assert (Hm : (IZR (shr_m r) < IZR 1)%R) by lra.
    apply lt_IZR in Hm.
    replace (Z.max d E) with E by lia.
    assert (IZR (rne r) <= 1)%R by (apply IZR_le; lia).
    nra.
Qed.

(** In the normal range it does not leave the binade downwards. *)
Lemma rounding_lower (d : Z) (r : shr_record) (X : R) :
  (pow2 (d - 1) <= X)%R -> fexp prec emax d = d - 53 ->
  located r (X * pow2 (- fexp prec emax d)) ->
  (pow2 (d - 1) <= IZR (rne r) * pow2 (fexp prec emax d))%R.
Proof.
  intros HX HE Hr. rewrite HE in *.
  pose proof (pow2_pos (d - 53)) as HpE.
  pose proof (pow2_pos (- (d - 53))) as HnE.
  pose proof (located_bounds _ _ Hr) as [_ Hhi].
  pose proof (rne_range r) as HN.
  assert (HY : (pow2 52 <= X * pow2 (- (d - 53)))%R).
  { replace 52 with ((d - 1) + - (d - 53)) by lia. rewrite pow2_add.
    apply Rmult_le_compat_r; lra. }
  rewrite (pow2_IZR 52) in HY by lia.
  assert (Hm : (IZR (2 ^ 52) < IZR (shr_m r + 1))%R)
    by (rewrite plus_IZR; lra).
  apply lt_IZR in Hm.
  replace (d - 1) with (52 + (d - 53)) by lia.
  rewrite pow2_add, (pow2_IZR 52) by lia.
  apply Rmult_le_compat_r; [lra|]. apply IZR_le. lia.
Qed.

(** Rounding to the nearest double is monotone. *)
Lemma rounding_monotone (X1 V1 X2 V2 : R) :
  rounding_of X1 V1 -> rounding_of X2 V2 -> (X1 <= X2)%R -> (V1 <= V2)%R.
Proof.
  intros (d1 & r1 & [L1 U1] & P1 & Hr1 & ->)
         (d2 & r2 & [L2 U2] & P2 & Hr2 & ->) HX.
  assert (Hd : d1 <= d2).
  { assert (pow2 (d1 - 1) < pow2 d2)%R by lra.
    apply pow2_lt_inv in H. lia. }
  destruct (Z.eq_dec (fexp prec emax d1) (fexp prec emax d2)) as [He|Hne].
  - rewrite He in *. set (E := fexp prec emax d2) in *.
    pose proof (pow2_pos E). pose proof (pow2_pos (- E)).
    apply Rmult_le_compat_r; [lra|]. apply IZR_le.
    apply (rne_monotone r1 r2 _ _ Hr1 Hr2).
    apply Rmult_le_compat_r; lra.
  - assert (HE2 : fexp prec emax d2 = d2 - 53)
      by (rewrite !fexp_unfold in *; lia).
    pose proof (rounding_upper d1 r1 X1 U1 P1 Hr1) as HU.
    pose proof (rounding_lower d2 r2 X2 L2 HE2 Hr2) as HL.
    assert (Hmax : Z.max d1 (fexp prec emax d1) <= d2 - 1)
      by (rewrite !fexp_unfold in *; lia).
    pose proof (pow2_le _ _ Hmax). lra.
Qed.

Lemma rounding_unique (X V1 V2 : R) :
  rounding_of X V1 -> rounding_of X V2 -> V1 = V2.
Proof.
  intros H1 H2.
  pose proof (rounding_monotone X V1 X V2 H1 H2 ltac:(lra)).
  pose proof (rounding_monotone X V2 X V1 H2 H1 ltac:(lra)). lra.
Qed.

Lemma pow2_lt (a b : Z) : a < b -> (pow2 a < pow2 b)%R.
Proof.
  intros H. replace b with (a + (b - a)) by lia.
  rewrite pow2_add, (pow2_IZR (b - a)) by lia.
  pose proof (pow2_pos a).
  assert (2 <= IZR (2 ^ (b - a)))%R.
  { apply IZR_le. replace (b - a) with (Z.succ (b - a - 1)) by lia.
    rewrite Z.pow_succ_r by lia.
    pose proof (Z.pow_pos_nonneg 2 (b - a - 1)). lia. }
  nra.
Qed.

Lemma pow2_le_inv (a b : Z) : (pow2 a <= pow2 b)%R -> a <= b.
Proof.
  intros H. destruct (Z_le_gt_dec a b) as [Hle|Hgt]; [exact Hle|].
  pose proof (pow2_lt b a ltac:(lia)). lra.
Qed.

(** A double rounds to itself. *)
Lemma valid_rounding (m : positive) (e : Z) :
  SpecFloat.bounded prec emax m e = true ->
  rounding_of (IZR (Zpos m) * pow2 e) (IZR (Zpos m) * pow2 e).
Proof.
  intros Hb. unfold SpecFloat.bounded in Hb. apply andb_true_iff in Hb as [Hc _].
  unfold canonical_mantissa in Hc. apply Z.eqb_eq in Hc.
  exists (Zpos (digits2_pos m) + e), (shr_record_of_loc (Zpos m) loc_Exact).
  split.
  - pose proof (located_binade m e loc_Exact _ (located_exact (Zpos m))).
    exact H.
  - split; [cbn; lia|]. rewrite Hc. split; [|reflexivity].
    rewrite Rmult_assoc, <- pow2_add.
    replace (e + - e) with 0 by lia. change (pow2 0) with 1%R.
    rewrite Rmult_1_r. apply located_exact.
Qed.

Lemma digits_iter_xO (m k : positive) :
  digits2_pos (Pos.iter xO m k) = (digits2_pos m + k)%positive.
Proof.
  induction k as [|k IH] using Pos.peano_ind.
  - cbn [Pos.iter digits2_pos]. lia.
  - rewrite Pos.iter_succ. cbn [digits2_pos]. rewrite IH. lia.
Qed.

Lemma binary_round_rounding (p : positive) (e : Z) :
  Zpos (digits2_pos p) + e <= 1000 ->
  SFfinite (binary_round prec emax false p e) /\
  rounding_of (IZR (Zpos p) * pow2 e)
    (SF2R (binary_round prec emax false p e)).
Proof.
  intros Hd. unfold binary_round.
  pose proof (shl_align_value p e
                (fexp prec emax (Zpos (digits2_pos p) + e))) as Hv.
  set (E0 := fexp prec emax (Zpos (digits2_pos p) + e)) in *.
  assert (Hal : let mz := fst (shl_align p e E0) in
                let ez := snd (shl_align p e E0) in
                Zpos (digits2_pos mz) + ez = Zpos (digits2_pos p) + e
                /\ ez <= E0).
  { unfold shl_align. destruct (E0 - e) as [|k|k] eqn:Ek; cbn [fst snd].
    - split; lia.
    - split; lia.
    - rewrite digits_iter_xO. split; lia. }
  destruct (shl_align p e E0) as [mz ez]. cbn [fst snd] in Hv, Hal.
  destruct Hal as [Hdg Hez].
  rewrite <- Hv.
  apply round_aux_rounding.
  - apply located_exact.
  - rewrite Hdg. exact Hez.
  - rewrite Hdg. exact Hd.
Qed.

Lemma SF2R_pos_sign (s : bool) (m : positive) (e : Z) :
  (0 <= SF2R (S754_finite s m e))%R -> s = false.
Proof.
  cbn [SF2R]. intros H. destruct s; [exfalso|reflexivity].
  pose proof (pow2_pos e).
  assert (0 < IZR (Zpos m))%R by (apply IZR_lt; lia). nra.
Qed.

Lemma SF2R_finite_pos (m : positive) (e : Z) :
  (0 < SF2R (S754_finite false m e))%R.
Proof.
  cbn [SF2R]. pose proof (pow2_pos e).
  assert (0 < IZR (Zpos m))%R by (apply IZR_lt; lia). nra.
Qed.

(** A rounding of a real that is not negative: zero for zero, the nearest
    double otherwise. *)
Definition frounds (X V : R) : Prop := (X = 0%R /\ V = 0%R) \/ rounding_of X V.

Lemma frounds_nonneg (X V : R) : frounds X V -> (0 <= V)%R.
Proof.
  intros [[_ ->]|H]; [lra|exact (rounding_nonneg X V H)].
Qed.

Lemma frounds_monotone (X1 V1 X2 V2 : R) :
  frounds X1 V1 -> frounds X2 V2 -> (0 <= X1 <= X2)%R -> (V1 <= V2)%R.
Proof.
  intros [[E1 ->]|H1] H2 HX.
  - exact (frounds_nonneg X2 V2 H2).
  - destruct H2 as [[E2 ->]|H2].
    + exfalso. destruct H1 as (d & r & [L _] & _).
      pose proof (pow2_pos (d - 1)). lra.
    + apply (rounding_monotone X1 V1 X2 V2 H1 H2). lra.
Qed.

Lemma frounds_unique (X V1 V2 : R) :
  (0 <= X)%R -> frounds X V1 -> frounds X V2 -> V1 = V2.
Proof.
  intros HX H1 H2.
  pose proof (frounds_monotone X V1 X V2 H1 H2 ltac:(lra)).
  pose proof (frounds_monotone X V2 X V1 H2 H1 ltac:(lra)). lra.
Qed.

Lemma SF_self_frounds (x : spec_float) :
  SFfinite x -> valid_binary x = true -> (0 <= SF2R x)%R ->
  frounds (SF2R x) (SF2R x).
Proof.
  intros Hf Hv Hx. destruct x as [s|s| |s m e]; try contradiction.
  - left. split; reflexivity.
  - right. assert (Es : s = false) by (apply (SF2R_pos_sign s m e); exact Hx).
    subst s. cbn [SF2R]. rewrite Rmult_1_l. apply valid_rounding. exact Hv.
Qed.

Lemma magnitude_bound (d : Z) (X : R) (b : Z) :
  (pow2 (d - 1) <= X)%R -> (X <= pow2 b)%R -> d <= b + 1.
Proof.
  intros H1 H2. assert (H : (pow2 (d - 1) <= pow2 b)%R) by lra.
  apply pow2_le_inv in H. lia.
Qed.

Lemma SFadd_frounds (x y : spec_float) :
  SFfinite x -> SFfinite y ->
  valid_binary x = true -> valid_binary y = true ->
  (0 <= SF2R x + SF2R y <= pow2 100)%R ->
  SFfinite (SFadd prec emax x y) /\
  frounds (SF2R x + SF2R y) (SF2R (SFadd prec emax x y)).
Proof.
  intros Hx Hy Vx Vy HX.
  destruct x as [sx|sx| |sx mx ex]; try contradiction;
    destruct y as [sy|sy| |sy my ey]; try contradiction.
  - cbn [SFadd SF2R]. rewrite Rplus_0_l.
    destruct sx, sy; (split; [exact I|left; split; reflexivity]).
  - cbn [SFadd]. split; [exact I|].
    change (SF2R (S754_zero sx)) with 0%R in *. rewrite Rplus_0_l in *.
    apply SF_self_frounds; [exact I|exact Vy|lra].
  - cbn [SFadd]. split; [exact I|].
    change (SF2R (S754_zero sy)) with 0%R in *. rewrite Rplus_0_r in *.
    apply SF_self_frounds; [exact I|exact Vx|lra].
  - cbn [SFadd].
    rewrite <- (aligned_value sx mx ex (Z.min ex ey)) in * by lia.
    rewrite <- (aligned_value sy my ey (Z.min ex ey)) in * by lia.
    rewrite <- Rmult_plus_distr_r, <- plus_IZR in *.
    set (M := cond_Zopp sx (Z.pos (fst (shl_align mx ex (Z.min ex ey))))
              + cond_Zopp sy (Z.pos (fst (shl_align my ey (Z.min ex ey)))))
      in *.
    pose proof (pow2_pos (Z.min ex ey)) as Hp.
    destruct M as [|p|p]; cbn [binary_normalize].
    + split; [exact I|]. left. split; [|reflexivity]. apply Rmult_0_l.
    + assert (Hd : Zpos (digits2_pos p) + Z.min ex ey <= 1000).
      { pose proof (located_binade p (Z.min ex ey) loc_Exact _
                      (located_exact (Zpos p))) as [Hlo _].
        pose proof (magnitude_bound _ _ 100 Hlo ltac:(lra)). lia. }
      destruct (binary_round_rounding p (Z.min ex ey) Hd) as [H1 H2].
      split; [exact H1|right; exact H2].
    + exfalso. assert (IZR (Z.neg p) < 0)%R by (apply IZR_lt; lia). nra.
Qed.

Lemma digits_mul_ge (a b : positive) :
  (digits2_pos b <= digits2_pos (a * b))%positive.
Proof.
  pose proof (digits2_pos_bound b) as [Hb _].
  pose proof (digits2_pos_bound (a * b)) as [_ Hab].
  assert (H : 2 ^ (Zpos (digits2_pos b) - 1) < 2 ^ Zpos (digits2_pos (a * b)))
    by nia.
  apply Z.pow_lt_mono_r_iff in H; lia.
Qed.

(** A normal double: a full mantissa of 53 bits. *)
Definition SFnormal (x : spec_float) : bool :=
  match x with
  | S754_finite _ m _ => (digits2_pos m =? 53)%positive
  | _ => false
  end.

Lemma SFmul_frounds (x y : spec_float) :
  SFfinite x -> SFfinite y -> (0 <= SF2R x)%R -> (0 <= SF2R y)%R ->
  SFnormal x = true \/ SFnormal y = true ->
  (SF2R x * SF2R y <= pow2 100)%R ->
  SFfinite (SFmul prec emax x y) /\
  frounds (SF2R x * SF2R y) (SF2R (SFmul prec emax x y)).
Proof.
  intros Hx Hy Px Py Hn HX.
  destruct x as [sx|sx| |sx mx ex]; try contradiction;
    destruct y as [sy|sy| |sy my ey]; try contradiction;
    try (cbn [SFmul SF2R]; split; [exact I|]; left;
         split; [ring|reflexivity]).
  assert (Esx : sx = false) by (apply (SF2R_pos_sign sx mx ex); exact Px).
  assert (Esy : sy = false) by (apply (SF2R_pos_sign sy my ey); exact Py).
  subst sx sy. cbn [SFmul xorb].
  assert (Hval : (SF2R (S754_finite false mx ex)
                  * SF2R (S754_finite false my ey)
                  = IZR (Zpos (mx * my)) * pow2 (ex + ey))%R).
  { cbn [SF2R]. rewrite Pos2Z.inj_mul, mult_IZR, pow2_add. ring. }
  rewrite Hval in *.
  pose proof (located_binade (mx * my) (ex + ey) loc_Exact _
                (located_exact (Zpos (mx * my)))) as [Hlo _].
  pose proof (magnitude_bound _ _ 100 Hlo HX) as Hd.
  assert (Hdg : 53 <= Zpos (digits2_pos (mx * my))).
  { cbn [SFnormal] in Hn. destruct Hn as [Hn|Hn]; apply Pos.eqb_eq in Hn.
    - pose proof (digits_mul_ge my mx). rewrite (Pos.mul_comm mx my). lia.
    - pose proof (digits_mul_ge mx my). lia. }
  destruct (round_aux_rounding (mx * my) (ex + ey) loc_Exact _
              (located_exact (Zpos (mx * my)))) as [H1 H2].
  - rewrite fexp_unfold. lia.
  - lia.
  - split; [exact H1|right; exact H2].
Qed.

(** ** Division *)

Lemma located_new_location (q m2 r : Z) :
  0 <= r < m2 ->
  located (shr_record_of_loc q (new_location m2 r))
          (IZR q + IZR r * / IZR m2).
Proof.
  intros Hr.
  assert (Hm : (0 < IZR m2)%R) by (apply IZR_lt; lia).
  set (f := (IZR r * / IZR m2)%R).
  assert (Hf : (f * IZR m2 = IZR r)%R).
  { unfold f. rewrite Rmult_assoc, Rinv_l by lra. ring. }
  assert (Hlt : 2 * r < m2 -> (0 <= f < / 2)%R).
  { intros H. apply IZR_lt in H. rewrite mult_IZR in H.
    assert (0 <= IZR r)%R by (apply IZR_le; lia).
    split; [unfold f; apply Rmult_le_pos;
            [lra|apply Rlt_le, Rinv_0_lt_compat; lra]|].
    apply (Rmult_lt_reg_r (IZR m2)); lra. }
  assert (Hgt : m2 < 2 * r -> (/ 2 < f < 1)%R).
  { intros H. apply IZR_lt in H. rewrite mult_IZR in H.
    assert (IZR r < IZR m2)%R by (apply IZR_lt; lia).
    split; apply (Rmult_lt_reg_r (IZR m2)); lra. }
  assert (Heq : 2 * r = m2 -> f = (/ 2)%R).
  { intros H. apply (f_equal IZR) in H. rewrite mult_IZR in H.
    apply (Rmult_eq_reg_r (IZR m2)); lra. }
  assert (Hpos : r <> 0 -> (0 < f)%R).
  { intros H. assert (0 < IZR r)%R by (apply IZR_lt; lia).
    unfold f. apply Rmult_lt_0_compat; [lra|].
    apply Rinv_0_lt_compat; lra. }
  unfold new_location, new_location_even, new_location_odd.
  destruct (Z.even m2) eqn:Ev; destruct (Z.eqb_spec r 0) as [Hr0|Hr0].
  - unfold located. cbn [shr_record_of_loc shr_m shr_r shr_s].
    unfold f. rewrite Hr0. lra.
  - specialize (Hpos Hr0).
    destruct (Z.compare_spec (2 * r) m2) as [H|H|H]; unfold located;
      cbn [shr_record_of_loc shr_m shr_r shr_s].
    + rewrite (Heq H). reflexivity.
    + specialize (Hlt H). lra.
    + specialize (Hgt H). lra.
  - unfold located. cbn [shr_record_of_loc shr_m shr_r shr_s].
    unfold f. rewrite Hr0. lra.
  - specialize (Hpos Hr0).
    assert (Hodd : 2 * r <> m2).
    { intros H. rewrite <- H, Z.even_mul in Ev. discriminate Ev. }
    destruct (Z.compare_spec (2 * r + 1) m2) as [H|H|H]; unfold located;
      cbn [shr_record_of_loc shr_m shr_r shr_s].
    + specialize (Hlt ltac:(lia)). lra.
    + specialize (Hlt ltac:(lia)). lra.
    + specialize (Hgt ltac:(lia)). lra.
Qed.

Lemma div_core_spec (mx my : positive) (ex ey : Z) :
  let D := Zpos (digits2_pos mx) + ex - (Zpos (digits2_pos my) + ey) in
  let e' := Z.min (fexp prec emax D) (ex - ey) in
  let m' := Zpos mx * 2 ^ (ex - ey - e') in
  SFdiv_core_binary prec emax (Zpos mx) ex (Zpos my) ey
  = (m' / Zpos my, e', new_location (Zpos my) (m' mod Zpos my)).
Proof.
  intros D e' m'. unfold SFdiv_core_binary. cbn [Zdigits2].
  fold D. fold e'.
  assert (Hs : 0 <= ex - ey - e') by (unfold e'; lia).
  assert (Hm : match ex - ey - e' with
               | Z0 => Zpos mx
               | Zpos _ => Z.shiftl (Zpos mx) (ex - ey - e')
               | Zneg _ => Z0
               end = m').
  { unfold m'. destruct (ex - ey - e') as [|s|s] eqn:Es.
    - rewrite Z.pow_0_r. lia.
    - rewrite Z.shiftl_mul_pow2 by lia. reflexivity.
    - lia. }
  rewrite Hm. unfold Z.div, Z.modulo.
  destruct (Z.div_eucl m' (Zpos my)) as [q r]. reflexivity.
Qed.

Lemma Rdiv_bounds (x y X lo : R) :
  (0 < y)%R -> (X * y = x)%R ->
  ((lo * y < x -> lo < X) /\ (x <= lo * y -> X <= lo))%R.
Proof.
  intros Hy HX. split; intros H.
  - apply (Rmult_lt_reg_r y); lra.
  - apply (Rmult_le_reg_r y); lra.
Qed.

(** The quotient of two positive doubles of moderate size. *)
Lemma SFdiv_rounding (mx my : positive) (ex ey : Z) :
  let x := (IZR (Zpos mx) * pow2 ex)%R in
  let y := (IZR (Zpos my) * pow2 ey)%R in
  (pow2 (- 100) <= x <= pow2 100)%R ->
  (pow2 (- 100) <= y <= pow2 100)%R ->
  SFfinite (SFdiv prec emax (S754_finite false mx ex)
              (S754_finite false my ey)) /\
  rounding_of (x * / y)
    (SF2R (SFdiv prec emax (S754_finite false mx ex)
             (S754_finite false my ey))).
Proof.
  intros x y Hx Hy.
  pose proof (located_binade mx ex loc_Exact _ (located_exact (Zpos mx)))
    as [Lx Ux]. fold x in Lx, Ux.
  pose proof (located_binade my ey loc_Exact _ (located_exact (Zpos my)))
    as [Ly Uy]. fold y in Ly, Uy.
  set (d1 := Zpos (digits2_pos mx)) in *.
  set (d2 := Zpos (digits2_pos my)) in *.
  assert (Hd1 : - 100 < d1 + ex <= 101).
  { split; [apply pow2_lt_inv; lra|].
    pose proof (magnitude_bound _ _ 100 Lx ltac:(lra)). lia. }
  assert (Hd2 : - 100 < d2 + ey <= 101).
  { split; [apply pow2_lt_inv; lra|].
    pose proof (magnitude_bound _ _ 100 Ly ltac:(lra)). lia. }
  cbn [SFdiv xorb].
  pose proof (div_core_spec mx my ex ey) as Hcore. cbv zeta in Hcore.
  fold d1 d2 in Hcore.
  set (D := d1 + ex - (d2 + ey)) in *.
  set (e' := Z.min (fexp prec emax D) (ex - ey)) in *.
  set (s := ex - ey - e') in *.
  set (m' := Zpos mx * 2 ^ s) in *.
  rewrite Hcore. clear Hcore.
  assert (HfD : fexp prec emax D = D - 53) by (rewrite fexp_unfold; lia).
  assert (He' : e' <= D - 53) by (unfold e'; lia).
  assert (Hs : 53 - d1 + d2 <= s) by (unfold s, D in *; lia).
  assert (Hs0 : 0 <= s) by (unfold s, e'; lia).
  pose proof (digits2_pos_bound mx) as [Bx1 Bx2]. fold d1 in Bx1, Bx2.
  pose proof (digits2_pos_bound my) as [By1 By2]. fold d2 in By1, By2.
  (* the quotient has at least 53 bits *)
  assert (Hq : 2 ^ 52 <= m' / Zpos my).
  { apply Z.div_le_lower_bound; [lia|].
    assert (H1 : 2 ^ (52 + d2) <= 2 ^ (d1 - 1 + s))
      by (apply Z.pow_le_mono_r; lia).
    rewrite !Z.pow_add_r in H1 by (unfold d1, d2; lia).
    assert (H3 : 0 < 2 ^ s) by (apply Z.pow_pos_nonneg; lia).
    unfold m'. nia. }
  pose proof (Z.div_mod m' (Zpos my) ltac:(lia)) as Hdm.
  pose proof (Z.mod_pos_bound m' (Zpos my) ltac:(lia)) as Hr.
  set (q := m' / Zpos my) in *. set (r := m' mod Zpos my) in *.
  destruct q as [|pq|pq] eqn:Eq; try lia.
  pose proof (located_new_location (Zpos pq) (Zpos my) r Hr) as Hloc.
  set (Y := (IZR (Zpos pq) + IZR r * / IZR (Zpos my))%R) in *.
  (* the located value is the quotient *)
  assert (Hmy : (0 < IZR (Zpos my))%R) by (apply IZR_lt; lia).
  assert (Hyp : (0 < y)%R) by (pose proof (pow2_pos (- 100)); lra).
  assert (HY : (Y * pow2 e' * y = x)%R).
  { unfold Y, y, x.
    assert (Hm' : (IZR (Zpos pq) * IZR (Zpos my) + IZR r
                   = IZR (Zpos mx) * pow2 s)%R).
    { rewrite <- mult_IZR, <- plus_IZR, (pow2_IZR s Hs0), <- mult_IZR.
      f_equal. unfold m' in Hdm. lia. }
    assert (Hpw : (pow2 s * pow2 e' * pow2 ey = pow2 ex)%R).
    { rewrite <- !pow2_add. f_equal. unfold s. lia. }
    transitivity ((IZR (Zpos pq) * IZR (Zpos my) + IZR r)
                  * (/ IZR (Zpos my) * IZR (Zpos my))
                  * pow2 e' * pow2 ey)%R.
    - field. lra.
    - rewrite Rinv_l by lra. rewrite Hm'. rewrite <- Hpw. ring. }
  assert (HX : (x * / y = Y * pow2 e')%R).
  { rewrite <- HY. field. lra. }
  rewrite HX.
  (* the exponent is not above the target *)
  assert (HXlo : (pow2 (D - 1) < Y * pow2 e')%R).
  { apply (proj1 (Rdiv_bounds x y _ (pow2 (D - 1)) Hyp HY)).
    apply Rlt_le_trans with (pow2 (D - 1) * pow2 (d2 + ey))%R.
    - apply Rmult_lt_compat_l; [apply pow2_pos|lra].
    - rewrite <- pow2_add. replace (D - 1 + (d2 + ey)) with (d1 + ex - 1)
        by (unfold D; lia). lra. }
  assert (HXhi : (Y * pow2 e' <= pow2 200)%R).
  { apply (proj2 (Rdiv_bounds x y _ (pow2 200) Hyp HY)).
    apply Rle_trans with (pow2 200 * pow2 (- 100))%R.
    - rewrite <- pow2_add. replace (200 + - 100) with 100 by lia. lra.
    - apply Rmult_le_compat_l; [apply Rlt_le, pow2_pos|lra]. }
  pose proof (located_binade pq e' _ Y Hloc) as [Lq Uq].
  set (dq := Zpos (digits2_pos pq)) in *.
  assert (HD : D <= dq + e').
  { assert (pow2 (D - 1) < pow2 (dq + e'))%R by lra.
    apply pow2_lt_inv in H. lia. }
  pose proof (magnitude_bound _ _ 200 Lq HXhi) as Hdq.
  apply round_aux_rounding.
  - exact Hloc.
  - fold dq. rewrite fexp_unfold. lia.
  - fold dq. lia.
Qed.

(** ** The order of doubles *)

Lemma canonical_exponent_order (m1 m2 : positive) (e1 e2 : Z) :
  SpecFloat.bounded prec emax m1 e1 = true ->
  SpecFloat.bounded prec emax m2 e2 = true ->
  e1 < e2 ->
  (IZR (Zpos m1) * pow2 e1 <= IZR (Zpos m2) * pow2 e2)%R.
Proof.
  unfold SpecFloat.bounded, canonical_mantissa. intros H1 H2 He.
  apply andb_true_iff in H1 as [H1 _]. apply andb_true_iff in H2 as [H2 _].
  apply Z.eqb_eq in H1, H2. rewrite fexp_unfold in H1, H2.
  pose proof (digits2_pos_bound m1) as [_ B1].
  pose proof (digits2_pos_bound m2) as [B2 _].
  assert (D2 : Zpos (digits2_pos m2) = 53) by lia.
  assert (D1 : Zpos (digits2_pos m1) <= 53) by lia.
  rewrite D2 in B2.
  assert (B1' : Zpos m1 <= 2 ^ 53).
  { assert (2 ^ Zpos (digits2_pos m1) <= 2 ^ 53)
      by (apply Z.pow_le_mono_r; lia). lia. }
  apply IZR_le in B1', B2.
  pose proof (pow2_pos e1). pose proof (pow2_pos e2).
  apply Rle_trans with (pow2 (53 + e1)).
  - rewrite pow2_add, (pow2_IZR 53) by lia.
    apply Rmult_le_compat_r; lra.
  - apply Rle_trans with (pow2 (52 + e2)); [apply pow2_le; lia|].
    rewrite pow2_add, (pow2_IZR 52) by lia.
    apply Rmult_le_compat_r; [lra|exact B2].
Qed.

Lemma SFleb_le (x y : spec_float) :
  SFfinite x -> SFfinite y ->
  valid_binary x = true -> valid_binary y = true ->
  SFleb x y = true -> (SF2R x <= SF2R y)%R.
Proof.
  intros Hx Hy Vx Vy.
  destruct x as [sx|sx| |sx mx ex]; try contradiction;
    destruct y as [sy|sy| |sy my ey]; try contradiction;
    unfold SFleb; cbn [SFcompare SF2R].
  - intros _. lra.
  - pose proof (SF2R_finite_pos my ey) as Hp. cbn [SF2R] in Hp.
    destruct sy; [discriminate|]. intros _. lra.
  - pose proof (SF2R_finite_pos mx ex) as Hp. cbn [SF2R] in Hp.
    destruct sx; [|discriminate]. intros _. lra.
  - pose proof (SF2R_finite_pos mx ex) as Px. cbn [SF2R] in Px.
    pose proof (SF2R_finite_pos my ey) as Py. cbn [SF2R] in Py.
    change (valid_binary (S754_finite sx mx ex))
      with (SpecFloat.bounded prec emax mx ex) in Vx.
    change (valid_binary (S754_finite sy my ey))
      with (SpecFloat.bounded prec emax my ey) in Vy.
    destruct sx, sy; try discriminate; try (intros _; lra).
    + (* both negative *)
      destruct (Z.compare_spec ex ey) as [He|He|He]; try discriminate.
      * subst ey. change (Pos.compare_cont Eq mx my) with (Pos.compare mx my).
        destruct (Pos.compare_spec mx my) as [Hm|Hm|Hm]; cbn [CompOpp];
          try discriminate; intros _.
        -- subst my. lra.
        -- assert (IZR (Zpos my) <= IZR (Zpos mx))%R by (apply IZR_le; lia).
           pose proof (pow2_pos ex). nra.
      * intros _.
        pose proof (canonical_exponent_order my mx ey ex Vy Vx He). lra.
    + (* both positive *)
      destruct (Z.compare_spec ex ey) as [He|He|He]; try discriminate.
      * subst ey. change (Pos.compare_cont Eq mx my) with (Pos.compare mx my).
        destruct (Pos.compare_spec mx my) as [Hm|Hm|Hm];
          try discriminate; intros _.
        -- subst my. lra.
        -- assert (IZR (Zpos mx) <= IZR (Zpos my))%R by (apply IZR_le; lia).
           pose proof (pow2_pos ex). nra.
      * intros _.
        pose proof (canonical_exponent_order mx my ex ey Vx Vy He). lra.
Qed.

Lemma SFleb_between_finite (lo x hi : spec_float) :
  SFfinite lo -> SFfinite hi ->
  SFleb lo x = true -> SFleb x hi = true -> SFfinite x.
Proof.
  intros Hlo Hhi.
  destruct x as [s|s| |s m e]; try (intros; exact I).
  - destruct lo as [a|a| |a ml el]; try contradiction;
      destruct hi as [b|b| |b mh eh]; try contradiction;
      unfold SFleb; cbn [SFcompare]; destruct s; try discriminate;
      intros _; discriminate.
  - destruct lo as [a|a| |a ml el]; try contradiction; discriminate.
Qed.

Lemma leb_F2R (x y : float) :
  Ffinite x -> Ffinite y -> PrimFloat.leb x y = true ->
  (F2R x <= F2R y)%R.
Proof.
  intros Hx Hy H. rewrite FloatAxioms.leb_spec in H.
  apply SFleb_le; try assumption; apply Prim2SF_valid.
Qed.

Lemma leb_between_finite (lo x hi : float) :
  Ffinite lo -> Ffinite hi ->
  PrimFloat.leb lo x = true -> PrimFloat.leb x hi = true -> Ffinite x.
Proof.
  intros Hlo Hhi H1 H2. rewrite FloatAxioms.leb_spec in H1, H2.
  exact (SFleb_between_finite _ _ _ Hlo Hhi H1 H2).
Qed.

(** ** The operations on doubles that are not negative *)

Lemma F_self_frounds (x : float) :
  Ffinite x -> (0 <= F2R x)%R -> frounds (F2R x) (F2R x).
Proof.
  intros Hx Hp. apply SF_self_frounds; [exact Hx|apply Prim2SF_valid|exact Hp].
Qed.

Lemma add_frounds (x y : float) :
  Ffinite x -> Ffinite y -> (0 <= F2R x + F2R y <= pow2 100)%R ->
  Ffinite (x + y) /\ frounds (F2R x + F2R y) (F2R (x + y)).
Proof.
  intros Hx Hy HX. unfold Ffinite, F2R in *. rewrite FloatAxioms.add_spec.
  apply SFadd_frounds; try assumption; apply Prim2SF_valid.
Qed.

Lemma mul_frounds (x y : float) :
  Ffinite x -> Ffinite y -> (0 <= F2R x)%R -> (0 <= F2R y)%R ->
  SFnormal (Prim2SF x) = true \/ SFnormal (Prim2SF y) = true ->
  (F2R x * F2R y <= pow2 100)%R ->
  Ffinite (x * y) /\ frounds (F2R x * F2R y) (F2R (x * y)).
Proof.
  intros Hx Hy Px Py Hn HX. unfold Ffinite, F2R in *.
  rewrite FloatAxioms.mul_spec. apply SFmul_frounds; assumption.
Qed.

Lemma div_frounds (x y : float) :
  Ffinite x -> Ffinite y ->
  (pow2 (- 100) <= F2R x <= pow2 100)%R ->
  (pow2 (- 100) <= F2R y <= pow2 100)%R ->
  Ffinite (x / y) /\ frounds (F2R x * / F2R y) (F2R (x / y)).
Proof.
  intros Hx Hy Bx By. unfold Ffinite, F2R in *.
  rewrite FloatAxioms.div_spec.
  pose proof (pow2_pos (- 100)) as Hp.
  destruct (Prim2SF x) as [sx|sx| |sx mx ex]; try contradiction;
    [cbn [SF2R] in Bx; lra|].
  destruct (Prim2SF y) as [sy|sy| |sy my ey]; try contradiction;
    [cbn [SF2R] in By; lra|].
  assert (Esx : sx = false) by (apply (SF2R_pos_sign sx mx ex); lra).
  assert (Esy : sy = false) by (apply (SF2R_pos_sign sy my ey); lra).
  subst sx sy. cbn [SF2R] in Bx, By |- *. rewrite !Rmult_1_l in *.
  destruct (SFdiv_rounding mx my ex ey Bx By) as [H1 H2].
  split; [exact H1|right; exact H2].
Qed.

(** Truncation is the integer part. *)
Lemma trunc_floor (x : float) :
  Ffinite x -> (0 <= F2R x)%R ->
  exists a, trunc_double x = Some a /\ 0 <= a /\
            (IZR a <= F2R x < IZR a + 1)%R.
Proof.
  unfold Ffinite, F2R, trunc_double. intros Hf Hx.
  destruct (Prim2SF x) as [s|s| |s m e]; try contradiction.
  - exists 0. cbn [SF2R]. split; [reflexivity|]. split; [lia|lra].
  - assert (Es : s = false) by (apply (SF2R_pos_sign s m e); exact Hx).
    subst s. cbn [SF2R]. rewrite Rmult_1_l.
    eexists. split; [reflexivity|].
    destruct (Z.leb_spec 0 e) as [He|He].
    + split; [apply Z.mul_nonneg_nonneg; [lia|apply Z.pow_nonneg; lia]|].
      rewrite mult_IZR, (pow2_IZR e He). lra.
    + assert (Hp : 0 < 2 ^ (- e)) by (apply Z.pow_pos_nonneg; lia).
      pose proof (Z.div_mod (Zpos m) (2 ^ (- e)) ltac:(lia)) as Hdm.
      pose proof (Z.mod_pos_bound (Zpos m) (2 ^ (- e)) Hp) as Hr.
      set (a := Zpos m / 2 ^ (- e)) in *.
      set (r := Zpos m mod 2 ^ (- e)) in *.
      split; [apply Z.div_pos; lia|].
      assert (Hpe : pow2 e = (/ IZR (2 ^ (- e)))%R).
      { rewrite <- pow2_neg by lia. f_equal. lia. }
      rewrite Hpe.
      assert (HP : (0 < IZR (2 ^ (- e)))%R) by (apply IZR_lt; lia).
      assert (Hm : (IZR (Zpos m) = IZR (2 ^ (- e)) * IZR a + IZR r)%R).
      { rewrite <- mult_IZR, <- plus_IZR. f_equal. exact Hdm. }
      assert (Hr0 : (0 <= IZR r < IZR (2 ^ (- e)))%R).
      { split; [apply IZR_le|apply IZR_lt]; lia. }
      rewrite Hm. split.
      * apply (Rmult_le_reg_r (IZR (2 ^ (- e)))); [exact HP|].
        rewrite Rmult_assoc, Rinv_l by lra. lra.
      * apply (Rmult_lt_reg_r (IZR (2 ^ (- e)))); [exact HP|].
        rewrite Rmult_assoc, Rinv_l by lra. lra.
Qed.

Lemma trunc_monotone (x y : float) (a b : Z) :
  Ffinite x -> Ffinite y -> (0 <= F2R x <= F2R y)%R ->
  trunc_double x = Some a -> trunc_double y = Some b -> a <= b.
Proof.
  intros Hx Hy H Ha Hb.
  destruct (trunc_floor x Hx ltac:(lra)) as (a' & Ea & _ & Fa).
  destruct (trunc_floor y Hy ltac:(lra)) as (b' & Eb & _ & Fb).
  rewrite Ea in Ha. rewrite Eb in Hb.
  injection Ha as <-. injection Hb as <-.
  assert (Hlt : (IZR a' < IZR (b' + 1))%R) by (rewrite plus_IZR; lra).
  apply lt_IZR in Hlt. lia.
Qed.

(** ** Sizes *)

Lemma pow2_100_large : (IZR (2 ^ 60) <= pow2 100)%R.
Proof. rewrite <- (pow2_IZR 60) by lia. apply pow2_le. lia. Qed.

Lemma pow2_m100_small : (pow2 (- 100) <= / 1048576)%R.
Proof.
  change (/ 1048576)%R with (/ IZR (2 ^ 20))%R.
  rewrite <- pow2_neg by lia. apply pow2_le. lia.
Qed.

Lemma frounds_bound (X V B : R) :
  frounds X V -> (0 <= X <= B)%R -> (0 <= V <= 2 * B + 1)%R.
Proof.
  intros H HX. split; [exact (frounds_nonneg X V H)|].
  destruct H as [[_ ->]|(d & r & [L U] & H0 & Hr & ->)]; [lra|].
  pose proof (rounding_upper d r X U H0 Hr) as HU.
  destruct (Z.max_spec d (fexp prec emax d)) as [[Hlt Hmax]|[Hle Hmax]];
    rewrite Hmax in HU.
  - assert (HE : fexp prec emax d = -1074)
      by (rewrite fexp_unfold in *; lia).
    rewrite HE in *. pose proof eta_small as [_ Heta]. unfold eta in Heta.
    lra.
  - replace d with ((d - 1) + 1) in HU at 2 by lia.
    rewrite pow2_add, (pow2_IZR 1) in HU by lia.
    change (IZR (2 ^ 1)) with 2%R in HU. lra.
Qed.

Lemma F_const (d v : Z) (x : float) :
  SF_between d v v (Prim2SF x) = true ->
  Ffinite x /\ (IZR d * F2R x = IZR v)%R.
Proof.
  intros H. destruct (F_between d v v x H) as [Hf Hb].
  split; [exact Hf|lra].
Qed.

Lemma one_value : Ffinite 1 /\ F2R 1 = 1%R.
Proof.
  destruct (F_const 1 1 1%float) as [H1 H2]; [vm_compute; reflexivity|].
  split; [exact H1|lra].
Qed.

Lemma minus_one_value : Ffinite (-1) /\ F2R (-1) = (-1)%R.
Proof.
  destruct (F_const 1 (-1) (-1)%float) as [H1 H2]; [vm_compute; reflexivity|].
  split; [exact H1|lra].
Qed.

Lemma half_value :
  Ffinite 0.5 /\ (0 <= F2R 0.5 <= 1)%R /\ SFnormal (Prim2SF 0.5) = true.
Proof.
  destruct (F_between 1 0 1 0.5%float) as [H1 H2]; [vm_compute; reflexivity|].
  split; [exact H1|]. split; [lra|vm_compute; reflexivity].
Qed.

(** [MAX_FREQUENCY - NUM_SYMBOLS] as a double. *)
Definition frequency_span : float :=
  double_of_Z (MAX_FREQUENCY - NUM_SYMBOLS).

Lemma span_value :
  Ffinite frequency_span /\ F2R frequency_span = 31742%R /\
  SFnormal (Prim2SF frequency_span) = true /\
  F2R (1 * frequency_span) = 31742%R.
Proof.
  destruct (F_const 1 31742 frequency_span) as [H1 H2];
    [vm_compute; reflexivity|].
  destruct (F_const 1 31742 (1 * frequency_span)%float) as [H3 H4];
    [vm_compute; reflexivity|].
  split; [exact H1|]. split; [lra|]. split; [vm_compute; reflexivity|lra].
Qed.

(** ** One row of the table *)

Section RowFacts.

Variables c w zq : float.
Hypothesis c_ok :
  SF_between 1 0 1 (Prim2SF c) && SFnormal (Prim2SF c) = true.
Hypothesis w_ok : SF_between 1048576 1 1048576 (Prim2SF w) = true.
Hypothesis zq_ok : SF_between 1 0 1 (Prim2SF zq) = true.

Lemma c_facts :
  Ffinite c /\ (0 <= F2R c <= 1)%R /\ SFnormal (Prim2SF c) = true.
Proof.
  apply andb_true_iff in c_ok as [H1 H2].
  destruct (F_between 1 0 1 c H1) as [Hf Hb].
  split; [exact Hf|]. split; [lra|exact H2].
Qed.

Lemma w_facts : Ffinite w /\ (/ 1048576 <= F2R w <= 1)%R.
Proof.
  destruct (F_between 1048576 1 1048576 w w_ok) as [Hf Hb].
  split; [exact Hf|lra].
Qed.

Lemma zq_facts : Ffinite zq /\ (0 <= F2R zq <= 1)%R.
Proof.
  destruct (F_between 1 0 1 zq zq_ok) as [Hf Hb]. split; [exact Hf|lra].
Qed.

(** The value of [cdf] before the jump is added, from the value of
    [std::erf]. *)
Definition p0_of (e : float) : float := (c * (0.5 * (1.0 + e)) + w)%float.

Definition in_unit (e : float) : Prop :=
  Ffinite e /\ (- 1 <= F2R e <= 1)%R.

Lemma p0_chain (e : float) :
  in_unit e ->
  exists A N B : R,
    frounds (1 + F2R e) A /\ frounds (F2R 0.5 * A) N /\
    frounds (F2R c * N) B /\ frounds (B + F2R w) (F2R (p0_of e)) /\
    Ffinite (p0_of e) /\ (0 <= A <= 5)%R /\ (0 <= N <= 11)%R /\
    (0 <= B <= 23)%R /\ (0 <= F2R (p0_of e) <= 49)%R.
Proof.
  intros [Fe Be].
  destruct one_value as [F1 V1].
  destruct half_value as (Fh & Bh & Nh).
  destruct c_facts as (Fc & Bc & Nc).
  destruct w_facts as (Fw & Bw).
  pose proof pow2_100_large as Hbig.
  assert (Hbig' : (1000 <= IZR (2 ^ 60))%R) by (apply IZR_le; lia).
  destruct (add_frounds 1 e F1 Fe) as [Fa Ra]; [rewrite V1; lra|].
  rewrite V1 in Ra.
  pose proof (frounds_bound _ _ 2 Ra ltac:(lra)) as BA.
  destruct (mul_frounds 0.5 (1 + e) Fh Fa) as [Fn Rn];
    [lra|lra|left; exact Nh|nra|].
  pose proof (frounds_bound _ _ 5 Rn ltac:(nra)) as BN.
  destruct (mul_frounds c (0.5 * (1 + e)) Fc Fn) as [Fb Rb];
    [lra|lra|left; exact Nc|nra|].
  pose proof (frounds_bound _ _ 11 Rb ltac:(nra)) as BB.
  destruct (add_frounds (c * (0.5 * (1 + e))) w Fb Fw) as [Fp Rp]; [lra|].
  pose proof (frounds_bound _ _ 24 Rp ltac:(lra)) as BP.
  exists (F2R (1 + e)), (F2R (0.5 * (1 + e))), (F2R (c * (0.5 * (1 + e)))).
  unfold p0_of. repeat (split; [first [assumption|lra]|]). lra.
Qed.

Lemma p0_lower (e : float) : in_unit e -> (F2R w <= F2R (p0_of e))%R.
Proof.
  intros He. destruct (p0_chain e He) as (A & N & B & _ & _ & _ & Rp & _ & _
                                          & _ & BB & _).
  destruct w_facts as (Fw & Bw).
  apply (frounds_monotone (F2R w) _ (B + F2R w) _);
    [apply F_self_frounds; [exact Fw|lra]|exact Rp|lra].
Qed.

Lemma p0_monotone (e1 e2 : float) :
  in_unit e1 -> in_unit e2 -> (F2R e1 <= F2R e2)%R ->
  (F2R (p0_of e1) <= F2R (p0_of e2))%R.
Proof.
  intros H1 H2 He.
  destruct (p0_chain e1 H1) as (A1 & N1 & B1 & Ra1 & Rn1 & Rb1 & Rp1 & _
                                & BA1 & BN1 & BB1 & _).
  destruct (p0_chain e2 H2) as (A2 & N2 & B2 & Ra2 & Rn2 & Rb2 & Rp2 & _
                                & BA2 & BN2 & BB2 & _).
  destruct H1 as [_ E1]. destruct H2 as [_ E2].
  destruct half_value as (_ & Bh & _). destruct c_facts as (_ & Bc & _).
  destruct w_facts as (_ & Bw).
  assert (HA : (A1 <= A2)%R)
    by (apply (frounds_monotone _ _ _ _ Ra1 Ra2); lra).
  assert (HN : (N1 <= N2)%R)
    by (apply (frounds_monotone _ _ _ _ Rn1 Rn2); nra).
  assert (HB : (B1 <= B2)%R)
    by (apply (frounds_monotone _ _ _ _ Rb1 Rb2); nra).
  apply (frounds_monotone _ _ _ _ Rp1 Rp2). lra.
Qed.

(** Adding the jump. *)
Lemma jump_spec (p : float) :
  Ffinite p -> (0 <= F2R p <= 49)%R ->
  Ffinite (p + zq) /\ frounds (F2R p + F2R zq) (F2R (p + zq)) /\
  (F2R p <= F2R (p + zq) <= 101)%R.
Proof.
  intros Fp Bp. destruct zq_facts as (Fz & Bz).
  pose proof pow2_100_large as Hbig.
  assert (Hbig' : (1000 <= IZR (2 ^ 60))%R) by (apply IZR_le; lia).
  destruct (add_frounds p zq Fp Fz) as [Fs Rs]; [lra|].
  pose proof (frounds_bound _ _ 50 Rs ltac:(lra)) as BS.
  split; [exact Fs|]. split; [exact Rs|]. split; [|lra].
  apply (frounds_monotone (F2R p) _ (F2R p + F2R zq) _);
    [apply F_self_frounds; [exact Fp|lra]|exact Rs|lra].
Qed.

Lemma jump_monotone (p1 p2 : float) :
  Ffinite p1 -> Ffinite p2 -> (0 <= F2R p1 <= F2R p2)%R ->
  (F2R p2 <= 49)%R -> (F2R (p1 + zq) <= F2R (p2 + zq))%R.
Proof.
  intros F1 F2 H12 B2. destruct zq_facts as (Fz & Bz).
  destruct (jump_spec p1 F1 ltac:(lra)) as (_ & R1 & _).
  destruct (jump_spec p2 F2 ltac:(lra)) as (_ & R2 & _).
  apply (frounds_monotone _ _ _ _ R1 R2). lra.
Qed.

End RowFacts.

(** The scaling of a [cdf] value to a frequency. *)
Definition q_of (p max_p : float) : float :=
  (p / max_p * frequency_span)%float.

Definition cdf_sized (p : float) : Prop :=
  Ffinite p /\ (/ 1048576 <= F2R p <= 101)%R.

Lemma q_chain (p mp : float) :
  cdf_sized p -> cdf_sized mp ->
  exists R : R,
    frounds (F2R p * / F2R mp) R /\
    frounds (R * 31742) (F2R (q_of p mp)) /\
    Ffinite (q_of p mp) /\ (0 <= R)%R.
Proof.
  intros [Fp Bp] [Fm Bm].
  pose proof pow2_100_large as Hbig. pose proof pow2_m100_small as Hsmall.
  assert (Hbig' : (IZR (2 ^ 60) = 1152921504606846976)%R) by reflexivity.
  destruct span_value as (Fk & Vk & Nk & _).
  destruct (div_frounds p mp Fp Fm) as [Fr Rr]; [lra|lra|].
  assert (HX : (0 <= F2R p * / F2R mp <= 105906176)%R).
  { assert (Hinv : (0 < / F2R mp)%R) by (apply Rinv_0_lt_compat; lra).
    split; [apply Rmult_le_pos; lra|].
    destruct (Rdiv_bounds (F2R p) (F2R mp) (F2R p * / F2R mp) 105906176
                ltac:(lra)) as [_ H].
    - field. lra.
    - apply H. lra. }
  pose proof (frounds_bound _ _ _ Rr HX) as BR.
  destruct (mul_frounds (p / mp) frequency_span Fr Fk) as [Fq Rq];
    [lra|lra|right; exact Nk|rewrite Vk; lra|].
  rewrite Vk in Rq.
  exists (F2R (p / mp)). unfold q_of.
  split; [exact Rr|]. split; [exact Rq|]. split; [exact Fq|lra].
Qed.

Lemma q_monotone (p1 p2 mp : float) :
  cdf_sized p1 -> cdf_sized p2 -> cdf_sized mp ->
  (F2R p1 <= F2R p2)%R ->
  (F2R (q_of p1 mp) <= F2R (q_of p2 mp))%R.
Proof.
  intros H1 H2 Hm H12.
  destruct (q_chain p1 mp H1 Hm) as (R1 & Rr1 & Rq1 & _ & P1).
  destruct (q_chain p2 mp H2 Hm) as (R2 & Rr2 & Rq2 & _ & P2).
  destruct H1 as [_ B1]. destruct H2 as [_ B2]. destruct Hm as [_ Bm].
  assert (Hinv : (0 < / F2R mp)%R) by (apply Rinv_0_lt_compat; lra).
  assert (HR : (R1 <= R2)%R).
  { apply (frounds_monotone _ _ _ _ Rr1 Rr2). split.
    - apply Rmult_le_pos; lra.
    - apply Rmult_le_compat_r; lra. }
  apply (frounds_monotone _ _ _ _ Rq1 Rq2). lra.
Qed.

Lemma q_range (p mp : float) :
  cdf_sized p -> cdf_sized mp -> (F2R p <= F2R mp)%R ->
  Ffinite (q_of p mp) /\ (0 <= F2R (q_of p mp) <= 31742)%R.
Proof.
  intros H1 Hm Hle.
  destruct (q_chain p mp H1 Hm) as (R & Rr & Rq & Fq & P).
  destruct H1 as [_ B1]. destruct Hm as [_ Bm].
  destruct one_value as [F1 V1].
  destruct span_value as (Fk & Vk & Nk & V1k).
  pose proof pow2_100_large as Hbig.
  assert (Hbig' : (IZR (2 ^ 60) = 1152921504606846976)%R) by reflexivity.
  split; [exact Fq|]. split; [exact (frounds_nonneg _ _ Rq)|].
  assert (Hinv : (0 < / F2R mp)%R) by (apply Rinv_0_lt_compat; lra).
  assert (HR : (R <= 1)%R).
  { assert (H : (R <= F2R 1)%R); [|lra].
    apply (frounds_monotone (F2R p * / F2R mp) _ (F2R 1) _);
      [exact Rr|apply F_self_frounds; [exact F1|lra]|].
    split; [apply Rmult_le_pos; lra|]. rewrite V1.
    rewrite <- (Rinv_r (F2R mp)) by lra.
    apply Rmult_le_compat_r; lra. }
  destruct (mul_frounds 1 frequency_span F1 Fk) as [_ R1k];
    [lra|lra|right; exact Nk|rewrite V1, Vk; lra|].
  rewrite V1, Vk, V1k in R1k.
  apply (frounds_monotone _ _ _ _ Rq R1k). lra.
Qed.

(** The argument [std::erf] gets for symbol [j]. *)
Definition erf_arg (scale : float) (j : Z) : float :=
  ((double_of_Z j - 511.0) / scale / PrimFloat.sqrt 2.0)%float.

(** What the proof needs of the constants of a row, as a test: the
    weights are in range, the arguments of [std::erf] are numbers and do
    not decrease with the symbol, and the jump is added from some symbol
    on. *)
Definition row_check (scale w z : float) : bool :=
  SF_between 1 0 1 (Prim2SF (1.0 - w - z)%float)
  && SFnormal (Prim2SF (1.0 - w - z)%float)
  && SF_between 1048576 1 1048576 (Prim2SF w)
  && SF_between 1 0 1 (Prim2SF z)
  && forall_below 1026
       (fun j => PrimFloat.leb (erf_arg scale j) (erf_arg scale j))
  && forall_below 1025
       (fun j => PrimFloat.leb (erf_arg scale j) (erf_arg scale (j + 1)))
  && forall_below 1025
       (fun j => implb (PrimFloat.leb 511.0 (double_of_Z j))
                       (PrimFloat.leb 511.0 (double_of_Z (j + 1)))).

Lemma rows_checked (i : nat) :
  (i < 4)%nat ->
  row_check (nth i cdf_scale 0%float) (nth i cdf_w 0%float)
            (nth i cdf_z 0 / double_of_Z NUM_SYMBOLS)%float = true.
Proof.
  intros Hi.
  destruct i as [|[|[|[|i]]]]; [vm_compute; reflexivity ..|lia].
Qed.

Section TableConstruction.

Variable erf : float -> float.

(** What is assumed of [std::erf]: on numbers its values lie between -1
    and 1, and it does not decrease. *)
Hypothesis erf_range :
  forall x, PrimFloat.leb x x = true ->
            PrimFloat.leb (-1) (erf x) = true /\
            PrimFloat.leb (erf x) 1 = true.
Hypothesis erf_monotone :
  forall x y, PrimFloat.leb x y = true ->
              PrimFloat.leb (erf x) (erf y) = true.

Lemma erf_in_unit (x : float) :
  PrimFloat.leb x x = true -> in_unit (erf x).
Proof.
  intros Hx. destruct (erf_range x Hx) as [H1 H2].
  destruct one_value as [F1 V1]. destruct minus_one_value as [Fm Vm].
  pose proof (leb_between_finite _ _ _ Fm F1 H1 H2) as Fe.
  pose proof (leb_F2R _ _ Fm Fe H1). pose proof (leb_F2R _ _ Fe F1 H2).
  split; [exact Fe|lra].
Qed.

Section Row.

Variables scale w z : float.
Hypothesis checked : row_check scale w z = true.

Let c : float := (1.0 - w - z)%float.
Let E (j : Z) : float := erf (erf_arg scale j).
Let P (j : Z) : float := cdf erf (double_of_Z j) 511.0 scale w z.

Lemma row_check_parts :
  (SF_between 1 0 1 (Prim2SF c) && SFnormal (Prim2SF c) = true) /\
  SF_between 1048576 1 1048576 (Prim2SF w) = true /\
  SF_between 1 0 1 (Prim2SF z) = true /\
  (forall j, 0 <= j <= 1025 ->
             PrimFloat.leb (erf_arg scale j) (erf_arg scale j) = true) /\
  (forall j, 0 <= j <= 1024 ->
             PrimFloat.leb (erf_arg scale j) (erf_arg scale (j + 1)) = true) /\
  (forall j, 0 <= j <= 1024 ->
             PrimFloat.leb 511.0 (double_of_Z j) = true ->
             PrimFloat.leb 511.0 (double_of_Z (j + 1)) = true).
Proof.
  pose proof checked as H. unfold row_check in H. fold c in H.
  repeat (apply andb_true_iff in H as [H ?]).
  split; [apply andb_true_iff; split; assumption|].
  split; [assumption|]. split; [assumption|].
  split; [|split].
  - intros j Hj.
    match goal with
    | H1 : forall_below 1026 _ = true |- _ =>
        exact (forall_below_spec _ _ H1 j ltac:(lia))
    end.
  - intros j Hj.
    match goal with
    | H1 : forall_below 1025 (fun j => PrimFloat.leb (erf_arg _ j) _) = true
      |- _ => exact (forall_below_spec _ _ H1 j ltac:(lia))
    end.
  - intros j Hj Hf.
    match goal with
    | H1 : forall_below 1025 (fun j => implb _ _) = true |- _ =>
        pose proof (forall_below_spec _ _ H1 j ltac:(lia)) as Hi
    end.
    cbv beta in Hi. rewrite Hf in Hi. exact Hi.
Qed.

Lemma P_unfold (j : Z) :
  P j = if PrimFloat.leb 511.0 (double_of_Z j)
        then (p0_of c w (E j) + z)%float else p0_of c w (E j).
Proof. reflexivity. Qed.

Lemma E_unit (j : Z) : 0 <= j <= 1025 -> in_unit (E j).
Proof.
  intros Hj. destruct row_check_parts as (_ & _ & _ & Hn & _).
  apply erf_in_unit, Hn, Hj.
Qed.

Lemma E_monotone (j : Z) :
  0 <= j <= 1024 -> (F2R (E j) <= F2R (E (j + 1)))%R.
Proof.
  intros Hj. destruct row_check_parts as (_ & _ & _ & _ & Hm & _).
  destruct (E_unit j ltac:(lia)) as [F1 _].
  destruct (E_unit (j + 1) ltac:(lia)) as [F2 _].
  apply leb_F2R; [exact F1|exact F2|]. apply erf_monotone, Hm, Hj.
Qed.

Lemma P_sized (j : Z) : 0 <= j <= 1025 -> cdf_sized (P j).
Proof.
  intros Hj. destruct row_check_parts as (Hc & Hw & Hz & _).
  pose proof (E_unit j Hj) as He.
  destruct (p0_chain c w Hc Hw (E j) He) as
    (A & N & B & _ & _ & _ & _ & Fp & _ & _ & _ & Bp).
  pose proof (p0_lower c w Hc Hw (E j) He) as Hlo.
  destruct (w_facts w Hw) as [_ Bw].
  rewrite P_unfold. destruct (PrimFloat.leb 511.0 (double_of_Z j)).
  - destruct (jump_spec z Hz _ Fp Bp) as (Fs & _ & Bs).
    split; [exact Fs|lra].
  - split; [exact Fp|lra].
Qed.

Lemma P_monotone (j : Z) :
  0 <= j <= 1024 -> (F2R (P j) <= F2R (P (j + 1)))%R.
Proof.
  intros Hj. destruct row_check_parts as (Hc & Hw & Hz & _ & _ & Hflag).
  pose proof (E_unit j ltac:(lia)) as He1.
  pose proof (E_unit (j + 1) ltac:(lia)) as He2.
  pose proof (p0_monotone c w Hc Hw _ _ He1 He2 (E_monotone j Hj)) as Hp.
  destruct (p0_chain c w Hc Hw (E j) He1) as
    (A1 & N1 & B1 & _ & _ & _ & _ & Fp1 & _ & _ & _ & Bp1).
  destruct (p0_chain c w Hc Hw (E (j + 1)) He2) as
    (A2 & N2 & B2 & _ & _ & _ & _ & Fp2 & _ & _ & _ & Bp2).
  specialize (Hflag j Hj). rewrite !P_unfold.
  destruct (PrimFloat.leb 511.0 (double_of_Z j)).
  - rewrite (Hflag eq_refl).
    apply (jump_monotone z Hz); [exact Fp1|exact Fp2|lra|lra].
  - destruct (PrimFloat.leb 511.0 (double_of_Z (j + 1))); [|exact Hp].
    destruct (jump_spec z Hz _ Fp2 Bp2) as (_ & _ & Bs). lra.
Qed.

Lemma P_le_last (n : nat) (j : Z) :
  0 <= j -> j + Z.of_nat n = 1025 -> (F2R (P j) <= F2R (P 1025))%R.
Proof.
  revert j. induction n as [|n IH]; intros j Hj Hn.
  - replace j with 1025 by lia. lra.
  - apply Rle_trans with (F2R (P (j + 1))).
    + apply P_monotone. lia.
    + apply IH; lia.
Qed.

(** The frequency of symbol [j], before [j] is added. *)
Lemma entry_value (j : Z) :
  1 <= j <= 1024 ->
  exists a,
    trunc_double (q_of (P j) (P 1025)) = Some a /\ 0 <= a <= 31742 /\
    ccft_entry erf scale w z (P 1025) j = a + j.
Proof.
  intros Hj.
  pose proof (P_sized j ltac:(lia)) as S1.
  pose proof (P_sized 1025 ltac:(lia)) as Sm.
  pose proof (P_le_last (Z.to_nat (1025 - j)) j ltac:(lia) ltac:(lia)) as Hle.
  destruct (q_range _ _ S1 Sm Hle) as [Fq Bq].
  destruct (trunc_floor _ Fq ltac:(lra)) as (a & Ea & Ha0 & Hfl).
  assert (Ha : a <= 31742).
  { apply le_IZR. lra. }
  exists a. split; [exact Ea|]. split; [lia|].
  unfold ccft_entry. fold (P j). fold frequency_span.
  fold (q_of (P j) (P 1025)).
  unfold double_to_u16, double_to_i32. rewrite Ea.
  replace ((- 2147483648 <=? a) && (a <=? 2147483647))%bool with true
    by (symmetry; apply andb_true_iff; split; apply Z.leb_le; lia).
  rewrite (u16_small a) by lia. apply u16_small. lia.
Qed.

Lemma entry_increasing (j : Z) :
  1 <= j <= 1023 ->
  ccft_entry erf scale w z (P 1025) j
  < ccft_entry erf scale w z (P 1025) (j + 1).
Proof.
  intros Hj.
  destruct (entry_value j ltac:(lia)) as (a & Ea & _ & ->).
  destruct (entry_value (j + 1) ltac:(lia)) as (b & Eb & _ & ->).
  pose proof (P_sized j ltac:(lia)) as S1.
  pose proof (P_sized (j + 1) ltac:(lia)) as S2.
  pose proof (P_sized 1025 ltac:(lia)) as Sm.
  pose proof (q_monotone _ _ _ S1 S2 Sm (P_monotone j ltac:(lia))) as Hq.
  pose proof (P_le_last (Z.to_nat (1025 - j)) j ltac:(lia) ltac:(lia)) as L1.
  pose proof (P_le_last (Z.to_nat (1024 - j)) (j + 1) ltac:(lia) ltac:(lia))
    as L2.
  destruct (q_range _ _ S1 Sm L1) as [F1 B1].
  destruct (q_range _ _ S2 Sm L2) as [F2 B2].
  pose proof (trunc_monotone _ _ a b F1 F2 ltac:(lra) Ea Eb). lia.
Qed.

Lemma row_entry (k : nat) :
  (k < 1024)%nat ->
  nth (S k)
    (0 :: map (ccft_entry erf scale w z (P 1025)) (map Z.of_nat (seq 1 1024))
       ++ [MAX_FREQUENCY]) 0
  = ccft_entry erf scale w z (P 1025) (Z.of_nat (S k)).
Proof.
  intros Hk. cbn [nth].
  rewrite app_nth1 by (rewrite !length_map, length_seq; exact Hk).
  rewrite map_map.
  rewrite (nth_indep _ 0 (ccft_entry erf scale w z (P 1025) (Z.of_nat 0)))
    by (rewrite length_map, length_seq; exact Hk).
  rewrite (map_nth (fun x => ccft_entry erf scale w z (P 1025) (Z.of_nat x))).
  rewrite seq_nth by exact Hk. reflexivity.
Qed.

Lemma row_last :
  nth 1025
    (0 :: map (ccft_entry erf scale w z (P 1025)) (map Z.of_nat (seq 1 1024))
       ++ [MAX_FREQUENCY]) 0
  = MAX_FREQUENCY.
Proof.
  change 1025%nat with (S 1024). cbn [nth].
  rewrite app_nth2 by (rewrite !length_map, length_seq; lia).
  rewrite !length_map, length_seq, Nat.sub_diag. reflexivity.
Qed.

(** The row the loop fills is a cumulative frequency table. *)
Lemma row_built_ok :
  row_ok
    (0 :: map (ccft_entry erf scale w z (P 1025)) (map Z.of_nat (seq 1 1024))
       ++ [MAX_FREQUENCY]).
Proof.
  split; [|split; [|split]].
  - cbn [length]. rewrite length_app, !length_map, length_seq. reflexivity.
  - reflexivity.
  - exact row_last.
  - intros j Hj. destruct j as [|k].
    + rewrite row_entry by lia. cbn [nth].
      destruct (entry_value (Z.of_nat 1) ltac:(lia)) as (a & _ & Ha & ->).
      lia.
    + rewrite row_entry by lia.
      destruct (Nat.eq_dec k 1023) as [->|Hne].
      * rewrite row_last.
        destruct (entry_value (Z.of_nat 1024) ltac:(lia))
          as (a & _ & Ha & ->).
        unfold MAX_FREQUENCY. lia.
      * rewrite row_entry by lia.
        replace (Z.of_nat (S (S k))) with (Z.of_nat (S k) + 1) by lia.
        apply entry_increasing. lia.
Qed.

End Row.

Lemma ccft_fill_row_ok (i : nat) : (i < 4)%nat -> row_ok (ccft_fill_row erf i).
Proof.
  intros Hi. unfold ccft_fill_row.
  exact (row_built_ok _ _ _ (rows_checked i Hi)).
Qed.

Lemma ccft_filled_ok : table_ok (ccft_filled erf).
Proof.
  unfold ccft_filled, table_ok. change (Z.to_nat NUM_DIST) with 4%nat.
  split; [rewrite length_map, length_seq; reflexivity|].
  apply Forall_forall. intros row Hin.
  apply in_map_iff in Hin as (i & <- & Hi).
  apply in_seq in Hi. apply ccft_fill_row_ok. lia.
Qed.

Lemma Model_new_ok : model_ok (Model_new erf).
Proof. apply Model_init_ok, ccft_filled_ok. Qed.

End TableConstruction.




(** * Further properties of the code *)

(** ** The quantizer *)

(** The dequantized sample lies in the bucket of 64 values that quantize
    to the symbol. *)
Lemma dequantize_bucket (u : Z) :
  0 <= u <= 1023 ->
  64 * (u - 512) <= neuralink_10bit_to_16bit u <= 64 * (u - 512) + 63.
Proof.
  intros Hu.
  assert (H : forall_below 1024
                (fun z => (64 * (z - 512) <=? neuralink_10bit_to_16bit z)
                          && (neuralink_10bit_to_16bit z <=? 64 * (z - 512) + 63))
              = true) by (vm_compute; reflexivity).
  pose proof (forall_below_spec 1024 _ H u ltac:(simpl; lia)) as Hb.
  cbv beta in Hb. apply andb_true_iff in Hb as [H1 H2]. lia.
Qed.

Lemma quantize_value (x : Z) :
  is_int16 x -> neuralink_16bit_to_10bit x = x / 64 + 512.
Proof.
  unfold is_int16, neuralink_16bit_to_10bit. intros Hx.
  rewrite Z.shiftr_div_pow2 by lia. change (2 ^ 6) with 64.
  apply u16_small. Z.to_euclidean_division_equations. lia.
Qed.

Lemma requantize_bucket (x : Z) :
  is_int16 x ->
  64 * (x / 64) <= requantize x <= 64 * (x / 64) + 63.
Proof.
  intros Hx. unfold requantize. rewrite (quantize_value x Hx).
  pose proof (dequantize_bucket (x / 64 + 512)) as H.
  unfold is_int16 in Hx.
  replace (x / 64 + 512 - 512) with (x / 64) in H by lia.
  apply H. Z.to_euclidean_division_equations. lia.
Qed.

Lemma requantize_int16 (x : Z) : is_int16 x -> is_int16 (requantize x).
Proof.
  intros Hx. pose proof (requantize_bucket x Hx) as H.
  unfold is_int16 in *. Z.to_euclidean_division_equations. lia.
Qed.

Lemma requantize_symbol (x : Z) :
  is_int16 x ->
  neuralink_16bit_to_10bit (requantize x) = neuralink_16bit_to_10bit x.
Proof.
  intros Hx. pose proof (requantize_bucket x Hx) as H.
  rewrite (quantize_value x Hx),
    (quantize_value _ (requantize_int16 x Hx)).
  f_equal. unfold is_int16 in Hx.
  Z.to_euclidean_division_equations. lia.
Qed.

(** X1: what the 16-bit to 10-bit to 16-bit conversion loses: for every
    signed 16-bit sample x the sample that comes back differs from x by at
    most 63, is again a signed 16-bit value and has the same 10-bit
    symbol. *)
Theorem requantize_error (x : Z) :
  is_int16 x ->
  - 63 <= requantize x - x <= 63 /\
  is_int16 (requantize x) /\
  neuralink_16bit_to_10bit (requantize x) = neuralink_16bit_to_10bit x.
Proof.
  intros Hx. split; [|split].
  - pose proof (requantize_bucket x Hx) as H. unfold is_int16 in Hx.
    Z.to_euclidean_division_equations. lia.
  - exact (requantize_int16 x Hx).
  - exact (requantize_symbol x Hx).
Qed.

Lemma requantize_error_witness :
  is_int16 0 /\ - 63 <= requantize 0 - 0 <= 63.
Proof.
  assert (H : is_int16 0) by (unfold is_int16; lia).
  split; [exact H|exact (proj1 (requantize_error 0 H))].
Defined.

Lemma requantize_twice (x : Z) :
  is_int16 x -> requantize (requantize x) = requantize x.
Proof.
  intros Hx. unfold requantize at 1.
  rewrite (requantize_symbol x Hx). reflexivity.
Qed.

(** X2: both conversions keep the order of their arguments: for signed
    16-bit samples x <= y the symbols and the samples that come back are
    ordered the same way, and the extreme samples -32768 and 32767 come
    back unchanged. *)
Theorem requantize_monotone (x y : Z) :
  is_int16 x -> is_int16 y -> x <= y ->
  neuralink_16bit_to_10bit x <= neuralink_16bit_to_10bit y /\
  requantize x <= requantize y /\
  requantize (- 32768) = - 32768 /\ requantize 32767 = 32767.
Proof.
  intros Hx Hy Hxy.
  assert (Hq : x / 64 <= y / 64) by (apply Z.div_le_mono; lia).
  split; [rewrite (quantize_value x Hx), (quantize_value y Hy); lia|].
  split; [|split; vm_compute; reflexivity].
  destruct (Z.eq_dec (x / 64) (y / 64)) as [He|Hne].
  - unfold requantize.
    rewrite (quantize_value x Hx), (quantize_value y Hy), He. lia.
  - pose proof (requantize_bucket x Hx). pose proof (requantize_bucket y Hy).
    lia.
Qed.

Lemma requantize_monotone_witness :
  (is_int16 (- 100) /\ is_int16 4000 /\ - 100 <= 4000) /\
  requantize (- 100) <= requantize 4000.
Proof.
  assert (H1 : is_int16 (- 100)) by (unfold is_int16; lia).
  assert (H2 : is_int16 4000) by (unfold is_int16; lia).
  assert (H3 : - 100 <= 4000) by lia.
  split; [split; [exact H1|split; [exact H2|exact H3]]|].
  exact (proj1 (proj2 (requantize_monotone (- 100) 4000 H1 H2 H3))).
Defined.

(** X3: a symbol written as a sample and read back is the symbol: for
    every symbol u in [0, 1023], [neuralink_read_symbol_from_stream] on the
    two bytes [neuralink_write_symbol_to_stream] wrote returns u and
    leaves the rest of the stream. *)
Theorem write_then_read_symbol (u : Z) (rest : list Z) :
  0 <= u <= 1023 ->
  neuralink_read_symbol_from_stream
    {| avail := neuralink_write_symbol_to_stream [] u ++ rest; good := true |}
  = (Some u, {| avail := rest; good := true |}).
Proof.
  intros Hu. pose proof (dequantize_bucket u Hu) as Hb.
  assert (Hi : is_int16 (neuralink_10bit_to_16bit u))
    by (unfold is_int16; lia).
  change (neuralink_write_symbol_to_stream [] u)
    with (le16 (neuralink_10bit_to_16bit u)).
  rewrite (read_symbol_sample _ rest Hi), (quantize_value _ Hi).
  do 2 f_equal. Z.to_euclidean_division_equations. lia.
Qed.

Lemma write_then_read_symbol_witness :
  0 <= 700 <= 1023 /\
  neuralink_read_symbol_from_stream
    {| avail := neuralink_write_symbol_to_stream [] 700 ++ [1; 2];
       good := true |}
  = (Some 700, {| avail := [1; 2]; good := true |}).
Proof.
  split; [lia|]. apply (write_then_read_symbol 700 [1; 2]). lia.
Defined.

(** ** The stream functions on other inputs *)

Lemma requantized_symbols (samples : list Z) :
  Forall is_int16 samples ->
  map neuralink_16bit_to_10bit (map requantize samples)
  = map neuralink_16bit_to_10bit samples.
Proof.
  induction 1 as [|x rest Hx _ IH]; [reflexivity|].
  cbn [map]. rewrite IH, (requantize_symbol x Hx). reflexivity.
Qed.

Lemma requantized_int16 (samples : list Z) :
  Forall is_int16 samples -> Forall is_int16 (map requantize samples).
Proof.
  intros H. apply Forall_map. eapply Forall_impl; [|exact H].
  intros x Hx. exact (requantize_int16 x Hx).
Qed.

(** [encodeStream] sees the samples through their symbols only. *)
Lemma encodeStream_by_symbols (table : list (list Z))
    (header s1 s2 : list Z) :
  length header = 44%nat -> Forall is_int16 s1 -> Forall is_int16 s2 ->
  map neuralink_16bit_to_10bit s1 = map neuralink_16bit_to_10bit s2 ->
  encodeStream table (header ++ flat_map le16 s1)
  = encodeStream table (header ++ flat_map le16 s2).
Proof.
  intros Hl H1 H2 Heq. unfold encodeStream.
  rewrite !read_wav_header_full by exact Hl.
  destruct (neuralink_check_wav_header header); try reflexivity.
  destruct (write_wav_header [] header) as [out| |]; try reflexivity.
  rewrite !encode_payload_message by assumption.
  rewrite Heq. reflexivity.
Qed.

(** X4: the loss happens once.  For a valid header and signed 16-bit
    samples, let [decoded] be what [decodeStream] returns on the output of
    [encodeStream] when its uninitialized [b] holds 0 or 1 at every entry;
    encoding [decoded] gives the same compressed bytes again, so that
    decoding them gives [decoded] itself. *)
Theorem second_generation_is_lossless (table : list (list Z))
    (header samples : list Z) (fuel : nat) (junk : nat -> Z) :
  table_ok table -> wav_header_ok header -> Forall is_int16 samples ->
  (length samples < fuel)%nat -> bit_junk junk ->
  exists out decoded,
    encodeStream table (header ++ flat_map le16 samples) = Ok out /\
    decodeStream table fuel junk out = Ok decoded /\
    encodeStream table decoded = Ok out.
Proof.
  intros Ht Hh Hs Hfuel Hj.
  destruct (stream_roundtrip table header samples Ht Hh Hs) as
    (e & bs & payload & _ & _ & _ & Henc & Hdec).
  destruct (Hdec fuel junk Hj Hfuel) as [Hd _].
  exists (header ++ payload),
         (header ++ flat_map le16 (map requantize samples)).
  split; [exact Henc|]. split; [exact Hd|].
  transitivity (encodeStream table (header ++ flat_map le16 samples));
    [|exact Henc].
  destruct Hh as (Hl & _).
  apply encodeStream_by_symbols;
    [exact Hl|apply requantized_int16, Hs|exact Hs|].
  apply requantized_symbols, Hs.
Qed.

Lemma second_generation_is_lossless_witness :
  (table_ok linear_table /\ wav_header_ok mono16_header /\
   Forall is_int16 [0; 1000; -77] /\ (length [0; 1000; -77]%Z < 4)%nat /\
   bit_junk (fun _ => 0)) /\
  exists out decoded,
    encodeStream linear_table (mono16_header ++ flat_map le16 [0; 1000; -77])
    = Ok out /\
    decodeStream linear_table 4 (fun _ => 0) out = Ok decoded /\
    encodeStream linear_table decoded = Ok out.
Proof.
  assert (H1 : Forall is_int16 [0; 1000; -77])
    by (repeat constructor; unfold is_int16; lia).
  assert (H2 : (length [0; 1000; -77]%Z < 4)%nat) by (simpl; lia).
  split.
  { split; [exact linear_table_ok|]. split; [exact mono16_header_ok|].
    split; [exact H1|]. split; [exact H2|exact bit_junk_zero]. }
  destruct (second_generation_is_lossless linear_table mono16_header
              [0; 1000; -77] 4%nat (fun _ => 0) linear_table_ok
              mono16_header_ok H1 H2 bit_junk_zero)
    as (out & decoded & E1 & E2 & E3).
  exists out, decoded. split; [exact E1|]. split; [exact E2|exact E3].
Defined.

(** Reading samples when fewer than two bytes follow the last one. *)
Lemma encode_samples_symbols_tail (samples tail : list Z) :
  (length tail < 2)%nat ->
  forall (fuel : nat) (e : ArithmeticEncoder.t) (bs : OBitStream.t),
  Forall is_int16 samples -> (length samples < fuel)%nat ->
  encode_samples fuel
    {| avail := flat_map le16 samples ++ tail; good := true |} e bs
  = match encode_symbols (map neuralink_16bit_to_10bit samples) e bs with
    | Some (e', bs') => Some ({| avail := []; good := false |}, e', bs')
    | None => None
    end.
Proof.
  intros Ht.
  induction samples as [|x rest IH]; intros fuel e bs Hs Hfuel;
    (destruct fuel as [|fuel]; [simpl in Hfuel; lia|]).
  - cbn [flat_map app encode_samples map encode_symbols].
    destruct tail as [|b [|b2 tail]]; [reflexivity|reflexivity|].
    cbn [length] in Ht. lia.
  - inversion Hs as [|? ? Hx Hrest]; subst.
    cbn [encode_samples flat_map map encode_symbols].
    rewrite <- app_assoc, read_symbol_sample by exact Hx.
    destruct (ArithmeticEncoder.encode (neuralink_16bit_to_10bit x) e bs)
      as [[e1 bs1]|]; [|reflexivity].
    apply IH; [exact Hrest|simpl in Hfuel; lia].
Qed.

(** X5: a last byte that has no partner is dropped: with a 44-byte
    header, [encodeStream] returns for the samples followed by one more
    byte what it returns for the samples alone. *)
Theorem odd_last_byte_is_dropped (table : list (list Z))
    (header samples : list Z) (b : Z) :
  length header = 44%nat -> Forall is_int16 samples ->
  encodeStream table (header ++ flat_map le16 samples ++ [b])
  = encodeStream table (header ++ flat_map le16 samples).
Proof.
  intros Hl Hs. unfold encodeStream.
  rewrite !read_wav_header_full by exact Hl.
  destruct (neuralink_check_wav_header header); try reflexivity.
  destruct (write_wav_header [] header) as [out| |]; try reflexivity.
  rewrite encode_payload_message by exact Hs.
  unfold encode_payload at 1. cbn [avail].
  rewrite (encode_samples_symbols_tail samples [b]);
    [|simpl; lia|exact Hs
     |rewrite length_app, flat_map_le16_length; simpl; lia].
  unfold encode_message.
  destruct (encode_symbols (map neuralink_16bit_to_10bit samples)
              (ArithmeticEncoder.new table) (OBitStream.new out))
    as [[e1 bs1]|]; [|reflexivity].
  destruct (ArithmeticEncoder.encode (NUM_SYMBOLS - 1) e1 bs1)
    as [[e2 bs2]|]; [|reflexivity].
  destruct (ArithmeticEncoder.flush e2 bs2) as [e3 bs3]. reflexivity.
Qed.

Lemma odd_last_byte_is_dropped_witness :
  (length mono16_header = 44%nat /\ Forall is_int16 fixed_samples) /\
  encodeStream linear_table
    (mono16_header ++ flat_map le16 fixed_samples ++ [200])
  = encodeStream linear_table (mono16_header ++ flat_map le16 fixed_samples).
Proof.
  assert (H1 : length mono16_header = 44%nat) by reflexivity.
  assert (H2 : Forall is_int16 fixed_samples)
    by (repeat constructor; unfold is_int16; lia).
  split; [split; [exact H1|exact H2]|].
  exact (odd_last_byte_is_dropped linear_table mono16_header fixed_samples
           200 H1 H2).
Defined.

(** X6: a header of 44 bytes whose channel count is not 1 or whose sample
    width is not 16 makes both [encodeStream] and [decodeStream] throw
    "Unsupported WAV format ...", whatever follows the header. *)
Theorem wrong_format_throws (table : list (list Z)) (header rest : list Z)
    (fuel : nat) (junk : nat -> Z) :
  length header = 44%nat ->
  nth 22 header 0 + 256 * nth 23 header 0 <> 1
  \/ nth 34 header 0 + 256 * nth 35 header 0 <> 16 ->
  encodeStream table (header ++ rest)
  = Throw "Unsupported WAV format, we only support 16 bit mono WAV data"
  /\ decodeStream table fuel junk (header ++ rest)
     = Throw "Unsupported WAV format, we only support 16 bit mono WAV data".
Proof.
  intros Hl Hbad. apply bad_format_is_rejected.
  unfold header_read. rewrite read_wav_header_full by exact Hl.
  exact Hbad.
Qed.

(** A stereo header. *)
Definition stereo16_header : list Z :=
  firstn 22 mono16_header ++ [2] ++ skipn 23 mono16_header.

Lemma wrong_format_throws_witness :
  (length stereo16_header = 44%nat /\
   (nth 22 stereo16_header 0 + 256 * nth 23 stereo16_header 0 <> 1
    \/ nth 34 stereo16_header 0 + 256 * nth 35 stereo16_header 0 <> 16)) /\
  encodeStream linear_table (stereo16_header ++ [1; 2; 3; 4])
  = Throw "Unsupported WAV format, we only support 16 bit mono WAV data".
Proof.
  assert (H1 : length stereo16_header = 44%nat) by reflexivity.
  assert (H2 : nth 22 stereo16_header 0 + 256 * nth 23 stereo16_header 0 <> 1
               \/ nth 34 stereo16_header 0 + 256 * nth 35 stereo16_header 0
                  <> 16) by (left; vm_compute; discriminate).
  split; [split; [exact H1|exact H2]|].
  exact (proj1 (wrong_format_throws linear_table stereo16_header [1; 2; 3; 4]
                  0%nat (fun _ => 0) H1 H2)).
Defined.

(** The decoder on the encoder's bytes followed by any others. *)
Lemma coder_roundtrip_trailing (table : list (list Z)) (out : ostream)
    (symbols : list Z) :
  table_ok table ->
  Forall (fun s => 0 <= s < NUM_SYMBOLS - 1) symbols ->
  exists e bs payload,
    encode_message symbols (ArithmeticEncoder.new table) (OBitStream.new out)
    = Some (e, bs) /\
    OBitStream.outputStream (OBitStream.flush bs) = out ++ payload /\
    OBitStream.flush (OBitStream.flush bs) = OBitStream.flush bs /\
    forall (trailing : list Z) (fuel : nat) (junk : nat -> Z)
           (out' : ostream),
      bit_junk junk -> (length symbols < fuel)%nat ->
      let (d0, ibs0) :=
        ArithmeticDecoder.init (junk O) (ArithmeticDecoder.new table)
          (IBitStream.new {| avail := payload ++ trailing; good := true |}) in
      exists d ibs,
        decode_symbols fuel junk 1 d0 ibs0 out'
        = Ok (d, ibs, fold_left neuralink_write_symbol_to_stream symbols out').
Proof.
  intros Ht Hsyms.
  destruct (message_roundtrip (length out) symbols
              (ArithmeticEncoder.new table) (OBitStream.new out)
              (encoder_new_inv table) (Model_init_ok table Ht)
              (obs_inv_new out) Hsyms (shifts_ok_from_init table _ Hsyms)) as
    (e & bs & F & E & P1 & P2 & P3 & P4 & _ & _ & HF & Hdec).
  rewrite obs_bits_new in P2. cbn [app] in P2.
  destruct (obs_stream_flush (length out) bs P1) as (pad & Q1 & Q2 & Q3).
  rewrite P2 in Q1.
  assert (Hout : OBitStream.outputStream (OBitStream.flush bs)
                 = out ++ skipn (length out)
                            (OBitStream.outputStream (OBitStream.flush bs))).
  { rewrite <- (firstn_skipn (length out)
                  (OBitStream.outputStream (OBitStream.flush bs))) at 1.
    rewrite Q2, P3. cbn [OBitStream.new OBitStream.outputStream].
    rewrite firstn_all. reflexivity. }
  set (payload := skipn (length out)
                    (OBitStream.outputStream (OBitStream.flush bs))) in *.
  exists e, bs, payload. split; [exact E|].
  split; [exact Hout|]. split; [exact Q3|].
  intros trailing fuel junk out' Hj Hfuel.
  destruct (ibs_new_bits (payload ++ trailing)) as (I1 & I2).
  rewrite (bit_junk_b2z junk O Hj).
  destruct (init_window (junk O =? 1) (ArithmeticDecoder.new table)
              (IBitStream.new {| avail := payload ++ trailing; good := true |})
              F I1)
    as (d0 & ibs0 & W & E0 & S0 & Hinv0 & HW & HM).
  { rewrite I2, flat_map_app, Q1, <- app_assoc.
    exists (repeat false pad ++ flat_map byte_bits trailing). reflexivity. }
  rewrite E0.
  destruct (Hdec fuel junk 1%nat d0 ibs0 W out' Hj Hfuel) as [Hok _];
    try assumption.
  destruct Hok as (d & ibs & D1 & _). exists d, ibs. exact D1.
Qed.

(** X7: [decodeStream] stops at the stop symbol: for a valid header and
    signed 16-bit samples, when its uninitialized [b] holds 0 or 1 at
    every entry it returns on the output of [encodeStream] followed by any
    further bytes what it returns on that output alone, the header and the
    requantized samples. *)
Theorem trailing_bytes_are_ignored (table : list (list Z))
    (header samples trailing : list Z) (fuel : nat) (junk : nat -> Z) :
  table_ok table -> wav_header_ok header -> Forall is_int16 samples ->
  (length samples < fuel)%nat -> bit_junk junk ->
  exists out,
    encodeStream table (header ++ flat_map le16 samples) = Ok out /\
    decodeStream table fuel junk (out ++ trailing)
    = Ok (header ++ flat_map le16 (map requantize samples)).
Proof.
  intros Ht Hh Hs Hfuel Hj. pose proof Hh as (Hl & _).
  pose proof (quantized_symbols samples Hs) as Hsym.
  destruct (coder_roundtrip_trailing table header _ Ht Hsym) as
    (e & bs & payload & E & Hout & Hfl & Hdec).
  exists (header ++ payload). split.
  - unfold encodeStream. rewrite read_wav_header_full by exact Hl.
    rewrite check_wav_header_ok by exact Hh.
    rewrite write_wav_header_ok by exact Hl. cbn [app].
    rewrite encode_payload_message by exact Hs.
    rewrite E, Hfl, Hout. reflexivity.
  - specialize (Hdec trailing fuel junk header Hj).
    rewrite length_map in Hdec. specialize (Hdec Hfuel).
    unfold decodeStream. rewrite <- app_assoc.
    rewrite read_wav_header_full by exact Hl.
    rewrite check_wav_header_ok by exact Hh.
    rewrite write_wav_header_ok by exact Hl. cbn [app].
    destruct (ArithmeticDecoder.init (junk O) (ArithmeticDecoder.new table)
                (IBitStream.new
                   {| avail := payload ++ trailing; good := true |}))
      as [d0 ibs0].
    destruct Hdec as (d & ibs & D1). rewrite D1.
    rewrite write_symbols_bytes, written_samples. reflexivity.
Qed.

Lemma trailing_bytes_are_ignored_witness :
  (table_ok linear_table /\ wav_header_ok mono16_header /\
   Forall is_int16 fixed_samples /\ (length fixed_samples < 3)%nat /\
   bit_junk (fun _ => 0)) /\
  exists out,
    encodeStream linear_table (mono16_header ++ flat_map le16 fixed_samples)
    = Ok out /\
    decodeStream linear_table 3 (fun _ => 0) (out ++ [255; 0; 255])
    = Ok (mono16_header ++ flat_map le16 (map requantize fixed_samples)).
Proof.
  assert (H1 : Forall is_int16 fixed_samples)
    by (repeat constructor; unfold is_int16; lia).
  assert (H2 : (length fixed_samples < 3)%nat) by (simpl; lia).
  split.
  { split; [exact linear_table_ok|]. split; [exact mono16_header_ok|].
    split; [exact H1|]. split; [exact H2|exact bit_junk_zero]. }
  exact (trailing_bytes_are_ignored linear_table mono16_header fixed_samples
           [255; 0; 255] 3%nat (fun _ => 0) linear_table_ok
           mono16_header_ok H1 H2 bit_junk_zero).
Defined.

(** The sample loop of [encodeStream] returns on every stream, and leaves
    what was written before it alone. *)
Lemma encode_samples_total (hdr : nat) (fuel : nat) :
  forall (input : istream) (e : ArithmeticEncoder.t) (bs : OBitStream.t),
  (length (avail input) < fuel)%nat ->
  coder_inv (ArithmeticEncoder.low e) (ArithmeticEncoder.high e) ->
  model_ok (ArithmeticEncoder.model e) ->
  obs_inv hdr bs ->
  exists input' e' bs',
    encode_samples fuel input e bs = Some (input', e', bs') /\
    coder_inv (ArithmeticEncoder.low e') (ArithmeticEncoder.high e') /\
    model_ok (ArithmeticEncoder.model e') /\
    obs_inv hdr bs' /\
    firstn hdr (OBitStream.outputStream bs')
    = firstn hdr (OBitStream.outputStream bs).
Proof.
  induction fuel as [|fuel IH]; intros input e bs Hfuel Hr Hm Hobs; [lia|].
  cbn [encode_samples].
  unfold neuralink_read_symbol_from_stream, istream_read.
  destruct input as [av gd]. cbn [avail good] in *.
  destruct gd; cbn [good]; [|eauto 10].
  destruct (Nat.leb_spec 2 (length av)) as [Hlen|Hlen]; cbn [good];
    [|eauto 10].
  set (symbol := neuralink_16bit_to_10bit
                   (s16 (nth 0 (firstn 2 av) 0 + 256 * nth 1 (firstn 2 av) 0))).
  destruct (encode_spec hdr symbol e bs Hr Hm) as
    (e1 & bs1 & n & F & E & _ & _ & Hr1 & Hm1 & Hobs1).
  rewrite E. destruct (Hobs1 Hobs) as (O1 & _ & O3).
  destruct (IH {| avail := skipn 2 av; good := true |}
              (ArithmeticEncoder.set_model e1
                 (update_state (ArithmeticEncoder.model e1) symbol)) bs1)
    as (input' & e' & bs' & E' & Hr' & Hm' & O' & F').
  - cbn [avail]. rewrite length_skipn. lia.
  - exact Hr1.
  - cbn [ArithmeticEncoder.set_model ArithmeticEncoder.model].
    rewrite Hm1. apply update_state_ok, Hm.
  - exact O1.
  - exists input', e', bs'. split; [exact E'|].
    split; [exact Hr'|]. split; [exact Hm'|]. split; [exact O'|].
    rewrite F'. exact O3.
Qed.

(** X8: after a valid header nothing is an error.  For a table with the
    table invariants and a valid 44-byte header, [encodeStream] returns
    normally on every input, with the header as the first 44 bytes of its
    output, and [decodeStream] throws on no input: a payload that was
    damaged or cut short is not detected. *)
Theorem valid_header_never_fails (table : list (list Z))
    (header rest : list Z) (fuel : nat) (junk : nat -> Z)
    (what : string) :
  table_ok table -> wav_header_ok header ->
  (exists payload,
     encodeStream table (header ++ rest) = Ok (header ++ payload)) /\
  decodeStream table fuel junk (header ++ rest) <> Throw what.
Proof.
  intros Ht Hh. pose proof Hh as (Hl & _). split.
  - unfold encodeStream. rewrite read_wav_header_full by exact Hl.
    rewrite check_wav_header_ok by exact Hh.
    rewrite write_wav_header_ok by exact Hl. cbn [app].
    unfold encode_payload.
    destruct (encode_samples_total (length header)
                (S (length (avail {| avail := rest; good := true |})))
                {| avail := rest; good := true |}
                (ArithmeticEncoder.new table) (OBitStream.new header)
                ltac:(lia) (encoder_new_inv table) (Model_init_ok table Ht)
                (obs_inv_new header)) as
      (input' & e1 & bs1 & E1 & Hr1 & Hm1 & O1 & F1).
    rewrite E1.
    destruct (encode_spec (length header) (NUM_SYMBOLS - 1) e1 bs1 Hr1 Hm1)
      as (e2 & bs2 & n & F & E2 & _ & _ & _ & _ & Hobs2).
    rewrite E2. destruct (Hobs2 O1) as (O2 & _ & F2).
    destruct (obs_flush (length header) e2 bs2 O2) as (O3 & _ & F3 & _).
    destruct (ArithmeticEncoder.flush e2 bs2) as [e3 bs3].
    cbn [snd] in O3, F3.
    destruct (obs_stream_flush (length header) bs3 O3) as (pad & _ & F4 & I4).
    rewrite I4.
    exists (skipn (length header)
              (OBitStream.outputStream (OBitStream.flush bs3))).
    f_equal.
    rewrite <- (firstn_skipn (length header)
                  (OBitStream.outputStream (OBitStream.flush bs3))) at 1.
    f_equal. rewrite F4, F3, F2, F1.
    cbn [OBitStream.new OBitStream.outputStream]. apply firstn_all.
  - unfold decodeStream. rewrite read_wav_header_full by exact Hl.
    rewrite check_wav_header_ok by exact Hh.
    rewrite write_wav_header_ok by exact Hl. cbn [app].
    destruct (ArithmeticDecoder.init (junk O) (ArithmeticDecoder.new table)
                (IBitStream.new {| avail := rest; good := true |}))
      as [d0 ibs0].
    pose proof (decode_symbols_never_throws fuel junk 1 d0 ibs0 header what)
      as Hn.
    destruct (decode_symbols fuel junk 1 d0 ibs0 header)
      as [[[d ibs] o]|w|]; [discriminate| |discriminate].
    intros H. apply Hn. injection H as ->. reflexivity.
Qed.

Lemma valid_header_never_fails_witness :
  (table_ok linear_table /\ wav_header_ok mono16_header) /\
  exists payload,
    encodeStream linear_table (mono16_header ++ [9; 8; 7])
    = Ok (mono16_header ++ payload).
Proof.
  split; [split; [exact linear_table_ok|exact mono16_header_ok]|].
  exact (proj1 (valid_header_never_fails linear_table mono16_header [9; 8; 7]
                  0%nat (fun _ => 0) EmptyString linear_table_ok
                  mono16_header_ok)).
Defined.

(** ** The bit streams *)

(** A sequence of [put] calls. *)
Definition put_bits (bits : list bool) (s : OBitStream.t) : OBitStream.t :=
  fold_left (fun s b => OBitStream.put b s) bits s.

(** Up to [n] calls of [get], stopping at the first that returns [false]. *)
Fixpoint get_bits (n : nat) (s : IBitStream.t) : list bool * IBitStream.t :=
  match n with
  | O => ([], s)
  | S k =>
      match IBitStream.get s with
      | (Some b, s') => let (l, s'') := get_bits k s' in (b :: l, s'')
      | (None, s') => ([], s')
      end
  end.

Lemma obs_put_bits (hdr : nat) (bits : list bool) :
  forall s : OBitStream.t,
  obs_inv hdr s ->
  obs_inv hdr (put_bits bits s) /\
  obs_bits hdr (put_bits bits s) = obs_bits hdr s ++ bits /\
  firstn hdr (OBitStream.outputStream (put_bits bits s))
  = firstn hdr (OBitStream.outputStream s).
Proof.
  induction bits as [|b rest IH]; intros s Hs; cbn [put_bits fold_left].
  - rewrite app_nil_r. auto.
  - destruct (obs_put hdr b s Hs) as (H1 & H2 & H3).
    destruct (IH (OBitStream.put b s) H1) as (I1 & I2 & I3).
    unfold put_bits in *. split; [exact I1|]. split.
    + rewrite I2, H2, <- app_assoc. reflexivity.
    + rewrite I3. exact H3.
Qed.

Lemma obs_stream_flush_pad (hdr : nat) (bs : OBitStream.t) :
  obs_inv hdr bs ->
  exists pad,
    (pad < 8)%nat /\
    flat_map byte_bits
      (skipn hdr (OBitStream.outputStream (OBitStream.flush bs)))
    = obs_bits hdr bs ++ repeat false pad /\
    firstn hdr (OBitStream.outputStream (OBitStream.flush bs))
    = firstn hdr (OBitStream.outputStream bs).
Proof.
  intros (Hpos & Hbuf & Hlen). unfold OBitStream.flush, obs_bits.
  destruct bs as [out buf pos]; cbn [OBitStream.outputStream
    OBitStream.outputBuffer OBitStream.outputBufferPos] in *.
  destruct (Z.gtb_spec pos 0) as [Hgt|Hle];
    cbn [OBitStream.outputStream OBitStream.outputBuffer
         OBitStream.outputBufferPos].
  - exists (Z.to_nat (8 - pos)). split; [lia|]. split.
    + rewrite skipn_snoc, flat_map_snoc by lia.
      rewrite <- app_assoc. f_equal.
      unfold byte_bits, u8. change 256 with (2 ^ Z.of_nat 8).
      rewrite low_bits_mod by lia.
      rewrite Z.shiftl_mul_pow2 by lia.
      replace (8 - pos) with (Z.of_nat (Z.to_nat (8 - pos))) at 1 by lia.
      replace 8%nat with (Z.to_nat (8 - pos) + Z.to_nat pos)%nat by lia.
      apply low_bits_shift.
    + apply firstn_snoc. lia.
  - exists O. split; [lia|]. replace pos with 0 by lia.
    change (Z.to_nat 0) with O. cbn [low_bits repeat].
    rewrite !app_nil_r. split; reflexivity.
Qed.

Lemma flat_map_byte_bits_length (l : list Z) :
  length (flat_map byte_bits l) = (8 * length l)%nat.
Proof.
  induction l as [|x l IH]; [reflexivity|].
  cbn [flat_map]. rewrite length_app, IH. unfold byte_bits.
  rewrite low_bits_length. cbn [length]. lia.
Qed.

Lemma put_bits_flushed (out : ostream) (bits : list bool) :
  exists payload pad,
    OBitStream.outputStream
      (OBitStream.flush (put_bits bits (OBitStream.new out)))
    = out ++ payload /\
    flat_map byte_bits payload = bits ++ repeat false pad /\
    (pad < 8)%nat.
Proof.
  destruct (obs_put_bits (length out) bits (OBitStream.new out)
              (obs_inv_new out)) as (H1 & H2 & H3).
  rewrite obs_bits_new in H2. cbn [app] in H2.
  destruct (obs_stream_flush_pad (length out) _ H1) as (pad & Hp & Q1 & Q2).
  set (s := OBitStream.flush (put_bits bits (OBitStream.new out))) in *.
  exists (skipn (length out) (OBitStream.outputStream s)), pad.
  split; [|split; [rewrite Q1, H2; reflexivity|exact Hp]].
  rewrite <- (firstn_skipn (length out) (OBitStream.outputStream s)) at 1.
  f_equal. rewrite Q2, H3. cbn [OBitStream.new OBitStream.outputStream].
  apply firstn_all.
Qed.

(** X9: what [OBitStream] writes.  After any sequence of [put] calls on a
    new bit stream and a [flush], the stream has received whole bytes
    only: their bits, most significant first, are the bits put, in order,
    followed by fewer than eight 0 bits; so n bits make (n + 7) / 8
    bytes, and what was in the output before is untouched. *)
Theorem put_then_flush_writes_bytes (out : ostream) (bits : list bool) :
  exists payload pad,
    OBitStream.outputStream
      (OBitStream.flush (put_bits bits (OBitStream.new out)))
    = out ++ payload /\
    flat_map byte_bits payload = bits ++ repeat false pad /\
    (pad < 8)%nat /\
    Z.of_nat (length payload) = (Z.of_nat (length bits) + 7) / 8.
Proof.
  destruct (put_bits_flushed out bits) as (payload & pad & H1 & H2 & H3).
  exists payload, pad. repeat (split; [assumption|]).
  apply (f_equal (@length bool)) in H2.
  rewrite flat_map_byte_bits_length, length_app, repeat_length in H2.
  Z.to_euclidean_division_equations. lia.
Qed.

Lemma get_bits_spec (n : nat) :
  forall s : IBitStream.t,
  ibs_inv s ->
  fst (get_bits n s) = firstn n (ibs_bits s) /\
  ibs_inv (snd (get_bits n s)) /\
  ibs_bits (snd (get_bits n s)) = skipn n (ibs_bits s).
Proof.
  induction n as [|n IH]; intros s Hs; cbn [get_bits].
  - cbn [fst snd firstn skipn]. auto.
  - pose proof (ibs_get s Hs) as G.
    destruct (ibs_bits s) as [|x rest] eqn:Eb.
    + destruct G as (s' & G1 & G2 & G3). rewrite G1.
      cbn [fst snd firstn skipn]. auto.
    + destruct G as (s' & G1 & G2 & G3). rewrite G1.
      destruct (IH s' G2) as (I1 & I2 & I3).
      destruct (get_bits n s') as [l s'']. cbn [fst snd] in *.
      rewrite G3 in I1, I3. cbn [firstn skipn].
      split; [rewrite I1; reflexivity|]. split; assumption.
Qed.

(** X10: what [IBitStream] reads.  Up to n calls of [get] on a new bit
    stream over the bytes of an input return the first n bits of those
    bytes, most significant bit of each byte first; when the input has
    fewer than n bits they return all of them and the next call returns
    [false]. *)
Theorem get_reads_bytes_msb_first (input : list Z) (n : nat) :
  let s := IBitStream.new {| avail := input; good := true |} in
  fst (get_bits n s) = firstn n (flat_map byte_bits input) /\
  ((8 * length input <= n)%nat ->
   fst (get_bits n s) = flat_map byte_bits input /\
   fst (IBitStream.get (snd (get_bits n s))) = None).
Proof.
  intros s. destruct (ibs_new_bits input) as (I1 & I2). fold s in I1, I2.
  destruct (get_bits_spec n s I1) as (G1 & G2 & G3).
  rewrite I2 in G1, G3. split; [exact G1|].
  intros Hn. split.
  - rewrite G1. apply firstn_all2. rewrite flat_map_byte_bits_length. exact Hn.
  - pose proof (ibs_get _ G2) as G. rewrite G3 in G.
    rewrite skipn_all2 in G
      by (rewrite flat_map_byte_bits_length; exact Hn).
    destruct G as (s' & E & _). rewrite E. reflexivity.
Qed.

(** X11: the two bit streams fit: the bits put into an [OBitStream] and
    flushed are the bits an [IBitStream] over the bytes written gets, in
    the same order. *)
Theorem bits_put_are_bits_got (bits : list bool) :
  let written :=
    OBitStream.outputStream
      (OBitStream.flush (put_bits bits (OBitStream.new []))) in
  fst (get_bits (length bits)
         (IBitStream.new {| avail := written; good := true |}))
  = bits.
Proof.
  intros written.
  destruct (put_bits_flushed [] bits) as (payload & pad & H1 & H2 & _).
  cbn [app] in H1. fold written in H1. rewrite H1.
  destruct (ibs_new_bits payload) as (I1 & I2).
  destruct (get_bits_spec (length bits) _ I1) as (G1 & _).
  rewrite G1, I2, H2, firstn_app, Nat.sub_diag, firstn_all.
  cbn [firstn]. apply app_nil_r.
Qed.

(** ** The range functions *)

(** X12: for a coder range [l, h] that satisfies the coder invariant and a
    value v inside it, [backward_value] returns a frequency below
    MAX_FREQUENCY, and that frequency lies in [sl, sh) exactly when v lies
    in the range [forward_range] narrows [l, h] to for [sl, sh): the
    decoder's scaled value finds the interval the encoder narrowed to. *)
Theorem backward_value_inverts_forward_range (v l h sl sh : Z) :
  coder_inv l h -> l <= v <= h ->
  0 <= sl -> sl < sh -> sh <= MAX_FREQUENCY ->
  0 <= backward_value v l h < MAX_FREQUENCY /\
  (sl <= backward_value v l h < sh <->
   fst (forward_range l h sl sh) <= v <= snd (forward_range l h sl sh)).
Proof.
  intros Hr Hv Hsl Hlt Hsh. split.
  - apply backward_value_range; assumption.
  - apply scaled_in_interval_iff; assumption.
Qed.

Lemma backward_value_inverts_forward_range_witness :
  coder_inv 0 MAX_CODE /\
  forward_range 0 MAX_CODE 100 200 = (400, 799) /\
  100 <= backward_value 400 0 MAX_CODE /\
  backward_value 799 0 MAX_CODE < 200.
Proof.
  assert (Hr : coder_inv 0 MAX_CODE)
    by (unfold coder_inv, MAX_CODE, Int25; lia).
  split; [exact Hr|]. split; [reflexivity|].
  assert (H4 : fst (forward_range 0 MAX_CODE 100 200) <= 400
               <= snd (forward_range 0 MAX_CODE 100 200))
    by (cbn; lia).
  assert (H7 : fst (forward_range 0 MAX_CODE 100 200) <= 799
               <= snd (forward_range 0 MAX_CODE 100 200))
    by (cbn; lia).
  unfold MAX_CODE in *.
  destruct (backward_value_inverts_forward_range 400 0 131071 100 200 Hr
              ltac:(lia) ltac:(lia) ltac:(lia)
              ltac:(unfold MAX_FREQUENCY; lia)) as [_ [_ B4]].
  destruct (backward_value_inverts_forward_range 799 0 131071 100 200 Hr
              ltac:(lia) ltac:(lia) ltac:(lia)
              ltac:(unfold MAX_FREQUENCY; lia)) as [_ [_ B7]].
  split; [apply B4, H4|apply B7, H7].
Defined.

(** X13: under the coder invariant [forward_range] cuts [l, h] into
    adjacent pieces: the piece of [a, b) ends one below the start of the
    piece of [b, c), the piece of an interval that starts at 0 starts at l,
    the piece of an interval that ends at MAX_FREQUENCY ends at h, and
    every piece is nonempty and inside [l, h]. *)
Theorem forward_range_tiles (l h a b c : Z) :
  coder_inv l h -> 0 <= a -> a < b -> b < c -> c <= MAX_FREQUENCY ->
  fst (forward_range l h 0 b) = l /\
  snd (forward_range l h a MAX_FREQUENCY) = h /\
  snd (forward_range l h a b) + 1 = fst (forward_range l h b c) /\
  l <= fst (forward_range l h a b) /\
  fst (forward_range l h a b) <= snd (forward_range l h a b) /\
  snd (forward_range l h a b) <= h.
Proof.
  intros Hr Ha Hab Hbc Hc.
  pose proof (forward_range_narrows l h a b Hr Ha Hab ltac:(lia)) as Hn.
  rewrite (forward_range_eq l h 0 b) by (assumption || lia).
  rewrite (forward_range_eq l h a MAX_FREQUENCY) by (assumption || lia).
  rewrite (forward_range_eq l h b c) by (assumption || lia).
  destruct (forward_range l h a b) as [l1 h1] eqn:E.
  rewrite (forward_range_eq l h a b) in E by (assumption || lia).
  injection E as E1 E2. cbn [fst snd].
  split.
  { rewrite Z.mul_0_r. change (0 / 32767) with 0. lia. }
  split.
  { unfold MAX_FREQUENCY. rewrite Z.div_mul by lia. lia. }
  split; [lia|exact Hn].
Qed.

Lemma forward_range_tiles_witness :
  coder_inv 1000 80000 /\
  snd (forward_range 1000 80000 5 17) + 1
  = fst (forward_range 1000 80000 17 300).
Proof.
  assert (Hr : coder_inv 1000 80000)
    by (unfold coder_inv, MAX_CODE, Int25; lia).
  split; [exact Hr|].
  destruct (forward_range_tiles 1000 80000 5 17 300 Hr ltac:(lia) ltac:(lia)
              ltac:(lia) ltac:(unfold MAX_FREQUENCY; lia))
    as (_ & _ & H & _).
  exact H.
Defined.

(** ** The model's two lookups *)

(** X14: whatever the symbol (any integer) and whatever the shift, in a
    model with a well-formed table [symbol_low_high] returns a nonempty
    interval inside [0, MAX_FREQUENCY]: the wrapped index never leaves the
    row. *)
Theorem symbol_interval_is_never_empty (m : Model) (symbol : Z) :
  table_ok (ccft m) -> 0 <= active_dist m < NUM_DIST ->
  0 <= fst (symbol_low_high m symbol) /\
  fst (symbol_low_high m symbol) < snd (symbol_low_high m symbol) /\
  snd (symbol_low_high m symbol) <= MAX_FREQUENCY.
Proof.
  intros Ht Hd. apply symbol_low_high_ok. split; assumption.
Qed.

Lemma symbol_interval_is_never_empty_witness :
  (table_ok linear_table /\ 0 <= 0 < NUM_DIST) /\
  fst (symbol_low_high (Model_init linear_table) (- 5))
  < snd (symbol_low_high (Model_init linear_table) (- 5)).
Proof.
  assert (Hd : 0 <= 0 < NUM_DIST) by (unfold NUM_DIST; lia).
  split; [split; [exact linear_table_ok|exact Hd]|].
  destruct (symbol_interval_is_never_empty (Model_init linear_table) (- 5)
              linear_table_ok Hd) as (_ & H & _).
  exact H.
Defined.

(** X15: in a model with a well-formed table and a shift between -1025 and
    1025, [frequency_symbol] inverts [symbol_low_high]: every frequency
    below MAX_FREQUENCY belongs to a symbol in [0, 1024] whose interval
    contains it, and every frequency in the interval of a symbol s in
    [0, 1024] is mapped back to s.  So the intervals of the 1025 symbols
    are disjoint and cover [0, MAX_FREQUENCY). *)
Theorem frequency_symbol_inverts_symbol_low_high (m : Model) :
  table_ok (ccft m) -> 0 <= active_dist m < NUM_DIST ->
  - 1025 <= active_symbol_shift m <= 1025 ->
  (forall freq, 0 <= freq < MAX_FREQUENCY ->
     0 <= frequency_symbol m freq < NUM_SYMBOLS /\
     fst (symbol_low_high m (frequency_symbol m freq)) <= freq
     < snd (symbol_low_high m (frequency_symbol m freq))) /\
  (forall s freq, 0 <= s < NUM_SYMBOLS ->
     fst (symbol_low_high m s) <= freq < snd (symbol_low_high m s) ->
     frequency_symbol m freq = s).
Proof.
  intros Ht Hd Hs.
  assert (Hm : model_ok m) by (split; assumption).
  split.
  - intros freq Hf.
    destruct (frequency_loc_spec m freq Hm Hf) as (F1 & F2 & F3).
    destruct (symbol_loc_frequency_symbol m freq Hs F1) as (S1 & S2).
    split; [exact S1|].
    rewrite symbol_low_high_loc, S2. cbn [fst snd]. lia.
  - intros s freq Hsym Hint.
    apply frequency_symbol_of_interval; assumption.
Qed.

Lemma frequency_symbol_inverts_symbol_low_high_witness :
  (table_ok linear_table /\ 0 <= 0 < NUM_DIST /\ - 1025 <= 0 <= 1025) /\
  frequency_symbol (Model_init linear_table)
    (fst (symbol_low_high (Model_init linear_table) 700)) = 700.
Proof.
  assert (Hd : 0 <= 0 < NUM_DIST) by (unfold NUM_DIST; lia).
  assert (Hs : - 1025 <= 0 <= 1025) by lia.
  split; [split; [exact linear_table_ok|split; [exact Hd|exact Hs]]|].
  destruct (frequency_symbol_inverts_symbol_low_high
              (Model_init linear_table) linear_table_ok Hd Hs) as [_ H].
  apply H; [unfold NUM_SYMBOLS; lia|].
  destruct (symbol_low_high_ok (Model_init linear_table) 700
              (Model_init_ok _ linear_table_ok)) as (_ & L & _).
  lia.
Defined.

(** ** The model along a run *)

Lemma update_all_state (symbols : list Z) :
  forall m : Model,
  0 <= active_dist m < NUM_DIST -> 0 <= outlier_counter m <= 3 ->
  mean_ok m -> shift_ok m ->
  Forall (fun s => 0 <= s <= 1024) symbols ->
  0 <= active_dist (update_all m symbols) < NUM_DIST /\
  0 <= outlier_counter (update_all m symbols) <= 3 /\
  mean_ok (update_all m symbols) /\ shift_ok (update_all m symbols).
Proof.
  induction symbols as [|s rest IH]; intros m Hd Hc Hm Hs Hall.
  - cbn. auto.
  - inversion Hall as [|? ? H1 H2]; subst.
    unfold update_all in *. cbn [fold_left].
    destruct (update_state_mean_shift m s Hm Hs H1) as [Hm' Hs'].
    apply IH; try assumption.
    + apply update_state_dist_range, Hd.
    + apply update_state_counter_range.
Qed.

(** X16: from the constructor's state, whatever symbols of the alphabet
    [0, 1024] [update_state] is called with, the table is never written,
    [active_dist] stays one of the four rows, [outlier_counter] stays in
    [0, 3], [active_symbol_shift] stays between -1025 and 1025 and the
    running mean stays a finite double between 0 and 1030. *)
Theorem model_state_stays_in_range (table : list (list Z))
    (symbols : list Z) :
  Forall (fun s => 0 <= s <= 1024) symbols ->
  ccft (update_all (Model_init table) symbols) = table /\
  0 <= active_dist (update_all (Model_init table) symbols) < NUM_DIST /\
  0 <= outlier_counter (update_all (Model_init table) symbols) <= 3 /\
  - 1025 <= active_symbol_shift (update_all (Model_init table) symbols)
  <= 1025 /\
  mean_ok (update_all (Model_init table) symbols).
Proof.
  intros Hall. split; [rewrite update_all_ccft; reflexivity|].
  destruct (Model_init_mean_ok table) as [Hm Hs].
  destruct (update_all_state symbols (Model_init table)) as (H1 & H2 & H3 & H4);
    try assumption.
  - cbn. unfold NUM_DIST. lia.
  - cbn. lia.
  - split; [exact H1|]. split; [exact H2|]. split; [exact H4|exact H3].
Qed.

Lemma model_state_stays_in_range_witness :
  Forall (fun s => 0 <= s <= 1024) [0; 1024; 1024; 7] /\
  - 1025
  <= active_symbol_shift (update_all (Model_init linear_table)
                            [0; 1024; 1024; 7])
  <= 1025.
Proof.
  assert (H : Forall (fun s => 0 <= s <= 1024) [0; 1024; 1024; 7])
    by (repeat constructor; lia).
  split; [exact H|].
  destruct (model_state_stays_in_range linear_table [0; 1024; 1024; 7] H)
    as (_ & _ & _ & Hs & _).
  exact Hs.
Defined.

(** ** The encoder's counters *)

(** What a piece of encoder code does to the counters: the bits it adds to
    [bits_written] are the bits the stream received. *)
Definition counted (hdr : nat) (e e' : ArithmeticEncoder.t)
    (bs bs' : OBitStream.t) (symbols : Z) : Prop :=
  obs_inv hdr bs' /\
  ArithmeticEncoder.bits_written e' - ArithmeticEncoder.bits_written e
  = Z.of_nat (length (obs_bits hdr bs'))
    - Z.of_nat (length (obs_bits hdr bs)) /\
  ArithmeticEncoder.bits_written e <= ArithmeticEncoder.bits_written e' /\
  ArithmeticEncoder.symbols_written e'
  = ArithmeticEncoder.symbols_written e + symbols.

Lemma encode_loop_counts (hdr : nat) (fuel : nat) :
  forall (e : ArithmeticEncoder.t) (bs : OBitStream.t)
         (e' : ArithmeticEncoder.t) (bs' : OBitStream.t),
  obs_inv hdr bs ->
  ArithmeticEncoder.encode_loop fuel e bs = Some (e', bs') ->
  counted hdr e e' bs bs' 0.
Proof.
  unfold counted.
  induction fuel as [|fuel IH]; intros e bs e' bs' Hbs E; [discriminate|].
  cbn [ArithmeticEncoder.encode_loop] in E.
  unfold ArithmeticEncoder.select in E.
  assert (Hw : forall b,
    ArithmeticEncoder.encode_loop fuel
      (ArithmeticEncoder.shift (fst (ArithmeticEncoder.write_bits b e bs)))
      (snd (ArithmeticEncoder.write_bits b e bs)) = Some (e', bs') ->
    obs_inv hdr bs' /\
    ArithmeticEncoder.bits_written e' - ArithmeticEncoder.bits_written e
    = Z.of_nat (length (obs_bits hdr bs'))
      - Z.of_nat (length (obs_bits hdr bs)) /\
    ArithmeticEncoder.bits_written e <= ArithmeticEncoder.bits_written e' /\
    ArithmeticEncoder.symbols_written e'
    = ArithmeticEncoder.symbols_written e + 0).
  { intros b Eb. pose proof (obs_write_bits hdr b e bs Hbs) as W.
    destruct (ArithmeticEncoder.write_bits b e bs) as [e1 bs1] eqn:Ew.
    destruct W as (W1 & W2 & _ & _ & _ & _ & _ & W8).
    assert (W9 : ArithmeticEncoder.symbols_written e1
                 = ArithmeticEncoder.symbols_written e).
    { unfold ArithmeticEncoder.write_bits in Ew. injection Ew as <- _.
      reflexivity. }
    cbn [fst snd] in Eb.
    destruct (IH _ _ _ _ W1 Eb) as (I1 & I2 & I3 & I4).
    split; [exact I1|].
    unfold ArithmeticEncoder.shift, ArithmeticEncoder.set_range
      in I2, I3, I4.
    cbn [ArithmeticEncoder.bits_written ArithmeticEncoder.symbols_written]
      in I2, I3, I4.
    rewrite W2, length_app in I2. cbn [length] in I2.
    rewrite repeat_length in I2. split; [lia|]. split; [lia|congruence]. }
  destruct (ArithmeticEncoder.high e <? Int50).
  { apply (Hw false).
    destruct (ArithmeticEncoder.write_bits false e bs); exact E. }
  destruct (ArithmeticEncoder.low e >=? Int50).
  { apply (Hw true).
    destruct (ArithmeticEncoder.write_bits true e bs); exact E. }
  destruct ((ArithmeticEncoder.low e >=? Int25)
            && (ArithmeticEncoder.high e <? Int75)).
  - exact (IH _ _ _ _ Hbs E).
  - injection E as <- <-. split; [exact Hbs|]. repeat split; lia.
Qed.

Lemma encode_counts (hdr : nat) (s : Z) (e e' : ArithmeticEncoder.t)
    (bs bs' : OBitStream.t) :
  obs_inv hdr bs ->
  ArithmeticEncoder.encode s e bs = Some (e', bs') ->
  counted hdr e e' bs bs' 1.
Proof.
  intros Hbs E. unfold ArithmeticEncoder.encode in E.
  cbn [ArithmeticEncoder.model ArithmeticEncoder.low ArithmeticEncoder.high]
    in E.
  destruct (symbol_low_high (ArithmeticEncoder.model e) s) as [sl sh].
  destruct (forward_range _ _ sl sh) as [l h].
  destruct (encode_loop_counts hdr _ _ _ _ _ Hbs E) as (H1 & H2 & H3 & H4).
  unfold ArithmeticEncoder.set_range in H2, H3, H4.
  cbn [ArithmeticEncoder.bits_written ArithmeticEncoder.symbols_written]
    in H2, H3, H4.
  split; [exact H1|]. split; [exact H2|]. split; [exact H3|lia].
Qed.

Lemma encode_symbols_counts (hdr : nat) (symbols : list Z) :
  forall (e e' : ArithmeticEncoder.t) (bs bs' : OBitStream.t),
  obs_inv hdr bs ->
  encode_symbols symbols e bs = Some (e', bs') ->
  counted hdr e e' bs bs' (Z.of_nat (length symbols)).
Proof.
  unfold counted.
  induction symbols as [|s rest IH]; intros e e' bs bs' Hbs E;
    cbn [encode_symbols] in E.
  - injection E as <- <-. split; [exact Hbs|]. cbn [length].
    repeat split; lia.
  - destruct (ArithmeticEncoder.encode s e bs) as [[e1 bs1]|] eqn:E1;
      [|discriminate].
    destruct (encode_counts hdr s e e1 bs bs1 Hbs E1) as (H1 & H2 & H3 & H4).
    destruct (IH _ _ _ _ H1 E) as (I1 & I2 & I3 & I4).
    unfold ArithmeticEncoder.set_model in I2, I3, I4.
    cbn [ArithmeticEncoder.bits_written ArithmeticEncoder.symbols_written]
      in I2, I3, I4.
    split; [exact I1|]. cbn [length]. repeat split; lia.
Qed.

Lemma encode_message_counts (hdr : nat) (symbols : list Z)
    (e e' : ArithmeticEncoder.t) (bs bs' : OBitStream.t) :
  obs_inv hdr bs ->
  encode_message symbols e bs = Some (e', bs') ->
  counted hdr e e' bs bs' (Z.of_nat (length symbols) + 1) /\
  ArithmeticEncoder.bits_written e + 2 <= ArithmeticEncoder.bits_written e'.
Proof.
  intros Hbs E. unfold encode_message in E.
  destruct (encode_symbols symbols e bs) as [[e1 bs1]|] eqn:E1;
    [|discriminate].
  destruct (encode_symbols_counts hdr symbols _ _ _ _ Hbs E1)
    as (H1 & H2 & H3 & H4).
  destruct (ArithmeticEncoder.encode (NUM_SYMBOLS - 1) e1 bs1)
    as [[e2 bs2]|] eqn:E2; [|discriminate].
  destruct (encode_counts hdr _ _ _ _ _ H1 E2) as (J1 & J2 & J3 & J4).
  destruct (obs_flush hdr e2 bs2 J1) as (K1 & K2 & _ & K4 & _).
  injection E as E. rewrite E in K1, K2, K4. cbn [fst snd] in K1, K2, K4.
  assert (K5 : ArithmeticEncoder.symbols_written e'
               = ArithmeticEncoder.symbols_written e2).
  { change e' with (fst (e', bs')). rewrite <- E.
    unfold ArithmeticEncoder.flush.
    cbn [ArithmeticEncoder.low].
    destruct (ArithmeticEncoder.low e2 <? Int25); reflexivity. }
  unfold counted. rewrite K2, length_app. cbn [length].
  rewrite repeat_length.
  split; [|lia]. split; [exact K1|]. repeat split; lia.
Qed.


(** The counters [encodeStream] leaves the encoder with. *)
Lemma encodeStream_counts (table : list (list Z))
    (header samples : list Z) :
  table_ok table -> wav_header_ok header -> Forall is_int16 samples ->
  exists e bs payload,
    encode_message (map neuralink_16bit_to_10bit samples)
      (ArithmeticEncoder.new table) (OBitStream.new header) = Some (e, bs) /\
    encode_payload table {| avail := flat_map le16 samples; good := true |}
      header = Some (e, OBitStream.flush bs) /\
    encodeStream table (header ++ flat_map le16 samples)
    = Ok (header ++ payload) /\
    ArithmeticEncoder.symbols_written e = Z.of_nat (length samples) + 1 /\
    2 <= ArithmeticEncoder.bits_written e /\
    Z.of_nat (length payload) = (ArithmeticEncoder.bits_written e + 7) / 8.
Proof.
  intros Ht Hh Hs.
  destruct (stream_roundtrip table header samples Ht Hh Hs) as
    (e & bs & payload & Hmsg & Hpay & _ & Henc & _).
  exists e, bs, payload.
  split; [exact Hmsg|]. split; [exact Hpay|]. split; [exact Henc|].
  pose proof Hh as (Hl & _).
  destruct (encode_message_counts (length header) _ _ _ _ _
              (obs_inv_new header) Hmsg) as ((C1 & C2 & _ & C4) & C5).
  rewrite obs_bits_new in C2. cbn [length] in C2.
  cbn [ArithmeticEncoder.new ArithmeticEncoder.bits_written
       ArithmeticEncoder.symbols_written] in C2, C4, C5.
  rewrite length_map in C4.
  split; [lia|]. split; [lia|].
  destruct (obs_stream_flush (length header) bs C1) as (_ & _ & _ & Hidem).
  destruct (obs_stream_flush_pad (length header) bs C1)
    as (pad & Hpad & Hbits & _).
  assert (Hout : encodeStream table (header ++ flat_map le16 samples)
                 = Ok (OBitStream.outputStream (OBitStream.flush bs))).
  { unfold encodeStream.
    rewrite read_wav_header_full by exact Hl.
    rewrite (check_wav_header_ok header Hh).
    rewrite (write_wav_header_ok [] header Hl). cbn [app].
    rewrite Hpay, Hidem. reflexivity. }
  rewrite Henc in Hout. injection Hout as Hout.
  rewrite <- Hout, skipn_app, Nat.sub_diag, skipn_all in Hbits.
  cbn [skipn app] in Hbits.
  apply (f_equal (@length bool)) in Hbits.
  rewrite flat_map_byte_bits_length, length_app, repeat_length in Hbits.
  apply Z.div_unique with (r := 7 - Z.of_nat pad); lia.
Qed.

(** X17: [encodeStream] on a valid header and signed 16-bit samples leaves
    the encoder with [symbols_written] equal to the number of samples plus
    one (the stop symbol) and [bits_written] equal to the number of payload
    bits before padding: the payload has (bits_written + 7) / 8 bytes, and
    at least two bits are always written. *)
Theorem payload_size_is_bits_written (table : list (list Z))
    (header samples : list Z) :
  table_ok table -> wav_header_ok header -> Forall is_int16 samples ->
  exists e bs payload,
    encode_payload table {| avail := flat_map le16 samples; good := true |}
      header = Some (e, bs) /\
    encodeStream table (header ++ flat_map le16 samples)
    = Ok (header ++ payload) /\
    ArithmeticEncoder.symbols_written e = Z.of_nat (length samples) + 1 /\
    2 <= ArithmeticEncoder.bits_written e /\
    Z.of_nat (length payload) = (ArithmeticEncoder.bits_written e + 7) / 8.
Proof.
  intros Ht Hh Hs.
  destruct (encodeStream_counts table header samples Ht Hh Hs) as
    (e & bs & payload & _ & H).
  exists e, (OBitStream.flush bs), payload. exact H.
Qed.


Lemma payload_size_is_bits_written_witness :
  (table_ok linear_table /\ wav_header_ok mono16_header /\
   Forall is_int16 fixed_samples) /\
  exists e bs payload,
    encode_payload linear_table
      {| avail := flat_map le16 fixed_samples; good := true |} mono16_header
    = Some (e, bs) /\
    encodeStream linear_table (mono16_header ++ flat_map le16 fixed_samples)
    = Ok (mono16_header ++ payload) /\
    ArithmeticEncoder.symbols_written e = 3.
Proof.
  assert (Hs : Forall is_int16 fixed_samples)
    by (repeat constructor; unfold is_int16; lia).
  split; [split; [exact linear_table_ok|]; split;
    [exact mono16_header_ok|exact Hs]|].
  destruct (payload_size_is_bits_written linear_table mono16_header
              fixed_samples linear_table_ok mono16_header_ok Hs)
    as (e & bs & payload & H1 & H2 & H3 & _).
  exists e, bs, payload. split; [exact H1|]. split; [exact H2|exact H3].
Defined.

(** ** The decoder's first bits *)

(** While the stream has bits left, the loop of [init] reads them in
    order. *)
Lemma read_bits_exact (n : nat) :
  forall (k : nat) (b : Z) (v : Z) (bs : IBitStream.t),
  (k + n <= 30)%nat -> 0 <= v < 2 ^ Z.of_nat k -> ibs_inv bs ->
  (n <= length (ibs_bits bs))%nat ->
  exists bs',
    ArithmeticDecoder.read_bits n b v bs
    = (v * 2 ^ Z.of_nat n + bits_val (firstn n (ibs_bits bs)), bs') /\
    ibs_inv bs' /\ ibs_bits bs' = skipn n (ibs_bits bs).
Proof.
  induction n as [|n IH]; intros k b v bs Hk Hv Hinv Hlen.
  - exists bs. cbn [ArithmeticDecoder.read_bits firstn skipn].
    change (bits_val []) with 0. change (2 ^ Z.of_nat 0) with 1.
    replace (v * 1 + 0) with v by lia. auto.
  - cbn [ArithmeticDecoder.read_bits].
    assert (Hpow : 2 ^ Z.of_nat k <= 2 ^ 30)
      by (apply Z.pow_le_mono_r; lia).
    change (2 ^ 30) with 1073741824 in Hpow.
    destruct (shift_in_any b v bs) as (y & bs1 & E & Hstream).
    rewrite E. destruct (Hstream Hinv) as (Hinv1 & [(x & -> & Hb)|(_ & Hb & _)]);
      [|rewrite Hb in Hlen; cbn [length] in Hlen; lia].
    pose proof (b2z_range x) as Hx.
    rewrite Hb in Hlen. cbn [length] in Hlen.
    rewrite shl1_or by lia. rewrite u32_small by lia.
    destruct (IH (S k) (Z.b2z x) (2 * v + Z.b2z x) bs1)
      as (bs' & E' & Hinv' & Hrest).
    { lia. }
    { rewrite Nat2Z.inj_succ, Z.pow_succ_r by lia. lia. }
    { exact Hinv1. }
    { lia. }
    exists bs'. rewrite E', Hb. cbn [firstn skipn].
    split; [|split; [exact Hinv'|exact Hrest]].
    f_equal. rewrite bits_val_cons, length_firstn, Nat.min_l by lia.
    rewrite Nat2Z.inj_succ, Z.pow_succ_r by lia. ring.
Qed.

Lemma bits_val_byte (x : Z) :
  0 <= x < 256 ->
  bits_val (byte_bits x) = x /\ Z.b2z (Z.testbit x 7) = x / 128.
Proof.
  intros Hx.
  assert (H : forall_below 256
                (fun x => (bits_val (byte_bits x) =? x)
                          && (Z.b2z (Z.testbit x 7) =? x / 128)) = true)
    by (vm_compute; reflexivity).
  pose proof (forall_below_spec _ _ H x ltac:(lia)) as Hb. cbv beta in Hb.
  apply andb_true_iff in Hb as [H1 H2].
  split; [apply Z.eqb_eq, H1|apply Z.eqb_eq, H2].
Qed.

(** X18: on an input of at least three bytes b0 b1 b2, [init] leaves the
    decoder with value = 512 * b0 + 2 * b1 + b2 / 128, the first seventeen
    bits of the input, whatever the uninitialized local [b] holds; low,
    high and the model are untouched and the bit stream continues with the
    low seven bits of b2. *)
Theorem init_loads_seventeen_bits (table : list (list Z)) (b : Z)
    (b0 b1 b2 : Z) (rest : list Z) :
  0 <= b0 < 256 -> 0 <= b1 < 256 -> 0 <= b2 < 256 ->
  exists d bs,
    ArithmeticDecoder.init b (ArithmeticDecoder.new table)
      (IBitStream.new {| avail := b0 :: b1 :: b2 :: rest; good := true |})
    = (d, bs) /\
    ArithmeticDecoder.value d = 512 * b0 + 2 * b1 + b2 / 128 /\
    ArithmeticDecoder.low d = 0 /\ ArithmeticDecoder.high d = MAX_CODE /\
    ArithmeticDecoder.model d = Model_init table /\
    ibs_bits bs = skipn 1 (byte_bits b2) ++ flat_map byte_bits rest.
Proof.
  intros H0 H1 H2.
  destruct (ibs_new_bits (b0 :: b1 :: b2 :: rest)) as [Hinv Hbits].
  destruct (read_bits_exact 17 0 b 0 _ ltac:(lia) ltac:(cbn; lia) Hinv)
    as (bs' & E & Hinv' & Hrest).
  { rewrite Hbits, flat_map_byte_bits_length. cbn [length]. lia. }
  unfold ArithmeticDecoder.init. rewrite E.
  eexists _, bs'. split; [reflexivity|].
  cbn [ArithmeticDecoder.value ArithmeticDecoder.low ArithmeticDecoder.high
       ArithmeticDecoder.model ArithmeticDecoder.new].
  rewrite Hrest, Hbits.
  split; [|repeat split; reflexivity].
  change (firstn 17 (flat_map byte_bits (b0 :: b1 :: b2 :: rest)))
    with (byte_bits b0 ++ byte_bits b1 ++ [Z.testbit b2 7]).
  rewrite !bits_val_app.
  destruct (bits_val_byte b0 H0) as [V0 _].
  destruct (bits_val_byte b1 H1) as [V1 _].
  destruct (bits_val_byte b2 H2) as [_ V2].
  rewrite V0, V1. change (bits_val [Z.testbit b2 7])
    with (2 * 0 + Z.b2z (Z.testbit b2 7)).
  rewrite V2. rewrite length_app.
  change (length (byte_bits b1)) with 8%nat.
  change (length [Z.testbit b2 7]) with 1%nat.
  change (2 ^ Z.of_nat (8 + 1)) with 512. change (2 ^ Z.of_nat 1) with 2.
  change (2 ^ Z.of_nat 0) with 1. lia.
Qed.

Lemma init_loads_seventeen_bits_witness :
  (0 <= 128 < 256 /\ 0 <= 1 < 256 /\ 0 <= 255 < 256) /\
  exists d bs,
    ArithmeticDecoder.init 127 (ArithmeticDecoder.new linear_table)
      (IBitStream.new {| avail := [128; 1; 255; 9]; good := true |})
    = (d, bs) /\
    ArithmeticDecoder.value d = 65539.
Proof.
  split; [lia|].
  destruct (init_loads_seventeen_bits linear_table 127 128 1 255 [9]
              ltac:(lia) ltac:(lia) ltac:(lia))
    as (d & bs & E & V & _).
  exists d, bs. split; [exact E|]. rewrite V. reflexivity.
Defined.

(** ** What the decoder writes, whatever it reads *)

Lemma dequantize_fixed (u : Z) :
  0 <= u <= 1023 ->
  requantize (neuralink_10bit_to_16bit u) = neuralink_10bit_to_16bit u.
Proof.
  intros Hu.
  assert (H : forall_below 1024
                (fun u => requantize (neuralink_10bit_to_16bit u)
                          =? neuralink_10bit_to_16bit u) = true)
    by (vm_compute; reflexivity).
  pose proof (forall_below_spec _ _ H u ltac:(lia)) as Hb. cbv beta in Hb.
  apply Z.eqb_eq, Hb.
Qed.

(** The loop of [decodeStream] writes one dequantized symbol per
    iteration, and none for the stop symbol. *)
Lemma decode_symbols_output (fuel : nat) :
  forall (junk : nat -> Z) (k : nat) (d : ArithmeticDecoder.t)
         (bs : IBitStream.t) (out : ostream)
         (d' : ArithmeticDecoder.t) (bs' : IBitStream.t) (out' : ostream),
  coder_inv (ArithmeticDecoder.low d) (ArithmeticDecoder.high d) ->
  model_ok (ArithmeticDecoder.model d) ->
  decode_symbols fuel junk k d bs out = Ok (d', bs', out') ->
  exists symbols,
    Forall (fun s => 0 <= s <= 1023) symbols /\
    (length symbols < fuel)%nat /\
    out' = out ++ flat_map le16 (map neuralink_10bit_to_16bit symbols).
Proof.
  induction fuel as [|fuel IH];
    intros junk k d bs out d' bs' out' Hd Hm E; [discriminate|].
  cbn [decode_symbols] in E.
  destruct (decode_keeps_range (junk k) d bs Hd Hm) as
    (s & d1 & bs1 & E1 & Hs & Hd1 & Hm1).
  rewrite E1 in E.
  destruct (Z.eqb_spec s (NUM_SYMBOLS - 1)) as [Hstop|Hgo].
  - injection E as _ _ <-. exists []. split; [constructor|].
    cbn [length map flat_map]. rewrite app_nil_r. split; [lia|reflexivity].
  - apply IH in E.
    + destruct E as (symbols & H1 & H2 & H3).
      exists (s :: symbols). split.
      { constructor; [unfold NUM_SYMBOLS in *; lia|exact H1]. }
      split; [cbn [length]; lia|].
      rewrite H3. unfold neuralink_write_symbol_to_stream.
      cbn [map flat_map]. rewrite <- app_assoc. reflexivity.
    + exact Hd1.
    + cbn [ArithmeticDecoder.set_model ArithmeticDecoder.model].
      rewrite Hm1. apply update_state_ok, Hm.
Qed.

(** X19: whatever bytes follow a valid header and whatever byte the
    uninitialized [b] holds, when [decodeStream] returns it has written the
    header and, for some symbols in [0, 1023], their dequantized samples,
    two bytes each; such an output is a file the codec keeps:
    [encodeStream] accepts it, and [decodeStream] on the result gives it
    back when [b] holds 0 or 1 at every entry. *)
Theorem decoded_output_is_kept (table : list (list Z))
    (header rest : list Z) (fuel : nat) (junk : nat -> Z)
    (out : ostream) :
  table_ok table -> wav_header_ok header ->
  decodeStream table fuel junk (header ++ rest) = Ok out ->
  exists symbols compressed,
    Forall (fun s => 0 <= s <= 1023) symbols /\
    (length symbols < fuel)%nat /\
    out = header ++ flat_map le16 (map neuralink_10bit_to_16bit symbols) /\
    encodeStream table out = Ok compressed /\
    forall junk' : nat -> Z,
      bit_junk junk' -> decodeStream table fuel junk' compressed = Ok out.
Proof.
  intros Ht Hh E. pose proof Hh as (Hl & _).
  unfold decodeStream in E.
  rewrite read_wav_header_full in E by exact Hl.
  rewrite (check_wav_header_ok header Hh) in E.
  rewrite (write_wav_header_ok [] header Hl) in E. cbn [app] in E.
  destruct (init_decoder_range (junk O) table
              (IBitStream.new {| avail := rest; good := true |}))
    as (d0 & bs0 & E0 & Hd0 & Hm0).
  rewrite E0 in E.
  destruct (decode_symbols fuel junk 1 d0 bs0 header)
    as [[[d' bs'] out']| |] eqn:Es; try discriminate.
  injection E as ->.
  destruct (decode_symbols_output fuel junk 1 d0 bs0 header d' bs' out Hd0)
    as (symbols & H1 & H2 & H3);
    [rewrite Hm0; apply Model_init_ok, Ht|exact Es|].
  set (samples := map neuralink_10bit_to_16bit symbols) in *.
  assert (Hs : Forall is_int16 samples).
  { apply Forall_map. eapply Forall_impl; [|exact H1].
    intros u Hu. apply dequantize_range, Hu. }
  assert (Hfix : map requantize samples = samples).
  { apply requantize_fixed, Forall_map. eapply Forall_impl; [|exact H1].
    intros u Hu. apply dequantize_fixed, Hu. }
  destruct (stream_roundtrip table header samples Ht Hh Hs) as
    (_ & _ & payload & _ & _ & _ & Henc & Hdec).
  exists symbols, (header ++ payload).
  split; [exact H1|]. split; [exact H2|]. split; [exact H3|].
  rewrite H3. split; [exact Henc|].
  intros junk' Hj.
  destruct (Hdec fuel junk' Hj) as [Hd _].
  { unfold samples. rewrite length_map. exact H2. }
  rewrite Hd, Hfix. reflexivity.
Qed.

Lemma decoded_output_is_kept_witness :
  (table_ok linear_table /\ wav_header_ok mono16_header /\
   decodeStream linear_table 2 (fun _ => 0) (mono16_header ++ [124; 61])
   = Ok (mono16_header ++ [31; 0])) /\
  exists compressed,
    encodeStream linear_table (mono16_header ++ [31; 0]) = Ok compressed /\
    decodeStream linear_table 2 (fun _ => 0) compressed
    = Ok (mono16_header ++ [31; 0]).
Proof.
  assert (E : decodeStream linear_table 2 (fun _ => 0)
                (mono16_header ++ [124; 61])
              = Ok (mono16_header ++ [31; 0]))
    by (vm_compute; reflexivity).
  split; [split; [exact linear_table_ok|]; split;
    [exact mono16_header_ok|exact E]|].
  destruct (decoded_output_is_kept linear_table mono16_header [124; 61]
              2%nat (fun _ => 0) _ linear_table_ok mono16_header_ok E)
    as (symbols & compressed & _ & _ & _ & H1 & H2).
  exists compressed. split; [exact H1|exact (H2 _ bit_junk_zero)].
Defined.

(** ** How many bits a symbol can cost *)

(** The cost of a piece of encoder code: the bits written and the bits
    pending grow by at most [bound]. *)
Definition costs (e e' : ArithmeticEncoder.t) (bound : Z) : Prop :=
  ArithmeticEncoder.bits_written e'
  + Z.of_nat (ArithmeticEncoder.pending_bits e')
  <= ArithmeticEncoder.bits_written e
     + Z.of_nat (ArithmeticEncoder.pending_bits e) + bound.

Lemma encode_cost (hdr : nat) (s : Z) (e : ArithmeticEncoder.t)
    (bs : OBitStream.t) :
  coder_inv (ArithmeticEncoder.low e) (ArithmeticEncoder.high e) ->
  model_ok (ArithmeticEncoder.model e) -> obs_inv hdr bs ->
  exists e' bs',
    ArithmeticEncoder.encode s e bs = Some (e', bs') /\
    coder_inv (ArithmeticEncoder.low e') (ArithmeticEncoder.high e') /\
    ArithmeticEncoder.model e' = ArithmeticEncoder.model e /\
    obs_inv hdr bs' /\ costs e e' 17.
Proof.
  intros Hr Hm Hbs.
  destruct (encode_spec hdr s e bs Hr Hm) as
    (e' & bs' & n & F & E & _ & R & Hr' & M & O).
  destruct (O Hbs) as (O1 & O2 & _).
  exists e', bs'. split; [exact E|]. split; [exact Hr'|].
  split; [exact M|]. split; [exact O1|].
  destruct (encode_counts hdr s e e' bs bs' Hbs E) as (_ & C2 & _).
  rewrite O2, length_app in C2.
  destruct (renorm_doubles _ _ _ _ _ _ _ _ R) as [W1 W2].
  pose proof (narrowed_inside _ _ _ s Hm Hr) as (_ & N2 & _).
  assert (Hn : (n <= 17)%nat).
  { destruct (le_lt_dec n 17) as [Hle|Hgt]; [exact Hle|exfalso].
    assert (Hp : 2 ^ 18 <= 2 ^ Z.of_nat n)
      by (apply Z.pow_le_mono_r; lia).
    change (2 ^ 18) with 262144 in Hp.
    unfold coder_inv, MAX_CODE in Hr'. nia. }
  unfold costs. lia.
Qed.

Lemma encode_symbols_cost (hdr : nat) (symbols : list Z) :
  forall (e : ArithmeticEncoder.t) (bs : OBitStream.t),
  coder_inv (ArithmeticEncoder.low e) (ArithmeticEncoder.high e) ->
  model_ok (ArithmeticEncoder.model e) -> obs_inv hdr bs ->
  exists e' bs',
    encode_symbols symbols e bs = Some (e', bs') /\
    coder_inv (ArithmeticEncoder.low e') (ArithmeticEncoder.high e') /\
    model_ok (ArithmeticEncoder.model e') /\
    obs_inv hdr bs' /\ costs e e' (17 * Z.of_nat (length symbols)).
Proof.
  induction symbols as [|s rest IH]; intros e bs Hr Hm Hbs;
    cbn [encode_symbols].
  - exists e, bs. split; [reflexivity|]. split; [exact Hr|].
    split; [exact Hm|]. split; [exact Hbs|]. unfold costs. cbn [length]. lia.
  - destruct (encode_cost hdr s e bs Hr Hm Hbs) as
      (e1 & bs1 & E1 & Hr1 & M1 & Hbs1 & C1).
    rewrite E1.
    destruct (IH (ArithmeticEncoder.set_model e1
                    (update_state (ArithmeticEncoder.model e1) s)) bs1)
      as (e' & bs' & E' & Hr' & Hm' & Hbs' & C').
    { exact Hr1. }
    { cbn [ArithmeticEncoder.set_model ArithmeticEncoder.model].
      rewrite M1. apply update_state_ok, Hm. }
    { exact Hbs1. }
    exists e', bs'. split; [exact E'|]. split; [exact Hr'|].
    split; [exact Hm'|]. split; [exact Hbs'|].
    unfold costs in *.
    cbn [ArithmeticEncoder.set_model ArithmeticEncoder.bits_written
         ArithmeticEncoder.pending_bits] in C'.
    cbn [length]. lia.
Qed.

(** X20: the payload [encodeStream] writes for n samples has at most
    17 * (n + 1) + 2 bits before the padding of the last byte: no symbol,
    the stop symbol included, costs more than seventeen bits, whatever the
    table and the state of the model. *)
Theorem payload_is_at_most_17_bits_a_symbol (table : list (list Z))
    (header samples : list Z) :
  table_ok table -> wav_header_ok header -> Forall is_int16 samples ->
  exists payload,
    encodeStream table (header ++ flat_map le16 samples)
    = Ok (header ++ payload) /\
    8 * Z.of_nat (length payload)
    <= 17 * (Z.of_nat (length samples) + 1) + 9.
Proof.
  intros Ht Hh Hs.
  destruct (encodeStream_counts table header samples Ht Hh Hs) as
    (e & bs & payload & Hmsg & _ & Henc & _ & _ & Hlen).
  exists payload. split; [exact Henc|].
  assert (Hbw : ArithmeticEncoder.bits_written e
                <= 17 * (Z.of_nat (length samples) + 1) + 2).
  { unfold encode_message in Hmsg.
    destruct (encode_symbols_cost (length header)
                (map neuralink_16bit_to_10bit samples)
                (ArithmeticEncoder.new table) (OBitStream.new header)
                (encoder_new_inv table) (Model_init_ok table Ht)
                (obs_inv_new header))
      as (e1 & bs1 & E1 & Hr1 & Hm1 & Hbs1 & C1).
    rewrite E1 in Hmsg.
    destruct (encode_cost (length header) (NUM_SYMBOLS - 1) e1 bs1 Hr1 Hm1
                Hbs1) as (e2 & bs2 & E2 & _ & _ & Hbs2 & C2).
    rewrite E2 in Hmsg. injection Hmsg as Hmsg.
    destruct (obs_flush (length header) e2 bs2 Hbs2) as (_ & _ & _ & K & _).
    rewrite Hmsg in K. cbn [fst] in K.
    unfold costs in C1, C2. rewrite length_map in C1.
    cbn [ArithmeticEncoder.new ArithmeticEncoder.bits_written
         ArithmeticEncoder.pending_bits] in C1.
    lia. }
  rewrite Hlen. Z.to_euclidean_division_equations. lia.
Qed.

Lemma payload_is_at_most_17_bits_a_symbol_witness :
  (table_ok linear_table /\ wav_header_ok mono16_header /\
   Forall is_int16 fixed_samples) /\
  exists payload,
    encodeStream linear_table (mono16_header ++ flat_map le16 fixed_samples)
    = Ok (mono16_header ++ payload) /\
    (length payload <= 7)%nat.
Proof.
  assert (Hs : Forall is_int16 fixed_samples)
    by (repeat constructor; unfold is_int16; lia).
  split; [split; [exact linear_table_ok|]; split;
    [exact mono16_header_ok|exact Hs]|].
  destruct (payload_is_at_most_17_bits_a_symbol linear_table mono16_header
              fixed_samples linear_table_ok mono16_header_ok Hs)
    as (payload & H1 & H2).
  exists payload. split; [exact H1|].
  change (length fixed_samples) with 2%nat in H2. lia.
Defined.

(** ** Inputs shorter than a header *)

(** X21: an input of fewer than 35 bytes, the empty input included, is
    rejected by both stream functions with the format message: the sample
    width is read from the zeros [read_wav_header] fills the header with. *)
Theorem short_input_is_unsupported_format (table : list (list Z))
    (input : list Z) (fuel : nat) (junk : nat -> Z) :
  (length input < 35)%nat ->
  encodeStream table input
  = Throw "Unsupported WAV format, we only support 16 bit mono WAV data"
  /\ decodeStream table fuel junk input
     = Throw "Unsupported WAV format, we only support 16 bit mono WAV data".
Proof.
  intros Hlen. apply bad_format_is_rejected. right.
  unfold header_read, read_wav_header, istream_read. cbn [good avail].
  destruct (Nat.leb_spec 44 (length input)) as [H|_]; [lia|].
  cbn [fst].
  rewrite !app_nth2 by lia. rewrite !nth_repeat. lia.
Qed.

Lemma short_input_is_unsupported_format_witness :
  (length (firstn 34 mono16_header) < 35)%nat /\
  encodeStream linear_table (firstn 34 mono16_header)
  = Throw "Unsupported WAV format, we only support 16 bit mono WAV data".
Proof.
  assert (H : (length (firstn 34 mono16_header) < 35)%nat) by (cbn; lia).
  split; [exact H|].
  destruct (short_input_is_unsupported_format linear_table
              (firstn 34 mono16_header) 0%nat (fun _ => 0) H) as [E _].
  exact E.
Defined.

(** X22: neither stream function throws the size error, whatever the
    input: the header [read_wav_header] returns always has 44 bytes, so the
    size tests of [neuralink_check_wav_header] and [write_wav_header] never
    fire, and the only exception either function raises is the format
    error. *)
Theorem only_the_format_error_is_thrown (table : list (list Z))
    (input : list Z) (fuel : nat) (junk : nat -> Z) (what : string) :
  (encodeStream table input = Throw what ->
   what = "Unsupported WAV format, we only support 16 bit mono WAV data"%string)
  /\
  (decodeStream table fuel junk input = Throw what ->
   what = "Unsupported WAV format, we only support 16 bit mono WAV data"%string).
Proof.
  unfold encodeStream, decodeStream.
  pose proof (read_wav_header_length {| avail := input; good := true |})
    as Hl.
  destruct (read_wav_header {| avail := input; good := true |})
    as [header rest].
  cbn [fst] in Hl.
  rewrite (write_wav_header_ok [] header Hl).
  unfold neuralink_check_wav_header. rewrite Hl.
  change (negb (44 =? 44)%nat) with false. cbv iota.
  destruct (negb (nth 22 header 0 + 256 * nth 23 header 0 =? 1)
            || negb (nth 34 header 0 + 256 * nth 35 header 0 =? 16)).
  - split; intros H; injection H as <-; reflexivity.
  - split.
    + destruct (encode_payload table rest ([] ++ header)) as [[e bs]|];
        discriminate.
    + destruct (ArithmeticDecoder.init (junk O) (ArithmeticDecoder.new table)
                  (IBitStream.new rest)) as [d0 bs0].
      pose proof (decode_symbols_never_throws fuel junk 1 d0 bs0
                    ([] ++ header) what) as Hn.
      destruct (decode_symbols fuel junk 1 d0 bs0 ([] ++ header))
        as [[[d' bs'] out']| |]; try discriminate.
      intros H. exfalso. apply Hn. injection H as ->. reflexivity.
Qed.

(** ** A compressed stream followed by two bytes or more

    The decoder reads fifteen bits more than the encoder has written before
    the padding of its last byte. When two bytes or more follow the
    encoder's output no call of [get] fails, and [b] is never used. *)

Lemma coder_roundtrip_followed (table : list (list Z)) (out : ostream)
    (symbols : list Z) :
  table_ok table ->
  Forall (fun s => 0 <= s < NUM_SYMBOLS - 1) symbols ->
  exists e bs payload,
    encode_message symbols (ArithmeticEncoder.new table) (OBitStream.new out)
    = Some (e, bs) /\
    OBitStream.outputStream (OBitStream.flush bs) = out ++ payload /\
    OBitStream.flush (OBitStream.flush bs) = OBitStream.flush bs /\
    forall (trailing : list Z) (fuel : nat) (junk : nat -> Z)
           (out' : ostream),
      (2 <= length trailing)%nat -> (length symbols < fuel)%nat ->
      let (d0, ibs0) :=
        ArithmeticDecoder.init (junk O) (ArithmeticDecoder.new table)
          (IBitStream.new {| avail := payload ++ trailing; good := true |}) in
      exists d ibs,
        decode_symbols fuel junk 1 d0 ibs0 out'
        = Ok (d, ibs, fold_left neuralink_write_symbol_to_stream symbols out')
        /\ ibs_good ibs.
Proof.
  intros Ht Hsyms.
  destruct (message_roundtrip (length out) symbols
              (ArithmeticEncoder.new table) (OBitStream.new out)
              (encoder_new_inv table) (Model_init_ok table Ht)
              (obs_inv_new out) Hsyms (shifts_ok_from_init table _ Hsyms)) as
    (e & bs & F & E & P1 & P2 & P3 & P4 & _ & _ & HF & Hdec).
  rewrite obs_bits_new in P2. cbn [app] in P2.
  destruct (obs_stream_flush (length out) bs P1) as (pad & Q1 & Q2 & Q3).
  rewrite P2 in Q1.
  assert (Hout : OBitStream.outputStream (OBitStream.flush bs)
                 = out ++ skipn (length out)
                            (OBitStream.outputStream (OBitStream.flush bs))).
  { rewrite <- (firstn_skipn (length out)
                  (OBitStream.outputStream (OBitStream.flush bs))) at 1.
    rewrite Q2, P3. cbn [OBitStream.new OBitStream.outputStream].
    rewrite firstn_all. reflexivity. }
  set (payload := skipn (length out)
                    (OBitStream.outputStream (OBitStream.flush bs))) in *.
  exists e, bs, payload. split; [exact E|].
  split; [exact Hout|]. split; [exact Q3|].
  intros trailing fuel junk out' Htr Hfuel.
  set (ibs := IBitStream.new {| avail := payload ++ trailing; good := true |}).
  destruct (ibs_new_bits (payload ++ trailing)) as (I1 & I2).
  fold ibs in I1, I2.
  assert (Hg : ibs_good ibs) by reflexivity.
  assert (HlenF : (length F + pad = 8 * length payload)%nat).
  { rewrite <- flat_map_byte_bits_length, Q1, length_app, repeat_length.
    reflexivity. }
  assert (Hleft : (ibs_left ibs = 8 * length payload + 8 * length trailing)%nat).
  { unfold ibs_left. rewrite I2, flat_map_byte_bits_length, length_app. lia. }
  cbn [ArithmeticEncoder.new ArithmeticEncoder.pending_bits] in HF.
  destruct (read_bits_consumes 17 0 0 ibs I1 Hg ltac:(lia))
    as (_ & G1 & L1 & Hb).
  assert (Einit : ArithmeticDecoder.init (junk O) (ArithmeticDecoder.new table)
                    ibs
                  = ArithmeticDecoder.init (Z.b2z false)
                      (ArithmeticDecoder.new table) ibs).
  { unfold ArithmeticDecoder.init. cbn [Z.b2z]. rewrite (Hb (junk O)).
    reflexivity. }
  rewrite Einit.
  destruct (init_window false (ArithmeticDecoder.new table) ibs F I1)
    as (d0 & ibs0 & W & E0 & S0 & Hinv0 & HW & HM).
  { rewrite I2, flat_map_app, Q1, <- app_assoc.
    exists (repeat false pad ++ flat_map byte_bits trailing). reflexivity. }
  rewrite E0.
  assert (Hbs0 : ibs0 = snd (ArithmeticDecoder.read_bits 17 0 0 ibs)).
  { unfold ArithmeticDecoder.init in E0. cbn [Z.b2z] in E0.
    destruct (ArithmeticDecoder.read_bits 17 0 0 ibs) as [v bs'].
    injection E0 as _ <-. reflexivity. }
  rewrite <- Hbs0 in G1, L1.
  destruct (Hdec fuel (fun _ => 0) 1%nat d0 ibs0 W out' bit_junk_zero Hfuel)
    as [Hok _]; try assumption.
  destruct Hok as (d & ibs' & D1 & _ & Hgood).
  assert (G' : ibs_good ibs').
  { apply (Hgood G1).
    cbn [ArithmeticEncoder.new ArithmeticEncoder.pending_bits]. lia. }
  exists d, ibs'. split; [|exact G'].
  exact (proj1 (decode_symbols_indep fuel (fun _ => 0) junk 1%nat d0 ibs0 out'
                  d ibs' _ D1 G')).
Qed.

(** X25: for a valid header and signed 16-bit samples, when two bytes or
    more follow the output of [encodeStream], [decodeStream] returns the
    header and the requantized samples whatever bytes its uninitialized
    [b] holds. *)
Theorem followed_stream_decodes (table : list (list Z))
    (header samples trailing : list Z) (fuel : nat) (junk : nat -> Z) :
  table_ok table -> wav_header_ok header -> Forall is_int16 samples ->
  (length samples < fuel)%nat -> (2 <= length trailing)%nat ->
  exists out,
    encodeStream table (header ++ flat_map le16 samples) = Ok out /\
    decodeStream table fuel junk (out ++ trailing)
    = Ok (header ++ flat_map le16 (map requantize samples)).
Proof.
  intros Ht Hh Hs Hfuel Htr. pose proof Hh as (Hl & _).
  pose proof (quantized_symbols samples Hs) as Hsym.
  destruct (coder_roundtrip_followed table header _ Ht Hsym) as
    (e & bs & payload & E & Hout & Hfl & Hdec).
  exists (header ++ payload). split.
  - unfold encodeStream. rewrite read_wav_header_full by exact Hl.
    rewrite check_wav_header_ok by exact Hh.
    rewrite write_wav_header_ok by exact Hl. cbn [app].
    rewrite encode_payload_message by exact Hs.
    rewrite E, Hfl, Hout. reflexivity.
  - specialize (Hdec trailing fuel junk header Htr).
    rewrite length_map in Hdec. specialize (Hdec Hfuel).
    unfold decodeStream. rewrite <- app_assoc.
    rewrite read_wav_header_full by exact Hl.
    rewrite check_wav_header_ok by exact Hh.
    rewrite write_wav_header_ok by exact Hl. cbn [app].
    destruct (ArithmeticDecoder.init (junk O) (ArithmeticDecoder.new table)
                (IBitStream.new
                   {| avail := payload ++ trailing; good := true |}))
      as [d0 ibs0].
    destruct Hdec as (d & ibs & D1 & _). rewrite D1.
    rewrite write_symbols_bytes, written_samples. reflexivity.
Qed.

Lemma followed_stream_decodes_witness :
  (table_ok linear_table /\ wav_header_ok mono16_header /\
   Forall is_int16 fixed_samples /\ (length fixed_samples < 3)%nat /\
   (2 <= length [0; 0])%nat) /\
  exists out,
    encodeStream linear_table (mono16_header ++ flat_map le16 fixed_samples)
    = Ok out /\
    decodeStream linear_table 3 (fun _ => 255) (out ++ [0; 0])
    = Ok (mono16_header ++ flat_map le16 (map requantize fixed_samples)).
Proof.
  assert (H1 : Forall is_int16 fixed_samples)
    by (repeat constructor; unfold is_int16; lia).
  assert (H2 : (length fixed_samples < 3)%nat) by (simpl; lia).
  assert (H3 : (2 <= length [0; 0])%nat) by (simpl; lia).
  split.
  { split; [exact linear_table_ok|]. split; [exact mono16_header_ok|].
    split; [exact H1|]. split; [exact H2|exact H3]. }
  exact (followed_stream_decodes linear_table mono16_header fixed_samples
           [0; 0] 3%nat (fun _ => 255) linear_table_ok
           mono16_header_ok H1 H2 H3).
Defined.
